(** * parse_double: decimal literal to IEEE-754 binary64, in integer arithmetic

    A shallow embedding of [src/parse_double.cpp] (the framework, [mulf64],
    the power-of-ten tables, [datastream_consume_word] and [parse_double])
    and the properties of it that the specification states.

    Conventions of the embedding.
    - [uint64_t] values are [Z] in [0, 2^64); every operation that can leave
      that range is wrapped with [u64].  [uint8_t] bytes are [Z] in [0, 256).
    - [int] and [int64_t] counters ([digits], [significant_digits],
      [fractional_digits], [binexp]) are [Z].  Signed overflow is undefined
      in C++, so increments of them are plain additions; the one place where
      a signed variable receives an unsigned sum
      ([fractional_digits += absolute_exponent]) is written with its
      conversions.
    - [assert] is not executed (as in a build with NDEBUG); the asserted
      conditions the specification speaks about are theorems below.
    - a [double] result is its 64-bit pattern.
    - the [goto] labels of [parse_double] are the constructors of [Jump]:
      the scanning functions return the label they jump to together with
      the variables that are live there. *)

From Stdlib Require Import ZArith List String Ascii Bool Lia.
From Stdlib Require Import QArith Qpower Qabs.
Import ListNotations.
Local Open Scope Z_scope.

(** ** Machine integers *)

(** Conversion to [uint64_t]. *)
Definition u64 (z : Z) : Z := z mod 2 ^ 64.

(** Conversion to [int64_t] (two's complement). *)
Definition i64 (z : Z) : Z :=
  let r := z mod 2 ^ 64 in if r <? 2 ^ 63 then r else r - 2 ^ 64.

(** The byte of a character constant. *)
Definition chr (a : ascii) : Z := Z.of_N (N_of_ascii a).

(** The bytes of a C string constant. *)
Definition bytes (s : string) : list Z := map chr (list_ascii_of_string s).

(** ** Framework and error reporting *)

Record Status := { failed : bool; error_message : string }.

(** [ptr] is the offset of the cursor from where the caller put it; [window]
    holds the bytes of [[ptr, end)], so [s->ptr == s->end] is
    [window s = []]. *)
Record DataStream := { ptr : Z; window : list Z }.

(** [datastream_fetch] only asserts its precondition: it changes neither the
    status nor the stream. *)
Definition datastream_fetch (st : Status) (s : DataStream) : Status := st.

(** [vsnprintf] into [error_message[1024]]: at most 1023 characters. *)
Definition vsnprintf (msg : string) : string := substring 0 1023 msg.

(** [fail_here]: the caller passes the message already formatted. *)
Definition fail_here (st : Status) (s : DataStream) (msg : string) : Status :=
  {| failed := true; error_message := vsnprintf msg |}.

Definition newline : string := String (ascii_of_nat 10) EmptyString.

Definition hex_digit (n : Z) : ascii :=
  ascii_of_N (Z.to_N (if n <? 10 then 48 + n else 87 + n)).

(** The conversions [%02x] and [%c] of a byte. *)
Definition fmt_02x (ch : Z) : string :=
  String (hex_digit (ch / 16)) (String (hex_digit (ch mod 16)) EmptyString).

Definition fmt_c (ch : Z) : string :=
  String (ascii_of_N (Z.to_N ch)) EmptyString.

(** [(ch >= 0x20 && ch < 0x7f) ? format_buf : ""] with
    [format_buf = "'x' "; format_buf[1] = ch]. *)
Definition format_buf (ch : Z) : string :=
  if (32 <=? ch) && (ch <? 127) then ("'" ++ fmt_c ch ++ "' ")%string
  else EmptyString.

Definition msg_end_of_stream_word (w : Z) : string :=
  ("Unexpected end of stream; expected character '" ++ fmt_c w ++ "'."
     ++ newline)%string.

Definition msg_unexpected_word (ch w : Z) : string :=
  ("Unexpected character (" ++ format_buf ch ++ "0x" ++ fmt_02x ch
     ++ "); expected '" ++ fmt_c w ++ "'." ++ newline)%string.

Definition msg_end_of_stream : string :=
  ("Unexpected end-of-stream; expected decimal floating-point number."
     ++ newline)%string.

Definition msg_unexpected (ch : Z) : string :=
  ("Unexpected character (" ++ format_buf ch ++ "0x" ++ fmt_02x ch
     ++ ") in numeric literal." ++ newline)%string.

Definition msg_incomplete_exponent : string :=
  "Incomplete exponent in decimal floating-point number.".

Definition msg_no_digits : string :=
  ("Numeric literal without digits." ++ newline)%string.

(** ** Software floating-point multiplication *)

(** [mulf64 (&mx, &ex, my, ey)]: the new [( *mx, *ex )]. *)
Definition mulf64 (mx ex my ey : Z) : Z * Z :=
  let hi := Z.shiftr (mx * my) 64 in            (* _umul128 ( *mx, my, &hi) *)
  let ex1 := ex + ey in
  let mx1 := u64 (mx + my) in
  let overflow1 := if mx1 <? my then 1 else 0 in
  let mx2 := u64 (mx1 + hi) in
  let overflow := if mx2 <? hi then overflow1 + 1 else overflow1 in
  if overflow =? 0 then (mx2, ex1)
  else (Z.lor (Z.shiftr mx2 1) (u64 (Z.shiftl (overflow + 1) 63)), ex1 + 1).

(** ** The power-of-ten tables *)

(** A binary literal [0b...], most significant bit first. *)
Definition bin (s : string) : Z :=
  fold_left (fun acc a => 2 * acc + (chr a - 48)) (list_ascii_of_string s) 0.

Definition mant1e256 := Eval vm_compute in bin "0101010011111101110101111111011100111011111100111011110100011100".
Definition exp1e256 : Z := 850.
Definition mant1e128 := Eval vm_compute in bin "0010011101110100100011111001001100000001110100110001100111000000".
Definition exp1e128 : Z := 425.
Definition mant1e64  := Eval vm_compute in bin "1000010011110000001111101001001111111111100111110100110110101010".
Definition exp1e64 : Z := 212.
Definition mant1e32  := Eval vm_compute in bin "0011101110001011010110110101000001010110111000010110101100111100".
Definition exp1e32 : Z := 106.
Definition mant1e16  := Eval vm_compute in bin "0001110000110111100100110111111000001000000000000000000000000000".
Definition exp1e16 : Z := 53.
Definition mant1e8   := Eval vm_compute in bin "0111110101111000010000000000000000000000000000000000000000000000".
Definition exp1e8 : Z := 26.
Definition mant1e4   := Eval vm_compute in bin "0011100010000000000000000000000000000000000000000000000000000000".
Definition exp1e4 : Z := 13.
Definition mant1e2   := Eval vm_compute in bin "1001000000000000000000000000000000000000000000000000000000000000".
Definition exp1e2 : Z := 6.
Definition mant1e1   := Eval vm_compute in bin "0100000000000000000000000000000000000000000000000000000000000000".
Definition exp1e1 : Z := 3.

Definition mant1en256 := Eval vm_compute in bin "1000000001100010100001100100101011000110111101000011001001110100".
Definition exp1en256 : Z := (-851).
Definition mant1en128 := Eval vm_compute in bin "1011101110100000100011001111100011001001011110011100100101000001".
Definition exp1en128 : Z := (-426).
Definition mant1en64  := Eval vm_compute in bin "0101000011111111110101000100111101001010011100111101001101001010".
Definition exp1en64 : Z := (-213).
Definition mant1en32  := Eval vm_compute in bin "1001111101100010001111010101101010001010011100110010100101110101".
Definition exp1en32 : Z := (-107).
Definition mant1en16  := Eval vm_compute in bin "1100110100101011001010010111110110001000100110111100001010110111".
Definition exp1en16 : Z := (-54).
Definition mant1en8   := Eval vm_compute in bin "0101011110011000111011100010001100001000110000111001110111111010".
Definition exp1en8 : Z := (-27).
Definition mant1en4   := Eval vm_compute in bin "1010001101101110001011101011000111000100001100101100101001011000".
Definition exp1en4 : Z := (-14).
Definition mant1en2   := Eval vm_compute in bin "0100011110101110000101000111101011100001010001111010111000010100".
Definition exp1en2 : Z := (-7).
Definition mant1en1   := Eval vm_compute in bin "1001100110011001100110011001100110011001100110011001100110011010".
Definition exp1en1 : Z := (-4).

(** [(bit, mantissa, exponent)] in the order of the [if] cascade. *)
Definition pow10_table : list (Z * Z * Z) :=
  [ (256, mant1e256, exp1e256); (128, mant1e128, exp1e128);
    (64, mant1e64, exp1e64); (32, mant1e32, exp1e32);
    (16, mant1e16, exp1e16); (8, mant1e8, exp1e8); (4, mant1e4, exp1e4);
    (2, mant1e2, exp1e2); (1, mant1e1, exp1e1) ].

Definition pow10n_table : list (Z * Z * Z) :=
  [ (256, mant1en256, exp1en256); (128, mant1en128, exp1en128);
    (64, mant1en64, exp1en64); (32, mant1en32, exp1en32);
    (16, mant1en16, exp1en16); (8, mant1en8, exp1en8);
    (4, mant1en4, exp1en4); (2, mant1en2, exp1en2);
    (1, mant1en1, exp1en1) ].

(** [if (n & bit) mulf64(&mantissa, &binexp, mant, exp);] for each row. *)
Definition apply_powers (n : Z) (table : list (Z * Z * Z)) (me : Z * Z)
  : Z * Z :=
  fold_left
    (fun acc row =>
       match row with
       | (bit, m, e) =>
           if Z.land n bit =? 0 then acc else mulf64 (fst acc) (snd acc) m e
       end)
    table me.

(** ** [datastream_consume_word] *)

Definition advance (s : DataStream) (rest : list Z) : DataStream :=
  {| ptr := ptr s + 1; window := rest |}.

(** After a mismatch the source calls [fail_here] and goes on with the next
    byte: there is no [return] in that branch.  [word] holds the bytes of
    the C string before its terminating NUL; the source compares the
    [uint8_t] from the stream with a plain [char] of the word, which is the
    comparison of the two numbers for the words of ASCII characters
    (1 to 127) that the callers pass. *)
Fixpoint datastream_consume_word (st : Status) (s : DataStream)
    (word : list Z) : Status * DataStream :=
  match word with
  | [] => (st, s)
  | w :: word' =>
      match window s with
      | [] =>
          let st1 := datastream_fetch st s in
          if failed st1 then (st1, s)
          else (fail_here st1 s (msg_end_of_stream_word w), s)
      | ch :: rest =>
          let st1 :=
            if ch =? w then st
            else fail_here st s (msg_unexpected_word ch w) in
          datastream_consume_word st1 (advance s rest) word'
      end
  end.

(** ** The scanner state of [parse_double] *)

Record Scan := {
  negative : bool;
  mantissa : Z;             (* uint64_t *)
  digits : Z;               (* int *)
  significant_digits : Z;   (* int *)
  fractional_digits : Z;    (* int64_t; negative: no decimal point seen *)
  decimal_exponent : Z      (* uint64_t *)
}.

Definition set_fractional_digits (a : Scan) (fd : Z) : Scan :=
  {| negative := negative a; mantissa := mantissa a; digits := digits a;
     significant_digits := significant_digits a;
     fractional_digits := fd; decimal_exponent := decimal_exponent a |}.

Definition set_decimal_exponent (a : Scan) (de : Z) : Scan :=
  {| negative := negative a; mantissa := mantissa a; digits := digits a;
     significant_digits := significant_digits a;
     fractional_digits := fractional_digits a; decimal_exponent := de |}.

(** The labels of [parse_double] with the variables live at each. *)
Inductive Jump :=
| Goto_end_of_number (st : Status) (s : DataStream) (a : Scan)
| Goto_return_possibly_signed_zero (st : Status) (s : DataStream) (neg : bool)
| Goto_return_possibly_signed_infinity (st : Status) (s : DataStream)
    (neg : bool)
| Goto_failed (st : Status) (s : DataStream)
| Return (st : Status) (s : DataStream) (bits : Z).

(** [(uint64_t)1844674407370955161 - (digit_value >= 6)] *)
Definition limit (digit_value : Z) : Z :=
  1844674407370955161 - (if 6 <=? digit_value then 1 else 0).

(** The body of [if (digit_value <= 9) { ... }] in the main loop. *)
Definition accumulate_digit (a : Scan) (digit_value : Z) : Scan :=
  if mantissa a >? limit digit_value then
    {| negative := negative a; mantissa := mantissa a;
       digits := digits a + 1;
       significant_digits := 20;
       fractional_digits := fractional_digits a;
       decimal_exponent :=
         if fractional_digits a <? 0 then u64 (decimal_exponent a + 1)
         else decimal_exponent a |}
  else
    {| negative := negative a;
       mantissa := u64 (10 * mantissa a + digit_value);
       digits := digits a + 1;
       significant_digits :=
         if negb (digit_value =? 0) || negb (significant_digits a =? 0)
         then significant_digits a + 1 else significant_digits a;
       fractional_digits :=
         if 0 <=? fractional_digits a then fractional_digits a + 1
         else fractional_digits a;
       decimal_exponent := decimal_exponent a |}.

(** ** The exponent *)

(** From label [end_of_exponent] to [goto end_of_number]: the explicit
    exponent is folded into [fractional_digits] and [decimal_exponent]. *)
Definition end_of_exponent (st : Status) (s : DataStream) (a : Scan)
    (negative_exponent : bool) (absolute_exponent : Z) : Jump :=
  if negative_exponent && negb (absolute_exponent =? 0) then
    let '(de, ae) :=
      if absolute_exponent <=? decimal_exponent a
      then (decimal_exponent a - absolute_exponent, 0)
      else (0, absolute_exponent - decimal_exponent a) in
    let fd0 := if fractional_digits a <? 0 then 0 else fractional_digits a in
    let fd := i64 (u64 fd0 + ae) in
    if (fd <? 0) || (u64 fd <? ae) then
      Goto_return_possibly_signed_zero st s (negative a)
    else
      Goto_end_of_number st s
        (set_decimal_exponent (set_fractional_digits a fd) de)
  else
    let '(fd, ae) :=
      if 0 <? fractional_digits a then
        if absolute_exponent <=? u64 (fractional_digits a)
        then (fractional_digits a - i64 absolute_exponent, 0)
        else (0, absolute_exponent - u64 (fractional_digits a))
      else (fractional_digits a, absolute_exponent) in
    let de := u64 (decimal_exponent a + ae) in
    if de <? ae then
      Goto_return_possibly_signed_infinity st s (negative a)
    else
      Goto_end_of_number st s
        (set_decimal_exponent (set_fractional_digits a fd) de).

(** The [do { while ... } while] loop over the digits of the exponent; [p]
    and [w] are [s->ptr] and the window. *)
Fixpoint exponent_digits (st : Status) (p : Z) (w : list Z) (a : Scan)
    (negative_exponent : bool) (absolute_exponent : Z) : Jump :=
  let s := {| ptr := p; window := w |} in
  match w with
  | [] =>
      let st1 := datastream_fetch st s in
      if failed st1 then Goto_failed st1 s
      else end_of_exponent st1 s a negative_exponent absolute_exponent
  | ch :: w' =>
      let digit_value := u64 (ch - 48) in
      if digit_value <=? 9 then
        if absolute_exponent >? limit digit_value then
          if negative_exponent || (significant_digits a =? 0)
          then Goto_return_possibly_signed_zero st s (negative a)
          else Goto_return_possibly_signed_infinity st s (negative a)
        else
          exponent_digits st (p + 1) w' a negative_exponent
            (u64 (10 * absolute_exponent + digit_value))
      else end_of_exponent st s a negative_exponent absolute_exponent
  end.

(** Label [parse_exponent]: the cursor is at the [e] or [E]. *)
Definition parse_exponent (st : Status) (s : DataStream) (a : Scan) : Jump :=
  let s1 := advance s (tl (window s)) in
  match window s1 with
  | [] =>
      let st1 := datastream_fetch st s1 in
      if failed st1 then Goto_failed st1 s1
      else Goto_failed (fail_here st1 s1 msg_incomplete_exponent) s1
  | ch :: w' =>
      if ch =? chr "-" then exponent_digits st (ptr s1 + 1) w' a true 0
      else if ch =? chr "+" then exponent_digits st (ptr s1 + 1) w' a false 0
      else exponent_digits st (ptr s1) (window s1) a false 0
  end.

(** ** [inf] and [nan] *)

Definition parse_infinity (st : Status) (s : DataStream) (neg : bool)
  : Jump :=
  let '(st1, s1) := datastream_consume_word st s (bytes "inf") in
  if failed st1 then Goto_failed st1 s1
  else Goto_return_possibly_signed_infinity st1 s1 neg.

Definition parse_nan (st : Status) (s : DataStream) (neg : bool) : Jump :=
  let '(st1, s1) := datastream_consume_word st s (bytes "nan") in
  if failed st1 then Goto_failed st1 s1
  else Return st1 s1 (if neg then 0xFFFFFFFFFFFFFFFF else 0x7FFFFFFFFFFFFFFF).

(** ** The digit loops *)

(** The loop entered when [significant_digits >= 20]: the remaining digits
    are skipped. *)
Fixpoint skip_digits (st : Status) (p : Z) (w : list Z) (a : Scan) : Jump :=
  let s := {| ptr := p; window := w |} in
  match w with
  | [] =>
      let st1 := datastream_fetch st s in
      if failed st1 then Goto_failed st1 s else Goto_end_of_number st1 s a
  | ch :: w' =>
      let next (a1 : Scan) :=
        skip_digits st (p + 1) w'
          (if fractional_digits a1 <? 0
           then set_decimal_exponent a1 (u64 (decimal_exponent a1 + 1))
           else a1) in
      if (ch =? chr ".") && (fractional_digits a <? 0) then
        next (set_fractional_digits a 0)
      else if (ch =? chr "e") || (ch =? chr "E") then parse_exponent st s a
      else if (ch <? chr "0") || (ch >? chr "9") then
        Goto_end_of_number st s a
      else next a
  end.

(** The main loop, from [do {] after the [switch] to label
    [end_of_number]. *)
Fixpoint scan_digits (st : Status) (p : Z) (w : list Z) (a : Scan) : Jump :=
  let s := {| ptr := p; window := w |} in
  match w with
  | [] =>
      let st1 := datastream_fetch st s in
      if failed st1 then Goto_failed st1 s else Goto_end_of_number st1 s a
  | ch :: w' =>
      let next (a1 : Scan) :=
        if 20 <=? significant_digits a1 then skip_digits st (p + 1) w' a1
        else scan_digits st (p + 1) w' a1 in
      let digit_value := u64 (ch - 48) in
      if digit_value <=? 9 then next (accumulate_digit a digit_value)
      else if ch =? chr "." then
        if 0 <=? fractional_digits a then Goto_end_of_number st s a
        else next (set_fractional_digits a 0)
      else if ((ch =? chr "e") || (ch =? chr "E")) && negb (digits a =? 0)
      then parse_exponent st s a
      else if (ch =? chr "i") && (digits a =? 0) then
        parse_infinity st s (negative a)
      else if (ch =? chr "n") && (digits a =? 0) then
        parse_nan st s (negative a)
      else Goto_end_of_number st s a
  end.

(** ** Normalize, round, assemble *)

(** What [parse_double] leaves behind: the status, the stream and the bit
    pattern of the [double] it returns. *)
Record Outcome := { status : Status; stream : DataStream; value : Z }.

(** Label [return_possibly_signed_zero]. *)
Definition return_possibly_signed_zero (st : Status) (s : DataStream)
    (neg : bool) : Outcome :=
  {| status := st; stream := s;
     value := if neg then 0x8000000000000000 else 0 |}.

(** Label [return_possibly_signed_infinity]. *)
Definition return_possibly_signed_infinity (st : Status) (s : DataStream)
    (neg : bool) : Outcome :=
  {| status := st; stream := s;
     value := if neg then 0xFFF0000000000000 else 0x7FF0000000000000 |}.

(** Label [failed]: [return 0.0]. *)
Definition return_failed (st : Status) (s : DataStream) : Outcome :=
  {| status := st; stream := s; value := 0 |}.

(** [if (!(mantissa & mask)) { mantissa <<= shift; binexp -= shift; }] *)
Definition normalize_step (mask shift : Z) (me : Z * Z) : Z * Z :=
  if Z.land (fst me) mask =? 0
  then (u64 (Z.shiftl (fst me) shift), snd me - shift)
  else me.

(** The portable branch of the normalization ([USE_INTRINSIC_BITSCANREVERSE64]
    is not defined by the file). *)
Definition normalize (m : Z) : Z * Z :=
  let me := normalize_step 0xffffffff00000000 32 (m, 63) in
  let me := normalize_step 0xffff000000000000 16 me in
  let me := normalize_step 0xff00000000000000 8 me in
  let me := normalize_step 0xf000000000000000 4 me in
  let me := normalize_step 0xc000000000000000 2 me in
  let me := normalize_step 0x8000000000000000 1 me in
  (u64 (Z.shiftl (fst me) 1), snd me).

(** [// round the mantissa before truncating it to 52 bits] *)
Definition round_mantissa (m binexp : Z) : Z * Z :=
  if Z.land m 0xFFF >? 0x800 then
    let m1 := u64 (m + Z.shiftl 1 11) in
    if m1 <? Z.shiftl 1 11 then (Z.shiftr m1 1, binexp + 1)
    else (m1, binexp)
  else (m, binexp).

(** [// truncate the mantissa to 52 bits and assemble ...] *)
Definition assemble (neg : bool) (m binexp : Z) : Z :=
  let m := Z.shiftr m 12 in
  let m := Z.lor m (u64 (Z.shiftl (binexp + 1023) 52)) in
  if neg then Z.lor m 0x8000000000000000 else m.

(** From [if (binexp <= -1023)] to the [return] of the assembled number. *)
Definition subnormal_round_assemble (st : Status) (s : DataStream)
    (neg : bool) (m binexp : Z) : Outcome :=
  let finish (m binexp : Z) : Outcome :=
    let me := round_mantissa m binexp in
    if snd me >? 1023 then return_possibly_signed_infinity st s neg
    else {| status := st; stream := s;
            value := assemble neg (fst me) (snd me) |} in
  if binexp <=? -1023 then
    if binexp <=? -1023 - 64 then return_possibly_signed_zero st s neg
    else
      let m := Z.lor (Z.shiftr m 1) 0x8000000000000000 in
      let m := Z.shiftr m (- binexp - 1023) in
      finish m (-1023)
  else finish m binexp.

(** Label [end_of_number]. *)
Definition end_of_number (st : Status) (s : DataStream) (a : Scan)
  : Outcome :=
  if digits a =? 0 then return_failed (fail_here st s msg_no_digits) s
  else if significant_digits a =? 0 then
    return_possibly_signed_zero st s (negative a)
  else
    let me := normalize (mantissa a) in
    if 0 <? fractional_digits a then
      if 512 <=? fractional_digits a then
        return_possibly_signed_zero st s (negative a)
      else
        let me := apply_powers (fractional_digits a) pow10n_table me in
        subnormal_round_assemble st s (negative a) (fst me) (snd me)
    else if negb (decimal_exponent a =? 0) then
      if 512 <=? decimal_exponent a then
        return_possibly_signed_infinity st s (negative a)
      else
        let me := apply_powers (decimal_exponent a) pow10_table me in
        subnormal_round_assemble st s (negative a) (fst me) (snd me)
    else subnormal_round_assemble st s (negative a) (fst me) (snd me).

(** ** [parse_double] *)

(** From the start of [parse_double] to the label the scanner leaves by. *)
Definition scan (st : Status) (s : DataStream) : Jump :=
  match window s with
  | [] =>
      let st1 := datastream_fetch st s in
      if failed st1 then Goto_failed st1 s
      else Goto_failed (fail_here st1 s msg_end_of_stream) s
  | ch :: w' =>
      let p := ptr s + 1 in
      let start neg m d sd fd :=
        scan_digits st p w'
          {| negative := neg; mantissa := m; digits := d;
             significant_digits := sd; fractional_digits := fd;
             decimal_exponent := 0 |} in
      if ch =? chr "-" then start true 0 0 0 (-1)
      else if ch =? chr "+" then start false 0 0 0 (-1)
      else if ch =? chr "0" then start false 0 1 0 (-1)
      else if (chr "1" <=? ch) && (ch <=? chr "9") then
        start false (ch - chr "0") 1 1 (-1)
      else if ch =? chr "." then start false 0 0 0 0
      else if ch =? chr "i" then parse_infinity st s false
      else if ch =? chr "n" then parse_nan st s false
      else Goto_failed (fail_here st (advance s w') (msg_unexpected ch))
             (advance s w')
  end.

(** The code at the label a jump names. *)
Definition continue_at (j : Jump) : Outcome :=
  match j with
  | Goto_end_of_number st s a => end_of_number st s a
  | Goto_return_possibly_signed_zero st s neg =>
      return_possibly_signed_zero st s neg
  | Goto_return_possibly_signed_infinity st s neg =>
      return_possibly_signed_infinity st s neg
  | Goto_failed st s => return_failed st s
  | Return st s bits => {| status := st; stream := s; value := bits |}
  end.

Definition parse_double (st : Status) (s : DataStream) : Outcome :=
  continue_at (scan st s).

(** A fresh status and a stream over a whole string, as the callers in
    [main] set them up. *)
Definition status0 : Status :=
  {| failed := false; error_message := EmptyString |}.

Definition stream_of (input : string) : DataStream :=
  {| ptr := 0; window := bytes input |}.

Definition parse (input : string) : Outcome :=
  parse_double status0 (stream_of input).

(** * Vocabulary of the properties *)

(** ** Mantissa and exponent pairs *)

(** The value a mantissa/exponent pair denotes: [2^e * (1 + m / 2^64)]. *)
Definition ext_value (m e : Z) : Q :=
  ((1 + inject_Z m / inject_Z (2 ^ 64)) * 2 ^ e)%Q.

(** ** Jumps *)

Definition jump_status (j : Jump) : Status :=
  match j with
  | Goto_end_of_number st _ _ => st
  | Goto_return_possibly_signed_zero st _ _ => st
  | Goto_return_possibly_signed_infinity st _ _ => st
  | Goto_failed st _ => st
  | Return st _ _ => st
  end.

(** A jump either goes to [failed] or carries the status [st] unchanged. *)
Definition status_kept (st : Status) (j : Jump) : Prop :=
  match j with
  | Goto_failed _ _ => True
  | _ => jump_status j = st
  end.

(** The condition asserted at [end_of_number]. *)
Definition counters_exclusive (a : Scan) : Prop :=
  fractional_digits a <= 0 \/ decimal_exponent a = 0.

Definition exclusive_at_end (j : Jump) : Prop :=
  match j with
  | Goto_end_of_number _ _ a => counters_exclusive a
  | _ => True
  end.

(** ** Digits and literals *)

Definition is_digit (ch : Z) : Prop := chr "0" <= ch <= chr "9".

Definition len (l : list Z) : Z := Z.of_nat (List.length l).

(** The number a digit string denotes, continuing from [acc]. *)
Definition decimal_value (acc : Z) (ds : list Z) : Z :=
  fold_left (fun v ch => 10 * v + (ch - chr "0")) ds acc.

Inductive Sign := NoSign | Plus | Minus.

Definition sign_bytes (sg : Sign) : list Z :=
  match sg with NoSign => [] | Plus => [chr "+"] | Minus => [chr "-"] end.

Definition sign_negative (sg : Sign) : bool :=
  match sg with Minus => true | _ => false end.

(** The optional fractional part: [None] when the literal has no decimal
    point, [Some fs] for a point followed by the digits [fs]. *)
Definition fraction_bytes (frac : option (list Z)) : list Z :=
  match frac with None => [] | Some fs => chr "." :: fs end.

Definition fraction_digits (frac : option (list Z)) : list Z :=
  match frac with None => [] | Some fs => fs end.

(** [sign] [digits] [. digits] *)
Definition mantissa_bytes (sg : Sign) (ds : list Z) (frac : option (list Z))
  : list Z :=
  sign_bytes sg ++ ds ++ fraction_bytes frac.

(** [sign] [digits] [. digits] (e|E) [sign] digits *)
Definition literal_bytes (sg : Sign) (ds : list Z) (frac : option (list Z))
    (mark : Z) (esg : Sign) (xs : list Z) : list Z :=
  mantissa_bytes sg ds frac ++ mark :: sign_bytes esg ++ xs.

(** A byte that ends the digits of the mantissa, or the end of the input. *)
Definition ends_number (w : list Z) : Prop :=
  match w with
  | [] => True
  | ch :: _ =>
      0 <= ch < 256 /\ ~ is_digit ch
      /\ ch <> chr "." /\ ch <> chr "e" /\ ch <> chr "E"
  end.

(** A byte that ends the digits of the exponent, or the end of the input. *)
Definition ends_exponent (w : list Z) : Prop :=
  match w with
  | [] => True
  | ch :: _ => 0 <= ch < 256 /\ ~ is_digit ch
  end.

(** The net decimal exponent of a literal: the explicit exponent less the
    number of digits after the decimal point. *)
Definition net_decimal_exponent (frac : option (list Z)) (esg : Sign)
    (xs : list Z) : Z :=
  (if sign_negative esg then - decimal_value 0 xs else decimal_value 0 xs)
  - len (fraction_digits frac).

(** What the specification says of a literal's net decimal exponent: the
    call does not fail, 512 or more gives signed infinity, -512 or less
    signed zero. *)
Definition saturated (sg : Sign) (frac : option (list Z)) (esg : Sign)
    (xs : list Z) (o : Outcome) : Prop :=
  failed (status o) = false
  /\ (512 <= net_decimal_exponent frac esg xs ->
      value o = if sign_negative sg then 0xFFF0000000000000
                else 0x7FF0000000000000)
  /\ (net_decimal_exponent frac esg xs <= -512 ->
      value o = if sign_negative sg then 0x8000000000000000 else 0).

(** ** Scanner states *)

(** The code after [s->ptr++] in the main loop: into the skipping loop when
    [significant_digits >= 20], else the next iteration. *)
Definition resume (st : Status) (p : Z) (w : list Z) (a : Scan) : Jump :=
  if 20 <=? significant_digits a then skip_digits st p w a
  else scan_digits st p w a.

(** The scanner state after the digits [ds], one [accumulate_digit] each. *)
Definition accumulate_digits (a : Scan) (ds : list Z) : Scan :=
  fold_left (fun a ch => accumulate_digit a (u64 (ch - 48))) ds a.

(** What one digit does to the scanner state, in the main loop or, once
    [significant_digits >= 20], in the skipping loop. *)
Definition step_digit (a : Scan) (ch : Z) : Scan :=
  if 20 <=? significant_digits a then
    if fractional_digits a <? 0
    then set_decimal_exponent a (u64 (decimal_exponent a + 1))
    else a
  else accumulate_digit a (ch - chr "0").

(** [significant_digits] counts the decimal digits of [mantissa]. *)
Definition digits_counted (a : Scan) : Prop :=
  (significant_digits a = 0 /\ mantissa a = 0)
  \/ (0 < significant_digits a
      /\ 10 ^ (significant_digits a - 1) <= mantissa a
         < 10 ^ significant_digits a).

(** [digits] is positive as soon as a digit was scanned. *)
Definition digits_seen (a : Scan) : Prop :=
  0 <= digits a /\ (20 <= significant_digits a -> 1 <= digits a).

(** The state in which the scanner leaves the mantissa of a literal whose
    digits it took exactly. *)
Definition literal_scanned (sg : Sign) (ds : list Z)
    (frac : option (list Z)) (a : Scan) : Prop :=
  mantissa a = decimal_value 0 (ds ++ fraction_digits frac)
  /\ digits_counted a
  /\ digits a = len ds + len (fraction_digits frac)
  /\ fractional_digits a = match frac with None => -1 | Some fs => len fs end
  /\ decimal_exponent a = 0
  /\ negative a = sign_negative sg.

(** ** IEEE-754 binary64 *)

Definition dbl_sign (b : Z) : Z := b / 2 ^ 63.
Definition dbl_exponent (b : Z) : Z := (b / 2 ^ 52) mod 2 ^ 11.
Definition dbl_fraction (b : Z) : Z := b mod 2 ^ 52.

(** A 64-bit pattern that is neither an infinity nor a NaN. *)
Definition dbl_finite (b : Z) : Prop :=
  0 <= b < 2 ^ 64 /\ dbl_exponent b < 2047.

(** The magnitude of a finite double in units of [2^-1074], the value of
    the least subnormal: an integer. *)
Definition dbl_magnitude (b : Z) : Z :=
  if dbl_exponent b =? 0 then dbl_fraction b
  else (2 ^ 52 + dbl_fraction b) * 2 ^ (dbl_exponent b - 1).

Definition dbl_scaled (b : Z) : Z :=
  if dbl_sign b =? 0 then dbl_magnitude b else - dbl_magnitude b.

(** The number a finite double denotes. *)
Definition double_value (b : Z) : Q :=
  (inject_Z (dbl_scaled b) / inject_Z (2 ^ 1074))%Q.

(** [b] is a finite double at least as close to [x] as any other. *)
Definition nearest_double (x : Q) (b : Z) : Prop :=
  dbl_finite b
  /\ forall b', dbl_finite b' ->
       (Qabs (double_value b - x) <= Qabs (double_value b' - x))%Q.

(** Whenever another double is as close to [x] as [b], the significand of
    [b] is even (the IEEE-754 default). *)
Definition ties_to_even (x : Q) (b : Z) : Prop :=
  forall b', dbl_finite b' ->
    ~ (double_value b' == double_value b)%Q ->
    (Qabs (double_value b' - x) == Qabs (double_value b - x))%Q ->
    Z.even (dbl_fraction b) = true.

(** Whenever another double is as close to [x] as [b], [b] is the one of
    smaller magnitude. *)
Definition ties_toward_zero (x : Q) (b : Z) : Prop :=
  forall b', dbl_finite b' ->
    ~ (double_value b' == double_value b)%Q ->
    (Qabs (double_value b' - x) == Qabs (double_value b - x))%Q ->
    (Qabs (double_value b) < Qabs (double_value b'))%Q.

(** Correct rounding as IEEE-754 defines it. *)
Definition correctly_rounded (x : Q) (b : Z) : Prop :=
  nearest_double x b /\ ties_to_even x b.

(** The bits [end_of_number] assembles from a mantissa that needs no power
    of ten: sign, biased exponent, the 52 bits kept, and the round-up. *)
Definition rounded_bits (neg : bool) (n : Z) : Z :=
  let m := fst (normalize n) in
  let e := snd (normalize n) in
  (if neg then 2 ^ 63 else 0)
  + ((e + 1023) * 2 ^ 52 + m / 2 ^ 12
     + (if m mod 2 ^ 12 >? 2048 then 1 else 0)).

(** ** Tactics *)

(** Lemmas on the status a jump carries. *)
Create HintDb status.

Ltac break_if :=
  match goal with
  | |- context [if ?b then _ else _] => destruct b eqn:?
  end.

Ltac simpl_scan :=
  cbn [negative mantissa digits significant_digits fractional_digits
       decimal_exponent set_fractional_digits set_decimal_exponent
       exclusive_at_end accumulate_digit] in *;
  unfold counters_exclusive in *;
  cbn [negative mantissa digits significant_digits fractional_digits
       decimal_exponent set_fractional_digits set_decimal_exponent] in *.

Ltac digits_ok :=
  repeat (constructor; [unfold is_digit; vm_compute; split; discriminate|]);
  try constructor.

(** ** The test's pseudo-random numbers *)

(** [xorshift64]: the new [*state], which is also what is returned. *)
Definition xorshift64 (state : Z) : Z :=
  let x := state in
  let x := Z.lxor x (u64 (Z.shiftl x 13)) in
  let x := Z.lxor x (Z.shiftr x 7) in
  let x := Z.lxor x (u64 (Z.shiftl x 17)) in
  x.

(** * histogram.cpp: the integer arithmetic of the histograms *)

(** The functions of [src/histogram.cpp] that compute on integers:
    [histogram_init], [histogram_record_largest_samples],
    [histogram_bin_index], [histogram_add_to_bin], [round_to_multiple_of],
    [histogram_round_binwidth], [histogram_add_to_largest],
    [integer_display_width], the three comparators handed to [qsort] and
    [histogram_next_frequent].  The statistics computed in [double] and
    the printing functions are not embedded.  As for [parse_double],
    [assert] is not executed; what the assertions of these functions
    require appears as hypotheses of the theorems. *)

(** Conversion to [uint32_t]. *)
Definition u32 (z : Z) : Z := z mod 2 ^ 32.

Definition UINT64_MAX : Z := 2 ^ 64 - 1.
Definition INT64_MAX : Z := 2 ^ 63 - 1.
Definition INT64_MIN : Z := - 2 ^ 63.

(** [struct HistogramSampleN]: [sample], and the bit-fields [n] (48 bits)
    and [sequence_index] (16 bits); the fields carry the prefix [sn_]. *)
Record HistogramSampleN := {
  sn_sample : Z;            (* int64_t *)
  sn_n : Z;                 (* uint64_t : 48 *)
  sn_sequence_index : Z     (* uint64_t : 16 *)
}.

Definition n_bits_n : Z := 48.

(** [struct Histogram].  The arrays [bins], [sample_buf] and
    [largest_samples_buf] point to are held as lists; the two sums, which
    are [double]s, as their bit patterns. *)
Record Histogram := {
  low : Z;                              (* int64_t *)
  bins : list Z;                        (* uint64_t * *)
  binwidth : Z;                         (* uint64_t *)
  nsamples : Z;                         (* uint64_t *)
  min_sample : Z;                       (* int64_t *)
  max_sample : Z;                       (* int64_t *)
  sum_samples : Z;                      (* double *)
  sum_square_samples : Z;               (* double *)
  sample_buf : list HistogramSampleN;
  largest_samples_buf : list HistogramSampleN;
  threshold_for_largest : Z;            (* int64_t *)
  nbins : Z;                            (* uint32_t *)
  n_sample_buf_allocated : Z;           (* uint32_t *)
  n_sample_buf_used : Z;                (* uint32_t *)
  n_largest_samples_buf_allocated : Z;  (* uint32_t *)
  count_overflowed : bool;
  n_sample_buf_overflow : bool
}.

(** [a[i] = v] on the list that holds an array; outside the array (which
    the source rules out by its assertions) nothing is stored. *)
Fixpoint store {A} (l : list A) (i : nat) (v : A) : list A :=
  match l, i with
  | [], _ => []
  | _ :: l', O => v :: l'
  | x :: l', S i' => x :: store l' i' v
  end.

Definition set_bins (h : Histogram) (b : list Z) (overflowed : bool)
  : Histogram :=
  {| low := low h; bins := b; binwidth := binwidth h;
     nsamples := nsamples h; min_sample := min_sample h;
     max_sample := max_sample h; sum_samples := sum_samples h;
     sum_square_samples := sum_square_samples h;
     sample_buf := sample_buf h;
     largest_samples_buf := largest_samples_buf h;
     threshold_for_largest := threshold_for_largest h; nbins := nbins h;
     n_sample_buf_allocated := n_sample_buf_allocated h;
     n_sample_buf_used := n_sample_buf_used h;
     n_largest_samples_buf_allocated := n_largest_samples_buf_allocated h;
     count_overflowed := overflowed;
     n_sample_buf_overflow := n_sample_buf_overflow h |}.

Definition set_largest (h : Histogram) (buf : list HistogramSampleN)
    (allocated threshold : Z) (overflowed : bool) : Histogram :=
  {| low := low h; bins := bins h; binwidth := binwidth h;
     nsamples := nsamples h; min_sample := min_sample h;
     max_sample := max_sample h; sum_samples := sum_samples h;
     sum_square_samples := sum_square_samples h;
     sample_buf := sample_buf h;
     largest_samples_buf := buf;
     threshold_for_largest := threshold; nbins := nbins h;
     n_sample_buf_allocated := n_sample_buf_allocated h;
     n_sample_buf_used := n_sample_buf_used h;
     n_largest_samples_buf_allocated := allocated;
     count_overflowed := overflowed;
     n_sample_buf_overflow := n_sample_buf_overflow h |}.

(** ** [histogram_init] *)

(** [memset] clears the structure and the [nbins] bins; the sample buffer
    is stored as it is handed over, with the number of its elements. *)
Definition histogram_init (nbins low binwidth : Z)
    (sample_buf : list HistogramSampleN) (n_sample_buf_elements : Z)
  : Histogram :=
  {| low := low; bins := repeat 0 (Z.to_nat nbins); binwidth := binwidth;
     nsamples := 0; min_sample := INT64_MAX; max_sample := INT64_MIN;
     sum_samples := 0; sum_square_samples := 0;
     sample_buf := sample_buf;
     largest_samples_buf := [];
     threshold_for_largest := INT64_MAX; nbins := nbins;
     n_sample_buf_allocated := n_sample_buf_elements;
     n_sample_buf_used := 0;
     n_largest_samples_buf_allocated := 0;
     count_overflowed := false;
     n_sample_buf_overflow := false |}.

(** ** [histogram_bin_index] and [histogram_add_to_bin] *)

(** [delta] is computed modulo 2^64 from the two [int64_t]; [nbins - 1] is
    a [uint32_t]. *)
Definition histogram_bin_index (hist : Histogram) (x : Z) : Z :=
  if x <? low hist then 0
  else
    let delta := u64 (u64 x - u64 (low hist)) in
    let delta := delta / binwidth hist in
    if u32 (nbins hist - 1) <=? delta then u32 (nbins hist - 1)
    else u32 (1 + u32 delta).

Definition histogram_add_to_bin (hist : Histogram) (x n : Z) : Histogram :=
  let index := Z.to_nat (histogram_bin_index hist x) in
  let b := u64 (nth index (bins hist) 0 + n) in
  if b <? n then set_bins hist (store (bins hist) index UINT64_MAX) true
  else set_bins hist (store (bins hist) index b) (count_overflowed hist).

(** ** [round_to_multiple_of] and [histogram_round_binwidth] *)

Definition round_to_multiple_of (factor x : Z) : Z :=
  if x >? UINT64_MAX - factor / 2 then u64 (factor * (UINT64_MAX / factor))
  else u64 (factor * (u64 (x + factor / 2) / factor)).

(** The [while (step >= divisor)] loop; [fuel] bounds the number of
    iterations, and [None] is a loop that has not ended within it. *)
Fixpoint round_binwidth_loop (fuel : nat) (step binwidth : Z) : option Z :=
  match fuel with
  | O => None
  | S fuel' =>
      if 10 <=? step then
        if step <=? binwidth
        then Some (round_to_multiple_of (step / 10) binwidth)
        else round_binwidth_loop fuel' (step / 10) binwidth
      else Some binwidth
  end.

Definition histogram_round_binwidth (binwidth : Z) : option Z :=
  round_binwidth_loop 20 10000000000000000000 binwidth.

(** ** [integer_display_width] *)

(** [group_range = 10; for (i = 1; i < n_digits_per_group; ++i)
    group_range *= 10;] *)
Definition group_range (n_digits_per_group : Z) : Z :=
  Nat.iter (Z.to_nat (n_digits_per_group - 1)) (fun r => u64 (r * 10)) 10.

(** [while (magnitude >= range) { width += step; magnitude /= range; }];
    [None] is a loop that has not ended within [fuel] iterations. *)
Fixpoint width_loop (fuel : nat) (range step width magnitude : Z)
  : option (Z * Z) :=
  match fuel with
  | O => None
  | S fuel' =>
      if range <=? magnitude
      then width_loop fuel' range step (u32 (width + step))
             (magnitude / range)
      else Some (width, magnitude)
  end.

Definition integer_display_width (num n_digits_per_group : Z) : option Z :=
  let '(width, magnitude) :=
    if num <? 0 then (u32 (1 + 1), u64 (- u64 num)) else (1, u64 num) in
  let grouped :=
    if n_digits_per_group =? 0 then Some (width, magnitude)
    else width_loop 64 (group_range n_digits_per_group)
           (u32 (n_digits_per_group + 1)) width magnitude in
  match grouped with
  | None => None
  | Some (width, magnitude) =>
      match width_loop 64 10 1 width magnitude with
      | None => None
      | Some (width, _) => Some width
      end
  end.

(** [m] is written with [d] decimal digits. *)
Definition has_digits (m d : Z) : Prop :=
  1 <= d /\ m < 10 ^ d /\ (1 < d -> 10 ^ (d - 1) <= m).

(** ** The comparators handed to [qsort] *)

Definition compare_sample_and_n_and_index (a b : HistogramSampleN) : Z :=
  if sn_sample a <? sn_sample b then -1
  else if sn_sample a =? sn_sample b then
    if sn_n a >? sn_n b then -1
    else if sn_n a =? sn_n b then
      if sn_sequence_index a <? sn_sequence_index b then -1
      else if sn_sequence_index a =? sn_sequence_index b then 0
      else 1
    else 1
  else 1.

Definition compare_index (a b : HistogramSampleN) : Z :=
  if sn_sequence_index a <? sn_sequence_index b then -1
  else if sn_sequence_index a =? sn_sequence_index b then 0
  else 1.

(** [struct CategoryAndCount] *)
Record CategoryAndCount := { category_name : string; count : Z }.

Definition compare_category_count (a b : CategoryAndCount) : Z :=
  if count a >? count b then -1
  else if count a <? count b then 1
  else 0.

(** ** [histogram_next_frequent] *)

(** [for (i = from; i < nbins; ++i) if (bins[i] == n) return i;] with
    [count] iterations left. *)
Fixpoint same_count_loop (count : nat) (hist : Histogram) (i n : Z)
  : option Z :=
  match count with
  | O => None
  | S count' =>
      if nth (Z.to_nat i) (bins hist) 0 =? n then Some i
      else same_count_loop count' hist (u32 (i + 1)) n
  end.

(** [for (i = 0; i < nbins; ++i) if (bins[i] > *n && bins[i] <= limit)
    { *index = i; *n = bins[i]; }] with [count] iterations left. *)
Fixpoint next_count_loop (count : nat) (hist : Histogram)
    (i limit index n : Z) : Z * Z :=
  match count with
  | O => (index, n)
  | S count' =>
      let b := nth (Z.to_nat i) (bins hist) 0 in
      if (b >? n) && (b <=? limit)
      then next_count_loop count' hist (u32 (i + 1)) limit i b
      else next_count_loop count' hist (u32 (i + 1)) limit index n
  end.

(** The result, [*index] and [*n]. *)
Definition histogram_next_frequent (hist : Histogram) (index n : Z)
  : bool * Z * Z :=
  let search (limit : Z) :=
    let '(index', n') :=
      next_count_loop (Z.to_nat (nbins hist)) hist 0 limit index 0 in
    (n' >? 0, index', n') in
  if n =? 0 then search UINT64_MAX
  else
    let from := u32 (index + 1) in
    match same_count_loop (Z.to_nat (nbins hist - from)) hist from n with
    | Some i => (true, i, n)
    | None => search (u64 (n - 1))
    end.

(** The order in which [histogram_next_frequent] visits the bins: by
    decreasing count, bins of equal count by increasing index. *)
Definition visited_before (k1 c1 k2 c2 : Z) : Prop :=
  c2 < c1 \/ (c1 = c2 /\ k1 < k2).

(** The bins not visited yet when the previous call returned bin [index]
    of count [n]; all of them before the first call, when [n] is 0. *)
Definition to_visit (index n k c : Z) : Prop :=
  0 < c /\ (n = 0 \/ visited_before index n k c).

(** ** The buffer of the largest samples *)

(** The entry [histogram_record_largest_samples] fills the buffer with. *)
Definition cleared_entry : HistogramSampleN :=
  {| sn_sample := INT64_MIN; sn_n := 0; sn_sequence_index := 0 |}.

(** The buffer handed over is overwritten entirely, so only its length
    [n_largest_samples_buf_allocated] is an argument here. *)
Definition histogram_record_largest_samples (hist : Histogram)
    (n_largest_samples_buf_allocated : Z) : Histogram :=
  set_largest hist
    (repeat cleared_entry (Z.to_nat n_largest_samples_buf_allocated))
    n_largest_samples_buf_allocated INT64_MIN (count_overflowed hist).

(** Storing into the 48-bit field [n]. *)
Definition to_n_bits (z : Z) : Z := z mod 2 ^ n_bits_n.

(** What the loop of [histogram_add_to_largest] did to the entries from
    the current one on. *)
Inductive LargestUpdate :=
| Inserted (buf : list HistogramSampleN)
| Counted (buf : list HistogramSampleN) (overflowed : bool).

(** The loop over the entries; [buf] holds the entries from the current
    one to the end of the buffer.  [memmove] shifts them down by one, the
    last one falling out, and leaves the current entry's
    [sequence_index] where it is. *)
Fixpoint add_to_largest_loop (buf : list HistogramSampleN) (x n : Z)
  : option LargestUpdate :=
  match buf with
  | [] => None
  | entry :: rest =>
      if x >? sn_sample entry then
        Some (Inserted
                ({| sn_sample := x; sn_n := to_n_bits n;
                    sn_sequence_index := sn_sequence_index entry |}
                 :: removelast (entry :: rest)))
      else if x =? sn_sample entry then
        let sum := to_n_bits (u64 (sn_n entry + n)) in
        if sum <? n then
          Some (Counted
                  ({| sn_sample := sn_sample entry;
                      sn_n := to_n_bits UINT64_MAX;
                      sn_sequence_index := sn_sequence_index entry |}
                   :: rest) true)
        else
          Some (Counted
                  ({| sn_sample := sn_sample entry; sn_n := sum;
                      sn_sequence_index := sn_sequence_index entry |}
                   :: rest) false)
      else
        match add_to_largest_loop rest x n with
        | Some (Inserted rest') => Some (Inserted (entry :: rest'))
        | Some (Counted rest' o) => Some (Counted (entry :: rest') o)
        | None => None
        end
  end.

Definition histogram_add_to_largest (hist : Histogram) (x n : Z)
  : Histogram :=
  match add_to_largest_loop (largest_samples_buf hist) x n with
  | Some (Inserted buf) =>
      set_largest hist buf (n_largest_samples_buf_allocated hist)
        (sn_sample
           (nth (Z.to_nat (n_largest_samples_buf_allocated hist - 1)) buf
              cleared_entry))
        (count_overflowed hist)
  | Some (Counted buf o) =>
      set_largest hist buf (n_largest_samples_buf_allocated hist)
        (threshold_for_largest hist) (count_overflowed hist || o)
  | None => hist
  end.

(** The samples of a buffer, in its order. *)
Definition samples (buf : list HistogramSampleN) : list Z :=
  map sn_sample buf.

(** No sample is followed by a larger one. *)
Fixpoint descending (l : list Z) : Prop :=
  match l with
  | [] => True
  | x :: l' => (forall y, In y l' -> y <= x) /\ descending l'
  end.

(** How many times the sample [x] was recorded as one of the largest. *)
Definition count_of (buf : list HistogramSampleN) (x : Z) : Z :=
  match find (fun e => sn_sample e =? x) buf with
  | Some e => sn_n e
  | None => 0
  end.

(** The state of the buffer between two calls: it has the length
    allocated, its samples are in descending order, and
    [threshold_for_largest] is the least of them. *)
Definition largest_ready (h : Histogram) : Prop :=
  let buf := largest_samples_buf h in
  Z.of_nat (List.length buf) = n_largest_samples_buf_allocated h
  /\ descending (samples buf)
  /\ Forall (fun e => 0 <= sn_n e < 2 ^ n_bits_n) buf
  /\ threshold_for_largest h = sn_sample (last buf cleared_entry).

(** ** From the start to the bins *)

(** One call of [histogram_add_to_bin] for each pair of a sample and its
    count, in order, as the loop over the sample buffer in
    [histogram_estimate_and_commit_binwidth] makes them. *)
Definition add_to_bins (h : Histogram) (l : list (Z * Z)) : Histogram :=
  fold_left (fun h xn => histogram_add_to_bin h (fst xn) (snd xn)) l h.

(** The number of samples a list of pairs stands for. *)
Definition count_sum (l : list (Z * Z)) : Z :=
  fold_right (fun xn acc => snd xn + acc) 0 l.

(** * Further vocabulary *)

(** ** Streams along the jumps *)

(** The stream a jump carries. *)
Definition jump_stream (j : Jump) : DataStream :=
  match j with
  | Goto_end_of_number _ s _ => s
  | Goto_return_possibly_signed_zero _ s _ => s
  | Goto_return_possibly_signed_infinity _ s _ => s
  | Goto_failed _ s => s
  | Return _ s _ => s
  end.

(** [s'] is what is left of the stream [(p, w)] after the bytes [pre]. *)
Definition consumed (p : Z) (w pre : list Z) (s' : DataStream) : Prop :=
  w = pre ++ window s' /\ ptr s' = p + len pre.

(** The two patterns [parse_double] returns for the word [nan]. *)
Definition nan_bits (neg : bool) : Z :=
  if neg then 0xFFFFFFFFFFFFFFFF else 0x7FFFFFFFFFFFFFFF.

(** What a jump out of the scanner carries when the scan started with the
    status [st] and the sign [neg]: the status unchanged, or a failed one
    at label [failed]; the sign; and at a [return] the pattern of a NaN. *)
Definition jump_carries (st : Status) (neg : bool) (j : Jump) : Prop :=
  match j with
  | Goto_end_of_number st' _ a => st' = st /\ negative a = neg
  | Goto_return_possibly_signed_zero st' _ n => st' = st /\ n = neg
  | Goto_return_possibly_signed_infinity st' _ n => st' = st /\ n = neg
  | Goto_failed st' _ => failed st' = true
  | Return st' _ b => st' = st /\ b = nan_bits neg
  end.

(** A jump out of the scanner at [(p, w)] that consumed at least [k]
    bytes. *)
Definition jump_after (p : Z) (w : list Z) (j : Jump) : Prop :=
  exists pre, consumed p w pre (jump_stream j).

(** A word as the callers of [datastream_consume_word] pass it: the bytes
    of a C string of ASCII characters, none of them the terminating
    NUL. *)
Definition ascii_word (word : list Z) : Prop :=
  Forall (fun c => 1 <= c <= 127) word.

(** ** The sign *)

(** The scanner state with another sign. *)
Definition set_negative (a : Scan) (neg : bool) : Scan :=
  {| negative := neg; mantissa := mantissa a; digits := digits a;
     significant_digits := significant_digits a;
     fractional_digits := fractional_digits a;
     decimal_exponent := decimal_exponent a |}.

(** The jump the scanner takes when the literal has the sign [neg]
    instead: the sign is only carried along and used at the labels. *)
Definition jump_set_negative (j : Jump) (neg : bool) : Jump :=
  match j with
  | Goto_end_of_number st s a => Goto_end_of_number st s (set_negative a neg)
  | Goto_return_possibly_signed_zero st s _ =>
      Goto_return_possibly_signed_zero st s neg
  | Goto_return_possibly_signed_infinity st s _ =>
      Goto_return_possibly_signed_infinity st s neg
  | Goto_failed st s => Goto_failed st s
  | Return st s _ => Return st s (nan_bits neg)
  end.

(** A window that starts like a literal without a sign. *)
Definition starts_unsigned (w : list Z) : Prop :=
  match w with
  | ch :: _ => is_digit ch \/ ch = chr "." \/ ch = chr "i" \/ ch = chr "n"
  | [] => False
  end.

(** An optional decimal point. *)
Definition point_bytes (point : bool) : list Z :=
  if point then [chr "."] else [].

(** The pattern of a signed zero. *)
Definition zero_bits (neg : bool) : Z :=
  if neg then 0x8000000000000000 else 0.

(** A run of the digit [0]. *)
Definition all_zero (ds : list Z) : Prop := Forall (fun ch => ch = chr "0") ds.

(** The two unsigned counters of the scanner are within 64 bits. *)
Definition words_in_range (a : Scan) : Prop :=
  0 <= mantissa a < 2 ^ 64 /\ 0 <= decimal_exponent a < 2 ^ 64.

Definition in_range_at_end (j : Jump) : Prop :=
  match j with
  | Goto_end_of_number _ _ a => words_in_range a
  | _ => True
  end.

(** ** Literals with or without an exponent part *)

(** The optional exponent part: [None] when the literal has none,
    [Some (mark, esg, xs)] for the marker [e] or [E], the optional sign and
    the digits [xs]. *)
Definition exponent_bytes (ex : option (Z * Sign * list Z)) : list Z :=
  match ex with
  | None => []
  | Some (mark, esg, xs) => mark :: sign_bytes esg ++ xs
  end.

Definition exponent_well_formed (ex : option (Z * Sign * list Z)) : Prop :=
  match ex with
  | None => True
  | Some (mark, _, xs) =>
      (mark = chr "e" \/ mark = chr "E") /\ Forall is_digit xs /\ xs <> []
  end.

(** The net decimal exponent of the literal: the explicit exponent, 0
    when there is none, less the number of digits after the decimal
    point. *)
Definition net_exponent (frac : option (list Z))
    (ex : option (Z * Sign * list Z)) : Z :=
  match ex with
  | None => - len (fraction_digits frac)
  | Some (_, esg, xs) => net_decimal_exponent frac esg xs
  end.

(** What may follow the literal: after the mantissa a byte that is no
    digit, point or exponent marker, after the exponent a byte that is no
    digit; or the end of the input. *)
Definition ends_literal (ex : option (Z * Sign * list Z)) (rest : list Z)
  : Prop :=
  match ex with
  | None => ends_number rest
  | Some _ => ends_exponent rest
  end.

(** The pattern of a signed infinity. *)
Definition infinity_bits (neg : bool) : Z :=
  if neg then 0xFFF0000000000000 else 0x7FF0000000000000.

(** The variables of [parse_double] before the first digit or point. *)
Definition start_state (neg : bool) : Scan :=
  {| negative := neg; mantissa := 0; digits := 0; significant_digits := 0;
     fractional_digits := -1; decimal_exponent := 0 |}.

(** The variables after the mantissa of a literal, whatever the number of
    its digits. *)
Definition mantissa_state (sg : Sign) (ds : list Z)
    (frac : option (list Z)) : Scan :=
  let a1 := fold_left step_digit ds (start_state (sign_negative sg)) in
  match frac with
  | None => a1
  | Some fs => fold_left step_digit fs (set_fractional_digits a1 0)
  end.

(** ** How exact the powers of ten are *)

(** The exact power of ten a row of [pow10_table] stands for, and of
    [pow10n_table]. *)
Definition ten_to (bit : Z) : Q := (10 ^ bit)%Q.
Definition ten_to_minus (bit : Z) : Q := (10 ^ (- bit))%Q.

(** A row is the power [pw bit] rounded to the nearest 65-bit value: the
    mantissa is a 64-bit word and the error is at most half a unit of
    its last place. *)
Definition row_rounded (pw : Z -> Q) (row : Z * Z * Z) : Prop :=
  let '(bit, m, e) := row in
  0 <= m < 2 ^ 64
  /\ (Qabs (ext_value m e - pw bit) <= 2 ^ (e - 65))%Q.

(** The same, checked by computation. *)
Definition row_rounded_bool (pw : Z -> Q) (row : Z * Z * Z) : bool :=
  let '(bit, m, e) := row in
  (0 <=? m) && (m <? 2 ^ 64)
  && Qle_bool (Qabs (ext_value m e - pw bit)) (2 ^ (e - 65)).

(** The exact factor the cascade stands for: the product of the powers
    whose bit is set in [n]. *)
Definition exact_scale (pw : Z -> Q) (n : Z) (table : list (Z * Z * Z))
    (x : Q) : Q :=
  fold_left
    (fun acc row =>
       match row with
       | (bit, _, _) => if Z.land n bit =? 0 then acc else (acc * pw bit)%Q
       end)
    table x.

(** [v] is [x] up to the factors [lo] and [hi]. *)
Definition within (lo hi v x : Q) : Prop :=
  (lo * x <= v)%Q /\ (v <= hi * x)%Q.

(** The relative error one row of the cascade adds at most: above, the
    rounding of the table entry; below, that and the truncation of
    [mulf64]. *)
Definition row_gain : Q := (1 + 1 / 2 ^ 64)%Q.
Definition row_loss : Q := ((1 - 1 / 2 ^ 64) / (1 + 1 / 2 ^ 64))%Q.

(** A row is its power up to the relative error [2^-64]. *)
Definition row_close (pw : Z -> Q) (row : Z * Z * Z) : Prop :=
  let '(bit, m, e) := row in
  0 <= m < 2 ^ 64
  /\ ((1 - 1 / 2 ^ 64) * pw bit <= ext_value m e)%Q
  /\ (ext_value m e <= (1 + 1 / 2 ^ 64) * pw bit)%Q.

Definition row_close_bool (pw : Z -> Q) (row : Z * Z * Z) : bool :=
  let '(bit, m, e) := row in
  (0 <=? m) && (m <? 2 ^ 64)
  && Qle_bool ((1 - 1 / 2 ^ 64) * pw bit) (ext_value m e)
  && Qle_bool (ext_value m e) ((1 + 1 / 2 ^ 64) * pw bit).

(** [q] to the power [k]. *)
Fixpoint qpow (q : Q) (k : nat) : Q :=
  match k with
  | O => 1
  | S k' => (q * qpow q k')%Q
  end.

(** The sum of the bits of [n] that the cascade over [table] tests and
    finds set. *)
Fixpoint selected_bits (n : Z) (table : list (Z * Z * Z)) : Z :=
  match table with
  | [] => 0
  | (bit, _, _) :: table' =>
      (if Z.land n bit =? 0 then 0 else bit) + selected_bits n table'
  end.

(** The relative error of a returned double: half a unit of the last of
    its 53 bits, and one part in 64 of that for the arithmetic before the
    rounding. *)
Definition relative_error : Q := (1 / 2 ^ 53 + 1 / 2 ^ 59)%Q.

(** [b] is a finite double that differs from [x] by at most
    [relative_error] times [x]. *)
Definition close_to (x : Q) (b : Z) : Prop :=
  dbl_finite b
  /\ (Qabs (double_value b - x) <= Qabs x * relative_error)%Q.

(** The exact value of a literal with the digits of [n] and the net
    decimal exponent [E]. *)
Definition exact_value (sg : Sign) (n E : Z) : Q :=
  ((if sign_negative sg then -1 else 1) * (inject_Z n * 10 ^ E))%Q.

(** A row of [pow10_table] whose power is held exactly. *)
Definition row_exact (row : Z * Z * Z) : Prop :=
  let '(bit, m, e) := row in (ext_value m e == ten_to bit)%Q.

(** A value of type [int64_t], [uint64_t]. *)
Definition is_int64 (z : Z) : Prop := INT64_MIN <= z <= INT64_MAX.
Definition is_uint64 (z : Z) : Prop := 0 <= z <= UINT64_MAX.

(** The sum of the counts of an array of bins. *)
Definition total (l : list Z) : Z := fold_right Z.add 0 l.

(** A histogram whose bins are an array of [nbins] counts, at least the
    three [histogram_init] asserts, with a known bin width. *)
Definition bins_ready (h : Histogram) : Prop :=
  is_int64 (low h) /\ 0 < binwidth h <= UINT64_MAX
  /\ 3 <= nbins h < 2 ^ 32
  /\ Z.of_nat (List.length (bins h)) = nbins h
  /\ Forall is_uint64 (bins h).

(** The count of bin [k]. *)
Definition bin_count (hist : Histogram) (k : Z) : Z :=
  nth (Z.to_nat k) (bins hist) 0.

(** What the second loop has found among the bins below [i]: the largest
    count that is not above [limit], at the first bin that has it. *)
Definition best_below (h : Histogram) (limit i index0 index n : Z) : Prop :=
  0 <= n
  /\ (n = 0 -> index = index0)
  /\ (0 < n -> 0 <= index < i /\ bin_count h index = n /\ n <= limit)
  /\ forall k, 0 <= k < i -> bin_count h k <= limit ->
       bin_count h k <= n /\ (bin_count h k = n -> 0 < n -> index <= k).

(** * Properties *)

(** ** Machine words *)

Lemma u64_small z : 0 <= z < 2 ^ 64 -> u64 z = z.
Proof. intros H. unfold u64. now apply Z.mod_small. Qed.

Lemma u64_wrap1 z : 2 ^ 64 <= z < 2 * 2 ^ 64 -> u64 z = z - 2 ^ 64.
Proof.
  intros H. unfold u64.
  symmetry. apply Z.mod_unique with (q := 1); lia.
Qed.

Lemma testbit_small a k n : 0 <= a < 2 ^ k -> k <= n -> Z.testbit a n = false.
Proof.
  intros Ha Hn.
  assert (Hk : 0 <= k).
  { destruct (Z.le_gt_cases 0 k) as [H|H]; [exact H|].
    rewrite Z.pow_neg_r in Ha by exact H. lia. }
  assert (H2 : 2 ^ k <= 2 ^ n) by (apply Z.pow_le_mono_r; lia).
  apply Z.testbit_false; [lia|].
  rewrite Z.div_small by lia. reflexivity.
Qed.

Lemma lor_disjoint a b k :
  0 <= k -> 0 <= a < 2 ^ k -> Z.lor a (Z.shiftl b k) = a + Z.shiftl b k.
Proof.
  intros Hk Ha.
  assert (H0 : Z.land a (Z.shiftl b k) = 0).
  { apply Z.bits_inj'. intros n Hn.
    rewrite Z.land_spec, Z.bits_0.
    destruct (Z.lt_ge_cases n k) as [H|H].
    - rewrite Z.shiftl_spec_low by exact H. apply andb_false_r.
    - rewrite (testbit_small a k n) by assumption. reflexivity. }
  rewrite <- Z.lxor_lor by exact H0.
  symmetry. now apply Z.add_nocarry_lxor.
Qed.

(** ** [mulf64] *)

(** What [mulf64] computes, without machine words. *)
Lemma mulf64_exact mx ex my ey :
  0 <= mx < 2 ^ 64 -> 0 <= my < 2 ^ 64 ->
  let t := mx + my + mx * my / 2 ^ 64 in
  let carry := t / 2 ^ 64 in
  0 <= carry <= 2
  /\ mulf64 mx ex my ey =
       if carry =? 0 then (t, ex + ey)
       else (t mod 2 ^ 64 / 2 + (carry + 1) mod 2 * 2 ^ 63, ex + ey + 1).
Proof.
  intros Hx Hy t carry.
  assert (Hhi : 0 <= mx * my / 2 ^ 64 < 2 ^ 64 - 1).
  { split; [apply Z.div_pos; nia|].
    apply Z.div_lt_upper_bound; nia. }
  unfold mulf64. rewrite Z.shiftr_div_pow2 by lia.
  subst carry t. set (hi := mx * my / 2 ^ 64) in *.
  destruct (Z.lt_ge_cases (mx + my) (2 ^ 64)) as [H1|H1].
  - rewrite (u64_small (mx + my)) by lia.
    destruct (Z.ltb_spec (mx + my) my) as [C1|C1]; [lia|].
    destruct (Z.lt_ge_cases (mx + my + hi) (2 ^ 64)) as [H2|H2].
    + rewrite (u64_small (mx + my + hi)) by lia.
      destruct (Z.ltb_spec (mx + my + hi) hi) as [C2|C2]; [lia|].
      rewrite Z.div_small by lia. split; [lia|]. reflexivity.
    + rewrite (u64_wrap1 (mx + my + hi)) by lia.
      destruct (Z.ltb_spec (mx + my + hi - 2 ^ 64) hi) as [C2|C2]; [|lia].
      assert (E : (mx + my + hi) / 2 ^ 64 = 1).
      { symmetry. apply Z.div_unique with (r := mx + my + hi - 2 ^ 64); lia. }
      assert (E' : (mx + my + hi) mod 2 ^ 64 = mx + my + hi - 2 ^ 64).
      { symmetry. apply Z.mod_unique with (q := 1); lia. }
      rewrite E, E'. split; [lia|]. cbn [Z.eqb Z.add Pos.add Pos.succ].
      change (u64 (Z.shiftl 2 63)) with 0.
      rewrite Z.lor_0_r, Z.shiftr_div_pow2 by lia.
      change ((1 + 1) mod 2 * 2 ^ 63) with 0. rewrite Z.add_0_r.
      reflexivity.
  - rewrite (u64_wrap1 (mx + my)) by lia.
    destruct (Z.ltb_spec (mx + my - 2 ^ 64) my) as [C1|C1]; [|lia].
    destruct (Z.lt_ge_cases (mx + my - 2 ^ 64 + hi) (2 ^ 64)) as [H2|H2].
    + rewrite (u64_small (mx + my - 2 ^ 64 + hi)) by lia.
      destruct (Z.ltb_spec (mx + my - 2 ^ 64 + hi) hi) as [C2|C2]; [lia|].
      assert (E : (mx + my + hi) / 2 ^ 64 = 1).
      { symmetry. apply Z.div_unique with (r := mx + my + hi - 2 ^ 64); lia. }
      assert (E' : (mx + my + hi) mod 2 ^ 64 = mx + my + hi - 2 ^ 64).
      { symmetry. apply Z.mod_unique with (q := 1); lia. }
      rewrite E, E'. split; [lia|]. cbn [Z.eqb Z.add Pos.add Pos.succ].
      change (u64 (Z.shiftl 2 63)) with 0.
      rewrite Z.lor_0_r, Z.shiftr_div_pow2 by lia.
      change ((1 + 1) mod 2 * 2 ^ 63) with 0. rewrite Z.add_0_r.
      replace (mx + my - 2 ^ 64 + hi) with (mx + my + hi - 2 ^ 64) by lia.
      reflexivity.
    + rewrite (u64_wrap1 (mx + my - 2 ^ 64 + hi)) by lia.
      destruct (Z.ltb_spec (mx + my - 2 ^ 64 + hi - 2 ^ 64) hi) as [C2|C2];
        [|lia].
      assert (E : (mx + my + hi) / 2 ^ 64 = 2).
      { symmetry.
        apply Z.div_unique with (r := mx + my + hi - 2 * 2 ^ 64); lia. }
      assert (E' : (mx + my + hi) mod 2 ^ 64 = mx + my + hi - 2 * 2 ^ 64).
      { symmetry. apply Z.mod_unique with (q := 2); lia. }
      rewrite E, E'. split; [lia|]. cbn [Z.eqb Z.add Pos.add Pos.succ].
      change (u64 (Z.shiftl 3 63)) with (Z.shiftl 1 63).
      rewrite lor_disjoint.
      * rewrite Z.shiftr_div_pow2 by lia.
        change (Z.shiftl 1 63) with (2 ^ 63).
        change ((2 + 1) mod 2 * 2 ^ 63) with (2 ^ 63).
        replace (mx + my - 2 ^ 64 + hi - 2 ^ 64)
          with (mx + my + hi - 2 * 2 ^ 64) by lia.
        reflexivity.
      * lia.
      * rewrite Z.shiftr_div_pow2 by lia. change (2 ^ 1) with 2.
        split; [apply Z.div_pos; lia|].
        apply Z.div_lt_upper_bound; lia.
Qed.

Lemma ext_value_scaled m e d :
  (ext_value m (e + d) ==
   inject_Z ((2 ^ 64 + m) * 2 ^ 64) * 2 ^ d * (2 ^ e / inject_Z (2 ^ 128)))%Q.
Proof.
  unfold ext_value.
  rewrite Qpower_plus by discriminate.
  change (2 ^ 128) with (2 ^ 64 * 2 ^ 64).
  rewrite !inject_Z_mult, inject_Z_plus.
  assert (H : ~ (inject_Z (2 ^ 64) == 0)%Q) by discriminate.
  field. exact H.
Qed.

Lemma ext_value_product mx ex my ey :
  (ext_value mx ex * ext_value my ey ==
   inject_Z ((2 ^ 64 + mx) * (2 ^ 64 + my))
   * (2 ^ (ex + ey) / inject_Z (2 ^ 128)))%Q.
Proof.
  unfold ext_value.
  rewrite Qpower_plus by discriminate.
  change (2 ^ 128) with (2 ^ 64 * 2 ^ 64).
  rewrite !inject_Z_mult, !inject_Z_plus.
  assert (H : ~ (inject_Z (2 ^ 64) == 0)%Q) by discriminate.
  field. exact H.
Qed.

Lemma scale_pos e : (0 < 2 ^ e / inject_Z (2 ^ 128))%Q.
Proof.
  apply Qlt_shift_div_l; [reflexivity|].
  rewrite Qmult_0_l. apply Qpower_0_lt. reflexivity.
Qed.

(** C2.  For mantissas in [0, 2^64) the pair [mulf64] returns is normalized
    and denotes the exact product truncated, never rounded up:
    [2^e' * (1 + m'/2^64) <= X * Y < 2^e' * (1 + (m'+1)/2^64)].  The carry
    [t / 2^64] of [t = mx + my + floor (mx * my / 2^64)] into the 65th bit
    is 0, 1 or 2.  Without a carry the result is [(t, ex + ey)]; with one,
    the mantissa is [t mod 2^64] shifted right by one bit with the low bit
    of [carry + 1] put into the top bit, and the exponent is one more. *)
Theorem mulf64_truncates_exact_product mx ex my ey :
  0 <= mx < 2 ^ 64 -> 0 <= my < 2 ^ 64 ->
  let m' := fst (mulf64 mx ex my ey) in
  let e' := snd (mulf64 mx ex my ey) in
  let t := mx + my + mx * my / 2 ^ 64 in
  let carry := t / 2 ^ 64 in
  0 <= m' < 2 ^ 64
  /\ (ext_value m' e' <= ext_value mx ex * ext_value my ey)%Q
  /\ (ext_value mx ex * ext_value my ey < ext_value (m' + 1) e')%Q
  /\ 0 <= carry <= 2
  /\ (carry = 0 -> m' = t /\ e' = ex + ey)
  /\ (carry <> 0 ->
      m' = t mod 2 ^ 64 / 2 + (carry + 1) mod 2 * 2 ^ 63
      /\ e' = ex + ey + 1).
Proof.
  intros Hx Hy m' e' t carry.
  destruct (mulf64_exact mx ex my ey Hx Hy) as [Hc E].
  fold t carry in Hc, E.
  assert (Hhi : 0 <= mx * my / 2 ^ 64 < 2 ^ 64 - 1).
  { split; [apply Z.div_pos; nia|]. apply Z.div_lt_upper_bound; nia. }
  pose proof (Z.div_mod (mx * my) (2 ^ 64) ltac:(lia)) as Hr.
  pose proof (Z.mod_pos_bound (mx * my) (2 ^ 64) ltac:(lia)) as Hrb.
  pose proof (Z.div_mod t (2 ^ 64) ltac:(lia)) as Ht.
  pose proof (Z.mod_pos_bound t (2 ^ 64) ltac:(lia)) as Htb.
  fold carry in Ht.
  set (u := t mod 2 ^ 64) in *.
  pose proof (Z.div_mod u 2 ltac:(lia)) as Hu.
  pose proof (Z.mod_pos_bound u 2 ltac:(lia)) as Hub.
  set (hi := mx * my / 2 ^ 64) in *. set (r := (mx * my) mod 2 ^ 64) in *.
  assert (HN : (2 ^ 64 + mx) * (2 ^ 64 + my)
               = 2 ^ 64 * 2 ^ 64 + 2 ^ 64 * t + r) by (subst t; nia).
  assert (Key : exists d, (d = 0 \/ d = 1) /\ e' = ex + ey + d
                /\ 0 <= m' < 2 ^ 64
                /\ (2 ^ 64 + m') * 2 ^ 64 * 2 ^ d
                   <= (2 ^ 64 + mx) * (2 ^ 64 + my)
                   < (2 ^ 64 + (m' + 1)) * 2 ^ 64 * 2 ^ d).
  { subst m' e'. rewrite E, HN. destruct (Z.eqb_spec carry 0) as [C0|C0].
    - exists 0. cbn [fst snd]. rewrite C0 in Ht.
      change (2 ^ 0) with 1. repeat split; lia.
    - exists 1. cbn [fst snd]. change (2 ^ 1) with 2.
      assert (C : carry = 1 \/ carry = 2) by lia.
      destruct C as [C|C]; rewrite C in *.
      + change ((1 + 1) mod 2 * 2 ^ 63) with 0. repeat split; lia.
      + change ((2 + 1) mod 2 * 2 ^ 63) with (2 ^ 63).
        repeat split; lia. }
  destruct Key as (d & Hd & He & Hm & Hlo & Hhi').
  split; [exact Hm|].
  split; [|split].
  - rewrite He, ext_value_scaled, ext_value_product.
    apply Qmult_le_compat_r; [|apply Qlt_le_weak, scale_pos].
    rewrite <- (Zpower_Qpower 2 d) by lia.
    rewrite <- inject_Z_mult. rewrite <- Zle_Qle. exact Hlo.
  - rewrite He, ext_value_scaled, ext_value_product.
    apply Qmult_lt_compat_r; [apply scale_pos|].
    rewrite <- (Zpower_Qpower 2 d) by lia.
    rewrite <- inject_Z_mult. rewrite <- Zlt_Qlt. exact Hhi'.
  - split; [exact Hc|]. subst m' e'. rewrite E. split.
    + intros C. rewrite C. cbn [Z.eqb fst snd]. split; reflexivity.
    + intros C. destruct (Z.eqb_spec carry 0) as [C0|C0]; [contradiction|].
      cbn [fst snd]. split; reflexivity.
Qed.

(** ** The status along the jumps *)

Lemma consume_word_stays_failed word : forall st s,
  failed st = true ->
  failed (fst (datastream_consume_word st s word)) = true.
Proof.
  induction word as [|w word IH]; intros st s H; cbn [datastream_consume_word].
  - exact H.
  - destruct (window s) as [|ch rest].
    + unfold datastream_fetch. rewrite H. exact H.
    + apply IH. destruct (ch =? w); [exact H|reflexivity].
Qed.

Lemma consume_word_status word : forall st s,
  failed (fst (datastream_consume_word st s word)) = false ->
  fst (datastream_consume_word st s word) = st.
Proof.
  induction word as [|w word IH]; intros st s H; cbn [datastream_consume_word] in *.
  - reflexivity.
  - destruct (window s) as [|ch rest].
    + unfold datastream_fetch in *. destruct (failed st) eqn:F.
      * reflexivity.
      * discriminate H.
    + destruct (ch =? w).
      * now apply IH.
      * rewrite consume_word_stays_failed in H by reflexivity. discriminate H.
Qed.

Lemma end_of_exponent_status st s a ne ae :
  status_kept st (end_of_exponent st s a ne ae).
Proof.
  unfold end_of_exponent.
  repeat (break_if || match goal with
                      | |- context [let '(_, _) := ?p in _] => destruct p
                      end); reflexivity.
Qed.

#[local] Hint Resolve end_of_exponent_status : status.

Lemma exponent_digits_status w : forall st p a ne ae,
  status_kept st (exponent_digits st p w a ne ae).
Proof.
  induction w as [|ch w IH]; intros; cbn [exponent_digits].
  - unfold datastream_fetch. destruct (failed st); [exact I|].
    auto with status.
  - repeat break_if; try reflexivity; auto with status.
Qed.

#[local] Hint Resolve exponent_digits_status : status.

Lemma parse_exponent_status st s a : status_kept st (parse_exponent st s a).
Proof.
  unfold parse_exponent.
  destruct (window (advance s (tl (window s)))) as [|ch w'].
  - unfold datastream_fetch. destruct (failed st); exact I.
  - repeat break_if; auto with status.
Qed.

Lemma parse_infinity_status st s neg :
  status_kept st (parse_infinity st s neg).
Proof.
  unfold parse_infinity.
  pose proof (consume_word_status (bytes "inf") st s) as H.
  destruct (datastream_consume_word st s (bytes "inf")) as [st1 s1].
  cbn [fst] in H. destruct (failed st1); [exact I|]. cbn. now apply H.
Qed.

Lemma parse_nan_status st s neg : status_kept st (parse_nan st s neg).
Proof.
  unfold parse_nan.
  pose proof (consume_word_status (bytes "nan") st s) as H.
  destruct (datastream_consume_word st s (bytes "nan")) as [st1 s1].
  cbn [fst] in H. destruct (failed st1); [exact I|]. cbn. now apply H.
Qed.

#[local] Hint Resolve parse_exponent_status parse_infinity_status
  parse_nan_status : status.

Lemma skip_digits_status w : forall st p a,
  status_kept st (skip_digits st p w a).
Proof.
  induction w as [|ch w IH]; intros; cbn [skip_digits].
  - unfold datastream_fetch. destruct (failed st); [exact I|reflexivity].
  - repeat break_if; try reflexivity; auto with status.
Qed.

#[local] Hint Resolve skip_digits_status : status.

Lemma scan_digits_status w : forall st p a,
  status_kept st (scan_digits st p w a).
Proof.
  induction w as [|ch w IH]; intros; cbn [scan_digits].
  - unfold datastream_fetch. destruct (failed st); [exact I|reflexivity].
  - repeat break_if; try reflexivity; auto with status.
Qed.

#[local] Hint Resolve scan_digits_status : status.

Lemma scan_status st s : status_kept st (scan st s).
Proof.
  unfold scan. destruct (window s) as [|ch w'].
  - unfold datastream_fetch. destruct (failed st); exact I.
  - repeat break_if; try exact I; auto with status.
Qed.

Lemma subnormal_round_assemble_status st s neg m e :
  status (subnormal_round_assemble st s neg m e) = st.
Proof. unfold subnormal_round_assemble. repeat break_if; reflexivity. Qed.

(** [end_of_number] either fails for want of digits, returning [0.0], or
    leaves the status as it is. *)
Lemma end_of_number_status st s a :
  (digits a = 0 /\ end_of_number st s a
                   = return_failed (fail_here st s msg_no_digits) s)
  \/ (digits a <> 0 /\ status (end_of_number st s a) = st).
Proof.
  unfold end_of_number. destruct (Z.eqb_spec (digits a) 0) as [D|D].
  - left. split; [exact D|reflexivity].
  - right. split; [exact D|].
    repeat break_if; try reflexivity; apply subnormal_round_assemble_status.
Qed.

(** C10.  Whenever a call that starts with [failed = false] ends with
    [failed = true], the value it returns is the all-zero bit pattern of
    [+0.0]. *)
Theorem failure_returns_positive_zero st s :
  failed st = false ->
  failed (status (parse_double st s)) = true ->
  value (parse_double st s) = 0.
Proof.
  intros H0 H. unfold parse_double in *.
  pose proof (scan_status st s) as K.
  destruct (scan st s) as [st1 s1 a|st1 s1 neg|st1 s1 neg|st1 s1|st1 s1 b];
    cbn [continue_at status_kept jump_status] in *.
  - subst st1. destruct (end_of_number_status st s1 a) as [[_ E]|[_ E]].
    + rewrite E. reflexivity.
    + rewrite E in H. congruence.
  - subst st1. cbn in H. congruence.
  - subst st1. cbn in H. congruence.
  - reflexivity.
  - subst st1. cbn in H. congruence.
Qed.

Lemma failure_returns_positive_zero_witness :
  failed status0 = false
  /\ failed (status (parse_double status0 (stream_of "1e"))) = true
  /\ value (parse_double status0 (stream_of "1e")) = 0.
Proof.
  split; [reflexivity|]. split; [reflexivity|].
  apply (failure_returns_positive_zero status0 (stream_of "1e"));
    reflexivity.
Defined.

(** ** The invariant of the two decimal counters *)

Lemma u64_nonneg z : 0 <= u64 z.
Proof. unfold u64. apply Z.mod_pos_bound. lia. Qed.

Lemma u64_range z : 0 <= u64 z < 2 ^ 64.
Proof. unfold u64. apply Z.mod_pos_bound. lia. Qed.

Lemma end_of_exponent_exclusive st s a ne ae :
  counters_exclusive a -> 0 <= ae ->
  exclusive_at_end (end_of_exponent st s a ne ae).
Proof.
  intros Ha Hae. unfold end_of_exponent, counters_exclusive in *.
  destruct (ne && negb (ae =? 0)) eqn:B.
  - apply andb_prop in B. destruct B as [_ B].
    apply negb_true_iff in B. apply Z.eqb_neq in B.
    destruct (Z.leb_spec ae (decimal_exponent a)) as [L|L].
    + break_if; [exact I|]. simpl_scan.
      assert (F : (if fractional_digits a <? 0 then 0
                   else fractional_digits a) = 0).
      { destruct (Z.ltb_spec (fractional_digits a) 0); lia. }
      rewrite F. left. vm_compute. discriminate.
    + break_if; [exact I|]. simpl_scan. right. reflexivity.
  - destruct (Z.ltb_spec 0 (fractional_digits a)) as [L|L].
    + assert (D : decimal_exponent a = 0) by lia. rewrite D.
      destruct (Z.leb_spec ae (u64 (fractional_digits a))) as [L2|L2].
      * break_if; [exact I|]. simpl_scan. right. reflexivity.
      * break_if; [exact I|]. simpl_scan. left. lia.
    + break_if; [exact I|]. simpl_scan. left. exact L.
Qed.

Lemma exponent_digits_exclusive w : forall st p a ne ae,
  counters_exclusive a -> 0 <= ae ->
  exclusive_at_end (exponent_digits st p w a ne ae).
Proof.
  induction w as [|ch w IH]; intros st p a ne ae Ha Hae;
    cbn [exponent_digits].
  - unfold datastream_fetch. destruct (failed st); [exact I|].
    now apply end_of_exponent_exclusive.
  - repeat break_if; try exact I.
    + apply IH; [exact Ha|apply u64_nonneg].
    + now apply end_of_exponent_exclusive.
Qed.

Lemma parse_exponent_exclusive st s a :
  counters_exclusive a -> exclusive_at_end (parse_exponent st s a).
Proof.
  intros Ha. unfold parse_exponent.
  destruct (window (advance s (tl (window s)))) as [|ch w'].
  - unfold datastream_fetch. destruct (failed st); exact I.
  - repeat break_if; apply exponent_digits_exclusive; (exact Ha || lia).
Qed.

Lemma skip_digits_exclusive w : forall st p a,
  counters_exclusive a -> exclusive_at_end (skip_digits st p w a).
Proof.
  induction w as [|ch w IH]; intros st p a Ha; cbn [skip_digits].
  - unfold datastream_fetch. destruct (failed st); [exact I|exact Ha].
  - unfold counters_exclusive in *.
    repeat break_if; try exact Ha; try apply IH;
      try (now apply parse_exponent_exclusive);
      unfold counters_exclusive; simpl_scan; lia.
Qed.

Lemma accumulate_digit_exclusive a d :
  decimal_exponent a = 0 ->
  counters_exclusive (accumulate_digit a d)
  /\ (significant_digits (accumulate_digit a d) < 20 ->
      decimal_exponent (accumulate_digit a d) = 0).
Proof.
  intros D. unfold accumulate_digit, counters_exclusive.
  destruct (mantissa a >? limit d); simpl_scan.
  - split; [|lia].
    destruct (Z.ltb_spec (fractional_digits a) 0); [left; lia|right; exact D].
  - split; [right; exact D|intros _; exact D].
Qed.

Lemma scan_digits_exclusive w : forall st p a,
  decimal_exponent a = 0 -> exclusive_at_end (scan_digits st p w a).
Proof.
  induction w as [|ch w IH]; intros st p a D; cbn [scan_digits].
  - unfold datastream_fetch. destruct (failed st); [exact I|].
    right. exact D.
  - destruct (accumulate_digit_exclusive a (u64 (ch - 48)) D) as [A1 A2].
    repeat break_if; try exact I;
      try (apply skip_digits_exclusive; first [exact A1 | right; exact D]);
      try (apply IH; first [apply A2; lia | exact D]);
      try (apply parse_exponent_exclusive; right; exact D);
      try (right; exact D).
    + unfold parse_infinity.
      destruct (datastream_consume_word st _ (bytes "inf")).
      break_if; exact I.
    + unfold parse_nan.
      destruct (datastream_consume_word st _ (bytes "nan")).
      break_if; exact I.
Qed.

Lemma scan_exclusive st s : exclusive_at_end (scan st s).
Proof.
  unfold scan. destruct (window s) as [|ch w'].
  - unfold datastream_fetch. destruct (failed st); exact I.
  - repeat break_if; try (apply scan_digits_exclusive; reflexivity);
      try exact I.
    + unfold parse_infinity.
      destruct (datastream_consume_word st _ (bytes "inf")).
      break_if; exact I.
    + unfold parse_nan.
      destruct (datastream_consume_word st _ (bytes "nan")).
      break_if; exact I.
Qed.

(** C4.  Whenever the scanner leaves by [goto end_of_number],
    [fractional_digits <= 0] or [decimal_exponent == 0] holds: where the
    negative power of ten is applied there is no positive one to apply, and
    the other way round. *)
Theorem end_of_number_counters_exclusive st s st' s' a :
  scan st s = Goto_end_of_number st' s' a ->
  (fractional_digits a <= 0 \/ decimal_exponent a = 0)
  /\ (0 < fractional_digits a -> decimal_exponent a = 0)
  /\ (decimal_exponent a <> 0 -> fractional_digits a <= 0).
Proof.
  intros H. pose proof (scan_exclusive st s) as K. rewrite H in K.
  simpl_scan. unfold counters_exclusive in K. repeat split; lia.
Qed.

(** ** Runs of digits *)

Lemma digit_value_of_digit ch :
  is_digit ch -> u64 (ch - 48) = ch - chr "0" /\ 0 <= ch - chr "0" <= 9.
Proof.
  unfold is_digit. change (chr "0") with 48. change (chr "9") with 57.
  intros H. rewrite u64_small by lia. lia.
Qed.

Lemma digit_tests ch :
  is_digit ch ->
  (u64 (ch - 48) <=? 9) = true /\ (ch =? chr ".") = false
  /\ (ch =? chr "e") = false /\ (ch =? chr "E") = false
  /\ (ch <? chr "0") = false /\ (ch >? chr "9") = false.
Proof.
  intros H. destruct (digit_value_of_digit ch H) as [E B]. rewrite E.
  unfold is_digit in H. revert H B.
  change (chr "0") with 48. change (chr "9") with 57.
  change (chr ".") with 46. change (chr "e") with 101.
  change (chr "E") with 69. intros H B.
  repeat split; lia.
Qed.


Lemma len_cons x l : len (x :: l) = 1 + len l.
Proof. unfold len. cbn [List.length]. lia. Qed.

Lemma len_nonneg l : 0 <= len l.
Proof. unfold len. lia. Qed.


(** A digit in the main loop. *)
Lemma scan_digits_digit st p ch w a :
  is_digit ch ->
  scan_digits st p (ch :: w) a
  = resume st (p + 1) w (accumulate_digit a (ch - chr "0")).
Proof.
  intros H. destruct (digit_tests ch H) as (T0 & _).
  destruct (digit_value_of_digit ch H) as [E _].
  cbn [scan_digits]. rewrite T0, E. reflexivity.
Qed.

(** The guard of the accumulation is exact: it refuses a digit just when
    [10 * mantissa + digit] does not fit 64 bits. *)
Lemma limit_exact m d :
  0 <= d <= 9 -> (m >? limit d) = false <-> 10 * m + d < 2 ^ 64.
Proof.
  intros Hd. unfold limit. rewrite Z.gtb_ltb.
  change (2 ^ 64) with 18446744073709551616.
  destruct (Z.leb_spec 6 d); rewrite Z.ltb_ge; lia.
Qed.



(** ** Exact accumulation *)

Lemma decimal_value_bounds ds : forall v,
  Forall is_digit ds -> 0 <= v ->
  v * 10 ^ len ds <= decimal_value v ds < (v + 1) * 10 ^ len ds.
Proof.
  induction ds as [|ch ds IH]; intros v F Hv.
  - change (len []) with 0. cbn. lia.
  - inversion F as [|? ? Hch F']; subst.
    destruct (digit_value_of_digit ch Hch) as [_ Hd].
    cbn [decimal_value fold_left].
    specialize (IH (10 * v + (ch - chr "0")) F' ltac:(lia)).
    unfold decimal_value in IH. rewrite len_cons.
    rewrite Z.pow_add_r by (pose proof (len_nonneg ds); lia).
    change (10 ^ 1) with 10.
    assert (0 < 10 ^ len ds) by (apply Z.pow_pos_nonneg;
                                 [lia|apply len_nonneg]).
    nia.
Qed.

Lemma decimal_value_app ds1 ds2 v :
  decimal_value v (ds1 ++ ds2) = decimal_value (decimal_value v ds1) ds2.
Proof. unfold decimal_value. apply fold_left_app. Qed.

Lemma accumulate_digit_fits a d :
  digits_counted a -> 0 <= d <= 9 -> 10 * mantissa a + d < 2 ^ 64 ->
  let a1 := accumulate_digit a d in
  mantissa a1 = 10 * mantissa a + d
  /\ digits_counted a1
  /\ digits a1 = digits a + 1
  /\ fractional_digits a1
     = (if 0 <=? fractional_digits a then fractional_digits a + 1
        else fractional_digits a)
  /\ decimal_exponent a1 = decimal_exponent a
  /\ negative a1 = negative a.
Proof.
  intros C Hd Fit a1.
  assert (M0 : 0 <= mantissa a).
  { destruct C as [[_ C]|[C1 C2]]; [lia|].
    assert (0 < 10 ^ (significant_digits a - 1))
      by (apply Z.pow_pos_nonneg; lia). lia. }
  subst a1. unfold accumulate_digit.
  rewrite (proj2 (limit_exact (mantissa a) d Hd) Fit). simpl_scan.
  rewrite u64_small by lia.
  repeat split; try reflexivity.
  unfold digits_counted. simpl_scan.
  destruct C as [[C1 C2]|[C1 C2]].
  - rewrite C1, C2. destruct (Z.eqb_spec d 0) as [D|D]; cbn [negb orb Z.eqb].
    + left. lia.
    + right. change (10 ^ (0 + 1 - 1)) with 1. change (10 ^ (0 + 1)) with 10.
      lia.
  - replace (negb (d =? 0) || negb (significant_digits a =? 0)) with true.
    2:{ destruct (Z.eqb_spec (significant_digits a) 0); [lia|].
        now rewrite orb_true_r. }
    right. split; [lia|].
    replace (significant_digits a + 1 - 1) with (significant_digits a) by lia.
    assert (P1 : 10 ^ significant_digits a
                 = 10 * 10 ^ (significant_digits a - 1)).
    { rewrite <- Z.pow_succ_r by lia. f_equal. lia. }
    assert (P2 : 10 ^ (significant_digits a + 1)
                 = 10 * 10 ^ significant_digits a).
    { rewrite <- Z.pow_succ_r by lia. reflexivity. }
    lia.
Qed.

(** [assert(significant_digits == 19)] at the mantissa limit: the guard
    fires on 19-digit mantissas only. *)
Lemma limit_reached_at_19_digits a d :
  digits_counted a -> significant_digits a < 20 -> 0 <= d <= 9 ->
  (mantissa a >? limit d) = true -> significant_digits a = 19.
Proof.
  intros C S Hd G. rewrite Z.gtb_ltb in G. apply Z.ltb_lt in G.
  assert (L : 10 ^ 18 <= mantissa a).
  { unfold limit in G. change (10 ^ 18) with 1000000000000000000.
    destruct (6 <=? d); lia. }
  destruct C as [[_ C]|[C1 C2]]; [lia|].
  destruct (Z.lt_ge_cases (significant_digits a) 19) as [Lt|Ge]; [|lia].
  assert (10 ^ significant_digits a <= 10 ^ 18)
    by (apply Z.pow_le_mono_r; lia).
  lia.
Qed.

(** While the accumulated number fits 64 bits, the main loop takes a run of
    digits into the mantissa exactly. *)
Lemma scan_digits_run ds : forall st p a rest,
  Forall is_digit ds -> digits_counted a ->
  (ds <> [] -> significant_digits a < 20) ->
  decimal_value (mantissa a) ds < 2 ^ 64 ->
  let a' := accumulate_digits a ds in
  resume st p (ds ++ rest) a = resume st (p + len ds) rest a'
  /\ mantissa a' = decimal_value (mantissa a) ds
  /\ digits_counted a'
  /\ digits a' = digits a + len ds
  /\ fractional_digits a'
     = (if 0 <=? fractional_digits a then fractional_digits a + len ds
        else fractional_digits a)
  /\ decimal_exponent a' = decimal_exponent a
  /\ negative a' = negative a.
Proof.
  induction ds as [|ch ds IH]; intros st p a rest F C S V a'.
  - subst a'. cbn [app accumulate_digits fold_left decimal_value].
    change (len []) with 0. rewrite !Z.add_0_r.
    repeat split; try reflexivity; try exact C.
    destruct (0 <=? fractional_digits a); reflexivity.
  - inversion F as [|? ? Hch F']; subst.
    destruct (digit_value_of_digit ch Hch) as [E Hd].
    assert (M0 : 0 <= mantissa a).
    { destruct C as [[_ C]|[C1 C2]]; [lia|].
      assert (0 < 10 ^ (significant_digits a - 1))
        by (apply Z.pow_pos_nonneg; lia). lia. }
    cbn [decimal_value fold_left] in V. fold (decimal_value (10 * mantissa a + (ch - chr "0")) ds) in V.
    pose proof (decimal_value_bounds ds (10 * mantissa a + (ch - chr "0")) F'
                  ltac:(lia)) as B.
    assert (P1 : 1 <= 10 ^ len ds)
      by (pose proof (Z.pow_pos_nonneg 10 (len ds) ltac:(lia)
                        (len_nonneg ds)); lia).
    assert (Fit : 10 * mantissa a + (ch - chr "0") < 2 ^ 64) by nia.
    destruct (accumulate_digit_fits a (ch - chr "0") C Hd Fit)
      as (A1 & A2 & A3 & A4 & A5 & A6).
    set (a1 := accumulate_digit a (ch - chr "0")) in *.
    assert (S1 : ds <> [] -> significant_digits a1 < 20).
    { intros Hne. destruct (Z.lt_ge_cases (significant_digits a1) 20) as [L|L];
        [exact L|exfalso].
      destruct A2 as [[A2 _]|[_ A2]]; [lia|].
      assert (10 ^ 19 <= 10 ^ (significant_digits a1 - 1))
        by (apply Z.pow_le_mono_r; lia).
      destruct ds as [|c ds']; [now apply Hne|].
      rewrite len_cons in B.
      rewrite Z.pow_add_r in B by (pose proof (len_nonneg ds'); lia).
      assert (1 <= 10 ^ len ds')
        by (pose proof (Z.pow_pos_nonneg 10 (len ds') ltac:(lia)
                          (len_nonneg ds')); lia).
      change (10 ^ 1) with 10 in B. change (2 ^ 64) with 18446744073709551616 in *.
      change (10 ^ 19) with 10000000000000000000 in *. nia. }
    rewrite <- A1 in V.
    destruct (IH st (p + 1) a1 rest F' A2 S1 V)
      as (I1 & I2 & I3 & I4 & I5 & I6 & I7).
    assert (EQ : a' = accumulate_digits a1 ds).
    { subst a' a1. cbn [accumulate_digits fold_left]. rewrite E. reflexivity. }
    rewrite EQ. rewrite len_cons.
    replace (p + (1 + len ds)) with (p + 1 + len ds) by lia.
    repeat split.
    + rewrite <- I1. cbn [app]. unfold resume at 1.
      destruct (Z.leb_spec 20 (significant_digits a)) as [L|L].
      * specialize (S ltac:(discriminate)). lia.
      * now apply scan_digits_digit.
    + rewrite I2, A1. reflexivity.
    + exact I3.
    + rewrite I4, A3. lia.
    + rewrite I5, A4. destruct (Z.leb_spec 0 (fractional_digits a)) as [L|L].
      * destruct (Z.leb_spec 0 (fractional_digits a + 1)); lia.
      * destruct (Z.leb_spec 0 (fractional_digits a)); lia.
    + rewrite I6, A5. reflexivity.
    + rewrite I7, A6. reflexivity.
Qed.

(** ** Literals *)

Lemma digits_counted_nonneg a : digits_counted a -> 0 <= mantissa a.
Proof.
  intros [[_ C]|[C1 C2]]; [lia|].
  assert (0 < 10 ^ (significant_digits a - 1))
    by (apply Z.pow_pos_nonneg; lia). lia.
Qed.

Lemma room_for_digits a ds :
  digits_counted a -> Forall is_digit ds -> ds <> [] ->
  decimal_value (mantissa a) ds < 2 ^ 64 -> significant_digits a < 20.
Proof.
  intros C F Hne V.
  destruct (Z.lt_ge_cases (significant_digits a) 20) as [L|L];
    [exact L|exfalso].
  pose proof (decimal_value_bounds ds (mantissa a) F
                (digits_counted_nonneg a C)) as B.
  destruct C as [[C _]|[_ C]]; [lia|].
  assert (10 ^ 19 <= 10 ^ (significant_digits a - 1))
    by (apply Z.pow_le_mono_r; lia).
  destruct ds as [|c ds']; [now apply Hne|].
  rewrite len_cons in B.
  rewrite Z.pow_add_r in B by (pose proof (len_nonneg ds'); lia).
  assert (1 <= 10 ^ len ds')
    by (pose proof (Z.pow_pos_nonneg 10 (len ds') ltac:(lia)
                      (len_nonneg ds')); lia).
  change (10 ^ 1) with 10 in B.
  change (2 ^ 64) with 18446744073709551616 in *.
  change (10 ^ 19) with 10000000000000000000 in *. nia.
Qed.

(** The first decimal point, in either loop. *)
Lemma resume_point st p w a :
  fractional_digits a < 0 ->
  resume st p (chr "." :: w) a
  = resume st (p + 1) w (set_fractional_digits a 0).
Proof.
  intros Hfd. unfold resume. simpl_scan.
  destruct (20 <=? significant_digits a) eqn:E.
  - cbn [skip_digits]. change (chr "." =? chr ".") with true.
    apply Z.ltb_lt in Hfd. rewrite Hfd. reflexivity.
  - cbn [scan_digits]. change (u64 (chr "." - 48) <=? 9) with false.
    change (chr "." =? chr ".") with true. cbv iota.
    destruct (Z.leb_spec 0 (fractional_digits a)) as [L|L]; [lia|].
    simpl_scan. rewrite E. reflexivity.
Qed.

Lemma len_app l1 l2 : len (l1 ++ l2) = len l1 + len l2.
Proof. unfold len. rewrite length_app. lia. Qed.

(** The digits of the mantissa after the first byte: a run of digits, then
    possibly a point and a second run. *)
Lemma scan_mantissa_tail st p a ds frac w :
  Forall is_digit ds -> Forall is_digit (fraction_digits frac) ->
  digits_counted a -> significant_digits a < 20 ->
  fractional_digits a = -1 ->
  decimal_value (mantissa a) (ds ++ fraction_digits frac) < 2 ^ 64 ->
  exists a',
    scan_digits st p (ds ++ fraction_bytes frac ++ w) a
    = resume st (p + len ds + len (fraction_bytes frac)) w a'
    /\ mantissa a' = decimal_value (mantissa a) (ds ++ fraction_digits frac)
    /\ digits_counted a'
    /\ digits a' = digits a + len ds + len (fraction_digits frac)
    /\ fractional_digits a'
       = match frac with None => -1 | Some fs => len fs end
    /\ decimal_exponent a' = decimal_exponent a
    /\ negative a' = negative a.
Proof.
  intros Fd Ff C S Hfd V.
  rewrite decimal_value_app in V.
  assert (V1 : decimal_value (mantissa a) ds < 2 ^ 64).
  { pose proof (decimal_value_bounds (fraction_digits frac)
                  (decimal_value (mantissa a) ds) Ff) as B.
    pose proof (decimal_value_bounds ds (mantissa a) Fd
                  (digits_counted_nonneg a C)) as B1.
    assert (0 <= mantissa a * 10 ^ len ds).
    { apply Z.mul_nonneg_nonneg;
        [now apply digits_counted_nonneg|].
      apply Z.pow_nonneg. lia. }
    specialize (B ltac:(lia)).
    assert (1 <= 10 ^ len (fraction_digits frac))
      by (pose proof (Z.pow_pos_nonneg 10 (len (fraction_digits frac))
                        ltac:(lia) (len_nonneg _)); lia).
    nia. }
  destruct (scan_digits_run ds st p a (fraction_bytes frac ++ w) Fd C
              (fun _ => S) V1) as (R1 & R2 & R3 & R4 & R5 & R6 & R7).
  set (a1 := accumulate_digits a ds) in *.
  assert (R0 : scan_digits st p (ds ++ fraction_bytes frac ++ w) a
               = resume st (p + len ds) (fraction_bytes frac ++ w) a1).
  { rewrite <- R1. unfold resume.
    destruct (Z.leb_spec 20 (significant_digits a)); [lia|reflexivity]. }
  rewrite Hfd in R5. change (0 <=? -1) with false in R5. cbv iota in R5.
  destruct frac as [fs|]; cbn [fraction_bytes fraction_digits app] in *.
  - rewrite resume_point in R0 by lia.
    set (a2 := set_fractional_digits a1 0) in *.
    assert (C2 : digits_counted a2) by exact R3.
    assert (V2 : decimal_value (mantissa a2) fs < 2 ^ 64).
    { subst a2. simpl_scan. rewrite R2. exact V. }
    destruct (scan_digits_run fs st (p + len ds + 1) a2 w Ff C2
                (fun Hne => room_for_digits a2 fs C2 Ff Hne V2) V2)
      as (Q1 & Q2 & Q3 & Q4 & Q5 & Q6 & Q7).
    exists (accumulate_digits a2 fs).
    rewrite len_cons.
    replace (p + len ds + (1 + len fs)) with (p + len ds + 1 + len fs) by lia.
    repeat split.
    + rewrite R0. exact Q1.
    + rewrite Q2. subst a2. simpl_scan. rewrite R2.
      now rewrite decimal_value_app.
    + exact Q3.
    + rewrite Q4. subst a2. simpl_scan. rewrite R4. reflexivity.
    + rewrite Q5. subst a2. simpl_scan. reflexivity.
    + rewrite Q6. subst a2. simpl_scan. exact R6.
    + rewrite Q7. subst a2. simpl_scan. exact R7.
  - exists a1. change (len []) with 0. rewrite !Z.add_0_r.
    rewrite app_nil_r in *. cbn [app] in R0.
    repeat split; assumption.
Qed.

(** The scanner on the mantissa of a literal whose digits fit 64 bits. *)
Lemma scan_mantissa st p sg ds frac w :
  Forall is_digit ds -> Forall is_digit (fraction_digits frac) ->
  decimal_value 0 (ds ++ fraction_digits frac) < 2 ^ 64 ->
  mantissa_bytes sg ds frac <> [] ->
  exists a,
    scan st {| ptr := p; window := mantissa_bytes sg ds frac ++ w |}
    = resume st (p + len (mantissa_bytes sg ds frac)) w a
    /\ literal_scanned sg ds frac a.
Proof.
  intros Fd Ff V Hne. unfold mantissa_bytes in *.
  assert (Signed : forall neg,
    exists a,
      scan_digits st (p + 1) (ds ++ fraction_bytes frac ++ w)
        {| negative := neg; mantissa := 0; digits := 0;
           significant_digits := 0; fractional_digits := -1;
           decimal_exponent := 0 |}
      = resume st (p + 1 + len ds + len (fraction_bytes frac)) w a
      /\ mantissa a = decimal_value 0 (ds ++ fraction_digits frac)
      /\ digits_counted a
      /\ digits a = len ds + len (fraction_digits frac)
      /\ fractional_digits a
         = match frac with None => -1 | Some fs => len fs end
      /\ decimal_exponent a = 0 /\ negative a = neg).
  { intros neg.
    destruct (scan_mantissa_tail st (p + 1)
                {| negative := neg; mantissa := 0; digits := 0;
                   significant_digits := 0; fractional_digits := -1;
                   decimal_exponent := 0 |} ds frac w Fd Ff)
      as (a & H); simpl_scan; try lia; try exact V.
    - left. split; reflexivity.
    - exists a. exact H. }
  destruct sg; cbn [sign_bytes sign_negative app].
  - (* no sign: the first byte goes through the switch *)
    destruct ds as [|ch ds].
    + destruct frac as [fs|]; [|now elim Hne].
      cbn [app fraction_bytes fraction_digits] in *.
      set (a0 := {| negative := false; mantissa := 0; digits := 0;
                    significant_digits := 0; fractional_digits := 0;
                    decimal_exponent := 0 |}).
      assert (C0 : digits_counted a0) by (left; split; reflexivity).
      destruct (scan_digits_run fs st (p + 1) a0 w Ff C0
                  (fun _ => ltac:(cbn; lia)) V)
        as (Q1 & Q2 & Q3 & Q4 & Q5 & Q6 & Q7).
      exists (accumulate_digits a0 fs). split.
      * unfold scan. cbn [window ptr].
        change (chr "." =? chr "-") with false.
        change (chr "." =? chr "+") with false.
        change (chr "." =? chr "0") with false.
        change ((chr "1" <=? chr ".") && (chr "." <=? chr "9")) with false.
        change (chr "." =? chr ".") with true. cbv iota.
        fold a0. rewrite len_cons.
        replace (p + (1 + len fs)) with (p + 1 + len fs) by lia.
        rewrite <- Q1. unfold resume. reflexivity.
      * unfold literal_scanned. cbn [fraction_digits app sign_negative].
        change (len []) with 0. rewrite Q2, Q4, Q5, Q6, Q7.
        repeat split; try reflexivity; exact Q3.
    + inversion Fd as [|? ? Hch Fd']; subst.
      destruct (digit_value_of_digit ch Hch) as [E Hd].
      cbn [app decimal_value fold_left] in V.
      change (10 * 0 + (ch - chr "0")) with (ch - chr "0") in V.
      fold (decimal_value (ch - chr "0") (ds ++ fraction_digits frac)) in V.
      set (a0 := {| negative := false; mantissa := ch - chr "0";
                    digits := 1;
                    significant_digits := if ch =? chr "0" then 0 else 1;
                    fractional_digits := -1; decimal_exponent := 0 |}).
      assert (C0 : digits_counted a0).
      { unfold digits_counted, a0. simpl_scan.
        destruct (Z.eqb_spec ch (chr "0")) as [Z0|Z0].
        - left. split; [reflexivity|lia].
        - right. change (10 ^ (1 - 1)) with 1. change (10 ^ 1) with 10.
          lia. }
      destruct (scan_mantissa_tail st (p + 1) a0 ds frac w Fd' Ff C0)
        as (a & H1 & H2 & H3 & H4 & H5 & H6 & H7).
      { unfold a0. simpl_scan. destruct (ch =? chr "0"); lia. }
      { reflexivity. }
      { exact V. }
      exists a. split.
      * unfold scan. cbn [window ptr app].
        unfold is_digit in Hch. revert Hch Hd E.
        change (chr "0") with 48. change (chr "9") with 57.
        change (chr "1") with 49. change (chr "-") with 45.
        change (chr "+") with 43. intros Hch Hd E.
        destruct (Z.eqb_spec ch 45) as [|_]; [lia|].
        destruct (Z.eqb_spec ch 43) as [|_]; [lia|].
        rewrite len_cons, len_app, <- app_assoc.
        replace (p + (1 + (len ds + len (fraction_bytes frac))))
          with (p + 1 + len ds + len (fraction_bytes frac)) by lia.
        rewrite <- H1. unfold a0. change (chr "0") with 48.
        destruct (Z.eqb_spec ch 48) as [Z0|Z0].
        -- subst ch. reflexivity.
        -- destruct (Z.leb_spec 49 ch); [|lia].
           destruct (Z.leb_spec ch 57); [|lia]. reflexivity.
      * unfold literal_scanned. cbn [sign_negative].
        rewrite H2, H4, H5, H6, H7. unfold a0. simpl_scan.
        cbn [app decimal_value fold_left]. rewrite len_cons.
        repeat split; try reflexivity; try exact H3; lia.
  - destruct (Signed false) as (a & H1 & H); exists a. split.
    + unfold scan. cbn [window ptr app].
      change (chr "+" =? chr "-") with false.
      change (chr "+" =? chr "+") with true. cbv iota.
      rewrite <- app_assoc, H1. rewrite len_cons, len_app.
      f_equal. lia.
    + exact H.
  - destruct (Signed true) as (a & H1 & H); exists a. split.
    + unfold scan. cbn [window ptr app].
      change (chr "-" =? chr "-") with true. cbv iota.
      rewrite <- app_assoc, H1. rewrite len_cons, len_app.
      f_equal. lia.
    + exact H.
Qed.

(** ** The end of the mantissa and the exponent *)

Lemma nondigit_tests ch :
  0 <= ch < 256 -> ~ is_digit ch ->
  (u64 (ch - 48) <=? 9) = false
  /\ ((ch <? chr "0") || (ch >? chr "9")) = true.
Proof.
  unfold is_digit. change (chr "0") with 48. change (chr "9") with 57.
  intros R N. split.
  - apply Z.leb_gt. destruct (Z.lt_ge_cases ch 48) as [L|L].
    + unfold u64.
      rewrite <- (Z.mod_unique (ch - 48) (2 ^ 64) (-1) (ch - 48 + 2 ^ 64));
        lia.
    + rewrite u64_small by lia. lia.
  - destruct (Z.ltb_spec ch 48) as [L|L]; [reflexivity|].
    rewrite Z.gtb_ltb. apply Z.ltb_lt. lia.
Qed.

Lemma resume_ends st p w a :
  failed st = false -> digits a <> 0 -> ends_number w ->
  resume st p w a = Goto_end_of_number st {| ptr := p; window := w |} a.
Proof.
  intros F D E. unfold resume.
  destruct w as [|ch w].
  - destruct (20 <=? significant_digits a); cbn [skip_digits scan_digits];
      unfold datastream_fetch; rewrite F; reflexivity.
  - destruct E as (R & N & E1 & E2 & E3).
    destruct (nondigit_tests ch R N) as [T1 T2].
    apply Z.eqb_neq in E1, E2, E3, D.
    destruct (20 <=? significant_digits a); cbn [skip_digits scan_digits].
    + rewrite E1, E2, E3, T2. reflexivity.
    + rewrite T1, E1, E2, E3, D. cbn [andb orb negb].
      rewrite !andb_false_r. reflexivity.
Qed.

Lemma resume_exponent_mark st p mark w a :
  mark = chr "e" \/ mark = chr "E" -> digits a <> 0 ->
  resume st p (mark :: w) a
  = parse_exponent st {| ptr := p; window := mark :: w |} a.
Proof.
  intros M D. apply Z.eqb_neq in D. unfold resume.
  destruct (20 <=? significant_digits a); cbn [skip_digits scan_digits];
    destruct M; subst mark; rewrite ?D; reflexivity.
Qed.

Lemma parse_exponent_signed st p mark esg xs rest a :
  Forall is_digit xs -> xs <> [] ->
  parse_exponent st
    {| ptr := p; window := mark :: sign_bytes esg ++ xs ++ rest |} a
  = exponent_digits st (p + 1 + len (sign_bytes esg)) (xs ++ rest) a
      (sign_negative esg) 0.
Proof.
  intros F Hne. unfold parse_exponent, advance. cbn [window tl ptr].
  destruct esg; cbn [sign_bytes app sign_negative].
  - destruct xs as [|ch xs]; [now elim Hne|].
    inversion F as [|? ? Hch _]; subst. cbn [app].
    unfold is_digit in Hch. revert Hch.
    change (chr "0") with 48. change (chr "9") with 57.
    change (chr "-") with 45. change (chr "+") with 43. intros Hch.
    destruct (Z.eqb_spec ch 45); [lia|].
    destruct (Z.eqb_spec ch 43); [lia|].
    change (len []) with 0. rewrite Z.add_0_r. reflexivity.
  - change (chr "+" =? chr "-") with false.
    change (chr "+" =? chr "+") with true. reflexivity.
  - change (chr "-" =? chr "-") with true. reflexivity.
Qed.

Lemma exponent_digits_run xs : forall st p a ne ae rest,
  Forall is_digit xs -> 0 <= ae -> decimal_value ae xs < 2 ^ 64 ->
  exponent_digits st p (xs ++ rest) a ne ae
  = exponent_digits st (p + len xs) rest a ne (decimal_value ae xs).
Proof.
  induction xs as [|ch xs IH]; intros st p a ne ae rest F A V.
  - cbn [app decimal_value fold_left]. change (len []) with 0.
    now rewrite Z.add_0_r.
  - inversion F as [|? ? Hch F']; subst.
    destruct (digit_value_of_digit ch Hch) as [E Hd].
    destruct (digit_tests ch Hch) as (T0 & _).
    cbn [decimal_value fold_left] in V |- *.
    fold (decimal_value (10 * ae + (ch - chr "0")) xs) in V |- *.
    pose proof (decimal_value_bounds xs (10 * ae + (ch - chr "0")) F'
                  ltac:(lia)) as B.
    assert (1 <= 10 ^ len xs)
      by (pose proof (Z.pow_pos_nonneg 10 (len xs) ltac:(lia)
                        (len_nonneg xs)); lia).
    assert (Fit : 10 * ae + (ch - chr "0") < 2 ^ 64) by nia.
    cbn [app exponent_digits]. rewrite T0, E.
    rewrite (proj2 (limit_exact ae (ch - chr "0") Hd) Fit).
    rewrite u64_small by lia. rewrite IH by (assumption || lia).
    rewrite len_cons. f_equal. lia.
Qed.

Lemma exponent_digits_overflow xs : forall st p a ne ae rest,
  Forall is_digit xs -> 0 <= ae < 2 ^ 64 -> 2 ^ 64 <= decimal_value ae xs ->
  exists s',
    exponent_digits st p (xs ++ rest) a ne ae
    = if ne || (significant_digits a =? 0)
      then Goto_return_possibly_signed_zero st s' (negative a)
      else Goto_return_possibly_signed_infinity st s' (negative a).
Proof.
  induction xs as [|ch xs IH]; intros st p a ne ae rest F A V.
  - cbn [decimal_value fold_left] in V. lia.
  - inversion F as [|? ? Hch F']; subst.
    destruct (digit_value_of_digit ch Hch) as [E Hd].
    destruct (digit_tests ch Hch) as (T0 & _).
    cbn [decimal_value fold_left] in V.
    fold (decimal_value (10 * ae + (ch - chr "0")) xs) in V.
    cbn [app exponent_digits]. rewrite T0, E.
    pose proof (limit_exact ae (ch - chr "0") Hd) as G.
    destruct (ae >? limit (ch - chr "0")).
    + eexists. destruct (ne || (significant_digits a =? 0)); reflexivity.
    + pose proof (proj1 G eq_refl) as Fit.
      rewrite u64_small by lia. apply IH; [exact F'|lia|exact V].
Qed.

Lemma exponent_digits_ends st p w a ne ae :
  failed st = false -> ends_exponent w ->
  exponent_digits st p w a ne ae
  = end_of_exponent st {| ptr := p; window := w |} a ne ae.
Proof.
  intros F E. destruct w as [|ch w]; cbn [exponent_digits].
  - unfold datastream_fetch. rewrite F. reflexivity.
  - destruct E as [R N]. destruct (nondigit_tests ch R N) as [T _].
    rewrite T. reflexivity.
Qed.

(** ** Overflow and underflow of the decimal exponent *)

Lemma end_of_number_zero st s a :
  digits a <> 0 -> 512 <= fractional_digits a ->
  end_of_number st s a = return_possibly_signed_zero st s (negative a).
Proof.
  intros D F. unfold end_of_number. apply Z.eqb_neq in D. rewrite D.
  destruct (significant_digits a =? 0); [reflexivity|].
  destruct (Z.ltb_spec 0 (fractional_digits a)); [|lia].
  destruct (Z.leb_spec 512 (fractional_digits a)); [reflexivity|lia].
Qed.

Lemma end_of_number_infinity st s a :
  digits a <> 0 -> significant_digits a <> 0 ->
  fractional_digits a <= 0 -> 512 <= decimal_exponent a ->
  end_of_number st s a = return_possibly_signed_infinity st s (negative a).
Proof.
  intros D S F E. unfold end_of_number.
  apply Z.eqb_neq in D, S. rewrite D, S.
  destruct (Z.ltb_spec 0 (fractional_digits a)); [lia|].
  destruct (Z.eqb_spec (decimal_exponent a) 0); [lia|]. cbn [negb].
  destruct (Z.leb_spec 512 (decimal_exponent a)); [reflexivity|lia].
Qed.

Lemma end_of_number_keeps_status st s a :
  digits a <> 0 -> status (end_of_number st s a) = st.
Proof.
  intros D. destruct (end_of_number_status st s a) as [[D0 _]|[_ E]];
    [contradiction|exact E].
Qed.

Lemma i64_small z : 0 <= z < 2 ^ 63 -> i64 z = z.
Proof.
  intros H. unfold i64. rewrite Z.mod_small by lia.
  destruct (Z.ltb_spec z (2 ^ 63)); lia.
Qed.

(** The explicit exponent folded into the counters of a literal whose
    mantissa was taken exactly, and the number assembled from them. *)
Lemma end_of_exponent_saturates st s a (ne : bool) x f :
  digits a <> 0 -> significant_digits a <> 0 ->
  decimal_exponent a = 0 -> fractional_digits a = f ->
  -1 <= f < 2 ^ 63 -> 0 <= x < 2 ^ 64 ->
  let net := (if ne then - x else x) - Z.max f 0 in
  let o := continue_at (end_of_exponent st s a ne x) in
  status o = st
  /\ (512 <= net ->
      value o = value (return_possibly_signed_infinity st s (negative a)))
  /\ (net <= -512 ->
      value o = value (return_possibly_signed_zero st s (negative a))).
Proof.
  intros D S DE FD Hf Hx net o. subst o net.
  assert (EON : forall fd de,
    let a' := set_decimal_exponent (set_fractional_digits a fd) de in
    digits a' <> 0 /\ significant_digits a' <> 0
    /\ negative a' = negative a /\ fractional_digits a' = fd
    /\ decimal_exponent a' = de).
  { intros fd de. simpl_scan. repeat split; assumption. }
  unfold end_of_exponent. rewrite DE, FD.
  destruct (ne && negb (x =? 0)) eqn:B.
  - apply andb_prop in B. destruct B as [B1 B2]. subst ne.
    apply negb_true_iff in B2. apply Z.eqb_neq in B2.
    destruct (Z.leb_spec x 0) as [L|_]; [lia|].
    rewrite Z.sub_0_r.
    assert (F0 : (if f <? 0 then 0 else f) = Z.max f 0).
    { destruct (Z.ltb_spec f 0); lia. }
    rewrite F0. rewrite (u64_small (Z.max f 0)) by lia.
    set (sum := Z.max f 0 + x).
    assert (Hs : 1 <= sum < 2 ^ 64 + 2 ^ 63) by (subst sum; lia).
    destruct (Z.lt_ge_cases sum (2 ^ 63)) as [C1|C1].
    + rewrite (i64_small sum) by lia. rewrite (u64_small sum) by lia.
      destruct (Z.ltb_spec sum 0) as [|_]; [lia|].
      destruct (Z.ltb_spec sum x) as [|_]; [subst sum; lia|].
      cbn [orb continue_at].
      destruct (EON sum 0) as (E1 & E2 & E3 & E4 & E5).
      split; [now apply end_of_number_keeps_status|]. split; [lia|].
      intros N. rewrite end_of_number_zero; [|exact E1|rewrite E4; lia].
      cbn [value return_possibly_signed_zero]. now rewrite E3.
    + replace ((i64 sum <? 0) || (u64 (i64 sum) <? x)) with true.
      { cbn [continue_at return_possibly_signed_zero status value].
        split; [reflexivity|]. split; [lia|reflexivity]. }
      symmetry. apply orb_true_iff. unfold i64.
      destruct (Z.lt_ge_cases sum (2 ^ 64)) as [C2|C2].
      * left. rewrite Z.mod_small by lia.
        destruct (Z.ltb_spec sum (2 ^ 63)); [lia|]. apply Z.ltb_lt. lia.
      * right.
        assert (M : sum mod 2 ^ 64 = sum - 2 ^ 64).
        { symmetry. apply Z.mod_unique with (q := 1); lia. }
        rewrite M. destruct (Z.ltb_spec (sum - 2 ^ 64) (2 ^ 63)); [|lia].
        rewrite u64_small by lia. apply Z.ltb_lt. subst sum. lia.
  - assert (NE : ne = false \/ x = 0).
    { destruct ne; [right|left; reflexivity]. cbn in B.
      apply negb_false_iff in B. now apply Z.eqb_eq in B. }
    destruct (Z.ltb_spec 0 f) as [P|P].
    + rewrite (u64_small f) by lia.
      destruct (Z.leb_spec x f) as [L|L].
      * rewrite (i64_small x) by lia.
        change (u64 (0 + 0)) with 0. change (0 <? 0) with false.
        cbn [continue_at].
        destruct (EON (f - x) 0) as (E1 & E2 & E3 & E4 & E5).
        split; [now apply end_of_number_keeps_status|].
        split; [destruct ne, NE; subst; try discriminate; lia|].
        intros N. rewrite end_of_number_zero;
          [|exact E1|rewrite E4; destruct ne, NE; subst; try discriminate; lia].
        cbn [value return_possibly_signed_zero]. now rewrite E3.
      * rewrite Z.add_0_l. rewrite (u64_small (x - f)) by lia.
        destruct (Z.ltb_spec (x - f) (x - f)) as [|_]; [lia|].
        cbn [continue_at].
        destruct (EON 0 (x - f)) as (E1 & E2 & E3 & E4 & E5).
        split; [now apply end_of_number_keeps_status|].
        destruct NE as [NE|NE]; [subst ne|lia]. split; [|lia].
        intros N. rewrite end_of_number_infinity;
          [|exact E1|exact E2|rewrite E4; lia|rewrite E5; lia].
        cbn [value return_possibly_signed_infinity]. now rewrite E3.
    + rewrite Z.add_0_l. rewrite (u64_small x) by lia.
      destruct (Z.ltb_spec x x) as [|_]; [lia|]. cbn [continue_at].
      destruct (EON f x) as (E1 & E2 & E3 & E4 & E5).
      split; [now apply end_of_number_keeps_status|].
      split; [|destruct ne, NE; subst; try discriminate; lia].
      intros N. rewrite end_of_number_infinity;
        [|exact E1|exact E2|rewrite E4; lia
         |rewrite E5; destruct ne, NE; subst; try discriminate; lia].
      cbn [value return_possibly_signed_infinity]. now rewrite E3.
Qed.

Lemma mantissa_bytes_nonempty sg ds frac :
  0 < decimal_value 0 (ds ++ fraction_digits frac) ->
  mantissa_bytes sg ds frac <> [] /\ 0 < len ds + len (fraction_digits frac).
Proof.
  intros V. unfold mantissa_bytes.
  destruct ds as [|d ds].
  - destruct frac as [fs|]; cbn [fraction_digits app] in V.
    + destruct fs as [|f fs]; [cbn in V; lia|]. split.
      * destruct sg; discriminate.
      * cbn [fraction_digits]. rewrite len_cons. pose proof (len_nonneg fs).
        change (len []) with 0. lia.
    + cbn in V. lia.
  - split.
    + destruct sg; discriminate.
    + rewrite len_cons. pose proof (len_nonneg ds).
      pose proof (len_nonneg (fraction_digits frac)). lia.
Qed.

(** ** Doubles as rationals *)

Lemma scale_positive : (0 < inject_Z (2 ^ 1074))%Q.
Proof.
  change 0%Q with (inject_Z 0). rewrite <- Zlt_Qlt.
  apply Z.pow_pos_nonneg; lia.
Qed.

Lemma Qabs_inject k : Qabs (inject_Z k) = inject_Z (Z.abs k).
Proof. reflexivity. Qed.

Lemma scaled_distance b z :
  (Qabs (double_value b - inject_Z z)
   == inject_Z (Z.abs (dbl_scaled b - z * 2 ^ 1074))
      / inject_Z (2 ^ 1074))%Q.
Proof.
  pose proof scale_positive as P.
  assert (N : ~ (inject_Z (2 ^ 1074) == 0)%Q).
  { intros E. rewrite E in P. discriminate P. }
  unfold double_value.
  assert (E : (inject_Z (dbl_scaled b) / inject_Z (2 ^ 1074) - inject_Z z
               == inject_Z (dbl_scaled b - z * 2 ^ 1074)
                  * / inject_Z (2 ^ 1074))%Q).
  { unfold Z.sub. rewrite inject_Z_plus, inject_Z_opp, inject_Z_mult.
    field. exact N. }
  rewrite E, Qabs_Qmult, Qabs_inject.
  rewrite (Qabs_pos (/ inject_Z (2 ^ 1074))).
  - reflexivity.
  - apply Qlt_le_weak, Qinv_lt_0_compat, P.
Qed.

Lemma scaled_magnitude b :
  (Qabs (double_value b)
   == inject_Z (Z.abs (dbl_scaled b)) / inject_Z (2 ^ 1074))%Q.
Proof.
  pose proof (scaled_distance b 0) as H.
  rewrite Z.mul_0_l, Z.sub_0_r in H. rewrite <- H.
  apply Qabs_wd. unfold Qminus. change (- inject_Z 0)%Q with 0%Q.
  now rewrite Qplus_0_r.
Qed.

Lemma scaled_le a b :
  (inject_Z a / inject_Z (2 ^ 1074) <= inject_Z b / inject_Z (2 ^ 1074))%Q
  <-> a <= b.
Proof.
  pose proof scale_positive as P. unfold Qdiv.
  rewrite Zle_Qle. split; intros H.
  - apply Qmult_le_r with (z := (/ inject_Z (2 ^ 1074))%Q);
      [now apply Qinv_lt_0_compat|exact H].
  - apply Qmult_le_r; [now apply Qinv_lt_0_compat|exact H].
Qed.

Lemma scaled_lt a b :
  (inject_Z a / inject_Z (2 ^ 1074) < inject_Z b / inject_Z (2 ^ 1074))%Q
  <-> a < b.
Proof.
  pose proof scale_positive as P. unfold Qdiv.
  rewrite Zlt_Qlt. split; intros H.
  - apply Qmult_lt_r with (z := (/ inject_Z (2 ^ 1074))%Q);
      [now apply Qinv_lt_0_compat|exact H].
  - apply Qmult_lt_r; [now apply Qinv_lt_0_compat|exact H].
Qed.

Lemma scaled_eq a b :
  (inject_Z a / inject_Z (2 ^ 1074) == inject_Z b / inject_Z (2 ^ 1074))%Q
  <-> a = b.
Proof.
  split; intros H.
  - apply Z.le_antisymm; apply scaled_le; rewrite H; apply Qle_refl.
  - subst. reflexivity.
Qed.

(** ** Normalization *)

Lemma land_top_mask m j k :
  0 <= j -> 0 <= k -> 0 <= m < 2 ^ (j + k) ->
  Z.land m (Z.shiftl (Z.ones k) j) = m / 2 ^ j * 2 ^ j.
Proof.
  intros Hj Hk Hm. apply Z.bits_inj'. intros n Hn.
  rewrite Z.land_spec.
  destruct (Z.lt_ge_cases n j) as [L|L].
  - rewrite Z.shiftl_spec_low by exact L.
    rewrite Z.mul_pow2_bits_low by exact L. apply andb_false_r.
  - rewrite Z.shiftl_spec_high by lia.
    rewrite Z.mul_pow2_bits by lia.
    rewrite Z.div_pow2_bits by lia.
    replace (n - j + j) with n by lia.
    destruct (Z.lt_ge_cases (n - j) k) as [L2|L2].
    + rewrite Z.ones_spec_low by lia. apply andb_true_r.
    + rewrite Z.ones_spec_high by lia.
      rewrite (testbit_small m (j + k) n) by lia. reflexivity.
Qed.

Lemma normalize_step_spec k n m e :
  1 <= k <= 32 -> 0 <= e <= 63 ->
  2 ^ (64 - 2 * k) <= m < 2 ^ 64 -> m = n * 2 ^ (63 - e) ->
  let me := normalize_step (Z.shiftl (Z.ones k) (64 - k)) k (m, e) in
  2 ^ (64 - k) <= fst me < 2 ^ 64
  /\ fst me = n * 2 ^ (63 - snd me) /\ snd me <= 63.
Proof.
  intros Hk He Hm Hn me. subst me. unfold normalize_step. cbn [fst snd].
  assert (P0 : 0 < 2 ^ (64 - 2 * k)) by (apply Z.pow_pos_nonneg; lia).
  rewrite land_top_mask; [|lia|lia|].
  2:{ replace (64 - k + k) with 64 by lia. lia. }
  assert (Pk : 0 < 2 ^ (64 - k)) by (apply Z.pow_pos_nonneg; lia).
  assert (Sp : 2 ^ 64 = 2 ^ (64 - k) * 2 ^ k).
  { rewrite <- Z.pow_add_r by lia. f_equal. lia. }
  assert (Sq : 2 ^ (64 - k) = 2 ^ (64 - 2 * k) * 2 ^ k).
  { rewrite <- Z.pow_add_r by lia. f_equal. lia. }
  assert (P2 : 0 < 2 ^ k) by (apply Z.pow_pos_nonneg; lia).
  destruct (Z.eqb_spec (m / 2 ^ (64 - k) * 2 ^ (64 - k)) 0) as [Z0|Z0].
  - assert (Small : m < 2 ^ (64 - k)).
    { pose proof (Z.div_mod m (2 ^ (64 - k)) ltac:(lia)).
      pose proof (Z.mod_pos_bound m (2 ^ (64 - k)) Pk). lia. }
    rewrite Z.shiftl_mul_pow2 by lia.
    assert (Lo : 2 ^ (64 - k) <= m * 2 ^ k).
    { rewrite Sq. apply Z.mul_le_mono_nonneg_r; lia. }
    assert (Hi : m * 2 ^ k < 2 ^ 64).
    { rewrite Sp. apply Z.mul_lt_mono_pos_r; lia. }
    rewrite u64_small by lia. cbn [fst snd].
    split; [lia|]. split; [|lia].
    rewrite Hn, <- Z.mul_assoc, <- Z.pow_add_r by lia.
    f_equal. f_equal. lia.
  - assert (Big : 2 ^ (64 - k) <= m).
    { destruct (Z.lt_ge_cases m (2 ^ (64 - k))) as [L|L]; [|exact L].
      rewrite Z.div_small in Z0 by lia. lia. }
    cbn [fst snd]. split; [lia|]. split; [exact Hn|lia].
Qed.

(** [normalize] finds the binary exponent of [n] and leaves the bits below
    the leading one, left-aligned. *)
Lemma normalize_spec n :
  0 < n < 2 ^ 64 ->
  let e := snd (normalize n) in
  0 <= e <= 63 /\ 2 ^ e <= n < 2 ^ (e + 1)
  /\ fst (normalize n) = (n - 2 ^ e) * 2 ^ (64 - e).
Proof.
  intros Hn. unfold normalize.
  change 0xffffffff00000000 with (Z.shiftl (Z.ones 32) (64 - 32)).
  change 0xffff000000000000 with (Z.shiftl (Z.ones 16) (64 - 16)).
  change 0xff00000000000000 with (Z.shiftl (Z.ones 8) (64 - 8)).
  change 0xf000000000000000 with (Z.shiftl (Z.ones 4) (64 - 4)).
  change 0xc000000000000000 with (Z.shiftl (Z.ones 2) (64 - 2)).
  change 0x8000000000000000 with (Z.shiftl (Z.ones 1) (64 - 1)).
  set (s1 := normalize_step _ 32 (n, 63)).
  assert (H1 : 2 ^ (64 - 32) <= fst s1 < 2 ^ 64
               /\ fst s1 = n * 2 ^ (63 - snd s1) /\ snd s1 <= 63).
  { apply normalize_step_spec;
      [lia|lia|change (2 ^ (64 - 2 * 32)) with 1; lia
      |change (2 ^ (63 - 63)) with 1; lia]. }
  assert (E1 : 0 <= snd s1).
  { subst s1. unfold normalize_step. cbn [fst snd].
    destruct (_ =? 0); cbn [snd]; lia. }
  destruct s1 as [m1 e1]. cbn [fst snd] in *.
  set (s2 := normalize_step _ 16 (m1, e1)).
  assert (H2 : 2 ^ (64 - 16) <= fst s2 < 2 ^ 64
               /\ fst s2 = n * 2 ^ (63 - snd s2) /\ snd s2 <= 63).
  { apply normalize_step_spec;
      [lia|lia|change (2 ^ (64 - 2 * 16)) with (2 ^ (64 - 32)); lia|tauto]. }
  assert (E2 : e1 - 16 <= snd s2).
  { subst s2. unfold normalize_step. cbn [fst snd].
    destruct (_ =? 0); cbn [snd]; lia. }
  destruct s2 as [m2 e2]. cbn [fst snd] in *.
  assert (B2 : 0 <= e2).
  { destruct H2 as (H2a & H2b & _).
    destruct (Z.lt_ge_cases e2 0) as [L|L]; [|exact L].
    assert (2 ^ 64 <= 2 ^ (63 - e2)) by (apply Z.pow_le_mono_r; lia).
    nia. }
  set (s3 := normalize_step _ 8 (m2, e2)).
  assert (H3 : 2 ^ (64 - 8) <= fst s3 < 2 ^ 64
               /\ fst s3 = n * 2 ^ (63 - snd s3) /\ snd s3 <= 63).
  { apply normalize_step_spec;
      [lia|lia|change (2 ^ (64 - 2 * 8)) with (2 ^ (64 - 16)); lia|tauto]. }
  destruct s3 as [m3 e3]. cbn [fst snd] in *.
  assert (B3 : 0 <= e3).
  { destruct H3 as (H3a & H3b & _).
    destruct (Z.lt_ge_cases e3 0) as [L|L]; [|exact L].
    assert (2 ^ 64 <= 2 ^ (63 - e3)) by (apply Z.pow_le_mono_r; lia).
    nia. }
  set (s4 := normalize_step _ 4 (m3, e3)).
  assert (H4 : 2 ^ (64 - 4) <= fst s4 < 2 ^ 64
               /\ fst s4 = n * 2 ^ (63 - snd s4) /\ snd s4 <= 63).
  { apply normalize_step_spec;
      [lia|lia|change (2 ^ (64 - 2 * 4)) with (2 ^ (64 - 8)); lia|tauto]. }
  destruct s4 as [m4 e4]. cbn [fst snd] in *.
  assert (B4 : 0 <= e4).
  { destruct H4 as (H4a & H4b & _).
    destruct (Z.lt_ge_cases e4 0) as [L|L]; [|exact L].
    assert (2 ^ 64 <= 2 ^ (63 - e4)) by (apply Z.pow_le_mono_r; lia).
    nia. }
  set (s5 := normalize_step _ 2 (m4, e4)).
  assert (H5 : 2 ^ (64 - 2) <= fst s5 < 2 ^ 64
               /\ fst s5 = n * 2 ^ (63 - snd s5) /\ snd s5 <= 63).
  { apply normalize_step_spec;
      [lia|lia|change (2 ^ (64 - 2 * 2)) with (2 ^ (64 - 4)); lia|tauto]. }
  destruct s5 as [m5 e5]. cbn [fst snd] in *.
  assert (B5 : 0 <= e5).
  { destruct H5 as (H5a & H5b & _).
    destruct (Z.lt_ge_cases e5 0) as [L|L]; [|exact L].
    assert (2 ^ 64 <= 2 ^ (63 - e5)) by (apply Z.pow_le_mono_r; lia).
    nia. }
  set (s6 := normalize_step _ 1 (m5, e5)).
  assert (H6 : 2 ^ (64 - 1) <= fst s6 < 2 ^ 64
               /\ fst s6 = n * 2 ^ (63 - snd s6) /\ snd s6 <= 63).
  { apply normalize_step_spec;
      [lia|lia|change (2 ^ (64 - 2 * 1)) with (2 ^ (64 - 2)); lia|tauto]. }
  destruct s6 as [m6 e6]. cbn [fst snd] in *.
  destruct H6 as (H6a & H6b & H6c).
  assert (B6 : 0 <= e6).
  { destruct (Z.lt_ge_cases e6 0) as [L|L]; [|exact L].
    assert (2 ^ 64 <= 2 ^ (63 - e6)) by (apply Z.pow_le_mono_r; lia).
    nia. }
  assert (P : 2 ^ 63 = 2 ^ e6 * 2 ^ (63 - e6)).
  { rewrite <- Z.pow_add_r by lia. f_equal. lia. }
  assert (P' : 2 ^ (64 - e6) = 2 * 2 ^ (63 - e6)).
  { rewrite <- Z.pow_succ_r by lia. f_equal. lia. }
  assert (P'' : 2 ^ (e6 + 1) = 2 * 2 ^ e6).
  { rewrite <- Z.pow_succ_r by lia. reflexivity. }
  assert (Q0 : 0 < 2 ^ (63 - e6)) by (apply Z.pow_pos_nonneg; lia).
  assert (Q1 : 0 < 2 ^ e6) by (apply Z.pow_pos_nonneg; lia).
  change (64 - 1) with 63 in H6a.
  assert (T : 2 ^ 64 = 2 * 2 ^ 63) by reflexivity.
  set (q := 2 ^ (63 - e6)) in *. set (t := 2 ^ e6) in *.
  assert (Lo : t <= n).
  { apply (Z.mul_le_mono_pos_r t n q Q0). lia. }
  assert (Hi : n < 2 * t).
  { apply (Z.mul_lt_mono_pos_r q n (2 * t) Q0). lia. }
  split; [lia|]. split; [lia|].
  rewrite Z.shiftl_mul_pow2 by lia. change (2 ^ 1) with 2.
  rewrite u64_wrap1 by lia.
  rewrite P', T, P, H6b. ring.
Qed.

(** ** Rounding and assembling *)

Lemma round_assemble_bits neg m e :
  0 <= m < 2 ^ 64 -> 0 <= e + 1023 -> e + 1024 < 2048 ->
  assemble neg (fst (round_mantissa m e)) (snd (round_mantissa m e))
  = (if neg then 2 ^ 63 else 0)
    + ((e + 1023) * 2 ^ 52 + m / 2 ^ 12
       + (if m mod 2 ^ 12 >? 2048 then 1 else 0))
  /\ snd (round_mantissa m e) <= e + 1.
Proof.
  intros Hm He1 He2.
  pose proof (Z.div_mod m (2 ^ 12) ltac:(lia)) as DM.
  pose proof (Z.mod_pos_bound m (2 ^ 12) ltac:(lia)) as MB.
  assert (KB : 0 <= m / 2 ^ 12 < 2 ^ 52).
  { split; [apply Z.div_pos; lia|]. apply Z.div_lt_upper_bound; lia. }
  assert (Asm : forall m' e', 0 <= m' < 2 ^ 64 -> 0 <= e' + 1023 < 2048 ->
    assemble neg m' e'
    = (if neg then 2 ^ 63 else 0) + ((e' + 1023) * 2 ^ 52 + m' / 2 ^ 12)).
  { intros m' e' Hm' He'. unfold assemble.
    assert (0 <= m' / 2 ^ 12 < 2 ^ 52).
    { split; [apply Z.div_pos; lia|]. apply Z.div_lt_upper_bound; lia. }
    rewrite Z.shiftr_div_pow2 by lia.
    assert (SB : 0 <= Z.shiftl (e' + 1023) 52 < 2 ^ 63).
    { rewrite Z.shiftl_mul_pow2 by lia. lia. }
    rewrite u64_small by lia.
    rewrite lor_disjoint by lia.
    rewrite Z.shiftl_mul_pow2 in * by lia.
    destruct neg; [|lia].
    change 0x8000000000000000 with (Z.shiftl 1 63).
    rewrite lor_disjoint by lia.
    change (Z.shiftl 1 63) with (2 ^ 63). lia. }
  unfold round_mantissa.
  change 0xFFF with (Z.ones 12). rewrite Z.land_ones by lia.
  change 0x800 with 2048. change (Z.shiftl 1 11) with 2048.
  rewrite Z.gtb_ltb.
  destruct (Z.ltb_spec 2048 (m mod 2 ^ 12)) as [Up|Down].
  - destruct (Z.lt_ge_cases (m + 2048) (2 ^ 64)) as [NoWrap|Wrap].
    + rewrite u64_small by lia.
      destruct (Z.ltb_spec (m + 2048) 2048) as [|_]; [lia|].
      cbn [fst snd]. split; [|lia]. rewrite Asm by lia.
      assert (E : (m + 2048) / 2 ^ 12 = m / 2 ^ 12 + 1).
      { symmetry.
        apply Z.div_unique with (r := m mod 2 ^ 12 + 2048 - 2 ^ 12); lia. }
      rewrite E. lia.
    + rewrite u64_wrap1 by lia.
      destruct (Z.ltb_spec (m + 2048 - 2 ^ 64) 2048) as [_|]; [|lia].
      cbn [fst snd]. split; [|lia].
      rewrite Z.shiftr_div_pow2 by lia. change (2 ^ 1) with 2.
      assert (H0 : 0 <= (m + 2048 - 2 ^ 64) / 2 < 2 ^ 12).
      { split; [apply Z.div_pos; lia|]. apply Z.div_lt_upper_bound; lia. }
      rewrite Asm by lia.
      rewrite (Z.div_small ((m + 2048 - 2 ^ 64) / 2)) by lia.
      assert (m / 2 ^ 12 = 2 ^ 52 - 1) by lia. lia.
  - cbn [fst snd]. split; [|lia]. rewrite Asm by lia. lia.
Qed.

(** ** Decoding *)

Lemma decode_fields s e f :
  0 <= s <= 1 -> 0 <= e < 2 ^ 11 -> 0 <= f < 2 ^ 52 ->
  let b := s * 2 ^ 63 + (e * 2 ^ 52 + f) in
  0 <= b < 2 ^ 64
  /\ dbl_sign b = s /\ dbl_exponent b = e /\ dbl_fraction b = f.
Proof.
  intros Hs He Hf b. subst b. unfold dbl_sign, dbl_exponent, dbl_fraction.
  split; [lia|]. split; [|split].
  - symmetry. apply Z.div_unique with (r := e * 2 ^ 52 + f); lia.
  - assert (E : (s * 2 ^ 63 + (e * 2 ^ 52 + f)) / 2 ^ 52 = s * 2 ^ 11 + e).
    { symmetry. apply Z.div_unique with (r := f); lia. }
    rewrite E. symmetry. apply Z.mod_unique with (q := s); lia.
  - symmetry. apply Z.mod_unique with (q := s * 2 ^ 11 + e); lia.
Qed.

Lemma finite_fields b :
  dbl_finite b ->
  0 <= dbl_sign b <= 1 /\ 0 <= dbl_exponent b <= 2046
  /\ 0 <= dbl_fraction b < 2 ^ 52.
Proof.
  intros [R F]. unfold dbl_sign, dbl_exponent, dbl_fraction in *.
  pose proof (Z.mod_pos_bound (b / 2 ^ 52) (2 ^ 11) ltac:(lia)).
  pose proof (Z.mod_pos_bound b (2 ^ 52) ltac:(lia)).
  assert (0 <= b / 2 ^ 63 < 2).
  { split; [apply Z.div_pos; lia|]. apply Z.div_lt_upper_bound; lia. }
  lia.
Qed.

(** The bits the rounding step leaves: an exponent field [e], a fraction
    [k] and the rounding increment [r], which may carry into [e]. *)
Lemma rounded_bits_decode s e k r :
  0 <= s <= 1 -> 1 <= e <= 2045 -> 0 <= k < 2 ^ 52 -> 0 <= r <= 1 ->
  let b := s * 2 ^ 63 + (e * 2 ^ 52 + k + r) in
  dbl_finite b
  /\ dbl_sign b = s
  /\ dbl_magnitude b = (2 ^ 52 + k + r) * 2 ^ (e - 1)
  /\ (k + r < 2 ^ 52 -> dbl_fraction b = k + r).
Proof.
  intros Hs He Hk Hr b.
  destruct (Z.lt_ge_cases (k + r) (2 ^ 52)) as [L|L].
  - destruct (decode_fields s e (k + r) Hs ltac:(lia) ltac:(lia))
      as (D0 & D1 & D2 & D3).
    replace (s * 2 ^ 63 + (e * 2 ^ 52 + (k + r))) with b in * by (subst b; lia).
    unfold dbl_finite, dbl_magnitude. rewrite D2, D3.
    destruct (Z.eqb_spec e 0); [lia|].
    repeat split; try lia; (f_equal; lia).
  - destruct (decode_fields s (e + 1) 0 Hs ltac:(lia) ltac:(lia))
      as (D0 & D1 & D2 & D3).
    replace (s * 2 ^ 63 + ((e + 1) * 2 ^ 52 + 0)) with b in *
      by (subst b; lia).
    unfold dbl_finite, dbl_magnitude. rewrite D2, D3.
    destruct (Z.eqb_spec (e + 1) 0); [lia|].
    repeat split; try lia.
    replace (e + 1 - 1) with (Z.succ (e - 1)) by lia.
    rewrite Z.pow_succ_r by lia.
    replace (2 ^ 52 + k + r) with (2 * 2 ^ 52) by lia. ring.
Qed.

(** No finite double lies strictly between two neighbours of one binade. *)
Lemma magnitude_gap b e k :
  dbl_finite b -> 1 <= e <= 2046 -> 0 <= k < 2 ^ 52 ->
  dbl_magnitude b <= (2 ^ 52 + k) * 2 ^ (e - 1)
  \/ (2 ^ 52 + k + 1) * 2 ^ (e - 1) <= dbl_magnitude b.
Proof.
  intros Fb He Hk.
  destruct (finite_fields b Fb) as (_ & HE & HF).
  unfold dbl_magnitude.
  assert (P : 0 < 2 ^ (e - 1)) by (apply Z.pow_pos_nonneg; lia).
  destruct (Z.eqb_spec (dbl_exponent b) 0) as [Z0|Z0].
  - left. nia.
  - set (e' := dbl_exponent b) in *. set (f := dbl_fraction b) in *.
    assert (P' : 0 < 2 ^ (e' - 1)) by (apply Z.pow_pos_nonneg; lia).
    destruct (Z.lt_trichotomy e' e) as [L|[L|L]].
    + left.
      assert (2 * 2 ^ (e' - 1) <= 2 ^ (e - 1)).
      { rewrite <- Z.pow_succ_r by lia. apply Z.pow_le_mono_r; lia. }
      nia.
    + rewrite L. destruct (Z.le_gt_cases f k); [left|right]; nia.
    + right.
      assert (2 * 2 ^ (e - 1) <= 2 ^ (e' - 1)).
      { rewrite <- Z.pow_succ_r by lia. apply Z.pow_le_mono_r; lia. }
      nia.
Qed.

Lemma magnitude_nonneg b : dbl_finite b -> 0 <= dbl_magnitude b.
Proof.
  intros Fb. destruct (finite_fields b Fb) as (_ & HE & HF).
  unfold dbl_magnitude. destruct (dbl_exponent b =? 0); [lia|].
  apply Z.mul_nonneg_nonneg; [lia|]. apply Z.pow_nonneg. lia.
Qed.

(** ** Integer literals *)

Lemma end_of_number_integer st s a :
  digits a <> 0 -> digits_counted a -> 0 < mantissa a < 2 ^ 64 ->
  fractional_digits a <= 0 -> decimal_exponent a = 0 ->
  end_of_number st s a
  = {| status := st; stream := s;
       value := rounded_bits (negative a) (mantissa a) |}.
Proof.
  intros D C M F E. unfold end_of_number.
  apply Z.eqb_neq in D. rewrite D.
  assert (S : significant_digits a <> 0).
  { destruct C as [[_ C]|[C _]]; lia. }
  apply Z.eqb_neq in S. rewrite S.
  destruct (Z.ltb_spec 0 (fractional_digits a)); [lia|].
  rewrite E. change (negb (0 =? 0)) with false. cbv iota.
  destruct (normalize_spec (mantissa a) M) as (He & _ & _).
  unfold subnormal_round_assemble.
  destruct (Z.leb_spec (snd (normalize (mantissa a))) (-1023)); [lia|].
  destruct (round_assemble_bits (negative a) (fst (normalize (mantissa a)))
              (snd (normalize (mantissa a)))) as [R1 R2]; try lia.
  { destruct (normalize_spec (mantissa a) M) as (He' & Hb & Hm).
    rewrite Hm.
    assert (P : 2 ^ 64 = 2 ^ snd (normalize (mantissa a))
                         * 2 ^ (64 - snd (normalize (mantissa a)))).
    { rewrite <- Z.pow_add_r by lia. f_equal. lia. }
    assert (P1 : 2 ^ (snd (normalize (mantissa a)) + 1)
                 = 2 * 2 ^ snd (normalize (mantissa a))).
    { rewrite <- Z.pow_succ_r by lia. reflexivity. }
    assert (0 < 2 ^ (64 - snd (normalize (mantissa a))))
      by (apply Z.pow_pos_nonneg; lia).
    nia. }
  destruct (Z.gtb_spec (snd (round_mantissa (fst (normalize (mantissa a)))
                               (snd (normalize (mantissa a))))) 1023);
    [lia|].
  rewrite R1. reflexivity.
Qed.

Lemma end_of_number_integer_zero st s a :
  digits a <> 0 -> digits_counted a -> mantissa a = 0 ->
  end_of_number st s a = return_possibly_signed_zero st s (negative a).
Proof.
  intros D C M. unfold end_of_number.
  apply Z.eqb_neq in D. rewrite D.
  assert (S : significant_digits a = 0).
  { destruct C as [[C _]|[C1 C2]]; [exact C|].
    assert (0 < 10 ^ (significant_digits a - 1))
      by (apply Z.pow_pos_nonneg; lia). lia. }
  rewrite S. reflexivity.
Qed.

(** The linear facts behind correct rounding: in units of [2^-1074] the
    number [n] lies [l * v] above the double [lo] and the next double is
    [4096 * v] above [lo]. *)
Lemma rounded_bits_position (neg : bool) n :
  0 < n < 2 ^ 64 ->
  let m := fst (normalize n) in
  let r := if m mod 2 ^ 12 >? 2048 then 1 else 0 in
  exists lo step d,
    0 < lo /\ 0 <= d < step
    /\ n * 2 ^ 1074 = lo + d
    /\ (r = 0 -> 2 * d <= step) /\ (r = 1 -> step < 2 * d)
    /\ dbl_finite (rounded_bits neg n)
    /\ dbl_sign (rounded_bits neg n) = (if neg then 1 else 0)
    /\ dbl_magnitude (rounded_bits neg n) = lo + r * step
    /\ forall b, dbl_finite b ->
         dbl_magnitude b <= lo \/ lo + step <= dbl_magnitude b.
Proof.
  intros Hn m r.
  destruct (normalize_spec n Hn) as (He & Hb & Hm).
  set (e := snd (normalize n)) in *. fold m in Hm.
  pose proof (Z.div_mod m (2 ^ 12) ltac:(lia)) as DM.
  pose proof (Z.mod_pos_bound m (2 ^ 12) ltac:(lia)) as MB.
  set (k := m / 2 ^ 12) in *. set (l := m mod 2 ^ 12) in *.
  assert (P64 : 2 ^ 64 = 2 ^ e * 2 ^ (64 - e)).
  { rewrite <- Z.pow_add_r by lia. f_equal. lia. }
  assert (Pe1 : 2 ^ (e + 1) = 2 * 2 ^ e).
  { rewrite <- Z.pow_succ_r by lia. reflexivity. }
  assert (Pq : 0 < 2 ^ (64 - e)) by (apply Z.pow_pos_nonneg; lia).
  assert (Mb : 0 <= m < 2 ^ 64) by nia.
  assert (Kb : 0 <= k < 2 ^ 52) by lia.
  assert (Nm : n * 2 ^ (64 - e) = 2 ^ 64 + m) by nia.
  set (v := 2 ^ (e + 1010)).
  assert (Pv : 0 < v) by (apply Z.pow_pos_nonneg; lia).
  assert (Ps : 2 ^ (e + 1023 - 1) = 2 ^ 12 * v).
  { subst v. rewrite <- Z.pow_add_r by lia. f_equal. lia. }
  assert (Pt : 2 ^ 1074 = 2 ^ (64 - e) * v).
  { subst v. rewrite <- Z.pow_add_r by lia. f_equal. lia. }
  assert (Rb : 0 <= r <= 1) by (subst r; destruct (l >? 2048); lia).
  destruct (rounded_bits_decode (if neg then 1 else 0) (e + 1023) k r)
    as (F1 & F2 & F3 & _); try lia.
  { destruct neg; lia. }
  assert (RB : rounded_bits neg n
               = (if neg then 1 else 0) * 2 ^ 63
                 + ((e + 1023) * 2 ^ 52 + k + r)).
  { unfold rounded_bits. fold m e k l r. destruct neg; lia. }
  rewrite <- RB in F1, F2, F3.
  exists ((2 ^ 52 + k) * (2 ^ 12 * v)), (2 ^ 12 * v), (l * v).
  split; [nia|]. split; [nia|]. split.
  { rewrite Pt. rewrite Z.mul_assoc, Nm. change (2 ^ 64) with (2 ^ 52 * 2 ^ 12).
    nia. }
  split.
  { intros R0. subst r. destruct (Z.gtb_spec l 2048); [lia|]. nia. }
  split.
  { intros R1. subst r. destruct (Z.gtb_spec l 2048); [|lia]. nia. }
  split; [exact F1|]. split; [exact F2|]. split.
  { rewrite F3, Ps. lia. }
  intros b Fb.
  destruct (magnitude_gap b (e + 1023) k Fb ltac:(lia) Kb) as [G|G];
    rewrite Ps in G; [left|right]; lia.
Qed.

Lemma scaled_of_sign b :
  dbl_scaled b = dbl_magnitude b \/ dbl_scaled b = - dbl_magnitude b.
Proof. unfold dbl_scaled. destruct (dbl_sign b =? 0); [left|right]; reflexivity. Qed.

Lemma rounded_bits_nearest (neg : bool) n :
  0 < n < 2 ^ 64 ->
  let x := inject_Z (if neg then - n else n) in
  nearest_double x (rounded_bits neg n)
  /\ ties_toward_zero x (rounded_bits neg n).
Proof.
  intros Hn x.
  destruct (rounded_bits_position neg n Hn)
    as (lo & step & d & Hlo & Hd & Hx & R0 & R1 & Fin & Sg & Mag & Gap).
  set (r := if fst (normalize n) mod 2 ^ 12 >? 2048 then 1 else 0) in *.
  assert (Rd : (r = 0 /\ 2 * d <= step) \/ (r = 1 /\ step < 2 * d)).
  { subst r. destruct (_ >? 2048); [right|left]; split; auto. }
  clear R0 R1. clearbody r.
  assert (Sc : dbl_scaled (rounded_bits neg n)
               = if neg then - (lo + r * step) else lo + r * step).
  { unfold dbl_scaled. rewrite Sg, Mag. destruct neg; reflexivity. }
  assert (Tx : (if neg then - n else n) * 2 ^ 1074
               = if neg then - (lo + d) else lo + d).
  { destruct neg; lia. }
  clear Hx Sg Mag.
  split.
  - split; [exact Fin|]. intros b' Fb'. subst x.
    rewrite !scaled_distance. apply scaled_le. rewrite Sc, Tx.
    pose proof (magnitude_nonneg b' Fb') as M0.
    specialize (Gap b' Fb').
    destruct (scaled_of_sign b') as [S'|S']; rewrite S';
      destruct neg, Rd as [[Rr Rd]|[Rr Rd]]; subst r; lia.
  - intros b' Fb' Hneq Htie0. subst x.
    assert (Htie : Z.abs (dbl_scaled b' - (if neg then - n else n) * 2 ^ 1074)
                   = Z.abs (dbl_scaled (rounded_bits neg n)
                            - (if neg then - n else n) * 2 ^ 1074)).
    { apply scaled_eq. rewrite <- !scaled_distance. exact Htie0. }
    clear Htie0.
    rewrite !scaled_magnitude. apply scaled_lt.
    assert (Ne : dbl_scaled b' <> dbl_scaled (rounded_bits neg n)).
    { intros E. apply Hneq. unfold double_value. now rewrite E. }
    rewrite Sc, Tx in *.
    pose proof (magnitude_nonneg b' Fb') as M0.
    specialize (Gap b' Fb').
    destruct (scaled_of_sign b') as [S'|S']; rewrite S' in *;
      destruct neg, Rd as [[Rr Rd]|[Rr Rd]]; subst r; lia.
Qed.

Lemma signed_zero_nearest (neg : bool) :
  let b := if neg then 0x8000000000000000 else 0 in
  nearest_double (inject_Z 0) b /\ ties_toward_zero (inject_Z 0) b.
Proof.
  intros b.
  assert (Fin : dbl_finite b).
  { subst b. destruct neg; (split; [lia|vm_compute; reflexivity]). }
  assert (Sc : dbl_scaled b = 0) by (subst b; destruct neg; reflexivity).
  split.
  - split; [exact Fin|]. intros b' _.
    rewrite !scaled_distance. apply scaled_le. rewrite Sc. lia.
  - intros b' _ Hneq Htie0. exfalso. apply Hneq.
    assert (Htie : Z.abs (dbl_scaled b' - 0 * 2 ^ 1074)
                   = Z.abs (dbl_scaled b - 0 * 2 ^ 1074)).
    { apply scaled_eq. rewrite <- !scaled_distance. exact Htie0. }
    rewrite Sc in Htie. unfold double_value.
    replace (dbl_scaled b') with 0 by lia. rewrite Sc. reflexivity.
Qed.

(** C1, as amended.  For a literal made of an optional sign and decimal
    digits whose value is below 2^64, followed by the end of the input or
    a byte that ends the number, [parse_double] leaves the status as it
    was and the cursor after the last digit, and returns a finite double
    nearest to the exact value of the literal; when two doubles are
    equally near it returns the one of smaller magnitude. *)
Theorem integer_literal_rounds_to_nearest st p sg ds rest :
  failed st = false ->
  Forall is_digit ds -> ds <> [] -> decimal_value 0 ds < 2 ^ 64 ->
  ends_number rest ->
  let n := decimal_value 0 ds in
  let x := inject_Z (if sign_negative sg then - n else n) in
  let o :=
    parse_double st {| ptr := p; window := sign_bytes sg ++ ds ++ rest |} in
  status o = st
  /\ stream o = {| ptr := p + len (sign_bytes sg ++ ds); window := rest |}
  /\ nearest_double x (value o)
  /\ ties_toward_zero x (value o).
Proof.
  intros F0 Fd Hne V E n x o.
  assert (Hne' : mantissa_bytes sg ds None <> []).
  { unfold mantissa_bytes. destruct ds; [now elim Hne|].
    destruct sg; discriminate. }
  destruct (scan_mantissa st p sg ds None rest Fd (Forall_nil _)
              ltac:(cbn [fraction_digits]; now rewrite app_nil_r) Hne')
    as (a & Hscan & Hm & Hc & Hd & Hf & He & Hn).
  cbn [fraction_digits] in Hm, Hd. rewrite app_nil_r in Hm.
  change (len []) with 0 in Hd. rewrite Z.add_0_r in Hd.
  assert (W : mantissa_bytes sg ds None ++ rest
              = sign_bytes sg ++ ds ++ rest).
  { unfold mantissa_bytes. cbn [fraction_bytes].
    now rewrite app_nil_r, <- app_assoc. }
  assert (Lm : len (mantissa_bytes sg ds None) = len (sign_bytes sg ++ ds)).
  { unfold mantissa_bytes. cbn [fraction_bytes]. now rewrite app_nil_r. }
  rewrite W, Lm in Hscan.
  assert (D : digits a <> 0).
  { rewrite Hd. destruct ds; [now elim Hne|].
    rewrite len_cons. pose proof (len_nonneg ds). lia. }
  rewrite resume_ends in Hscan by assumption.
  pose proof (decimal_value_bounds ds 0 Fd ltac:(lia)) as B.
  fold n in Hm, B, V.
  assert (O : o = end_of_number st
                    {| ptr := p + len (sign_bytes sg ++ ds);
                       window := rest |} a).
  { subst o. unfold parse_double. rewrite Hscan. reflexivity. }
  destruct (Z.eq_dec n 0) as [N0|N0].
  - rewrite end_of_number_integer_zero in O by (assumption || congruence).
    rewrite O. cbn [status stream value return_possibly_signed_zero].
    split; [reflexivity|]. split; [reflexivity|].
    subst x. rewrite N0, Hn.
    destruct (signed_zero_nearest (sign_negative sg)) as [Z1 Z2].
    destruct (sign_negative sg); (split; [exact Z1|exact Z2]).
  - rewrite end_of_number_integer in O; try assumption; try lia.
    rewrite O. cbn [status stream value].
    split; [reflexivity|]. split; [reflexivity|].
    subst x. rewrite Hm, Hn.
    apply rounded_bits_nearest. lia.
Qed.

(** ** What [end_of_number] leaves of the stream *)

Lemma end_of_number_stream st s a : stream (end_of_number st s a) = s.
Proof.
  unfold end_of_number, subnormal_round_assemble.
  repeat break_if; reflexivity.
Qed.

Lemma end_of_number_value st s st' s' a :
  value (end_of_number st s a) = value (end_of_number st' s' a).
Proof.
  unfold end_of_number, subnormal_round_assemble.
  repeat break_if; reflexivity.
Qed.

(** ** Any run of digits, and the second decimal point *)

Lemma resume_digit st p ch w a :
  is_digit ch ->
  resume st p (ch :: w) a = resume st (p + 1) w (step_digit a ch).
Proof.
  intros H. unfold resume at 1. unfold step_digit.
  destruct (20 <=? significant_digits a) eqn:E.
  - destruct (digit_tests ch H) as (_ & T1 & T2 & T3 & T4 & T5).
    cbn [skip_digits]. rewrite T1, T2, T3, T4, T5. cbn [andb orb].
    unfold resume.
    destruct (fractional_digits a <? 0); simpl_scan; rewrite E; reflexivity.
  - now apply scan_digits_digit.
Qed.

Lemma resume_run ds : forall st p w a,
  Forall is_digit ds ->
  resume st p (ds ++ w) a
  = resume st (p + len ds) w (fold_left step_digit ds a).
Proof.
  induction ds as [|ch ds IH]; intros st p w a F.
  - cbn [app fold_left]. change (len []) with 0. now rewrite Z.add_0_r.
  - inversion F as [|? ? Hch F']; subst.
    cbn [app fold_left]. rewrite resume_digit by exact Hch.
    rewrite IH by exact F'. rewrite len_cons. f_equal. lia.
Qed.

Lemma step_digit_facts a ch :
  digits_seen a ->
  let a' := step_digit a ch in
  1 <= digits a' /\ digits a <= digits a' /\ digits_seen a'
  /\ (fractional_digits a < 0 -> fractional_digits a' = fractional_digits a)
  /\ (0 <= fractional_digits a -> 0 <= fractional_digits a')
  /\ negative a' = negative a.
Proof.
  intros [D0 D1] a'. subst a'. unfold step_digit, digits_seen.
  destruct (Z.leb_spec 20 (significant_digits a)) as [L|L].
  - specialize (D1 L).
    destruct (Z.ltb_spec (fractional_digits a) 0); simpl_scan;
      repeat split; lia.
  - unfold accumulate_digit.
    destruct (mantissa a >? limit (ch - chr "0")); simpl_scan.
    + repeat split; lia.
    + destruct (Z.leb_spec 0 (fractional_digits a));
        repeat split; try lia;
        intros; destruct (_ || _); lia.
Qed.

Lemma run_facts ds : forall a,
  digits_seen a ->
  let a' := fold_left step_digit ds a in
  digits_seen a'
  /\ (ds <> [] -> 1 <= digits a')
  /\ digits a <= digits a'
  /\ (fractional_digits a < 0 -> fractional_digits a' = fractional_digits a)
  /\ (0 <= fractional_digits a -> 0 <= fractional_digits a')
  /\ negative a' = negative a.
Proof.
  induction ds as [|ch ds IH]; intros a J; cbn [fold_left].
  - repeat split; try tauto; try lia; apply J.
  - destruct (step_digit_facts a ch J) as (S1 & S0 & S2 & S3 & S4 & S5).
    destruct (IH (step_digit a ch) S2) as (I1 & I2 & I3 & I4 & I5 & I6).
    split; [exact I1|]. split; [intros _; lia|]. split; [lia|].
    split; [|split].
    + intros N. rewrite I4 by (rewrite S3; lia). now apply S3.
    + intros P. apply I5. now apply S4.
    + now rewrite I6.
Qed.

(** A decimal point met after another, in either loop. *)
Lemma resume_second_point st p rest a :
  0 <= fractional_digits a ->
  scan_digits st p (chr "." :: rest) a
  = Goto_end_of_number st {| ptr := p; window := chr "." :: rest |} a
  /\ skip_digits st p (chr "." :: rest) a
     = Goto_end_of_number st {| ptr := p; window := chr "." :: rest |} a.
Proof.
  intros Hfd. split.
  - cbn [scan_digits]. change (u64 (chr "." - 48) <=? 9) with false.
    change (chr "." =? chr ".") with true. cbv iota.
    apply Z.leb_le in Hfd. rewrite Hfd. reflexivity.
  - cbn [skip_digits]. change (chr "." =? chr ".") with true.
    destruct (Z.ltb_spec (fractional_digits a) 0) as [L|_]; [lia|].
    reflexivity.
Qed.

Lemma resume_end_of_input st p a :
  failed st = false ->
  resume st p [] a = Goto_end_of_number st {| ptr := p; window := [] |} a.
Proof.
  intros F. unfold resume.
  destruct (20 <=? significant_digits a); cbn [skip_digits scan_digits];
    unfold datastream_fetch; rewrite F; reflexivity.
Qed.

(** The scanner on [sign] [digits] [.] [digits], whatever their number:
    it reaches the byte after them in a state that has seen the point, and
    that depends on those bytes only. *)
Lemma scan_two_runs st p sg ds fs :
  Forall is_digit ds -> Forall is_digit fs ->
  exists a,
    (forall w,
       scan st {| ptr := p;
                  window := mantissa_bytes sg ds (Some fs) ++ w |}
       = resume st (p + len (mantissa_bytes sg ds (Some fs))) w a)
    /\ 0 <= fractional_digits a
    /\ (ds ++ fs <> [] -> digits a <> 0)
    /\ (ds ++ fs = [] -> digits a = 0).
Proof.
  intros Fd Ff.
  (* after the first byte: the state [a0] before the digits [ds0] *)
  assert (Tail : forall a0 ds0 q,
    Forall is_digit ds0 -> digits_seen a0 -> fractional_digits a0 < 0 ->
    significant_digits a0 < 20 ->
    exists a,
      (forall w,
         scan_digits st q (ds0 ++ chr "." :: fs ++ w) a0
         = resume st (q + len ds0 + 1 + len fs) w a)
      /\ 0 <= fractional_digits a
      /\ (ds0 ++ fs <> [] -> digits a <> 0)
      /\ digits a0 <= digits a
      /\ (ds0 ++ fs = [] -> digits a = digits a0)).
  { intros a0 ds0 q F0 J0 N0 S0.
    destruct (run_facts ds0 a0 J0) as (R1 & R2 & R3 & R4 & _ & _).
    set (a1 := fold_left step_digit ds0 a0) in *.
    set (a2 := set_fractional_digits a1 0).
    assert (J2 : digits_seen a2) by exact R1.
    destruct (run_facts fs a2 J2) as (Q1 & Q2 & Q3 & _ & Q5 & _).
    exists (fold_left step_digit fs a2).
    split; [|split; [|split; [|split]]].
    - intros w.
      assert (E0 : scan_digits st q (ds0 ++ chr "." :: fs ++ w) a0
                   = resume st q (ds0 ++ chr "." :: fs ++ w) a0).
      { unfold resume.
        destruct (Z.leb_spec 20 (significant_digits a0)); [lia|reflexivity]. }
      rewrite E0, resume_run by exact F0. fold a1.
      rewrite resume_point by (rewrite R4; lia). fold a2.
      rewrite resume_run by exact Ff. reflexivity.
    - apply Q5. unfold a2. simpl_scan. lia.
    - intros Hne. assert (digits a2 = digits a1) by reflexivity.
      destruct ds0 as [|c ds0'].
      + destruct fs as [|f fs']; [now elim Hne|].
        specialize (Q2 ltac:(discriminate)). lia.
      + specialize (R2 ltac:(discriminate)). lia.
    - assert (digits a2 = digits a1) by reflexivity. lia.
    - intros E. apply app_eq_nil in E. destruct E as [E1 E2].
      subst ds0. rewrite E2. reflexivity. }
  unfold mantissa_bytes. cbn [fraction_bytes].
  destruct sg; cbn [sign_bytes app].
  - destruct ds as [|ch ds].
    + (* the point is the first byte *)
      set (a0 := {| negative := false; mantissa := 0; digits := 0;
                    significant_digits := 0; fractional_digits := 0;
                    decimal_exponent := 0 |}).
      assert (J0 : digits_seen a0) by (unfold digits_seen, a0; simpl_scan; lia).
      destruct (run_facts fs a0 J0) as (Q1 & Q2 & Q3 & _ & Q5 & _).
      exists (fold_left step_digit fs a0).
      split; [|split; [|split]].
      * intros w. unfold scan. cbn [window ptr app].
        change (chr "." =? chr "-") with false.
        change (chr "." =? chr "+") with false.
        change (chr "." =? chr "0") with false.
        change ((chr "1" <=? chr ".") && (chr "." <=? chr "9")) with false.
        change (chr "." =? chr ".") with true. cbv iota. fold a0.
        rewrite len_cons.
        replace (p + (1 + len fs)) with (p + 1 + len fs) by lia.
        rewrite <- resume_run by exact Ff. reflexivity.
      * apply Q5. unfold a0. simpl_scan. lia.
      * intros Hne. cbn [app] in Hne.
        specialize (Q2 Hne). lia.
      * intros E. cbn [app] in E. rewrite E. reflexivity.
    + inversion Fd as [|? ? Hch Fd']; subst.
      set (a0 := {| negative := false; mantissa := ch - chr "0";
                    digits := 1;
                    significant_digits := if ch =? chr "0" then 0 else 1;
                    fractional_digits := -1; decimal_exponent := 0 |}).
      destruct (Tail a0 ds (p + 1) Fd') as (a & H1 & H2 & H3 & H4 & _).
      { unfold digits_seen, a0. simpl_scan. destruct (ch =? chr "0"); lia. }
      { unfold a0. simpl_scan. lia. }
      { unfold a0. simpl_scan. destruct (ch =? chr "0"); lia. }
      exists a. split; [|split; [|split]].
      * intros w. unfold scan. cbn [window ptr app].
        unfold is_digit in Hch. revert Hch.
        change (chr "0") with 48. change (chr "9") with 57.
        change (chr "1") with 49. change (chr "-") with 45.
        change (chr "+") with 43. intros Hch.
        destruct (Z.eqb_spec ch 45) as [|_]; [lia|].
        destruct (Z.eqb_spec ch 43) as [|_]; [lia|].
        rewrite len_cons, len_app, len_cons, <- app_assoc. cbn [app].
        replace (p + (1 + (len ds + (1 + len fs))))
          with (p + 1 + len ds + 1 + len fs) by lia.
        rewrite <- H1. unfold a0. change (chr "0") with 48.
        destruct (Z.eqb_spec ch 48) as [Z0|Z0].
        -- subst ch. reflexivity.
        -- destruct (Z.leb_spec 49 ch); [|lia].
           destruct (Z.leb_spec ch 57); [|lia]. reflexivity.
      * exact H2.
      * intros _. unfold a0 in H4. simpl_scan. lia.
      * discriminate.
  - set (a0 := {| negative := false; mantissa := 0; digits := 0;
                  significant_digits := 0; fractional_digits := -1;
                  decimal_exponent := 0 |}).
    destruct (Tail a0 ds (p + 1) Fd) as (a & H1 & H2 & H3 & H4 & H5);
      try (unfold digits_seen, a0; simpl_scan; lia).
    exists a. split; [|split; [|split]]; try assumption.
    intros w. unfold scan. cbn [window ptr app].
    change (chr "+" =? chr "-") with false.
    change (chr "+" =? chr "+") with true. cbv iota.
    rewrite len_cons, len_app, len_cons, <- app_assoc. cbn [app].
    replace (p + (1 + (len ds + (1 + len fs))))
      with (p + 1 + len ds + 1 + len fs) by lia.
    rewrite <- H1. reflexivity.
  - set (a0 := {| negative := true; mantissa := 0; digits := 0;
                  significant_digits := 0; fractional_digits := -1;
                  decimal_exponent := 0 |}).
    destruct (Tail a0 ds (p + 1) Fd) as (a & H1 & H2 & H3 & H4 & H5);
      try (unfold digits_seen, a0; simpl_scan; lia).
    exists a. split; [|split; [|split]]; try assumption.
    intros w. unfold scan. cbn [window ptr app].
    change (chr "-" =? chr "-") with true. cbv iota.
    rewrite len_cons, len_app, len_cons, <- app_assoc. cbn [app].
    replace (p + (1 + (len ds + (1 + len fs))))
      with (p + 1 + len ds + 1 + len fs) by lia.
    rewrite <- H1. reflexivity.
Qed.

(** C6.  In a literal [sign] [digits] [.] [digits] followed by a second
    decimal point, whatever the number of digits, [parse_double] ends the
    literal before the second point: the cursor is left on that point, the
    value returned is the one of the input ending there, and no error is
    raised.  (A sign and a point without any digit are no literal: the
    call fails for want of digits, as it does without the second
    point.) *)
Theorem second_decimal_point_ends_literal st p sg ds fs rest :
  failed st = false ->
  Forall is_digit ds -> Forall is_digit fs ->
  let lit := mantissa_bytes sg ds (Some fs) in
  let o :=
    parse_double st {| ptr := p; window := lit ++ chr "." :: rest |} in
  stream o = {| ptr := p + len lit; window := chr "." :: rest |}
  /\ value o = value (parse_double st {| ptr := p; window := lit |})
  /\ (ds ++ fs <> [] -> status o = st)
  /\ (ds ++ fs = [] -> failed (status o) = true).
Proof.
  intros F0 Fd Ff lit o.
  destruct (scan_two_runs st p sg ds fs Fd Ff) as (a & S & P & D1 & D0).
  fold lit in S.
  assert (O : o = end_of_number st
                    {| ptr := p + len lit; window := chr "." :: rest |} a).
  { subst o. unfold parse_double. rewrite S. unfold resume.
    destruct (resume_second_point st (p + len lit) rest a P) as [R1 R2].
    destruct (20 <=? significant_digits a); [rewrite R2|rewrite R1];
      reflexivity. }
  assert (O' : parse_double st {| ptr := p; window := lit |}
               = end_of_number st
                   {| ptr := p + len lit; window := [] |} a).
  { unfold parse_double. rewrite <- (app_nil_r lit) at 1.
    rewrite S, resume_end_of_input by exact F0. reflexivity. }
  rewrite O, O'. split; [apply end_of_number_stream|].
  split; [apply end_of_number_value|]. split.
  - intros Hne. apply end_of_number_keeps_status. now apply D1.
  - intros E.
    destruct (end_of_number_status st
                {| ptr := p + len lit; window := chr "." :: rest |} a)
      as [[_ H]|[N _]].
    + rewrite H. reflexivity.
    + elim N. now apply D0.
Qed.

Lemma second_decimal_point_ends_literal_witness :
  Forall is_digit (bytes "1") /\ Forall is_digit (bytes "2")
  /\ stream (parse "-1.2.3") = {| ptr := 4; window := bytes ".3" |}
  /\ value (parse "-1.2.3") = value (parse "-1.2")
  /\ status (parse "-1.2.3") = status0.
Proof.
  assert (F1 : Forall is_digit (bytes "1")) by digits_ok.
  assert (F2 : Forall is_digit (bytes "2")) by digits_ok.
  split; [exact F1|]. split; [exact F2|].
  pose proof (second_decimal_point_ends_literal status0 0 Minus (bytes "1")
                (bytes "2") (bytes "3") eq_refl F1 F2) as H.
  cbv zeta in H. destruct H as (S & V & NF & _).
  split; [exact S|]. split; [exact V|].
  apply NF. discriminate.
Defined.

(** ** Concrete inputs *)

(** C9.  On each of the inputs "" (empty), ".", "e5", "1e" and "-" the
    call ends with [failed = true], whatever status it starts with. *)
Theorem error_literals_fail (st : Status) :
  failed (status (parse_double st (stream_of ""))) = true
  /\ failed (status (parse_double st (stream_of "."))) = true
  /\ failed (status (parse_double st (stream_of "e5"))) = true
  /\ failed (status (parse_double st (stream_of "1e"))) = true
  /\ failed (status (parse_double st (stream_of "-"))) = true.
Proof.
  destruct st as [f m]. destruct f; repeat split; reflexivity.
Qed.

(** C7.  On "ixy" the mismatch of [x] with [n] records its message, but
    [datastream_consume_word] has no [return] there and goes on: the
    mismatch of [y] with [f] replaces the message.  After the call the
    status holds the second diagnostic and all three bytes are consumed. *)
Theorem consume_word_overwrites_first_failure :
  let first :=
    fail_here status0 (stream_of "")
      (msg_unexpected_word (chr "x") (chr "n")) in
  let second :=
    fail_here status0 (stream_of "")
      (msg_unexpected_word (chr "y") (chr "f")) in
  fst (datastream_consume_word status0 (stream_of "ix") (bytes "inf")) = first
  /\ status (parse "ixy") = second
  /\ error_message second <> error_message first
  /\ stream (parse "ixy") = {| ptr := 3; window := [] |}.
Proof.
  repeat split; try reflexivity. intros H. discriminate H.
Qed.

(** C8.  On "1e20000000000000000000" the exponent overflows 64 bits at its
    last digit: the call succeeds with +infinity and leaves the cursor at
    offset 21, on that digit.  With one digit less the whole literal is
    consumed. *)
Theorem exponent_overflow_leaves_cursor_inside_literal :
  let o := parse "1e20000000000000000000" in
  failed (status o) = false
  /\ value o = 0x7FF0000000000000
  /\ stream o = {| ptr := 21; window := [chr "0"] |}
  /\ is_digit (chr "0")
  /\ stream (parse "1e2000000000000000000") = {| ptr := 21; window := [] |}.
Proof.
  repeat split; try reflexivity; vm_compute; discriminate.
Qed.

Example parse_123abc :
  parse "123abc"
  = {| status := status0;
       stream := {| ptr := 3; window := bytes "abc" |};
       value := 0x405EC00000000000 |}.
Proof. reflexivity. Qed.

Example parse_second_point :
  parse "1.2.3"
  = {| status := status0;
       stream := {| ptr := 3; window := bytes ".3" |};
       value := value (parse "1.2") |}.
Proof. reflexivity. Qed.

(** C5, as stated, fails: a zero mantissa never overflows ([0e600] is
    [+0.0]), and digits beyond the accumulator shift the exponent the
    scanner works with (1 followed by 600 zeros and [e-512] is 1e88). *)
Lemma net_exponent_alone_does_not_saturate :
  ~ saturated NoSign None NoSign (bytes "600") (parse "0e600")
  /\ ~ saturated NoSign None Minus (bytes "512")
        (parse_double status0
           {| ptr := 0;
              window := bytes "1" ++ repeat (chr "0") 600
                        ++ bytes "e-512" |}).
Proof.
  split.
  - intros (_ & Inf & _).
    assert (N : 512 <= net_decimal_exponent None NoSign (bytes "600"))
      by (vm_compute; discriminate).
    specialize (Inf N). vm_compute in Inf. discriminate Inf.
  - intros (_ & _ & Zero).
    assert (N : net_decimal_exponent None Minus (bytes "512") <= -512)
      by (vm_compute; discriminate).
    specialize (Zero N). vm_compute in Zero. discriminate Zero.
Qed.

(** C1, as stated, fails: a tie is resolved downwards where the even
    neighbour is above; a 20-digit literal loses its last digit to the
    accumulator; and the truncating multiplication by a power of ten misses
    the nearest double of a literal as short as [53e33]. *)
Lemma ties_long_and_scaled_literals_misrounded :
  ~ correctly_rounded (inject_Z 9007199254740995)
      (value (parse "9007199254740995"))
  /\ ~ correctly_rounded (inject_Z 18446744073709553665)
         (value (parse "18446744073709553665"))
  /\ ~ correctly_rounded (inject_Z (53 * 10 ^ 33)) (value (parse "53e33")).
Proof.
  split; [|split].
  - intros [_ T].
    specialize (T 0x4340000000000002).
    assert (E : Z.even (dbl_fraction (value (parse "9007199254740995")))
                = false) by reflexivity.
    rewrite T in E; [discriminate E| | |].
    + split; [lia|vm_compute; reflexivity].
    + vm_compute. discriminate.
    + vm_compute. reflexivity.
  - intros [[_ N] _].
    specialize (N 0x43F0000000000001).
    assert (F : dbl_finite 0x43F0000000000001)
      by (split; [lia|vm_compute; reflexivity]).
    specialize (N F). vm_compute in N. apply N. reflexivity.
  - intros [[_ N] _].
    specialize (N 0x47246A3418629EF6).
    assert (F : dbl_finite 0x47246A3418629EF6)
      by (split; [lia|vm_compute; reflexivity]).
    specialize (N F). vm_compute in N. apply N. reflexivity.
Qed.

(** ** Instances *)

Lemma integer_literal_rounds_to_nearest_witness :
  Forall is_digit (bytes "9007199254740995")
  /\ decimal_value 0 (bytes "9007199254740995") < 2 ^ 64
  /\ ends_number (bytes "abc")
  /\ stream (parse "-9007199254740995abc")
     = {| ptr := 17; window := bytes "abc" |}
  /\ nearest_double (inject_Z (-9007199254740995))
       (value (parse "-9007199254740995abc"))
  /\ ties_toward_zero (inject_Z (-9007199254740995))
       (value (parse "-9007199254740995abc")).
Proof.
  assert (F : Forall is_digit (bytes "9007199254740995")) by digits_ok.
  assert (V : decimal_value 0 (bytes "9007199254740995") < 2 ^ 64)
    by (vm_compute; reflexivity).
  assert (E : ends_number (bytes "abc")).
  { change (bytes "abc") with [97; 98; 99].
    unfold ends_number, is_digit.
    change (chr "0") with 48. change (chr "9") with 57.
    change (chr ".") with 46. change (chr "e") with 101.
    change (chr "E") with 69. lia. }
  split; [exact F|]. split; [exact V|]. split; [exact E|].
  pose proof (integer_literal_rounds_to_nearest status0 0 Minus
                (bytes "9007199254740995") (bytes "abc")
                eq_refl F ltac:(discriminate) V E) as H.
  cbv zeta in H. destruct H as (_ & S & N & T).
  split; [exact S|]. split; [exact N|exact T].
Defined.

Lemma mulf64_truncates_exact_product_witness :
  0 <= 2 ^ 63 < 2 ^ 64
  /\ (ext_value (fst (mulf64 (2 ^ 63) 0 (2 ^ 63) 0))
        (snd (mulf64 (2 ^ 63) 0 (2 ^ 63) 0))
      <= ext_value (2 ^ 63) 0 * ext_value (2 ^ 63) 0)%Q.
Proof.
  assert (R : 0 <= 2 ^ 63 < 2 ^ 64) by lia.
  split; [exact R|].
  pose proof (mulf64_truncates_exact_product (2 ^ 63) 0 (2 ^ 63) 0 R R) as H.
  cbv zeta in H. destruct H as (_ & L & _). exact L.
Defined.


Lemma end_of_number_counters_exclusive_witness :
  let a := {| negative := false; mantissa := 15; digits := 2;
              significant_digits := 2; fractional_digits := 1;
              decimal_exponent := 0 |} in
  scan status0 (stream_of "1.5")
  = Goto_end_of_number status0 {| ptr := 3; window := [] |} a
  /\ (fractional_digits a <= 0 \/ decimal_exponent a = 0).
Proof.
  intros a.
  assert (S : scan status0 (stream_of "1.5")
              = Goto_end_of_number status0 {| ptr := 3; window := [] |} a)
    by reflexivity.
  split; [exact S|].
  destruct (end_of_number_counters_exclusive _ _ _ _ _ S) as (H & _).
  exact H.
Defined.

(** * Further properties *)

(** ** What the scanner consumes and what its jumps carry *)

Lemma consumed_nil p w : consumed p w [] {| ptr := p; window := w |}.
Proof. split; cbn; [reflexivity|]. unfold len. cbn. lia. Qed.

Lemma consumed_cons p ch w pre s' :
  consumed (p + 1) w pre s' -> consumed p (ch :: w) (ch :: pre) s'.
Proof.
  intros [H1 H2]. split.
  - cbn. now rewrite <- H1.
  - rewrite H2, len_cons. lia.
Qed.

Lemma jump_after_here p w j :
  jump_stream j = {| ptr := p; window := w |} -> jump_after p w j.
Proof. intros E. exists []. rewrite E. apply consumed_nil. Qed.

Lemma jump_after_cons p ch w j :
  jump_after (p + 1) w j -> jump_after p (ch :: w) j.
Proof. intros [pre H]. exists (ch :: pre). now apply consumed_cons. Qed.

(** [datastream_consume_word] consumes as many bytes as the word has, or
    all there are. *)
Lemma consume_word_stream word : forall st s,
  let k := Nat.min (List.length word) (List.length (window s)) in
  snd (datastream_consume_word st s word)
  = {| ptr := ptr s + Z.of_nat k; window := skipn k (window s) |}.
Proof.
  induction word as [|w word IH]; intros st [p win]; cbn [datastream_consume_word].
  - cbn. f_equal. lia.
  - cbn [window ptr]. destruct win as [|ch rest].
    + unfold datastream_fetch. destruct (failed st); cbn; f_equal; lia.
    + rewrite IH. cbn [advance window ptr List.length Nat.min skipn].
      f_equal. lia.
Qed.

Lemma consume_word_failed_iff word : forall st s,
  failed (fst (datastream_consume_word st s word)) = false
  <-> failed st = false /\ firstn (List.length word) (window s) = word.
Proof.
  induction word as [|w word IH]; intros st s; cbn [datastream_consume_word].
  - cbn. tauto.
  - destruct (window s) as [|ch rest] eqn:W.
    + unfold datastream_fetch. destruct (failed st) eqn:F; cbn; rewrite ?F;
        split; try discriminate; intros [? ?]; discriminate.
    + rewrite IH. cbn [advance window List.length firstn].
      destruct (Z.eqb_spec ch w) as [E|E].
      * subst w. split.
        -- intros [A B]. split; [exact A|]. now rewrite B.
        -- intros [A B]. split; [exact A|]. now injection B.
      * cbn [failed fail_here]. split.
        -- intros [A _]. discriminate A.
        -- intros [_ B]. injection B as B _. contradiction.
Qed.

Lemma consume_word_after word st s ch rest :
  window s = ch :: rest -> word <> [] ->
  exists pre, pre <> []
    /\ consumed (ptr s) (window s) pre
         (snd (datastream_consume_word st s word)).
Proof.
  intros W N. rewrite consume_word_stream.
  set (k := Nat.min _ _).
  assert (K : (0 < k)%nat).
  { subst k. rewrite W. destruct word; [contradiction|]. cbn. lia. }
  exists (firstn k (window s)). split.
  - rewrite W. destruct k; [lia|]. cbn. discriminate.
  - split; cbn [window ptr].
    + now rewrite firstn_skipn.
    + unfold len. rewrite length_firstn. f_equal.
      subst k. lia.
Qed.

Lemma end_of_exponent_carries st s a ne ae :
  jump_carries st (negative a) (end_of_exponent st s a ne ae)
  /\ jump_stream (end_of_exponent st s a ne ae) = s.
Proof.
  unfold end_of_exponent.
  repeat (break_if || match goal with
                      | |- context [let '(_, _) := ?p in _] => destruct p
                      end); cbn; auto.
Qed.

Lemma exponent_digits_carries w : forall st p a ne ae,
  jump_carries st (negative a) (exponent_digits st p w a ne ae)
  /\ jump_after p w (exponent_digits st p w a ne ae).
Proof.
  induction w as [|ch w IH]; intros; cbn [exponent_digits].
  - unfold datastream_fetch. destruct (failed st) eqn:F.
    + split; [exact F|]. now apply jump_after_here.
    + destruct (end_of_exponent_carries st {| ptr := p; window := [] |}
                  a ne ae) as [A B].
      split; [exact A|]. now apply jump_after_here.
  - repeat break_if; cbn [jump_carries];
      try (split; [auto|now apply jump_after_here]).
    + destruct (IH st (p + 1) a ne (u64 (10 * ae + u64 (ch - 48)))) as [A B].
      split; [exact A|]. now apply jump_after_cons.
    + destruct (end_of_exponent_carries st {| ptr := p; window := ch :: w |}
                  a ne ae) as [A B].
      split; [exact A|]. now apply jump_after_here.
Qed.

Lemma parse_exponent_carries st p ch w a :
  jump_carries st (negative a)
    (parse_exponent st {| ptr := p; window := ch :: w |} a)
  /\ jump_after (p + 1) w
       (parse_exponent st {| ptr := p; window := ch :: w |} a).
Proof.
  unfold parse_exponent. cbn [advance window tl ptr].
  destruct w as [|c w'].
  - unfold datastream_fetch. destruct (failed st) eqn:F.
    + split; [exact F|]. now apply jump_after_here.
    + split; [reflexivity|]. now apply jump_after_here.
  - repeat break_if.
    + destruct (exponent_digits_carries w' st (p + 1 + 1) a true 0) as [A B].
      split; [exact A|]. now apply jump_after_cons.
    + destruct (exponent_digits_carries w' st (p + 1 + 1) a false 0) as [A B].
      split; [exact A|]. now apply jump_after_cons.
    + apply exponent_digits_carries.
Qed.

Lemma parse_infinity_carries st p ch w neg :
  let j := parse_infinity st {| ptr := p; window := ch :: w |} neg in
  jump_carries st neg j
  /\ exists pre, pre <> [] /\ consumed p (ch :: w) pre (jump_stream j).
Proof.
  unfold parse_infinity.
  set (s := {| ptr := p; window := ch :: w |}).
  pose proof (consume_word_status (bytes "inf") st s) as H.
  destruct (consume_word_after (bytes "inf") st s ch w eq_refl
              ltac:(discriminate)) as (pre & N & C).
  destruct (datastream_consume_word st s (bytes "inf")) as [st1 s1].
  cbn [fst snd] in *. destruct (failed st1) eqn:F; cbn [jump_carries jump_stream].
  - split; [exact F|]. now exists pre.
  - split; [split; [now apply H|reflexivity]|]. now exists pre.
Qed.

Lemma parse_nan_carries st p ch w neg :
  let j := parse_nan st {| ptr := p; window := ch :: w |} neg in
  jump_carries st neg j
  /\ exists pre, pre <> [] /\ consumed p (ch :: w) pre (jump_stream j).
Proof.
  unfold parse_nan.
  set (s := {| ptr := p; window := ch :: w |}).
  pose proof (consume_word_status (bytes "nan") st s) as H.
  destruct (consume_word_after (bytes "nan") st s ch w eq_refl
              ltac:(discriminate)) as (pre & N & C).
  destruct (datastream_consume_word st s (bytes "nan")) as [st1 s1].
  cbn [fst snd] in *. destruct (failed st1) eqn:F; cbn [jump_carries jump_stream].
  - split; [exact F|]. now exists pre.
  - split; [split; [now apply H|reflexivity]|]. now exists pre.
Qed.

Lemma skip_digits_carries w : forall st p a,
  jump_carries st (negative a) (skip_digits st p w a)
  /\ jump_after p w (skip_digits st p w a).
Proof.
  induction w as [|ch w IH]; intros; cbn [skip_digits].
  - unfold datastream_fetch. destruct (failed st) eqn:F.
    + split; [exact F|]. now apply jump_after_here.
    + split; [split; reflexivity|]. now apply jump_after_here.
  - repeat break_if;
      try (split; [split; reflexivity|now apply jump_after_here]);
      try (destruct (parse_exponent_carries st p ch w a) as [A B];
           split; [exact A|]; now apply jump_after_cons);
      match goal with
      | |- context [skip_digits st (p + 1) w ?a1] =>
          destruct (IH st (p + 1) a1) as [A B];
          split; [exact A|]; now apply jump_after_cons
      end.
Qed.

Lemma accumulate_digit_negative a d :
  negative (accumulate_digit a d) = negative a.
Proof. unfold accumulate_digit. break_if; reflexivity. Qed.

Lemma scan_digits_carries w : forall st p a,
  jump_carries st (negative a) (scan_digits st p w a)
  /\ jump_after p w (scan_digits st p w a).
Proof.
  induction w as [|ch w IH]; intros; cbn [scan_digits].
  - unfold datastream_fetch. destruct (failed st) eqn:F.
    + split; [exact F|]. now apply jump_after_here.
    + split; [split; reflexivity|]. now apply jump_after_here.
  - repeat break_if;
      try (split; [split; reflexivity|now apply jump_after_here]);
      try (destruct (parse_exponent_carries st p ch w a) as [A B];
           split; [exact A|]; now apply jump_after_cons);
      try (destruct (parse_infinity_carries st p ch w (negative a))
             as (A & pre & _ & C); split; [exact A|]; now exists pre);
      try (destruct (parse_nan_carries st p ch w (negative a))
             as (A & pre & _ & C); split; [exact A|]; now exists pre);
      match goal with
      | |- context [skip_digits st (p + 1) w ?a1] =>
          destruct (skip_digits_carries w st (p + 1) a1) as [A B];
          rewrite ?accumulate_digit_negative in A;
          split; [exact A|]; now apply jump_after_cons
      | |- context [scan_digits st (p + 1) w ?a1] =>
          destruct (IH st (p + 1) a1) as [A B];
          rewrite ?accumulate_digit_negative in A;
          split; [exact A|]; now apply jump_after_cons
      end.
Qed.

(** The sign the scanner starts with, from the first byte. *)
Lemma scan_carries st p ch w :
  let j := scan st {| ptr := p; window := ch :: w |} in
  jump_carries st (ch =? chr "-") j
  /\ exists pre, pre <> [] /\ consumed p (ch :: w) pre (jump_stream j).
Proof.
  unfold scan. cbn [window ptr].
  assert (S : forall a, negative a = (ch =? chr "-") ->
    jump_carries st (ch =? chr "-") (scan_digits st (p + 1) w a)
    /\ exists pre, pre <> []
         /\ consumed p (ch :: w) pre (jump_stream (scan_digits st (p + 1) w a))).
  { intros a N. destruct (scan_digits_carries w st (p + 1) a) as [A [pre B]].
    rewrite N in A. split; [exact A|]. exists (ch :: pre).
    split; [discriminate|]. now apply consumed_cons. }
  destruct (Z.eqb_spec ch (chr "-")) as [E|E].
  - apply S. reflexivity.
  - repeat break_if; try (apply S; reflexivity).
    + apply parse_infinity_carries.
    + apply parse_nan_carries.
    + cbn [jump_carries jump_stream]. split; [reflexivity|].
      exists [ch]. split; [discriminate|]. apply consumed_cons.
      apply consumed_nil.
Qed.

(** ** The patterns [parse_double] returns *)

Lemma lor_range a b n :
  0 <= n -> 0 <= a < 2 ^ n -> 0 <= b < 2 ^ n -> 0 <= Z.lor a b < 2 ^ n.
Proof.
  intros Hn Ha Hb. split; [apply Z.lor_nonneg; lia|].
  destruct (Z.eq_dec (Z.lor a b) 0) as [E|E].
  - rewrite E. apply Z.pow_pos_nonneg; lia.
  - assert (0 <= Z.lor a b) by (apply Z.lor_nonneg; lia).
    assert (N : 0 < n).
    { destruct (Z.eq_dec n 0) as [N|N]; [|lia]. subst n.
      assert (a = 0) by (change (2 ^ 0) with 1 in *; lia).
      assert (b = 0) by (change (2 ^ 0) with 1 in *; lia).
      subst a b. contradiction E. reflexivity. }
    apply Z.log2_lt_pow2; [lia|].
    rewrite Z.log2_lor by lia.
    apply Z.max_lub_lt.
    + destruct (Z.eq_dec a 0) as [A|A]; [subst a; cbn; lia|].
      apply Z.log2_lt_pow2; lia.
    + destruct (Z.eq_dec b 0) as [B|B]; [subst b; cbn; lia|].
      apply Z.log2_lt_pow2; lia.
Qed.

Lemma shiftr_range a k n :
  0 <= k -> 0 <= a < 2 ^ n -> 0 <= Z.shiftr a k < 2 ^ n.
Proof.
  intros Hk Ha. rewrite Z.shiftr_div_pow2 by lia.
  assert (0 < 2 ^ k) by (apply Z.pow_pos_nonneg; lia).
  split; [apply Z.div_pos; lia|].
  apply Z.le_lt_trans with a; [|lia].
  apply Z.div_le_upper_bound; [lia|]. nia.
Qed.

Lemma mulf64_range mx ex my ey : 0 <= fst (mulf64 mx ex my ey) < 2 ^ 64.
Proof.
  unfold mulf64. break_if; cbn [fst].
  - apply u64_range.
  - apply lor_range; [lia| |apply u64_range].
    apply shiftr_range; [lia|apply u64_range].
Qed.

Lemma apply_powers_range table : forall n me,
  0 <= fst me < 2 ^ 64 -> 0 <= fst (apply_powers n table me) < 2 ^ 64.
Proof.
  unfold apply_powers.
  induction table as [|[[bit m] e] table IH]; intros n me H; cbn [fold_left].
  - exact H.
  - apply IH. break_if; [exact H|apply mulf64_range].
Qed.

Lemma normalize_range n : 0 <= fst (normalize n) < 2 ^ 64.
Proof. unfold normalize. cbn [fst]. apply u64_range. Qed.

(** The exponent [round_mantissa] leaves: one more exactly when the
    round-up carries out of the 64 bits. *)
Lemma round_mantissa_exponent m e :
  0 <= m < 2 ^ 64 ->
  snd (round_mantissa m e)
  = if (m mod 2 ^ 12 >? 2048) && (2 ^ 64 <=? m + 2048) then e + 1 else e.
Proof.
  intros Hm. unfold round_mantissa.
  change 0xFFF with (Z.ones 12). rewrite Z.land_ones by lia.
  change 0x800 with 2048. change (Z.shiftl 1 11) with 2048.
  destruct (m mod 2 ^ 12 >? 2048); cbn [andb]; [|reflexivity].
  destruct (Z.leb_spec (2 ^ 64) (m + 2048)) as [W|W].
  - rewrite u64_wrap1 by lia.
    destruct (Z.ltb_spec (m + 2048 - 2 ^ 64) 2048); [reflexivity|lia].
  - rewrite u64_small by lia.
    destruct (Z.ltb_spec (m + 2048) 2048); [lia|reflexivity].
Qed.



(** X1.  A call of [parse_double] either leaves the status exactly as it
    found it, or leaves it failed and returns [+0.0]: a failure is never
    cleared, and the [assert(st->failed)] at label [failed] holds. *)
Theorem status_is_kept_or_failed st s :
  let o := parse_double st s in
  status o = st \/ (failed (status o) = true /\ value o = 0).
Proof.
  cbv zeta. unfold parse_double. destruct s as [p [|ch w]].
  - unfold scan. cbn [window]. unfold datastream_fetch.
    destruct (failed st) eqn:F; right; cbn; auto.
  - destruct (scan_carries st p ch w) as [C _]. cbv zeta in C.
    destruct (scan st {| ptr := p; window := ch :: w |})
      as [st1 s1 a|st1 s1 n|st1 s1 n|st1 s1|st1 s1 b];
      cbn [jump_carries continue_at] in *.
    + destruct C as [-> _].
      destruct (end_of_number_status st s1 a) as [[_ E]|[_ E]].
      * right. rewrite E. split; reflexivity.
      * left. exact E.
    + destruct C as [-> _]. left. reflexivity.
    + destruct C as [-> _]. left. reflexivity.
    + right. split; [exact C|reflexivity].
    + destruct C as [-> _]. left. reflexivity.
Qed.

(** X2.  [parse_double] consumes a prefix of the buffered input: what is
    left in the window is a suffix of what was there, the cursor has moved
    forward by the number of bytes taken, and at least one byte is taken
    whenever there is one (so the put-backs [s->ptr--] never move the
    cursor before its starting point, and a loop over calls makes progress
    even on errors). *)
Theorem parse_double_consumes_a_prefix st s :
  let o := parse_double st s in
  exists pre,
    window s = pre ++ window (stream o)
    /\ ptr (stream o) = ptr s + len pre
    /\ (pre = [] <-> window s = []).
Proof.
  cbv zeta. unfold parse_double. destruct s as [p [|ch w]].
  - exists []. unfold scan. cbn [window]. unfold datastream_fetch.
    destruct (failed st); cbn; (split; [reflexivity|]);
      (split; [unfold len; cbn; lia|tauto]).
  - destruct (scan_carries st p ch w) as (_ & pre & N & C1 & C2).
    cbv zeta in *. exists pre. cbn [window ptr].
    assert (S : stream (continue_at (scan st {| ptr := p; window := ch :: w |}))
                = jump_stream (scan st {| ptr := p; window := ch :: w |})).
    { destruct (scan st _); cbn [continue_at jump_stream]; try reflexivity.
      apply end_of_number_stream. }
    rewrite S. split; [exact C1|]. split; [exact C2|].
    split; [intros E; contradiction|discriminate].
Qed.


(** X4.  For a word of ASCII characters, [datastream_consume_word] is an
    exact, case-sensitive match that always consumes as many bytes as the
    word has, or all that are buffered if these are fewer, matching or
    not; the status comes back not failed exactly when it was not failed
    before and the window starts with the word, and then it is
    unchanged. *)
Theorem consume_word_matches_exactly st s word :
  ascii_word word ->
  let r := datastream_consume_word st s word in
  let k := Nat.min (List.length word) (List.length (window s)) in
  snd r = {| ptr := ptr s + Z.of_nat k; window := skipn k (window s) |}
  /\ (failed (fst r) = false
      <-> failed st = false /\ firstn (List.length word) (window s) = word)
  /\ (failed (fst r) = false -> fst r = st).
Proof.
  intros _. cbv zeta. split; [apply consume_word_stream|].
  split; [apply consume_word_failed_iff|apply consume_word_status].
Qed.

(** ** The sign is only carried along *)

Lemma end_of_exponent_sign st s a ne ae neg :
  end_of_exponent st s (set_negative a neg) ne ae
  = jump_set_negative (end_of_exponent st s a ne ae) neg.
Proof.
  unfold end_of_exponent. cbn [set_negative fractional_digits decimal_exponent
                               negative].
  repeat (break_if || match goal with
                      | |- context [let '(_, _) := ?p in _] => destruct p
                      end); reflexivity.
Qed.

Lemma exponent_digits_sign w : forall st p a ne ae neg,
  exponent_digits st p w (set_negative a neg) ne ae
  = jump_set_negative (exponent_digits st p w a ne ae) neg.
Proof.
  induction w as [|ch w IH]; intros; cbn [exponent_digits].
  - unfold datastream_fetch. destruct (failed st); [reflexivity|].
    apply end_of_exponent_sign.
  - cbn [set_negative significant_digits negative].
    repeat break_if; try reflexivity.
    + apply IH.
    + apply end_of_exponent_sign.
Qed.

Lemma parse_exponent_sign st s a neg :
  parse_exponent st s (set_negative a neg)
  = jump_set_negative (parse_exponent st s a) neg.
Proof.
  unfold parse_exponent.
  destruct (window (advance s (tl (window s)))) as [|ch w'].
  - unfold datastream_fetch. destruct (failed st); reflexivity.
  - repeat break_if; apply exponent_digits_sign.
Qed.

Lemma parse_infinity_sign st s n neg :
  parse_infinity st s neg = jump_set_negative (parse_infinity st s n) neg.
Proof.
  unfold parse_infinity.
  destruct (datastream_consume_word st s (bytes "inf")) as [st1 s1].
  destruct (failed st1); reflexivity.
Qed.

Lemma parse_nan_sign st s n neg :
  parse_nan st s neg = jump_set_negative (parse_nan st s n) neg.
Proof.
  unfold parse_nan.
  destruct (datastream_consume_word st s (bytes "nan")) as [st1 s1].
  destruct (failed st1); reflexivity.
Qed.

Lemma skip_digits_sign w : forall st p a neg,
  skip_digits st p w (set_negative a neg)
  = jump_set_negative (skip_digits st p w a) neg.
Proof.
  induction w as [|ch w IH]; intros; cbn [skip_digits].
  - unfold datastream_fetch. destruct (failed st); reflexivity.
  - cbn [set_negative fractional_digits set_fractional_digits
         set_decimal_exponent decimal_exponent negative mantissa digits
         significant_digits].
    repeat break_if; try reflexivity;
      try apply parse_exponent_sign;
      match goal with
      | |- skip_digits _ _ _ ?a1 = jump_set_negative (skip_digits _ _ _ ?a2) _ =>
          change a1 with (set_negative a2 neg); apply IH
      end.
Qed.

Lemma accumulate_digit_sign a d neg :
  accumulate_digit (set_negative a neg) d
  = set_negative (accumulate_digit a d) neg.
Proof.
  unfold accumulate_digit.
  cbn [set_negative mantissa fractional_digits significant_digits].
  break_if; reflexivity.
Qed.

Lemma scan_digits_sign w : forall st p a neg,
  scan_digits st p w (set_negative a neg)
  = jump_set_negative (scan_digits st p w a) neg.
Proof.
  induction w as [|ch w IH]; intros; cbn [scan_digits].
  - unfold datastream_fetch. destruct (failed st); reflexivity.
  - rewrite accumulate_digit_sign.
    cbn [set_negative fractional_digits set_fractional_digits digits
         significant_digits negative].
    repeat break_if; try reflexivity;
      try apply parse_exponent_sign;
      try apply parse_infinity_sign;
      try apply parse_nan_sign;
      try apply skip_digits_sign;
      try apply IH;
      match goal with
      | |- skip_digits _ _ _ ?a1 = jump_set_negative (skip_digits _ _ _ ?a2) _ =>
          change a1 with (set_negative a2 neg); apply skip_digits_sign
      | |- scan_digits _ _ _ ?a1 = jump_set_negative (scan_digits _ _ _ ?a2) _ =>
          change a1 with (set_negative a2 neg); apply IH
      end.
Qed.

(** The bits of a negative result are those of the positive one with the
    sign bit added. *)
Lemma subnormal_round_assemble_sign st s m e :
  0 <= m < 2 ^ 64 ->
  value (subnormal_round_assemble st s true m e)
  = value (subnormal_round_assemble st s false m e) + 2 ^ 63
  /\ 0 <= value (subnormal_round_assemble st s false m e) < 2 ^ 63.
Proof.
  intros Hm.
  assert (Fin : forall m' e', 0 <= m' < 2 ^ 64 -> -1023 <= e' ->
    let me := round_mantissa m' e' in
    let v (neg : bool) :=
      value (if snd me >? 1023
             then return_possibly_signed_infinity st s neg
             else {| status := st; stream := s;
                     value := assemble neg (fst me) (snd me) |}) in
    v true = v false + 2 ^ 63 /\ 0 <= v false < 2 ^ 63).
  { intros m' e' Hm' He'. cbv zeta. rewrite Z.gtb_ltb.
    destruct (Z.ltb_spec 1023 (snd (round_mantissa m' e'))) as [Big|Small].
    - cbn. lia.
    - cbn [value].
      pose proof (round_mantissa_exponent m' e' Hm') as RE.
      assert (E1 : e' <= 1023).
      { rewrite RE in Small. destruct (_ && _); lia. }
      destruct (round_assemble_bits true m' e' Hm' ltac:(lia) ltac:(lia))
        as [A _].
      destruct (round_assemble_bits false m' e' Hm' ltac:(lia) ltac:(lia))
        as [B _].
      rewrite A, B.
      assert (KB : 0 <= m' / 2 ^ 12 < 2 ^ 52).
      { split; [apply Z.div_pos; lia|]. apply Z.div_lt_upper_bound; lia. }
      destruct (m' mod 2 ^ 12 >? 2048); lia. }
  unfold subnormal_round_assemble.
  destruct (Z.leb_spec e (-1023)) as [Sub|Norm].
  - destruct (Z.leb_spec e (-1023 - 64)) as [Under|Sub2].
    + cbn. lia.
    + apply Fin; [|lia].
      apply shiftr_range; [lia|].
      apply lor_range; [lia| |lia].
      apply shiftr_range; [lia|exact Hm].
  - apply Fin; [exact Hm|lia].
Qed.

Lemma end_of_number_sign st s a :
  let op := end_of_number st s (set_negative a false) in
  let om := end_of_number st s (set_negative a true) in
  status om = status op /\ stream om = stream op
  /\ ((value om = value op + 2 ^ 63 /\ 0 <= value op < 2 ^ 63)
      \/ (failed (status op) = true /\ value op = 0 /\ value om = 0)).
Proof.
  cbv zeta. unfold end_of_number.
  cbn [set_negative digits significant_digits fractional_digits
       decimal_exponent negative mantissa].
  assert (S : forall m e,
    0 <= m < 2 ^ 64 ->
    status (subnormal_round_assemble st s true m e)
    = status (subnormal_round_assemble st s false m e)
    /\ stream (subnormal_round_assemble st s true m e)
       = stream (subnormal_round_assemble st s false m e)
    /\ ((value (subnormal_round_assemble st s true m e)
         = value (subnormal_round_assemble st s false m e) + 2 ^ 63
         /\ 0 <= value (subnormal_round_assemble st s false m e) < 2 ^ 63)
        \/ (failed (status (subnormal_round_assemble st s false m e)) = true
            /\ value (subnormal_round_assemble st s false m e) = 0
            /\ value (subnormal_round_assemble st s true m e) = 0))).
  { intros m e Hm. rewrite !subnormal_round_assemble_status.
    split; [reflexivity|]. split.
    - unfold subnormal_round_assemble. repeat break_if; reflexivity.
    - left. now apply subnormal_round_assemble_sign. }
  repeat break_if;
    try (apply S; try apply apply_powers_range; apply normalize_range);
    cbn [return_failed return_possibly_signed_zero
         return_possibly_signed_infinity status stream value failed
         fail_here];
    (split; [reflexivity|]); (split; [reflexivity|]);
    first [left; lia | right; repeat split].
Qed.

(** X5.  The sign is only carried along: on the same bytes after it, a
    leading [-] and a leading [+] leave the same status and the same
    cursor, and unless the call fails (returning [+0.0] either way) the
    result after [-] is the result after [+] with the sign bit set. *)
Theorem minus_sets_the_sign_bit st p w :
  let op := parse_double st {| ptr := p; window := chr "+" :: w |} in
  let om := parse_double st {| ptr := p; window := chr "-" :: w |} in
  status om = status op /\ stream om = stream op
  /\ ((value om = value op + 2 ^ 63 /\ 0 <= value op < 2 ^ 63)
      \/ (failed (status op) = true /\ value op = 0 /\ value om = 0)).
Proof.
  cbv zeta. unfold parse_double, scan. cbn [window ptr].
  change (chr "+" =? chr "-") with false.
  change (chr "+" =? chr "+") with true.
  change (chr "-" =? chr "-") with true. cbv iota.
  set (a := {| negative := false; mantissa := 0; digits := 0;
               significant_digits := 0; fractional_digits := -1;
               decimal_exponent := 0 |}).
  change {| negative := true; mantissa := 0; digits := 0;
            significant_digits := 0; fractional_digits := -1;
            decimal_exponent := 0 |} with (set_negative a true).
  rewrite scan_digits_sign.
  destruct (scan_digits_carries w st (p + 1) a) as [C _].
  subst a. cbn [negative] in C.
  destruct (scan_digits st (p + 1) w _)
    as [st1 s1 a1|st1 s1 n|st1 s1 n|st1 s1|st1 s1 b];
    cbn [jump_carries jump_set_negative continue_at negative] in *;
    try match type of C with
        | _ /\ _ => destruct C as [_ C]; try subst n; try subst b
        end.
  - destruct a1 as [n1 m1 d1 sd1 fd1 de1].
    cbn [negative] in C. subst n1.
    exact (end_of_number_sign st1 s1
             {| negative := false; mantissa := m1; digits := d1;
                significant_digits := sd1; fractional_digits := fd1;
                decimal_exponent := de1 |}).
  - cbn [return_possibly_signed_zero status stream value].
    repeat split. left. lia.
  - cbn [return_possibly_signed_infinity status stream value].
    repeat split. left. lia.
  - cbn [return_failed status stream value].
    repeat split. right. repeat split. exact C.
  - cbn [status stream value].
    unfold nan_bits. repeat split. left. lia.
Qed.

(** ** A leading plus sign *)

(** After a leading [+] the scanner is where it would be had it started
    on the next byte. *)
Lemma scan_after_plus st p w :
  starts_unsigned w ->
  scan st {| ptr := p; window := chr "+" :: w |}
  = scan st {| ptr := p + 1; window := w |}.
Proof.
  intros H. destruct w as [|ch w]; [contradiction|]. cbn [starts_unsigned] in H.
  unfold scan. cbn [window ptr].
  change (chr "+" =? chr "-") with false.
  change (chr "+" =? chr "+") with true. cbv iota.
  cbn [scan_digits]. unfold accumulate_digit.
  cbn [mantissa digits significant_digits fractional_digits negative
       decimal_exponent set_fractional_digits].
  assert (L : (0 >? limit (u64 (ch - 48))) = false).
  { unfold limit. destruct (6 <=? u64 (ch - 48)); reflexivity. }
  rewrite L.
  change (0 <=? -1) with false. cbv iota. cbn [negb andb orb].
  change (0 =? 0) with true. cbn [negb andb orb].
  change (20 <=? 0) with false. cbv iota.
  unfold is_digit in H.
  change (chr "0") with 48 in *. change (chr "9") with 57 in *.
  change (chr "1") with 49. change (chr "-") with 45.
  change (chr "+") with 43. change (chr ".") with 46 in *.
  change (chr "i") with 105 in *. change (chr "n") with 110 in *.
  change (chr "e") with 101. change (chr "E") with 69.
  destruct H as [D|[E|[E|E]]]; try subst ch.
  - assert (U : u64 (ch - 48) = ch - 48) by (apply u64_small; lia).
    rewrite U.
    destruct (Z.leb_spec (ch - 48) 9) as [_|]; [|lia].
    destruct (Z.eqb_spec ch 45) as [|_]; [lia|].
    destruct (Z.eqb_spec ch 43) as [|_]; [lia|].
    destruct (Z.eqb_spec ch 48) as [->|N0].
    + reflexivity.
    + destruct (Z.leb_spec 49 ch) as [_|]; [|lia].
      destruct (Z.leb_spec ch 57) as [_|]; [|lia]. cbn [andb].
      destruct (Z.eqb_spec (ch - 48) 0) as [|_]; [lia|]. cbn [negb orb].
      rewrite u64_small by lia.
      change (20 <=? 0 + 1) with false. cbv iota.
      change (20 <=? 1) with false. cbv iota. reflexivity.
  - reflexivity.
  - reflexivity.
  - reflexivity.
Qed.

(** X6.  A leading [+] is ignored: before a digit, a decimal point or the
    first letter of [inf] and [nan], it changes neither the status nor the
    value nor where the cursor ends. *)
Theorem leading_plus_is_ignored st p w :
  starts_unsigned w ->
  parse_double st {| ptr := p; window := chr "+" :: w |}
  = parse_double st {| ptr := p + 1; window := w |}.
Proof.
  intros H. unfold parse_double. f_equal. now apply scan_after_plus.
Qed.

(** ** The words [inf] and [nan] *)

Lemma consume_word_match word : forall st p rest,
  datastream_consume_word st {| ptr := p; window := word ++ rest |} word
  = (st, {| ptr := p + len word; window := rest |}).
Proof.
  induction word as [|c word IH]; intros; cbn [datastream_consume_word app window].
  - f_equal. f_equal. unfold len. cbn. lia.
  - rewrite Z.eqb_refl. unfold advance. cbn [ptr]. rewrite IH.
    rewrite len_cons. do 2 f_equal. lia.
Qed.

(** X7.  The words [inf] and [nan], in lower case, after an optional sign
    and an optional lone decimal point, give the signed infinity and the
    signed all-ones NaN; exactly the three letters are consumed, whatever
    follows them, and the status is untouched. *)
Theorem inf_and_nan_words st p sg (point : bool) rest :
  failed st = false ->
  let pre := sign_bytes sg ++ point_bytes point in
  parse_double st {| ptr := p; window := pre ++ bytes "inf" ++ rest |}
  = {| status := st;
       stream := {| ptr := p + len pre + 3; window := rest |};
       value := if sign_negative sg then 0xFFF0000000000000
                else 0x7FF0000000000000 |}
  /\ parse_double st {| ptr := p; window := pre ++ bytes "nan" ++ rest |}
     = {| status := st;
          stream := {| ptr := p + len pre + 3; window := rest |};
          value := nan_bits (sign_negative sg) |}.
Proof.
  intros F. cbv zeta.
  assert (I : forall q neg,
    parse_infinity st {| ptr := q; window := bytes "inf" ++ rest |} neg
    = Goto_return_possibly_signed_infinity st
        {| ptr := q + 3; window := rest |} neg).
  { intros. unfold parse_infinity. rewrite consume_word_match, F.
    reflexivity. }
  assert (N : forall q neg,
    parse_nan st {| ptr := q; window := bytes "nan" ++ rest |} neg
    = Return st {| ptr := q + 3; window := rest |} (nan_bits neg)).
  { intros. unfold parse_nan. rewrite consume_word_match, F.
    reflexivity. }
  assert (Sc : forall (word : string),
    word = "inf"%string \/ word = "nan"%string ->
    exists q,
      q = p + len (sign_bytes sg ++ point_bytes point)
      /\ scan st {| ptr := p;
                    window := (sign_bytes sg ++ point_bytes point)
                              ++ bytes word ++ rest |}
         = (if String.eqb word "inf" then parse_infinity else parse_nan)
             st {| ptr := q; window := bytes word ++ rest |}
             (sign_negative sg)).
  { intros word [-> | ->]; destruct sg, point;
      (eexists; split; [|reflexivity]); unfold len; cbn; lia. }
  unfold parse_double. split.
  - destruct (Sc "inf"%string) as (q & Q & E); [now left|].
    rewrite E. cbn [String.eqb Ascii.eqb Bool.eqb]. rewrite I.
    cbn [continue_at return_possibly_signed_infinity]. subst q. reflexivity.
  - destruct (Sc "nan"%string) as (q & Q & E); [now right|].
    rewrite E. cbn [String.eqb Ascii.eqb Bool.eqb]. rewrite N.
    cbn [continue_at]. subst q. reflexivity.
Qed.

(** ** Literals that are zero *)

Lemma all_zero_digits ds : all_zero ds -> Forall is_digit ds.
Proof.
  intros H. eapply Forall_impl; [|exact H].
  intros ch ->. unfold is_digit. vm_compute. split; discriminate.
Qed.

Lemma all_zero_value ds : all_zero ds -> decimal_value 0 ds = 0.
Proof.
  unfold decimal_value. induction 1 as [|ch ds -> _ IH]; [reflexivity|].
  cbn [fold_left]. change (10 * 0 + (chr "0" - chr "0")) with 0. exact IH.
Qed.

Lemma counted_zero a :
  digits_counted a -> mantissa a = 0 -> significant_digits a = 0.
Proof.
  intros [[S _]|[S [L _]]] M; [exact S|].
  assert (0 < 10 ^ (significant_digits a - 1))
    by (apply Z.pow_pos_nonneg; lia).
  lia.
Qed.

(** With no significant digit the exponent does not matter. *)
Lemma end_of_exponent_of_zero st s a ne x :
  digits a <> 0 -> significant_digits a = 0 -> decimal_exponent a = 0 ->
  0 <= x < 2 ^ 64 ->
  let o := continue_at (end_of_exponent st s a ne x) in
  status o = st /\ value o = zero_bits (negative a).
Proof.
  intros D S De Hx. cbv zeta.
  assert (EN : forall a', digits a' = digits a ->
    significant_digits a' = 0 -> negative a' = negative a ->
    status (end_of_number st s a') = st
    /\ value (end_of_number st s a') = zero_bits (negative a)).
  { intros a' D' S' N'. unfold end_of_number.
    rewrite D', S', N'.
    destruct (Z.eqb_spec (digits a) 0); [contradiction|].
    change (0 =? 0) with true. cbv iota. split; reflexivity. }
  unfold end_of_exponent. rewrite De.
  destruct (ne && negb (x =? 0)).
  - destruct (x <=? 0);
      (break_if; [cbn; split; reflexivity|]);
      cbn [continue_at]; (apply EN; [reflexivity|exact S|reflexivity]).
  - assert (R : forall fd ae, 0 <= ae <= x ->
      let de := u64 (0 + ae) in
      let o :=
        continue_at
          (if de <? ae
           then Goto_return_possibly_signed_infinity st s (negative a)
           else Goto_end_of_number st s
                  (set_decimal_exponent (set_fractional_digits a fd) de)) in
      status o = st /\ value o = zero_bits (negative a)).
    { intros fd ae Hae. cbv zeta. rewrite u64_small by lia.
      rewrite Z.add_0_l, Z.ltb_irrefl. cbn [continue_at].
      apply EN; [reflexivity|exact S|reflexivity]. }
    destruct (0 <? fractional_digits a).
    + destruct (Z.leb_spec x (u64 (fractional_digits a))).
      * apply (R _ 0). lia.
      * apply R. pose proof (u64_range (fractional_digits a)). lia.
    + apply R. lia.
Qed.

Lemma zero_literal_facts st p sg ds frac rest :
  failed st = false ->
  all_zero (ds ++ fraction_digits frac) -> ds ++ fraction_digits frac <> [] ->
  (ends_number rest ->
   parse_double st
     {| ptr := p; window := mantissa_bytes sg ds frac ++ rest |}
   = {| status := st;
        stream := {| ptr := p + len (mantissa_bytes sg ds frac);
                     window := rest |};
        value := zero_bits (sign_negative sg) |})
  /\ (forall mark esg xs,
        mark = chr "e" \/ mark = chr "E" ->
        Forall is_digit xs -> xs <> [] -> ends_exponent rest ->
        let o :=
          parse_double st
            {| ptr := p;
               window := literal_bytes sg ds frac mark esg xs ++ rest |} in
        status o = st /\ value o = zero_bits (sign_negative sg)).
Proof.
  intros F Z0 NE.
  pose proof (all_zero_digits _ Z0) as Dg.
  pose proof (all_zero_value _ Z0) as V0.
  assert (Dds : Forall is_digit ds) by (apply Forall_app in Dg; tauto).
  assert (Dfs : Forall is_digit (fraction_digits frac))
    by (apply Forall_app in Dg; tauto).
  assert (NB : mantissa_bytes sg ds frac <> []).
  { unfold mantissa_bytes. intros E.
    apply app_eq_nil in E. destruct E as [_ E].
    apply app_eq_nil in E. destruct E as [E1 E2]. subst ds.
    destruct frac as [fs|]; [discriminate E2|]. now apply NE. }
  assert (Sc : forall w, exists a,
    scan st {| ptr := p; window := mantissa_bytes sg ds frac ++ w |}
    = resume st (p + len (mantissa_bytes sg ds frac)) w a
    /\ digits a <> 0 /\ significant_digits a = 0 /\ decimal_exponent a = 0
    /\ mantissa a = 0 /\ digits_counted a
    /\ negative a = sign_negative sg).
  { intros w.
    destruct (scan_mantissa st p sg ds frac w Dds Dfs ltac:(lia) NB)
      as (a & E & M & C & D & Fd & De & N).
    exists a. split; [exact E|].
    assert (len ds + len (fraction_digits frac) <> 0).
    { rewrite <- len_app. unfold len.
      destruct (ds ++ fraction_digits frac); [contradiction|]. cbn. lia. }
    rewrite V0 in M.
    repeat split; try assumption; try lia. now apply counted_zero. }
  split.
  - intros End. destruct (Sc rest) as (a & E & D & S & De & M & C & N).
    unfold parse_double. rewrite E, resume_ends by assumption.
    cbn [continue_at].
    rewrite end_of_number_integer_zero by assumption.
    unfold return_possibly_signed_zero, zero_bits. now rewrite N.
  - intros mark esg xs Mk Dx Nx End. cbv zeta.
    unfold literal_bytes. rewrite <- app_assoc.
    destruct (Sc ((mark :: sign_bytes esg ++ xs) ++ rest))
      as (a & E & D & S & De & M & C & N).
    unfold parse_double. rewrite E. cbn [app].
    rewrite resume_exponent_mark by assumption.
    rewrite <- app_assoc, parse_exponent_signed by assumption.
    rewrite <- N.
    destruct (Z.lt_ge_cases (decimal_value 0 xs) (2 ^ 64)) as [Fit|Over].
    + rewrite exponent_digits_run by (assumption || lia).
      rewrite exponent_digits_ends by assumption.
      apply end_of_exponent_of_zero; try assumption.
      pose proof (decimal_value_bounds xs 0 Dx ltac:(lia)). lia.
    + destruct (exponent_digits_overflow xs st
                  (p + len (mantissa_bytes sg ds frac) + 1
                   + len (sign_bytes esg))
                  a (sign_negative esg) 0 rest Dx ltac:(lia) Over)
        as (s' & Ex).
      rewrite Ex, S. change (0 =? 0) with true. rewrite orb_true_r.
      cbn. split; reflexivity.
Qed.

(** X8.  A literal whose digits are all [0] gives the signed zero and no
    error, with or without an exponent and whatever the exponent is, also
    one that does not fit 64 bits. *)
Theorem zero_literal_gives_signed_zero st p sg ds frac rest :
  failed st = false ->
  all_zero (ds ++ fraction_digits frac) -> ds ++ fraction_digits frac <> [] ->
  (ends_number rest ->
   parse_double st
     {| ptr := p; window := mantissa_bytes sg ds frac ++ rest |}
   = {| status := st;
        stream := {| ptr := p + len (mantissa_bytes sg ds frac);
                     window := rest |};
        value := zero_bits (sign_negative sg) |})
  /\ (forall mark esg xs,
        mark = chr "e" \/ mark = chr "E" ->
        Forall is_digit xs -> xs <> [] -> ends_exponent rest ->
        let o :=
          parse_double st
            {| ptr := p;
               window := literal_bytes sg ds frac mark esg xs ++ rest |} in
        status o = st /\ value o = zero_bits (sign_negative sg)).
Proof. exact (zero_literal_facts st p sg ds frac rest). Qed.

(** ** Normalization is exact *)

Lemma normalize_facts n :
  0 < n < 2 ^ 64 ->
  let m := fst (normalize n) in
  let e := snd (normalize n) in
  e = Z.log2 n /\ 0 <= m < 2 ^ 64
  /\ n * 2 ^ 64 = 2 ^ e * (2 ^ 64 + m)
  /\ (ext_value m e == inject_Z n)%Q.
Proof.
  intros Hn. cbv zeta.
  destruct (normalize_spec n Hn) as (He & Hb & Hm). cbv zeta in *.
  set (e := snd (normalize n)) in *. set (m := fst (normalize n)) in *.
  assert (P : 2 ^ 64 = 2 ^ e * 2 ^ (64 - e)).
  { rewrite <- Z.pow_add_r by lia. f_equal. lia. }
  assert (Q1 : 0 < 2 ^ (64 - e)) by (apply Z.pow_pos_nonneg; lia).
  assert (Q2 : 0 < 2 ^ e) by (apply Z.pow_pos_nonneg; lia).
  assert (EQ : n * 2 ^ 64 = 2 ^ e * (2 ^ 64 + m)).
  { rewrite Hm. rewrite P at 1 2. ring. }
  split; [|split; [|split]].
  - symmetry. apply Z.log2_unique; [lia|].
    replace (Z.succ e) with (e + 1) by lia. exact Hb.
  - subst m. apply normalize_range.
  - exact EQ.
  - unfold ext_value.
    assert (T : (inject_Z (2 ^ 64) == 2 ^ 64)%Q) by reflexivity.
    rewrite <- (Qpower.Zpower_Qpower 2 e) by lia.
    change (inject_Z 2) with 2%Q.
    assert (NZ : ~ (inject_Z (2 ^ 64) == 0)%Q).
    { intros K. apply (Qeq_bool_neq (inject_Z (2 ^ 64)) 0); [reflexivity|exact K]. }
    setoid_replace ((1 + inject_Z m / inject_Z (2 ^ 64)) * inject_Z (2 ^ e))%Q
      with (inject_Z (2 ^ e * (2 ^ 64 + m)) / inject_Z (2 ^ 64))%Q.
    + rewrite <- EQ. rewrite inject_Z_mult. field. exact NZ.
    + rewrite !inject_Z_mult, inject_Z_plus. field. exact NZ.
Qed.

(** X9.  The normalization at [end_of_number] is exact, as its comment
    says: for a nonzero 64-bit mantissa it finds [binexp = floor (log2
    mantissa)] and leaves the bits below the leading one, shifted to the
    top, so that [2^binexp * (1 + new / 2^64)] is the old mantissa. *)
Theorem normalize_is_exact n :
  0 < n < 2 ^ 64 ->
  let m := fst (normalize n) in
  let e := snd (normalize n) in
  e = Z.log2 n /\ 0 <= m < 2 ^ 64
  /\ n * 2 ^ 64 = 2 ^ e * (2 ^ 64 + m)
  /\ (ext_value m e == inject_Z n)%Q.
Proof. exact (normalize_facts n). Qed.

(** ** The unsigned counters stay within 64 bits *)

Lemma end_of_exponent_in_range st s a ne ae :
  words_in_range a -> 0 <= ae ->
  in_range_at_end (end_of_exponent st s a ne ae).
Proof.
  intros [M D] Hae. unfold end_of_exponent, words_in_range.
  destruct (ne && negb (ae =? 0)).
  - destruct (Z.leb_spec ae (decimal_exponent a));
      (break_if; [exact I|]); cbn [in_range_at_end];
      unfold words_in_range; simpl_scan; lia.
  - destruct (0 <? fractional_digits a);
      [destruct (ae <=? u64 (fractional_digits a))|];
      (break_if; [exact I|]); cbn [in_range_at_end];
      unfold words_in_range; simpl_scan;
      (split; [exact M|apply u64_range]).
Qed.

Lemma exponent_digits_in_range w : forall st p a ne ae,
  words_in_range a -> 0 <= ae ->
  in_range_at_end (exponent_digits st p w a ne ae).
Proof.
  induction w as [|ch w IH]; intros st p a ne ae Ha Hae;
    cbn [exponent_digits].
  - unfold datastream_fetch. destruct (failed st); [exact I|].
    now apply end_of_exponent_in_range.
  - repeat break_if; try exact I.
    + apply IH; [exact Ha|apply u64_nonneg].
    + now apply end_of_exponent_in_range.
Qed.

Lemma parse_exponent_in_range st s a :
  words_in_range a -> in_range_at_end (parse_exponent st s a).
Proof.
  intros Ha. unfold parse_exponent.
  destruct (window (advance s (tl (window s)))) as [|ch w'].
  - unfold datastream_fetch. destruct (failed st); exact I.
  - repeat break_if; apply exponent_digits_in_range; (exact Ha || lia).
Qed.

Lemma skip_digits_in_range w : forall st p a,
  words_in_range a -> in_range_at_end (skip_digits st p w a).
Proof.
  induction w as [|ch w IH]; intros st p a Ha; cbn [skip_digits].
  - unfold datastream_fetch. destruct (failed st); [exact I|exact Ha].
  - destruct Ha as [M D].
    repeat break_if; try (split; assumption); try apply IH;
      try (apply parse_exponent_in_range; split; assumption);
      unfold words_in_range; simpl_scan;
      (split; [exact M|first [apply u64_range|exact D]]).
Qed.

Lemma accumulate_digit_in_range a d :
  words_in_range a -> words_in_range (accumulate_digit a d).
Proof.
  intros [M D]. unfold accumulate_digit, words_in_range.
  destruct (mantissa a >? limit d); simpl_scan.
  - split; [exact M|].
    destruct (fractional_digits a <? 0); [apply u64_range|exact D].
  - split; [apply u64_range|exact D].
Qed.

Lemma scan_digits_in_range w : forall st p a,
  words_in_range a -> in_range_at_end (scan_digits st p w a).
Proof.
  induction w as [|ch w IH]; intros st p a Ha; cbn [scan_digits].
  - unfold datastream_fetch. destruct (failed st); [exact I|exact Ha].
  - pose proof (accumulate_digit_in_range a (u64 (ch - 48)) Ha) as A1.
    repeat break_if; try exact Ha;
      try (apply skip_digits_in_range; first [exact A1|exact Ha]);
      try (apply IH; first [exact A1|exact Ha]);
      try (apply parse_exponent_in_range; exact Ha).
    + unfold parse_infinity.
      destruct (datastream_consume_word st _ (bytes "inf")).
      break_if; exact I.
    + unfold parse_nan.
      destruct (datastream_consume_word st _ (bytes "nan")).
      break_if; exact I.
Qed.

Lemma scan_in_range st s : in_range_at_end (scan st s).
Proof.
  unfold scan. destruct (window s) as [|ch w'].
  - unfold datastream_fetch. destruct (failed st); exact I.
  - destruct (Z.leb_spec (chr "1") ch) as [L1|L1];
      destruct (Z.leb_spec ch (chr "9")) as [L9|L9]; cbn [andb];
      repeat break_if;
      try (apply scan_digits_in_range; unfold words_in_range; simpl_scan;
           change (chr "0") with 48 in *; change (chr "1") with 49 in *;
           change (chr "9") with 57 in *; lia);
      try exact I.
    + unfold parse_infinity.
      destruct (datastream_consume_word st _ (bytes "inf")).
      break_if; exact I.
    + unfold parse_nan.
      destruct (datastream_consume_word st _ (bytes "nan")).
      break_if; exact I.
    + unfold parse_infinity.
      destruct (datastream_consume_word st _ (bytes "inf")).
      break_if; exact I.
    + unfold parse_nan.
      destruct (datastream_consume_word st _ (bytes "nan")).
      break_if; exact I.
    + unfold parse_infinity.
      destruct (datastream_consume_word st _ (bytes "inf")).
      break_if; exact I.
    + unfold parse_nan.
      destruct (datastream_consume_word st _ (bytes "nan")).
      break_if; exact I.
Qed.

(** ** The mantissa of a literal, whatever the number of its digits *)

(** The scanner on [sign] [digits], without a decimal point. *)
Lemma scan_one_run st p sg ds :
  Forall is_digit ds -> sign_bytes sg ++ ds <> [] ->
  exists a,
    (forall w,
       scan st {| ptr := p; window := mantissa_bytes sg ds None ++ w |}
       = resume st (p + len (mantissa_bytes sg ds None)) w a)
    /\ fractional_digits a < 0
    /\ (ds <> [] -> digits a <> 0)
    /\ (ds = [] -> digits a = 0).
Proof.
  intros Fd NE.
  assert (Tail : forall a0 ds0 q,
    Forall is_digit ds0 -> digits_seen a0 -> fractional_digits a0 < 0 ->
    significant_digits a0 < 20 ->
    exists a,
      (forall w, scan_digits st q (ds0 ++ w) a0
                 = resume st (q + len ds0) w a)
      /\ fractional_digits a < 0
      /\ (ds0 <> [] -> digits a <> 0)
      /\ digits a0 <= digits a
      /\ (ds0 = [] -> digits a = digits a0)).
  { intros a0 ds0 q F0 J0 N0 S0.
    destruct (run_facts ds0 a0 J0) as (R1 & R2 & R3 & R4 & _ & _).
    exists (fold_left step_digit ds0 a0).
    split; [|split; [|split; [|split]]].
    - intros w. rewrite <- resume_run by exact F0. unfold resume.
      destruct (Z.leb_spec 20 (significant_digits a0)); [lia|reflexivity].
    - rewrite R4; lia.
    - intros Hne. specialize (R2 Hne). lia.
    - exact R3.
    - intros ->. reflexivity. }
  unfold mantissa_bytes. cbn [fraction_bytes]. rewrite app_nil_r.
  destruct sg; cbn [sign_bytes app] in *.
  - destruct ds as [|ch ds]; [contradiction|].
    inversion Fd as [|? ? Hch Fd']; subst.
    set (a0 := {| negative := false; mantissa := ch - chr "0";
                  digits := 1;
                  significant_digits := if ch =? chr "0" then 0 else 1;
                  fractional_digits := -1; decimal_exponent := 0 |}).
    destruct (Tail a0 ds (p + 1) Fd') as (a & H1 & H2 & H3 & H4 & _).
    { unfold digits_seen, a0. simpl_scan. destruct (ch =? chr "0"); lia. }
    { unfold a0. simpl_scan. lia. }
    { unfold a0. simpl_scan. destruct (ch =? chr "0"); lia. }
    exists a. split; [|split; [|split]].
    + intros w. unfold scan. cbn [window ptr app].
      unfold is_digit in Hch. revert Hch.
      change (chr "0") with 48. change (chr "9") with 57.
      change (chr "1") with 49. change (chr "-") with 45.
      change (chr "+") with 43. intros Hch.
      destruct (Z.eqb_spec ch 45) as [|_]; [lia|].
      destruct (Z.eqb_spec ch 43) as [|_]; [lia|].
      rewrite len_cons.
      replace (p + (1 + len ds)) with (p + 1 + len ds) by lia.
      rewrite <- H1. unfold a0. change (chr "0") with 48.
      destruct (Z.eqb_spec ch 48) as [Z0|Z0].
      * subst ch. reflexivity.
      * destruct (Z.leb_spec 49 ch); [|lia].
        destruct (Z.leb_spec ch 57); [|lia]. reflexivity.
    + exact H2.
    + intros _. unfold a0 in H4. simpl_scan. lia.
    + discriminate.
  - set (a0 := {| negative := false; mantissa := 0; digits := 0;
                  significant_digits := 0; fractional_digits := -1;
                  decimal_exponent := 0 |}).
    destruct (Tail a0 ds (p + 1) Fd) as (a & H1 & H2 & H3 & H4 & H5);
      try (unfold digits_seen, a0; simpl_scan; lia).
    exists a. split; [|split; [|split]]; try assumption.
    intros w. unfold scan. cbn [window ptr app].
    change (chr "+" =? chr "-") with false.
    change (chr "+" =? chr "+") with true. cbv iota.
    rewrite len_cons.
    replace (p + (1 + len ds)) with (p + 1 + len ds) by lia.
    rewrite <- H1. reflexivity.
  - set (a0 := {| negative := true; mantissa := 0; digits := 0;
                  significant_digits := 0; fractional_digits := -1;
                  decimal_exponent := 0 |}).
    destruct (Tail a0 ds (p + 1) Fd) as (a & H1 & H2 & H3 & H4 & H5);
      try (unfold digits_seen, a0; simpl_scan; lia).
    exists a. split; [|split; [|split]]; try assumption.
    intros w. unfold scan. cbn [window ptr app].
    change (chr "-" =? chr "-") with true. cbv iota.
    rewrite len_cons.
    replace (p + (1 + len ds)) with (p + 1 + len ds) by lia.
    rewrite <- H1. reflexivity.
Qed.

(** The scanner on the mantissa of a literal with at least one digit. *)
Lemma scan_any_mantissa st p sg ds frac :
  failed st = false ->
  Forall is_digit ds -> Forall is_digit (fraction_digits frac) ->
  ds ++ fraction_digits frac <> [] ->
  exists a,
    (forall w,
       scan st {| ptr := p; window := mantissa_bytes sg ds frac ++ w |}
       = resume st (p + len (mantissa_bytes sg ds frac)) w a)
    /\ digits a <> 0 /\ words_in_range a.
Proof.
  intros F Fd Ff NE.
  assert (R : exists a,
    (forall w,
       scan st {| ptr := p; window := mantissa_bytes sg ds frac ++ w |}
       = resume st (p + len (mantissa_bytes sg ds frac)) w a)
    /\ digits a <> 0).
  { destruct frac as [fs|]; cbn [fraction_digits] in *.
    - destruct (scan_two_runs st p sg ds fs Fd Ff) as (a & S & _ & D & _).
      exists a. split; [exact S|now apply D].
    - rewrite app_nil_r in NE.
      destruct (scan_one_run st p sg ds Fd) as (a & S & _ & D & _).
      { destruct ds; [contradiction|]. destruct sg; discriminate. }
      exists a. split; [exact S|now apply D]. }
  destruct R as (a & S & D). exists a. split; [exact S|].
  split; [exact D|].
  pose proof (scan_in_range st
                {| ptr := p; window := mantissa_bytes sg ds frac ++ [] |})
    as I.
  rewrite S, resume_end_of_input in I by exact F. exact I.
Qed.

Lemma scan_eta (a : Scan) :
  set_decimal_exponent (set_fractional_digits a (fractional_digits a))
    (decimal_exponent a) = a.
Proof. destruct a. reflexivity. Qed.

(** An exponent of zero leaves the scanner state as it is. *)
Lemma end_of_exponent_nothing st s a ne :
  words_in_range a ->
  end_of_exponent st s a ne 0 = Goto_end_of_number st s a.
Proof.
  intros [_ D]. unfold end_of_exponent.
  change (0 =? 0) with true. cbn [negb]. rewrite andb_false_r.
  assert (U : forall z, (0 <=? u64 z) = true).
  { intros z. apply Z.leb_le. apply u64_nonneg. }
  destruct (0 <? fractional_digits a); [rewrite U|];
    cbv beta iota zeta; change (i64 0) with 0;
    rewrite ?Z.sub_0_r, Z.add_0_r, (u64_small (decimal_exponent a))
      by exact D;
    (destruct (Z.ltb_spec (decimal_exponent a) 0) as [|_]; [lia|]);
    now rewrite scan_eta.
Qed.

(** X19.  An exponent marker that no digit follows is an exponent of
    zero, not an error: after a mantissa with at least one digit,
    [e] or [E] and an optional sign are consumed and the value is the one
    of the mantissa alone, as long as some byte follows the marker.  Only
    when the marker is the last byte buffered does the call fail, with
    "Incomplete exponent". *)
Theorem exponent_marker_without_digits st p sg ds frac mark esg rest :
  failed st = false ->
  Forall is_digit ds -> Forall is_digit (fraction_digits frac) ->
  ds ++ fraction_digits frac <> [] ->
  mark = chr "e" \/ mark = chr "E" ->
  ends_exponent rest ->
  (esg = NoSign ->
   exists ch w, rest = ch :: w /\ ch <> chr "+" /\ ch <> chr "-") ->
  let lit := mantissa_bytes sg ds frac in
  parse_double st
    {| ptr := p; window := lit ++ mark :: sign_bytes esg ++ rest |}
  = {| status := st;
       stream := {| ptr := p + len lit + 1 + len (sign_bytes esg);
                    window := rest |};
       value := value (parse_double st {| ptr := p; window := lit |}) |}
  /\ parse_double st {| ptr := p; window := lit ++ [mark] |}
     = {| status := fail_here st
                      {| ptr := p + len lit + 1; window := [] |}
                      msg_incomplete_exponent;
          stream := {| ptr := p + len lit + 1; window := [] |};
          value := 0 |}.
Proof.
  intros F Fd Ff NE Mk End Sg lit.
  destruct (scan_any_mantissa st p sg ds frac F Fd Ff NE) as (a & S & D & R).
  fold lit in S.
  assert (Alone : parse_double st {| ptr := p; window := lit |}
                  = end_of_number st
                      {| ptr := p + len lit; window := [] |} a).
  { unfold parse_double. rewrite <- (app_nil_r lit) at 1.
    rewrite S, resume_end_of_input by exact F. reflexivity. }
  assert (Val : forall s',
    end_of_number st s' a
    = {| status := st; stream := s';
         value := value (parse_double st {| ptr := p; window := lit |}) |}).
  { intros s'. rewrite Alone.
    rewrite (end_of_number_value st _ st s' a).
    pose proof (end_of_number_keeps_status st s' a D) as K.
    pose proof (end_of_number_stream st s' a) as T.
    destruct (end_of_number st s' a) as [st1 s1 v1]. cbn in *.
    now subst. }
  split.
  - unfold parse_double. rewrite S.
    rewrite resume_exponent_mark by assumption.
    unfold parse_exponent. cbn [advance window tl ptr].
    destruct esg; cbn [sign_bytes app len List.length].
    + destruct (Sg eq_refl) as (ch & w & -> & NP & NM).
      destruct (Z.eqb_spec ch (chr "-")) as [|_]; [contradiction|].
      destruct (Z.eqb_spec ch (chr "+")) as [|_]; [contradiction|].
      rewrite exponent_digits_ends by assumption.
      rewrite end_of_exponent_nothing by exact R.
      cbn [continue_at]. rewrite Val.
      solve [reflexivity | do 2 f_equal; unfold len; cbn; lia].
    + change (chr "+" =? chr "-") with false.
      change (chr "+" =? chr "+") with true. cbv iota.
      rewrite exponent_digits_ends by assumption.
      rewrite end_of_exponent_nothing by exact R.
      cbn [continue_at]. rewrite Val.
      solve [reflexivity | do 2 f_equal; unfold len; cbn; lia].
    + change (chr "-" =? chr "-") with true. cbv iota.
      rewrite exponent_digits_ends by assumption.
      rewrite end_of_exponent_nothing by exact R.
      cbn [continue_at]. rewrite Val.
      solve [reflexivity | do 2 f_equal; unfold len; cbn; lia].
  - unfold parse_double. rewrite S.
    rewrite resume_exponent_mark by assumption.
    unfold parse_exponent. cbn [advance window tl ptr].
    unfold datastream_fetch. rewrite F. reflexivity.
Qed.

(** ** Overflow and underflow of every literal *)

Lemma decimal_value_zero ds :
  Forall is_digit ds -> decimal_value 0 ds = 0 -> all_zero ds.
Proof.
  induction 1 as [|ch ds Hch F IH]; intros V; [constructor|].
  destruct (digit_value_of_digit ch Hch) as [_ Hd].
  cbn [decimal_value fold_left] in V.
  fold (decimal_value (10 * 0 + (ch - chr "0")) ds) in V.
  pose proof (decimal_value_bounds ds (10 * 0 + (ch - chr "0")) F
                ltac:(lia)) as B.
  assert (P : 0 < 10 ^ len ds)
    by (apply Z.pow_pos_nonneg; [lia|apply len_nonneg]).
  assert (Z0 : ch - chr "0" = 0) by nia.
  constructor; [lia|]. apply IH. rewrite Z0 in V. exact V.
Qed.

Lemma step_digit_counts a ch :
  0 <= significant_digits a ->
  let a' := step_digit a ch in
  0 <= significant_digits a'
  /\ (significant_digits a <> 0 -> significant_digits a' <> 0)
  /\ (ch <> chr "0" -> significant_digits a' <> 0)
  /\ (0 <= fractional_digits a ->
      fractional_digits a <= fractional_digits a'
      <= fractional_digits a + 1).
Proof.
  intros S0. cbv zeta. unfold step_digit.
  destruct (Z.leb_spec 20 (significant_digits a)) as [L|L].
  - destruct (fractional_digits a <? 0); simpl_scan; repeat split; lia.
  - unfold accumulate_digit.
    destruct (mantissa a >? limit (ch - chr "0")); simpl_scan.
    + repeat split; lia.
    + destruct (Z.eqb_spec (ch - chr "0") 0) as [E|E];
        destruct (Z.eqb_spec (significant_digits a) 0) as [E'|E'];
        cbn [negb orb];
        destruct (Z.leb_spec 0 (fractional_digits a));
        repeat split; lia.
Qed.

Lemma run_counts ds : forall a,
  0 <= significant_digits a ->
  let a' := fold_left step_digit ds a in
  0 <= significant_digits a'
  /\ (significant_digits a <> 0 -> significant_digits a' <> 0)
  /\ (~ all_zero ds -> significant_digits a' <> 0)
  /\ (0 <= fractional_digits a ->
      fractional_digits a <= fractional_digits a'
      <= fractional_digits a + len ds).
Proof.
  induction ds as [|ch ds IH]; intros a S0; cbn [fold_left].
  - change (len []) with 0. repeat split; try lia.
    intros N. elim N. constructor.
  - destruct (step_digit_counts a ch S0) as (C1 & C2 & C3 & C4).
    destruct (IH (step_digit a ch) C1) as (I1 & I2 & I3 & I4).
    rewrite len_cons. split; [exact I1|]. split; [|split].
    + intros N. apply I2. now apply C2.
    + intros N. destruct (Z.eq_dec ch (chr "0")) as [E|E].
      * apply I3. intros Z. apply N. constructor; assumption.
      * apply I2. now apply C3.
    + intros P. specialize (C4 P). specialize (I4 ltac:(lia)). lia.
Qed.

(** The [switch] on the first byte does what the first turn of the main
    loop would do from the initial values. *)
Lemma scan_start st p sg w :
  (sg = NoSign -> starts_unsigned w) ->
  scan st {| ptr := p; window := sign_bytes sg ++ w |}
  = resume st (p + len (sign_bytes sg)) w (start_state (sign_negative sg)).
Proof.
  intros H. destruct sg; cbn [sign_bytes app sign_negative].
  - specialize (H eq_refl). change (len []) with 0. rewrite Z.add_0_r.
    replace p with (p - 1 + 1) at 1 by lia.
    rewrite <- scan_after_plus by exact H.
    unfold scan. cbn [window ptr].
    change (chr "+" =? chr "-") with false.
    change (chr "+" =? chr "+") with true. cbv iota.
    replace (p - 1 + 1) with p by lia. reflexivity.
  - unfold scan. cbn [window ptr].
    change (chr "+" =? chr "-") with false.
    change (chr "+" =? chr "+") with true. reflexivity.
  - unfold scan. cbn [window ptr].
    change (chr "-" =? chr "-") with true. reflexivity.
Qed.

Lemma start_seen neg : digits_seen (start_state neg).
Proof. unfold digits_seen, start_state. simpl_scan. lia. Qed.

(** The scanner on the mantissa of any literal with a digit. *)
Lemma scan_mantissa_state st p sg ds frac :
  Forall is_digit ds -> Forall is_digit (fraction_digits frac) ->
  ds ++ fraction_digits frac <> [] ->
  forall w,
    scan st {| ptr := p; window := mantissa_bytes sg ds frac ++ w |}
    = resume st (p + len (mantissa_bytes sg ds frac)) w
        (mantissa_state sg ds frac).
Proof.
  intros Fd Ff NE w. unfold mantissa_bytes.
  rewrite <- !app_assoc. rewrite scan_start.
  - rewrite resume_run by exact Fd.
    destruct (run_facts ds (start_state (sign_negative sg))
                (start_seen _)) as (_ & _ & _ & R4 & _ & _).
    unfold mantissa_state.
    destruct frac as [fs|]; cbn [fraction_bytes fraction_digits app] in *.
    + rewrite resume_point by (rewrite R4; cbn; lia).
      rewrite resume_run by exact Ff.
      rewrite !len_app, len_cons. f_equal. lia.
    + rewrite !len_app. change (len []) with 0. f_equal. lia.
  - intros _. destruct ds as [|ch ds]; cbn [app].
    + destruct frac as [fs|]; cbn [fraction_bytes fraction_digits app] in *.
      * right. left. reflexivity.
      * now elim NE.
    + left. now inversion Fd.
Qed.

Lemma mantissa_state_facts sg ds frac :
  Forall is_digit ds -> Forall is_digit (fraction_digits frac) ->
  ds ++ fraction_digits frac <> [] ->
  let a := mantissa_state sg ds frac in
  digits a <> 0 /\ negative a = sign_negative sg
  /\ -1 <= fractional_digits a <= len (fraction_digits frac)
  /\ (~ all_zero (ds ++ fraction_digits frac) -> significant_digits a <> 0)
  /\ words_in_range a /\ counters_exclusive a.
Proof.
  intros Fd Ff NE a.
  set (a0 := start_state (sign_negative sg)).
  destruct (run_facts ds a0 (start_seen _)) as (R1 & R2 & R3 & R4 & _ & R6).
  destruct (run_counts ds a0 ltac:(cbn; lia)) as (C1 & _ & C3 & _).
  set (a1 := fold_left step_digit ds a0) in *.
  assert (Inv : words_in_range a /\ counters_exclusive a).
  { pose proof (scan_mantissa_state status0 0 sg ds frac Fd Ff NE []) as S.
    rewrite resume_end_of_input in S by reflexivity.
    pose proof (scan_in_range status0
                  {| ptr := 0; window := mantissa_bytes sg ds frac ++ [] |})
      as I1.
    pose proof (scan_exclusive status0
                  {| ptr := 0; window := mantissa_bytes sg ds frac ++ [] |})
      as I2.
    rewrite S in I1, I2. split; [exact I1|exact I2]. }
  destruct frac as [fs|]; cbn [fraction_digits] in *.
  - set (a2 := set_fractional_digits a1 0).
    destruct (run_facts fs a2 R1) as (Q1 & Q2 & Q3 & _ & _ & Q6).
    destruct (run_counts fs a2 C1) as (_ & K2 & K3 & K4).
    change a with (fold_left step_digit fs a2).
    split; [|split; [|split; [|split]]].
    + assert (E : digits a2 = digits a1) by reflexivity.
      destruct ds as [|c ds'].
      * destruct fs as [|f fs']; [now elim NE|].
        specialize (Q2 ltac:(discriminate)). lia.
      * specialize (R2 ltac:(discriminate)). lia.
    + rewrite Q6. exact R6.
    + specialize (K4 ltac:(cbn; lia)).
      change (fractional_digits a2) with 0 in K4. lia.
    + intros NZ.
      destruct (Z.eq_dec (significant_digits a1) 0) as [E|E].
      * apply K3. intros Zf.
        assert (NN : ~ ~ all_zero ds).
        { intros N. apply (C3 N). exact E. }
        apply NN. intros Zd. apply NZ. apply Forall_app. split; assumption.
      * apply K2. exact E.
    + exact Inv.
  - rewrite app_nil_r in NE. change a with a1. rewrite app_nil_r.
    split; [|split; [|split; [|split]]].
    + destruct ds; [now elim NE|].
      specialize (R2 ltac:(discriminate)). lia.
    + exact R6.
    + rewrite R4 by (cbn; lia). change (len []) with 0. cbn. lia.
    + exact C3.
    + exact Inv.
Qed.

(** When the accumulator took every digit, the state is the exact one. *)
Lemma mantissa_state_exact sg ds frac :
  Forall is_digit ds -> Forall is_digit (fraction_digits frac) ->
  0 < decimal_value 0 (ds ++ fraction_digits frac) < 2 ^ 64 ->
  literal_scanned sg ds frac (mantissa_state sg ds frac).
Proof.
  intros Fd Ff [V0 V1].
  destruct (mantissa_bytes_nonempty sg ds frac V0) as [Hne Hlen].
  destruct (scan_mantissa status0 0 sg ds frac [] Fd Ff V1 Hne)
    as (a & S & L).
  assert (NE : ds ++ fraction_digits frac <> []).
  { intros E. rewrite E in V0. cbn in V0. lia. }
  rewrite (scan_mantissa_state status0 0 sg ds frac Fd Ff NE []) in S.
  rewrite !resume_end_of_input in S by reflexivity.
  injection S as S. rewrite S. exact L.
Qed.

Lemma end_of_exponent_keeps_status st s a ne x :
  digits a <> 0 ->
  status (continue_at (end_of_exponent st s a ne x)) = st.
Proof.
  intros D. unfold end_of_exponent.
  repeat break_if; cbn [continue_at return_possibly_signed_zero
                          return_possibly_signed_infinity status];
    try reflexivity; apply end_of_number_keeps_status; exact D.
Qed.

(** An explicit exponent that brings the net exponent to 512 or more
    gives infinity, whatever the number of digits of the mantissa. *)
Lemma end_of_exponent_overflows st s a x f :
  digits a <> 0 -> significant_digits a <> 0 ->
  words_in_range a -> counters_exclusive a ->
  -1 <= fractional_digits a <= f -> 0 <= f < 2 ^ 63 ->
  0 <= x < 2 ^ 64 -> 512 <= x - f ->
  value (continue_at (end_of_exponent st s a false x))
  = infinity_bits (negative a).
Proof.
  intros D S [_ Hde] Ex Hf Hf' Hx N.
  assert (EON : forall fd de, fd <= 0 -> 512 <= de ->
    value (end_of_number st s
             (set_decimal_exponent (set_fractional_digits a fd) de))
    = infinity_bits (negative a)).
  { intros fd de Hfd Hd. rewrite end_of_number_infinity; try assumption.
    reflexivity. }
  unfold end_of_exponent. cbn [andb].
  destruct (Z.ltb_spec 0 (fractional_digits a)) as [P|P].
  - assert (De : decimal_exponent a = 0).
    { unfold counters_exclusive in Ex. lia. }
    rewrite (u64_small (fractional_digits a)) by lia.
    destruct (Z.leb_spec x (fractional_digits a)) as [|_]; [lia|].
    rewrite De, Z.add_0_l.
    rewrite (u64_small (x - fractional_digits a)) by lia.
    rewrite Z.ltb_irrefl. cbn [continue_at].
    apply EON; lia.
  - destruct (Z.lt_ge_cases (decimal_exponent a + x) (2 ^ 64)) as [L|L].
    + rewrite (u64_small (decimal_exponent a + x)) by lia.
      destruct (Z.ltb_spec (decimal_exponent a + x) x) as [|_]; [lia|].
      cbn [continue_at]. apply EON; lia.
    + rewrite (u64_wrap1 (decimal_exponent a + x)) by lia.
      destruct (Z.ltb_spec (decimal_exponent a + x - 2 ^ 64) x) as [_|];
        [|lia].
      reflexivity.
Qed.

(** C5, as amended.  For a literal [sign] digits [. digits] with or
    without an exponent part (e|E) [sign] digits, with at least one digit,
    followed by the end of the input or by a byte that cannot continue
    it, [parse_double] leaves the status as it was ([failed] stays
    false).  It returns signed infinity when some digit of the mantissa is
    not zero and the net decimal exponent is 512 or more, whatever the
    number of digits; signed zero when the mantissa digits denote a
    number in (0, 2^64) and the net decimal exponent is -512 or less;
    and signed zero when all digits of the mantissa are zero, whatever
    the exponent. *)
Theorem decimal_exponent_saturates st p sg ds frac ex rest :
  failed st = false ->
  Forall is_digit ds -> Forall is_digit (fraction_digits frac) ->
  ds ++ fraction_digits frac <> [] ->
  exponent_well_formed ex ->
  len (fraction_digits frac) < 2 ^ 63 ->
  ends_literal ex rest ->
  let n := decimal_value 0 (ds ++ fraction_digits frac) in
  let net := net_exponent frac ex in
  let o :=
    parse_double st
      {| ptr := p;
         window := mantissa_bytes sg ds frac ++ exponent_bytes ex ++ rest |}
  in
  status o = st
  /\ (0 < n -> 512 <= net -> value o = infinity_bits (sign_negative sg))
  /\ (0 < n < 2 ^ 64 -> net <= -512 ->
      value o = zero_bits (sign_negative sg))
  /\ (n = 0 -> value o = zero_bits (sign_negative sg)).
Proof.
  intros F0 Fd Ff NE WF LF End n net o.
  pose proof (scan_mantissa_state st p sg ds frac Fd Ff NE) as Sc.
  destruct (mantissa_state_facts sg ds frac Fd Ff NE)
    as (D & Ng & Hfd & Sig & Rng & Exc).
  set (a := mantissa_state sg ds frac) in *.
  pose proof (len_nonneg (fraction_digits frac)) as LF0.
  assert (Dall : Forall is_digit (ds ++ fraction_digits frac))
    by (apply Forall_app; split; assumption).
  assert (NZ : 0 < n -> significant_digits a <> 0).
  { intros Pn. apply Sig. intros Z. subst n.
    rewrite (all_zero_value _ Z) in Pn. lia. }
  assert (AZ : n = 0 -> all_zero (ds ++ fraction_digits frac)).
  { intros Zn. now apply decimal_value_zero. }
  destruct ex as [[[mark esg] xs]|];
    cbn [exponent_bytes net_exponent ends_literal exponent_well_formed]
      in *.
  - (* with an exponent part *)
    destruct WF as (Mk & Fx & Xne).
    assert (W : mantissa_bytes sg ds frac
                ++ (mark :: sign_bytes esg ++ xs) ++ rest
                = literal_bytes sg ds frac mark esg xs ++ rest).
    { unfold literal_bytes. now rewrite <- !app_assoc. }
    assert (Zero : n = 0 -> status o = st
                            /\ value o = zero_bits (sign_negative sg)).
    { intros Zn. subst o. rewrite W.
      destruct (zero_literal_facts st p sg ds frac rest F0 (AZ Zn) NE)
        as [_ Z]. exact (Z mark esg xs Mk Fx Xne End). }
    assert (J : scan st
                  {| ptr := p;
                     window := mantissa_bytes sg ds frac
                               ++ (mark :: sign_bytes esg ++ xs) ++ rest |}
                = exponent_digits st
                    (p + len (mantissa_bytes sg ds frac) + 1
                     + len (sign_bytes esg))
                    (xs ++ rest) a (sign_negative esg) 0).
    { rewrite Sc. cbn [app]. rewrite <- app_assoc.
      rewrite resume_exponent_mark by assumption.
      now apply parse_exponent_signed. }
    pose proof (decimal_value_bounds xs 0 Fx ltac:(lia)) as Bx.
    assert (X0 : 0 <= decimal_value 0 xs).
    { assert (0 <= 10 ^ len xs) by (apply Z.pow_nonneg; lia). lia. }
    unfold net_decimal_exponent in net.
    destruct (Z.lt_ge_cases (decimal_value 0 xs) (2 ^ 64)) as [Fit|Over].
    + assert (O : o = continue_at
                        (end_of_exponent st
                           {| ptr := p + len (mantissa_bytes sg ds frac) + 1
                                     + len (sign_bytes esg) + len xs;
                              window := rest |}
                           a (sign_negative esg) (decimal_value 0 xs))).
      { subst o. unfold parse_double. rewrite J.
        rewrite exponent_digits_run by (assumption || lia).
        now rewrite exponent_digits_ends by assumption. }
      split; [rewrite O; now apply end_of_exponent_keeps_status|].
      split; [|split].
      * intros Pn Big. rewrite O, <- Ng. subst net.
        destruct (sign_negative esg); [lia|].
        apply (end_of_exponent_overflows _ _ _ _
                 (len (fraction_digits frac))); try assumption;
          try lia.
      * intros Pn Small. rewrite O.
        destruct (mantissa_state_exact sg ds frac Fd Ff Pn)
          as (_ & Cnt & _ & Hf & He & _).
        fold a in Cnt, Hf, He.
        destruct (end_of_exponent_saturates st
                    {| ptr := p + len (mantissa_bytes sg ds frac) + 1
                              + len (sign_bytes esg) + len xs;
                       window := rest |}
                    a (sign_negative esg) (decimal_value 0 xs)
                    (fractional_digits a) D (NZ ltac:(lia)) He eq_refl
                    ltac:(lia) ltac:(lia)) as (_ & _ & R3).
        assert (M : Z.max (fractional_digits a) 0
                    = len (fraction_digits frac)).
        { rewrite Hf. destruct frac as [fs|]; cbn [fraction_digits] in *.
          - lia.
          - change (len []) with 0. lia. }
        rewrite M in R3. rewrite (R3 Small).
        cbn [value return_possibly_signed_zero]. now rewrite Ng.
      * intros Zn. now apply Zero.
    + assert (O : exists s',
                o = continue_at
                      (if sign_negative esg || (significant_digits a =? 0)
                       then Goto_return_possibly_signed_zero st s'
                              (negative a)
                       else Goto_return_possibly_signed_infinity st s'
                              (negative a))).
      { destruct (exponent_digits_overflow xs st
                    (p + len (mantissa_bytes sg ds frac) + 1
                     + len (sign_bytes esg))
                    a (sign_negative esg) 0 rest Fx ltac:(lia) Over)
          as (s' & R).
        exists s'. subst o. unfold parse_double. now rewrite J, R. }
      destruct O as (s' & O).
      split; [rewrite O; destruct (_ || _); reflexivity|].
      split; [|split].
      * intros Pn Big. rewrite O. subst net.
        destruct (sign_negative esg); [lia|].
        apply NZ in Pn. apply Z.eqb_neq in Pn. rewrite Pn.
        cbn [orb continue_at value return_possibly_signed_infinity].
        now rewrite Ng.
      * intros Pn Small. rewrite O. subst net.
        destruct (sign_negative esg); [|lia].
        cbn [orb continue_at value return_possibly_signed_zero].
        now rewrite Ng.
      * intros Zn. now apply Zero.
  - (* without an exponent part *)
    cbn [app] in o.
    assert (O : o = end_of_number st
                      {| ptr := p + len (mantissa_bytes sg ds frac);
                         window := rest |} a).
    { subst o. unfold parse_double.
      now rewrite Sc, resume_ends by assumption. }
    split; [rewrite O; now apply end_of_number_keeps_status|].
    split; [|split].
    + intros _ Big. subst net. lia.
    + intros Pn Small. rewrite O.
      destruct (mantissa_state_exact sg ds frac Fd Ff Pn)
        as (_ & _ & _ & Hf & _ & _).
      fold a in Hf.
      rewrite end_of_number_zero.
      * cbn [value return_possibly_signed_zero]. now rewrite Ng.
      * exact D.
      * rewrite Hf. subst net.
        destruct frac as [fs|]; cbn [fraction_digits] in *.
        -- lia.
        -- change (len []) with 0 in Small. lia.
    + intros Zn.
      destruct (zero_literal_facts st p sg ds frac rest F0 (AZ Zn) NE)
        as [Z _].
      subst o. now rewrite (Z End).
Qed.

Lemma decimal_exponent_saturates_witness :
  let fs := repeat (chr "0") 511 ++ bytes "1" in
  Forall is_digit fs
  /\ net_exponent (Some fs) None <= -512
  /\ value (parse_double status0
              {| ptr := 0; window := bytes "0." ++ fs |}) = 0
  /\ 512 <= net_exponent None (Some (chr "e", NoSign, bytes "512"))
  /\ value (parse "1e512") = 0x7FF0000000000000
  /\ failed (status (parse "1e512")) = false.
Proof.
  intros fs.
  assert (Ff : Forall is_digit fs).
  { apply Forall_app. split; [|digits_ok].
    apply Forall_forall. intros x Hx. apply repeat_spec in Hx. subst x.
    unfold is_digit. vm_compute. split; discriminate. }
  assert (N1 : net_exponent (Some fs) None <= -512)
    by (vm_compute; discriminate).
  assert (N2 : 512 <= net_exponent None (Some (chr "e", NoSign, bytes "512")))
    by (vm_compute; discriminate).
  split; [exact Ff|]. split; [exact N1|].
  assert (D0 : Forall is_digit (bytes "0")) by digits_ok.
  assert (D1 : Forall is_digit (bytes "1")) by digits_ok.
  assert (D5 : Forall is_digit (bytes "512")) by digits_ok.
  split.
  - pose proof (decimal_exponent_saturates status0 0 NoSign (bytes "0")
                  (Some fs) None [] eq_refl D0 Ff) as H.
    cbv zeta in H.
    destruct H as (_ & _ & Zero & _).
    + vm_compute. discriminate.
    + exact I.
    + vm_compute. reflexivity.
    + exact I.
    + rewrite !app_nil_r in Zero. apply Zero.
      * vm_compute. split; reflexivity.
      * exact N1.
  - split; [exact N2|].
    pose proof (decimal_exponent_saturates status0 0 NoSign (bytes "1")
                  None (Some (chr "e", NoSign, bytes "512")) []
                  eq_refl D1 (Forall_nil _)) as H.
    cbv zeta in H.
    destruct H as (St & Inf & _).
    + vm_compute. discriminate.
    + split; [left; reflexivity|]. split; [exact D5|discriminate].
    + vm_compute. reflexivity.
    + exact I.
    + split.
      * apply Inf; [vm_compute; reflexivity|exact N2].
      * change (failed (status (parse "1e512"))) with
          (failed (status (parse_double status0
                     {| ptr := 0;
                        window := mantissa_bytes NoSign (bytes "1") None
                                  ++ exponent_bytes
                                       (Some (chr "e", NoSign, bytes "512"))
                                  ++ [] |}))).
        rewrite St. reflexivity.
Defined.

(** ** The power-of-ten tables *)

Lemma row_rounded_bool_ok pw row :
  row_rounded_bool pw row = true -> row_rounded pw row.
Proof.
  destruct row as [[bit m] e]. unfold row_rounded_bool, row_rounded.
  intros H. apply andb_prop in H. destruct H as [H Q].
  apply andb_prop in H. destruct H as [H1 H2].
  apply Z.leb_le in H1. apply Z.ltb_lt in H2.
  split; [lia|]. now apply Qle_bool_imp_le.
Qed.

Lemma tables_rounded :
  Forall (row_rounded ten_to) pow10_table
  /\ Forall (row_rounded ten_to_minus) pow10n_table.
Proof.
  split; apply Forall_forall; intros row H;
    apply row_rounded_bool_ok;
    revert row H; apply Forall_forall;
    repeat constructor; vm_compute; reflexivity.
Qed.

(** ** The error of the cascade of multiplications *)

Lemma row_close_bool_ok pw row :
  row_close_bool pw row = true -> row_close pw row.
Proof.
  destruct row as [[bit m] e]. unfold row_close_bool, row_close.
  intros H. apply andb_prop in H. destruct H as [H Q2].
  apply andb_prop in H. destruct H as [H Q1].
  apply andb_prop in H. destruct H as [H1 H2].
  apply Z.leb_le in H1. apply Z.ltb_lt in H2.
  split; [lia|]. split; now apply Qle_bool_imp_le.
Qed.

Lemma tables_close :
  Forall (row_close ten_to) pow10_table
  /\ Forall (row_close ten_to_minus) pow10n_table.
Proof.
  split; apply Forall_forall; intros row H;
    apply row_close_bool_ok;
    revert row H; apply Forall_forall;
    repeat constructor; vm_compute; reflexivity.
Qed.

Lemma two_power_pos e : (0 < 2 ^ e)%Q.
Proof. apply Qpower_0_lt. reflexivity. Qed.

Lemma ext_value_ge m e : 0 <= m -> (2 ^ e <= ext_value m e)%Q.
Proof.
  intros Hm. unfold ext_value.
  rewrite <- (Qmult_1_l (2 ^ e)) at 1.
  apply Qmult_le_compat_r; [|apply Qlt_le_weak, two_power_pos].
  rewrite <- (Qplus_0_r 1) at 1. apply Qplus_le_r.
  apply Qle_shift_div_l; [reflexivity|]. rewrite Qmult_0_l.
  change 0%Q with (inject_Z 0). rewrite <- Zle_Qle. exact Hm.
Qed.

Lemma ext_value_pos m e : 0 <= m -> (0 < ext_value m e)%Q.
Proof.
  intros Hm. eapply Qlt_le_trans; [apply (two_power_pos e)|].
  now apply ext_value_ge.
Qed.

Lemma row_gain_pos : (0 < row_gain)%Q.
Proof. reflexivity. Qed.

Lemma ext_value_succ_le m e :
  0 <= m -> (ext_value (m + 1) e <= ext_value m e * row_gain)%Q.
Proof.
  intros Hm.
  assert (E1 : (ext_value (m + 1) e
                == ext_value m e + 2 ^ e / inject_Z (2 ^ 64))%Q).
  { unfold ext_value. rewrite inject_Z_plus. field. discriminate. }
  assert (E2 : (ext_value m e * row_gain
                == ext_value m e + ext_value m e / inject_Z (2 ^ 64))%Q).
  { unfold row_gain. change (2 ^ 64)%Q with (inject_Z (2 ^ 64)).
    field. discriminate. }
  rewrite E1, E2. apply Qplus_le_r.
  apply Qmult_le_compat_r; [now apply ext_value_ge|]. discriminate.
Qed.

(** The mantissa and the two inequalities of [mulf64]. *)
Lemma mulf64_bounds mx ex my ey :
  0 <= mx < 2 ^ 64 -> 0 <= my < 2 ^ 64 ->
  let m' := fst (mulf64 mx ex my ey) in
  let e' := snd (mulf64 mx ex my ey) in
  0 <= m' < 2 ^ 64
  /\ (ext_value m' e' <= ext_value mx ex * ext_value my ey)%Q
  /\ (ext_value mx ex * ext_value my ey < ext_value (m' + 1) e')%Q.
Proof.
  intros Hx Hy m' e'.
  destruct (mulf64_exact mx ex my ey Hx Hy) as [Hc E].
  set (t := mx + my + mx * my / 2 ^ 64) in *.
  set (carry := t / 2 ^ 64) in *.
  assert (Hhi : 0 <= mx * my / 2 ^ 64 < 2 ^ 64 - 1).
  { split; [apply Z.div_pos; nia|]. apply Z.div_lt_upper_bound; nia. }
  pose proof (Z.div_mod (mx * my) (2 ^ 64) ltac:(lia)) as Hr.
  pose proof (Z.mod_pos_bound (mx * my) (2 ^ 64) ltac:(lia)) as Hrb.
  pose proof (Z.div_mod t (2 ^ 64) ltac:(lia)) as Ht.
  pose proof (Z.mod_pos_bound t (2 ^ 64) ltac:(lia)) as Htb.
  fold carry in Ht.
  set (u := t mod 2 ^ 64) in *.
  pose proof (Z.div_mod u 2 ltac:(lia)) as Hu.
  pose proof (Z.mod_pos_bound u 2 ltac:(lia)) as Hub.
  set (hi := mx * my / 2 ^ 64) in *. set (r := (mx * my) mod 2 ^ 64) in *.
  assert (HN : (2 ^ 64 + mx) * (2 ^ 64 + my)
               = 2 ^ 64 * 2 ^ 64 + 2 ^ 64 * t + r) by (subst t; nia).
  assert (Key : exists d, (d = 0 \/ d = 1) /\ e' = ex + ey + d
                /\ 0 <= m' < 2 ^ 64
                /\ (2 ^ 64 + m') * 2 ^ 64 * 2 ^ d
                   <= (2 ^ 64 + mx) * (2 ^ 64 + my)
                   < (2 ^ 64 + (m' + 1)) * 2 ^ 64 * 2 ^ d).
  { subst m' e'. rewrite E, HN. destruct (Z.eqb_spec carry 0) as [C0|C0].
    - exists 0. cbn [fst snd]. rewrite C0 in Ht.
      change (2 ^ 0) with 1. repeat split; lia.
    - exists 1. cbn [fst snd]. change (2 ^ 1) with 2.
      assert (C : carry = 1 \/ carry = 2) by lia.
      destruct C as [C|C]; rewrite C in *.
      + change ((1 + 1) mod 2 * 2 ^ 63) with 0. repeat split; lia.
      + change ((2 + 1) mod 2 * 2 ^ 63) with (2 ^ 63).
        repeat split; lia. }
  destruct Key as (d & Hd & He & Hm & Hlo & Hhi').
  split; [exact Hm|]. split.
  - rewrite He, ext_value_scaled, ext_value_product.
    apply Qmult_le_compat_r; [|apply Qlt_le_weak, scale_pos].
    rewrite <- (Zpower_Qpower 2 d) by lia.
    rewrite <- inject_Z_mult. rewrite <- Zle_Qle. exact Hlo.
  - rewrite He, ext_value_scaled, ext_value_product.
    apply Qmult_lt_compat_r; [apply scale_pos|].
    rewrite <- (Zpower_Qpower 2 d) by lia.
    rewrite <- inject_Z_mult. rewrite <- Zlt_Qlt. exact Hhi'.
Qed.

Lemma row_loss_facts :
  (0 < row_loss)%Q /\ (row_loss <= 1)%Q /\ (1 <= row_gain)%Q.
Proof. repeat split; vm_compute; discriminate. Qed.

(** One row of the cascade. *)
Lemma cascade_step pw bit m e n lo hi x mv ev :
  row_close pw (bit, m, e) -> (0 < pw bit)%Q ->
  0 <= mv < 2 ^ 64 -> (0 <= lo)%Q -> (0 <= hi)%Q -> (0 < x)%Q ->
  within lo hi (ext_value mv ev) x ->
  let acc' := if Z.land n bit =? 0 then (mv, ev) else mulf64 mv ev m e in
  let x' := if Z.land n bit =? 0 then x else (x * pw bit)%Q in
  0 <= fst acc' < 2 ^ 64 /\ (0 < x')%Q
  /\ within (lo * row_loss) (hi * row_gain)
       (ext_value (fst acc') (snd acc')) x'.
Proof.
  intros (Hm & RL & RU) Pp Hmv Hlo Hhi Hx [WL WU]. cbv zeta.
  destruct row_loss_facts as (L0 & L1 & G1).
  pose proof (ext_value_pos mv ev ltac:(lia)) as Vp.
  destruct (Z.land n bit =? 0); cbn [fst snd].
  - split; [exact Hmv|]. split; [exact Hx|]. split.
    + eapply Qle_trans; [|exact WL].
      apply Qmult_le_compat_r; [|now apply Qlt_le_weak].
      rewrite <- (Qmult_1_r lo) at 2.
      rewrite (Qmult_comm lo row_loss), (Qmult_comm lo 1).
      now apply Qmult_le_compat_r.
    + eapply Qle_trans; [exact WU|].
      apply Qmult_le_compat_r; [|now apply Qlt_le_weak].
      rewrite <- (Qmult_1_r hi) at 1.
      rewrite (Qmult_comm hi 1), (Qmult_comm hi row_gain).
      now apply Qmult_le_compat_r.
  - destruct (mulf64_bounds mv ev m e Hmv Hm) as (R & B1 & B2).
    cbv zeta in R, B1, B2.
    set (m' := fst (mulf64 mv ev m e)) in *.
    set (e' := snd (mulf64 mv ev m e)) in *.
    pose proof (ext_value_pos m e ltac:(lia)) as Tp.
    split; [exact R|]. split.
    { rewrite <- (Qmult_0_l (pw bit)).
      now apply Qmult_lt_compat_r. }
    split.
    + (* below: the truncation and the rounding of the row *)
      assert (A : (lo * x * ((1 - 1 / 2 ^ 64) * pw bit)
                   <= ext_value mv ev * ext_value m e)%Q).
      { apply Qmult_le_compat_nonneg.
        - split; [|exact WL].
          apply Qmult_le_0_compat; [exact Hlo|now apply Qlt_le_weak].
        - split; [|exact RL].
          apply Qmult_le_0_compat; [discriminate|now apply Qlt_le_weak]. }
      assert (B : (ext_value mv ev * ext_value m e
                   <= ext_value m' e' * row_gain)%Q).
      { eapply Qle_trans; [apply Qlt_le_weak; exact B2|].
        apply ext_value_succ_le. lia. }
      assert (C : (lo * row_loss * (x * pw bit) * row_gain
                   == lo * x * ((1 - 1 / 2 ^ 64) * pw bit))%Q).
      { unfold row_loss, row_gain. field. }
      apply (Qmult_le_r _ _ row_gain row_gain_pos).
      rewrite C. eapply Qle_trans; [exact A|exact B].
    + eapply Qle_trans; [exact B1|].
      assert (C : (hi * row_gain * (x * pw bit)
                   == hi * x * ((1 + 1 / 2 ^ 64) * pw bit))%Q).
      { unfold row_gain. ring. }
      rewrite C. apply Qmult_le_compat_nonneg.
      * split; [now apply Qlt_le_weak|exact WU].
      * split; [now apply Qlt_le_weak|exact RU].
Qed.

Lemma qpow_nonneg q k : (0 <= q)%Q -> (0 <= qpow q k)%Q.
Proof.
  intros Hq. induction k as [|k IH]; cbn [qpow]; [discriminate|].
  now apply Qmult_le_0_compat.
Qed.

Lemma apply_powers_cons n bit m e table mv ev :
  apply_powers n ((bit, m, e) :: table) (mv, ev)
  = apply_powers n table
      (if Z.land n bit =? 0 then (mv, ev) else mulf64 mv ev m e).
Proof. reflexivity. Qed.

Lemma exact_scale_cons pw n bit m e table x :
  exact_scale pw n ((bit, m, e) :: table) x
  = exact_scale pw n table
      (if Z.land n bit =? 0 then x else (x * pw bit)%Q).
Proof. reflexivity. Qed.

(** The whole cascade: every row adds at most [row_loss] and
    [row_gain]. *)
Lemma cascade_within pw n table : forall lo hi x mv ev,
  Forall (row_close pw) table -> (forall bit, (0 < pw bit)%Q) ->
  0 <= mv < 2 ^ 64 -> (0 <= lo)%Q -> (0 <= hi)%Q -> (0 < x)%Q ->
  within lo hi (ext_value mv ev) x ->
  let me := apply_powers n table (mv, ev) in
  let k := List.length table in
  0 <= fst me < 2 ^ 64
  /\ (0 < exact_scale pw n table x)%Q
  /\ within (lo * qpow row_loss k) (hi * qpow row_gain k)
       (ext_value (fst me) (snd me)) (exact_scale pw n table x).
Proof.
  destruct row_loss_facts as (L0 & L1 & G1).
  induction table as [|[[bit m] e] table IH];
    intros lo hi x mv ev Rows Pp Hmv Hlo Hhi Hx W; cbv zeta.
  - unfold apply_powers, exact_scale. cbn [fold_left fst snd List.length qpow].
    split; [exact Hmv|]. split; [exact Hx|].
    destruct W as [WL WU]. split.
    + now rewrite Qmult_1_r.
    + now rewrite Qmult_1_r.
  - inversion Rows as [|? ? Row Rows']; subst.
    destruct (cascade_step pw bit m e n lo hi x mv ev Row (Pp bit) Hmv Hlo
                Hhi Hx W) as (R1 & X1 & W1).
    cbv zeta in R1, X1, W1.
    rewrite apply_powers_cons, exact_scale_cons. cbn [List.length qpow].
    set (acc := if Z.land n bit =? 0 then (mv, ev) else mulf64 mv ev m e) in *.
    set (x1 := if Z.land n bit =? 0 then x else (x * pw bit)%Q) in *.
    assert (A : apply_powers n table acc
                = apply_powers n table (fst acc, snd acc))
      by (destruct acc; reflexivity).
    rewrite A.
    destruct (IH (lo * row_loss)%Q (hi * row_gain)%Q x1 (fst acc) (snd acc)
                Rows' Pp R1) as (R2 & X2 & [W2L W2U]).
    + apply Qmult_le_0_compat; [exact Hlo|now apply Qlt_le_weak].
    + apply Qmult_le_0_compat; [exact Hhi|].
      eapply Qle_trans; [|exact G1]. discriminate.
    + exact X1.
    + exact W1.
    + cbv zeta in R2, X2, W2L, W2U.
      split; [exact R2|]. split; [exact X2|]. split.
      * now rewrite Qmult_assoc.
      * now rewrite Qmult_assoc.
Qed.

Lemma exact_scale_linear pw n table : forall x,
  (exact_scale pw n table x == x * exact_scale pw n table 1)%Q.
Proof.
  induction table as [|[[bit m] e] table IH]; intros x.
  - unfold exact_scale. cbn [fold_left]. now rewrite Qmult_1_r.
  - rewrite !exact_scale_cons.
    rewrite (IH (if Z.land n bit =? 0 then x else (x * pw bit)%Q)).
    rewrite (IH (if Z.land n bit =? 0 then 1%Q else (1 * pw bit)%Q)).
    destruct (Z.land n bit =? 0); ring.
Qed.

(** The cascade multiplies by ten to the sum of the bits it selects. *)
Lemma exact_scale_selected n table : forall x,
  (exact_scale ten_to n table x == x * 10 ^ selected_bits n table)%Q
  /\ (exact_scale ten_to_minus n table x
      == x * 10 ^ (- selected_bits n table))%Q.
Proof.
  induction table as [|[[bit m] e] table IH]; intros x.
  - unfold exact_scale. cbn [fold_left selected_bits].
    change (10 ^ (- 0))%Q with 1%Q. change (10 ^ 0)%Q with 1%Q.
    split; now rewrite Qmult_1_r.
  - rewrite !exact_scale_cons. cbn [selected_bits].
    destruct (Z.land n bit =? 0).
    + rewrite Z.add_0_l. apply IH.
    + split.
      * rewrite (proj1 (IH _)). unfold ten_to.
        rewrite Qpower_plus by discriminate. ring.
      * rewrite (proj2 (IH _)). unfold ten_to_minus.
        rewrite Z.opp_add_distr, Qpower_plus by discriminate. ring.
Qed.

(** Below 512 the bits the tables test add up to [n]. *)
Lemma selected_bits_tables n :
  0 <= n < 512 ->
  selected_bits n pow10_table = n /\ selected_bits n pow10n_table = n.
Proof.
  intros Hn.
  assert (All : forallb
            (fun k =>
               (selected_bits (Z.of_nat k) pow10_table =? Z.of_nat k)
               && (selected_bits (Z.of_nat k) pow10n_table =? Z.of_nat k))
            (seq 0 512) = true) by (vm_compute; reflexivity).
  rewrite forallb_forall in All.
  specialize (All (Z.to_nat n)).
  rewrite Z2Nat.id in All by lia.
  assert (I : In (Z.to_nat n) (seq 0 512)) by (apply in_seq; lia).
  apply All in I. apply andb_prop in I. destruct I as [I1 I2].
  split; now apply Z.eqb_eq.
Qed.

(** The bits of [n] select the factors of [10^n] and of [10^-n]. *)
Lemma exact_scale_tables n :
  0 <= n < 512 ->
  (exact_scale ten_to n pow10_table 1 == 10 ^ n)%Q
  /\ (exact_scale ten_to_minus n pow10n_table 1 == 10 ^ (- n))%Q.
Proof.
  intros Hn. destruct (selected_bits_tables n Hn) as [S1 S2].
  split.
  - rewrite (proj1 (exact_scale_selected n pow10_table 1)), S1.
    now rewrite Qmult_1_l.
  - rewrite (proj2 (exact_scale_selected n pow10n_table 1)), S2.
    now rewrite Qmult_1_l.
Qed.

Lemma cascade_constants :
  (1 - 1 / 2 ^ 59 <= 1 * qpow row_loss 9)%Q
  /\ (1 * qpow row_gain 9 <= 1 + 1 / 2 ^ 60)%Q.
Proof. split; vm_compute; discriminate. Qed.

Lemma ten_to_pos bit : (0 < ten_to bit)%Q.
Proof. apply Qpower_0_lt. reflexivity. Qed.

Lemma ten_to_minus_pos bit : (0 < ten_to_minus bit)%Q.
Proof. apply Qpower_0_lt. reflexivity. Qed.

Lemma within_weaken lo hi lo' hi' v x :
  (0 <= x)%Q -> (lo' <= lo)%Q -> (hi <= hi')%Q ->
  within lo hi v x -> within lo' hi' v x.
Proof.
  intros Hx Hl Hh [WL WU]. split.
  - eapply Qle_trans; [|exact WL]. now apply Qmult_le_compat_r.
  - eapply Qle_trans; [exact WU|]. now apply Qmult_le_compat_r.
Qed.

Lemma within_wd lo hi v x y :
  (x == y)%Q -> within lo hi v x -> within lo hi v y.
Proof. intros E [WL WU]. split; rewrite <- E; assumption. Qed.

(** Either table, on a normalized pair. *)
Lemma cascade_error pw table n mv ev p :
  Forall (row_close pw) table -> (forall bit, (0 < pw bit)%Q) ->
  List.length table = 9%nat ->
  (exact_scale pw n table 1 == p)%Q ->
  0 <= mv < 2 ^ 64 ->
  let me := apply_powers n table (mv, ev) in
  0 <= fst me < 2 ^ 64
  /\ within (1 - 1 / 2 ^ 59) (1 + 1 / 2 ^ 60)
       (ext_value (fst me) (snd me)) (ext_value mv ev * p).
Proof.
  intros Rows Pp L E Hmv me.
  pose proof (ext_value_pos mv ev ltac:(lia)) as Vp.
  destruct (cascade_within pw n table 1 1 (ext_value mv ev) mv ev Rows Pp
              Hmv) as (R & X & W).
  - discriminate.
  - discriminate.
  - exact Vp.
  - split; rewrite Qmult_1_l; apply Qle_refl.
  - cbv zeta in R, X, W. rewrite L in W.
    destruct cascade_constants as [C1 C2].
    split; [exact R|].
    apply (within_wd _ _ _ (exact_scale pw n table (ext_value mv ev))).
    { rewrite exact_scale_linear. now rewrite E. }
    eapply within_weaken; [now apply Qlt_le_weak|exact C1|exact C2|exact W].
Qed.

(** X21.  The cascade of multiplications by the tabulated powers scales
    a normalized pair by [10^n] (first table) or [10^-n] (second table),
    for every [n] below 512, with a relative error below [2^-59]: the
    result is at least [(1 - 2^-59)] and at most [(1 + 2^-60)] times the
    exact product. *)
Theorem power_cascade_scales_by_ten_to_n n mv ev :
  0 <= n < 512 -> 0 <= mv < 2 ^ 64 ->
  let up := apply_powers n pow10_table (mv, ev) in
  let down := apply_powers n pow10n_table (mv, ev) in
  (0 <= fst up < 2 ^ 64
   /\ ((1 - 1 / 2 ^ 59) * (ext_value mv ev * 10 ^ n)
       <= ext_value (fst up) (snd up))%Q
   /\ (ext_value (fst up) (snd up)
       <= (1 + 1 / 2 ^ 60) * (ext_value mv ev * 10 ^ n))%Q)
  /\ (0 <= fst down < 2 ^ 64
      /\ ((1 - 1 / 2 ^ 59) * (ext_value mv ev * 10 ^ (- n))
          <= ext_value (fst down) (snd down))%Q
      /\ (ext_value (fst down) (snd down)
          <= (1 + 1 / 2 ^ 60) * (ext_value mv ev * 10 ^ (- n)))%Q).
Proof.
  intros Hn Hmv up down.
  destruct (exact_scale_tables n Hn) as [E1 E2].
  destruct tables_close as [T1 T2].
  split.
  - destruct (cascade_error ten_to pow10_table n mv ev (10 ^ n)%Q T1
                ten_to_pos eq_refl E1 Hmv) as (R & WL & WU).
    split; [exact R|]. split; assumption.
  - destruct (cascade_error ten_to_minus pow10n_table n mv ev
                (10 ^ (- n))%Q T2 ten_to_minus_pos eq_refl E2 Hmv)
      as (R & WL & WU).
    split; [exact R|]. split; assumption.
Qed.

(** ** The error of the rounding, and of the whole conversion *)

Lemma ext_value_lt m e : m < 2 ^ 64 -> (ext_value m e < 2 ^ (e + 1))%Q.
Proof.
  intros Hm. unfold ext_value.
  rewrite Qpower_plus by discriminate.
  rewrite (Qmult_comm (2 ^ e) (2 ^ 1)).
  apply Qmult_lt_compat_r; [apply two_power_pos|].
  change (2 ^ 1)%Q with (1 + 1)%Q.
  apply Qplus_lt_r.
  apply Qlt_shift_div_r; [reflexivity|]. rewrite Qmult_1_l.
  rewrite <- Zlt_Qlt. exact Hm.
Qed.

Lemma within_compose lo1 hi1 lo2 hi2 v y x :
  (0 <= lo1)%Q -> (0 <= hi1)%Q ->
  within lo1 hi1 v y -> within lo2 hi2 y x ->
  within (lo1 * lo2) (hi1 * hi2) v x.
Proof.
  intros L H [A1 A2] [B1 B2]. split.
  - eapply Qle_trans; [|exact A1].
    rewrite <- Qmult_assoc. rewrite !(Qmult_comm lo1).
    now apply Qmult_le_compat_r.
  - eapply Qle_trans; [exact A2|].
    rewrite <- Qmult_assoc. rewrite !(Qmult_comm hi1).
    now apply Qmult_le_compat_r.
Qed.

(** Rounding to 53 bits changes a pair in the normal range by at most
    [2^-53] of its value. *)
Lemma round_stage st s (neg : bool) m e :
  0 <= m < 2 ^ 64 -> -1022 <= e <= 1022 ->
  let o := subnormal_round_assemble st s neg m e in
  status o = st /\ stream o = s
  /\ dbl_finite (value o)
  /\ dbl_sign (value o) = (if neg then 1 else 0)
  /\ within (1 - 1 / 2 ^ 53) (1 + 1 / 2 ^ 53)
       (inject_Z (dbl_magnitude (value o)) / inject_Z (2 ^ 1074))
       (ext_value m e).
Proof.
  intros Hm He. cbv zeta. unfold subnormal_round_assemble.
  destruct (Z.leb_spec e (-1023)) as [|_]; [lia|].
  destruct (round_assemble_bits neg m e Hm ltac:(lia) ltac:(lia)) as [A B].
  rewrite Z.gtb_ltb.
  destruct (Z.ltb_spec 1023 (snd (round_mantissa m e))) as [|_]; [lia|].
  cbn [status stream value]. rewrite A.
  split; [reflexivity|]. split; [reflexivity|].
  pose proof (Z.div_mod m (2 ^ 12) ltac:(lia)) as DM.
  pose proof (Z.mod_pos_bound m (2 ^ 12) ltac:(lia)) as MB.
  set (k := m / 2 ^ 12) in *. set (l := m mod 2 ^ 12) in *.
  set (r := if l >? 2048 then 1 else 0).
  assert (Hr : (r = 0 /\ l <= 2048) \/ (r = 1 /\ 2048 < l)).
  { subst r. rewrite Z.gtb_ltb. destruct (Z.ltb_spec 2048 l); lia. }
  assert (Hk : 0 <= k < 2 ^ 52) by lia.
  replace ((if neg then 2 ^ 63 else 0) + ((e + 1023) * 2 ^ 52 + k + r))
    with ((if neg then 1 else 0) * 2 ^ 63 + ((e + 1023) * 2 ^ 52 + k + r))
    by (destruct neg; reflexivity).
  destruct (rounded_bits_decode (if neg then 1 else 0) (e + 1023) k r)
    as (Fin & Sg & Mag & _); try lia.
  { destruct neg; lia. }
  cbv zeta in Fin, Sg, Mag.
  split; [exact Fin|]. split; [exact Sg|].
  rewrite Mag. replace (e + 1023 - 1) with (e + 1022) by lia.
  set (S := (2 ^ e)%Q).
  assert (Sp : (0 < S / 2 ^ 117)%Q).
  { apply Qlt_shift_div_l; [reflexivity|]. rewrite Qmult_0_l.
    apply two_power_pos. }
  assert (HV : (inject_Z ((2 ^ 52 + k + r) * 2 ^ (e + 1022))
                / inject_Z (2 ^ 1074)
                == inject_Z ((2 ^ 52 + k + r) * 2 ^ 65) * (S / 2 ^ 117))%Q).
  { rewrite !inject_Z_mult.
    rewrite (Zpower_Qpower 2 (e + 1022)) by lia.
    rewrite Qpower_plus by discriminate.
    change (inject_Z 2) with 2%Q. fold S.
    change (inject_Z (2 ^ 1074)) with (2 ^ 1074)%Q.
    change (inject_Z (2 ^ 65)) with (2 ^ 65)%Q.
    field. }
  assert (HX : forall c : Z,
            ((1 + inject_Z c / 2 ^ 53) * ext_value m e
             == inject_Z ((2 ^ 53 + c) * (2 ^ 64 + m)) * (S / 2 ^ 117))%Q).
  { intros c. unfold ext_value. fold S.
    rewrite !inject_Z_mult, !inject_Z_plus.
    change (inject_Z (2 ^ 53)) with (2 ^ 53)%Q.
    change (inject_Z (2 ^ 64)) with (2 ^ 64)%Q.
    field. }
  split.
  - rewrite HV.
    setoid_replace (1 - 1 / 2 ^ 53)%Q with (1 + inject_Z (-1) / 2 ^ 53)%Q
      by reflexivity.
    rewrite HX.
    apply Qmult_le_compat_r; [|now apply Qlt_le_weak].
    rewrite <- Zle_Qle. lia.
  - rewrite HV.
    setoid_replace (1 + 1 / 2 ^ 53)%Q with (1 + inject_Z 1 / 2 ^ 53)%Q
      by reflexivity.
    rewrite HX.
    apply Qmult_le_compat_r; [|now apply Qlt_le_weak].
    rewrite <- Zle_Qle. lia.
Qed.

Lemma range_constants :
  ((1 + 1 / 2 ^ 60) * 10 ^ 307 < 2 ^ 1023)%Q
  /\ (2 ^ (-1022) < (1 - 1 / 2 ^ 59) * 10 ^ (-307))%Q
  /\ (1 - relative_error <= (1 - 1 / 2 ^ 53) * (1 - 1 / 2 ^ 59))%Q
  /\ ((1 + 1 / 2 ^ 53) * (1 + 1 / 2 ^ 60) <= 1 + relative_error)%Q.
Proof. repeat split; vm_compute; try reflexivity; discriminate. Qed.

(** From the pair the cascade leaves to the double returned. *)
Lemma round_stage_accuracy st s (neg : bool) m e x :
  0 <= m < 2 ^ 64 ->
  within (1 - 1 / 2 ^ 59) (1 + 1 / 2 ^ 60) (ext_value m e) x ->
  (10 ^ (-307) <= x)%Q -> (x <= 10 ^ 307)%Q ->
  let o := subnormal_round_assemble st s neg m e in
  status o = st /\ stream o = s
  /\ dbl_finite (value o)
  /\ dbl_sign (value o) = (if neg then 1 else 0)
  /\ within (1 - relative_error) (1 + relative_error)
       (inject_Z (dbl_magnitude (value o)) / inject_Z (2 ^ 1074)) x.
Proof.
  intros Hm [WL WU] X1 X2.
  destruct range_constants as (C1 & C2 & C3 & C4).
  assert (Xp : (0 < x)%Q).
  { eapply Qlt_le_trans; [|exact X1]. apply Qpower_0_lt. reflexivity. }
  assert (E1 : e < 1023).
  { apply (Qpower_lt_compat_l_inv 2); [|reflexivity].
    eapply Qle_lt_trans; [apply (ext_value_ge m e); lia|].
    eapply Qle_lt_trans; [exact WU|].
    eapply Qle_lt_trans; [|exact C1].
    rewrite !(Qmult_comm (1 + 1 / 2 ^ 60)).
    apply Qmult_le_compat_r; [exact X2|discriminate]. }
  assert (E2 : -1022 < e + 1).
  { apply (Qpower_lt_compat_l_inv 2); [|reflexivity].
    eapply Qlt_le_trans; [exact C2|].
    eapply Qle_trans; [|apply Qlt_le_weak, (ext_value_lt m e); lia].
    eapply Qle_trans; [|exact WL].
    rewrite !(Qmult_comm (1 - 1 / 2 ^ 59)).
    apply Qmult_le_compat_r; [exact X1|discriminate]. }
  destruct (round_stage st s neg m e Hm ltac:(lia))
    as (R1 & R2 & R3 & R4 & R5).
  cbv zeta in *.
  split; [exact R1|]. split; [exact R2|]. split; [exact R3|].
  split; [exact R4|].
  eapply within_weaken; [now apply Qlt_le_weak|exact C3|exact C4|].
  eapply within_compose; [discriminate|discriminate|exact R5|].
  split; assumption.
Qed.

Lemma normalize_pair n :
  normalize n = (fst (normalize n), snd (normalize n)).
Proof. destruct (normalize n); reflexivity. Qed.

(** [end_of_number] on a state whose mantissa was taken exactly: the
    double returned is the mantissa times ten to the decimal exponent the
    counters stand for, up to [relative_error]. *)
Lemma end_of_number_accuracy st s a E :
  digits a <> 0 -> significant_digits a <> 0 ->
  0 < mantissa a < 2 ^ 64 ->
  (0 < fractional_digits a < 512 /\ E = - fractional_digits a)
  \/ (fractional_digits a <= 0 /\ 0 <= decimal_exponent a < 512
      /\ E = decimal_exponent a) ->
  (10 ^ (-307) <= inject_Z (mantissa a) * 10 ^ E)%Q ->
  (inject_Z (mantissa a) * 10 ^ E <= 10 ^ 307)%Q ->
  let o := end_of_number st s a in
  status o = st /\ stream o = s
  /\ dbl_finite (value o)
  /\ dbl_sign (value o) = (if negative a then 1 else 0)
  /\ within (1 - relative_error) (1 + relative_error)
       (inject_Z (dbl_magnitude (value o)) / inject_Z (2 ^ 1074))
       (inject_Z (mantissa a) * 10 ^ E).
Proof.
  intros D S M Cases X1 X2. cbv zeta.
  destruct (normalize_facts (mantissa a) M) as (_ & Hm & _ & Hv).
  cbv zeta in Hm, Hv.
  destruct tables_close as [T1 T2].
  assert (Xp : (0 < inject_Z (mantissa a) * 10 ^ E)%Q).
  { eapply Qlt_le_trans; [|exact X1]. apply Qpower_0_lt. reflexivity. }
  unfold end_of_number.
  apply Z.eqb_neq in D, S. rewrite D, S.
  destruct Cases as [(F & HE)|(F & DE & HE)].
  - destruct (Z.ltb_spec 0 (fractional_digits a)) as [_|]; [|lia].
    destruct (Z.leb_spec 512 (fractional_digits a)) as [|_]; [lia|].
    rewrite (normalize_pair (mantissa a)).
    destruct (exact_scale_tables (fractional_digits a) ltac:(lia))
      as [_ ES].
    destruct (cascade_error ten_to_minus pow10n_table (fractional_digits a)
                (fst (normalize (mantissa a))) (snd (normalize (mantissa a)))
                (10 ^ (- fractional_digits a))%Q T2 ten_to_minus_pos
                eq_refl ES Hm) as (R & W).
    apply round_stage_accuracy; [exact R| |exact X1|exact X2].
    assert (EQ : (ext_value (fst (normalize (mantissa a)))
                    (snd (normalize (mantissa a)))
                  * 10 ^ (- fractional_digits a)
                  == inject_Z (mantissa a) * 10 ^ E)%Q)
      by (rewrite Hv, HE; reflexivity).
    exact (within_wd _ _ _ _ _ EQ W).
  - destruct (Z.ltb_spec 0 (fractional_digits a)) as [|_]; [lia|].
    destruct (Z.eqb_spec (decimal_exponent a) 0) as [Z0|NZ];
      cbn [negb].
    + apply round_stage_accuracy; [exact Hm| |exact X1|exact X2].
      assert (EQ : (inject_Z (mantissa a) * 10 ^ E
                    == ext_value (fst (normalize (mantissa a)))
                         (snd (normalize (mantissa a))))%Q).
      { rewrite Hv, HE, Z0. change (10 ^ 0)%Q with 1%Q.
        now rewrite Qmult_1_r. }
      split; rewrite EQ.
      * rewrite <- (Qmult_1_l (ext_value _ _)) at 2.
        apply Qmult_le_compat_r; [discriminate|].
        apply Qlt_le_weak, ext_value_pos. lia.
      * rewrite <- (Qmult_1_l (ext_value _ _)) at 1.
        apply Qmult_le_compat_r; [discriminate|].
        apply Qlt_le_weak, ext_value_pos. lia.
    + destruct (Z.leb_spec 512 (decimal_exponent a)) as [|_]; [lia|].
      rewrite (normalize_pair (mantissa a)).
      destruct (exact_scale_tables (decimal_exponent a) ltac:(lia))
        as [ES _].
      destruct (cascade_error ten_to pow10_table (decimal_exponent a)
                  (fst (normalize (mantissa a)))
                  (snd (normalize (mantissa a)))
                  (10 ^ decimal_exponent a)%Q T1 ten_to_pos
                  eq_refl ES Hm) as (R & W).
      apply round_stage_accuracy; [exact R| |exact X1|exact X2].
      assert (EQ : (ext_value (fst (normalize (mantissa a)))
                      (snd (normalize (mantissa a)))
                    * 10 ^ decimal_exponent a
                    == inject_Z (mantissa a) * 10 ^ E)%Q)
        by (rewrite Hv, HE; reflexivity).
      exact (within_wd _ _ _ _ _ EQ W).
Qed.

(** The sign put on the magnitude. *)
Lemma close_of_within (neg : bool) b x :
  dbl_finite b -> dbl_sign b = (if neg then 1 else 0) -> (0 < x)%Q ->
  within (1 - relative_error) (1 + relative_error)
    (inject_Z (dbl_magnitude b) / inject_Z (2 ^ 1074)) x ->
  close_to ((if neg then -1 else 1) * x) b.
Proof.
  intros Fin Sg Xp [WL WU]. split; [exact Fin|].
  set (V := (inject_Z (dbl_magnitude b) / inject_Z (2 ^ 1074))%Q) in *.
  set (r := (x * relative_error)%Q).
  assert (A : (Qabs (V - x) <= r)%Q).
  { apply Qabs_diff_Qle_condition. split.
    - apply (Qplus_le_l _ _ r).
      setoid_replace (V - r + r)%Q with V by ring.
      setoid_replace (x + r)%Q with ((1 + relative_error) * x)%Q
        by (subst r; ring).
      exact WU.
    - apply (Qplus_le_l _ _ (- r)).
      setoid_replace (V + r + - r)%Q with V by ring.
      setoid_replace (x + - r)%Q with ((1 - relative_error) * x)%Q
        by (subst r; ring).
      exact WL. }
  assert (N : ~ (inject_Z (2 ^ 1074) == 0)%Q).
  { intros K. pose proof scale_positive as P. rewrite K in P.
    discriminate P. }
  unfold double_value, dbl_scaled. rewrite Sg. destruct neg.
  - change (1 =? 0) with false. cbv iota.
    setoid_replace (inject_Z (- dbl_magnitude b) / inject_Z (2 ^ 1074)
                    - -1 * x)%Q with (- (V - x))%Q
      by (subst V; rewrite inject_Z_opp; field; exact N).
    setoid_replace (-1 * x)%Q with (- x)%Q by ring.
    rewrite !Qabs_opp. rewrite (Qabs_pos x) by now apply Qlt_le_weak.
    exact A.
  - change (0 =? 0) with true. cbv iota. fold V.
    setoid_replace (1 * x)%Q with x by ring.
    rewrite (Qabs_pos x) by now apply Qlt_le_weak.
    exact A.
Qed.

Lemma fraction_in_range n k :
  0 < n < 2 ^ 64 -> 0 <= k <= 307 ->
  (10 ^ (-307) <= inject_Z n * 10 ^ (- k))%Q
  /\ (inject_Z n * 10 ^ (- k) <= 10 ^ 307)%Q.
Proof.
  intros Hn Hk.
  assert (P : (0 < 10 ^ (- k))%Q) by (apply Qpower_0_lt; reflexivity).
  assert (N1 : (1 <= inject_Z n)%Q).
  { change 1%Q with (inject_Z 1). rewrite <- Zle_Qle. lia. }
  split.
  - eapply Qle_trans.
    + apply (Qpower_le_compat_l 10 (-307) (- k)); [lia|discriminate].
    + rewrite <- (Qmult_1_l (10 ^ (- k))) at 1.
      apply Qmult_le_compat_r; [exact N1|now apply Qlt_le_weak].
  - eapply Qle_trans.
    + rewrite Qmult_comm. apply Qmult_le_compat_r.
      * apply (Qpower_le_compat_l 10 (- k) 0); [lia|discriminate].
      * eapply Qle_trans; [|exact N1]. discriminate.
    + change (10 ^ 0)%Q with 1%Q. rewrite Qmult_1_l.
      eapply Qle_trans; [|apply (Qlt_le_weak (inject_Z (2 ^ 64)));
                          reflexivity].
      rewrite <- Zle_Qle. lia.
Qed.

(** A value between [10^-307] and [10^307] with at most 20 digits has a
    decimal exponent far from the limits of the tables. *)
Lemma net_exponent_bounds n E :
  0 < n < 2 ^ 64 ->
  (10 ^ (-307) <= inject_Z n * 10 ^ E)%Q ->
  (inject_Z n * 10 ^ E <= 10 ^ 307)%Q ->
  -327 < E <= 307.
Proof.
  intros Hn X1 X2.
  assert (P : (0 < 10 ^ E)%Q) by (apply Qpower_0_lt; reflexivity).
  split.
  - assert (L : (10 ^ (-307) < 10 ^ (20 + E))%Q).
    { eapply Qle_lt_trans; [exact X1|].
      rewrite Qpower_plus by discriminate.
      apply Qmult_lt_compat_r; [exact P|].
      eapply Qlt_le_trans; [|apply (Qlt_le_weak (inject_Z (2 ^ 64)));
                             reflexivity].
      rewrite <- Zlt_Qlt. lia. }
    apply Qpower_lt_compat_l_inv in L; [lia|reflexivity].
  - apply (Qpower_le_compat_l_inv 10); [|reflexivity].
    eapply Qle_trans; [|exact X2].
    rewrite <- (Qmult_1_l (10 ^ E)) at 1.
    apply Qmult_le_compat_r; [|now apply Qlt_le_weak].
    change 1%Q with (inject_Z 1). rewrite <- Zle_Qle. lia.
Qed.

(** An explicit exponent within the tables is folded into one of the two
    counters; the other is left at zero or below. *)
Lemma end_of_exponent_folds st s a (ne : bool) x f :
  decimal_exponent a = 0 -> fractional_digits a = f ->
  -1 <= f < 2 ^ 63 -> 0 <= x < 2 ^ 64 ->
  let net := (if ne then - x else x) - Z.max f 0 in
  -512 < net < 512 ->
  exists fd de,
    end_of_exponent st s a ne x
    = Goto_end_of_number st s
        (set_decimal_exponent (set_fractional_digits a fd) de)
    /\ ((0 < fd < 512 /\ net = - fd)
        \/ (fd <= 0 /\ 0 <= de < 512 /\ net = de)).
Proof.
  intros DE FD Hf Hx net Hnet. subst net.
  unfold end_of_exponent. rewrite DE, FD.
  destruct (ne && negb (x =? 0)) eqn:B.
  - apply andb_prop in B. destruct B as [B1 B2]. subst ne.
    apply negb_true_iff in B2. apply Z.eqb_neq in B2.
    destruct (Z.leb_spec x 0) as [L|_]; [lia|].
    rewrite Z.sub_0_r.
    assert (F0 : (if f <? 0 then 0 else f) = Z.max f 0).
    { destruct (Z.ltb_spec f 0); lia. }
    rewrite F0. rewrite (u64_small (Z.max f 0)) by lia.
    set (sum := Z.max f 0 + x) in *.
    assert (Hs : 1 <= sum < 512) by (subst sum; lia).
    rewrite (i64_small sum) by lia. rewrite (u64_small sum) by lia.
    destruct (Z.ltb_spec sum 0) as [|_]; [lia|].
    destruct (Z.ltb_spec sum x) as [|_]; [subst sum; lia|].
    cbn [orb]. exists sum, 0. split; [reflexivity|].
    left. subst sum. lia.
  - assert (NE : ne = false \/ x = 0).
    { destruct ne; [right|left; reflexivity]. cbn in B.
      apply negb_false_iff in B. now apply Z.eqb_eq in B. }
    assert (N : (if ne then - x else x) = x).
    { destruct NE as [NE|NE]; subst; [reflexivity|now destruct ne]. }
    rewrite N in Hnet |- *.
    destruct (Z.ltb_spec 0 f) as [P|P].
    + rewrite (u64_small f) by lia.
      destruct (Z.leb_spec x f) as [L|L].
      * rewrite (i64_small x) by lia.
        change (u64 (0 + 0)) with 0. change (0 <? 0) with false.
        exists (f - x), 0. split; [reflexivity|]. lia.
      * rewrite Z.add_0_l. rewrite (u64_small (x - f)) by lia.
        destruct (Z.ltb_spec (x - f) (x - f)) as [|_]; [lia|].
        exists 0, (x - f). split; [reflexivity|]. lia.
    + rewrite Z.add_0_l. rewrite (u64_small x) by lia.
      destruct (Z.ltb_spec x x) as [|_]; [lia|].
      exists f, x. split; [reflexivity|]. lia.
Qed.

(** X22.  A literal [sign] digits [. digits] without an exponent, whose
    digits denote a nonzero number below [2^64] and which has at most 307
    digits after the point, is converted with a relative error of at
    most [2^-53 + 2^-59]: the status is kept, the cursor is left after
    the literal, and the finite double returned differs from the exact
    value of the literal by at most that fraction of it. *)
Theorem fraction_literal_accuracy st p sg ds frac rest :
  failed st = false ->
  Forall is_digit ds -> Forall is_digit (fraction_digits frac) ->
  0 < decimal_value 0 (ds ++ fraction_digits frac) < 2 ^ 64 ->
  len (fraction_digits frac) <= 307 ->
  ends_number rest ->
  let o :=
    parse_double st
      {| ptr := p; window := mantissa_bytes sg ds frac ++ rest |} in
  status o = st
  /\ stream o = {| ptr := p + len (mantissa_bytes sg ds frac);
                   window := rest |}
  /\ close_to
       (exact_value sg (decimal_value 0 (ds ++ fraction_digits frac))
          (- len (fraction_digits frac)))
       (value o).
Proof.
  intros F0 Fd Ff [V0 V1] K E o.
  destruct (mantissa_bytes_nonempty sg ds frac V0) as [Hne Hlen].
  destruct (scan_mantissa st p sg ds frac rest Fd Ff V1 Hne)
    as (a & Hscan & Hm & Hc & Hd & Hf & He & Hn).
  assert (D : digits a <> 0) by lia.
  assert (S : significant_digits a <> 0).
  { destruct Hc as [[_ C]|[C _]]; lia. }
  pose proof (len_nonneg (fraction_digits frac)) as K0.
  destruct (fraction_in_range (decimal_value 0 (ds ++ fraction_digits frac))
              (len (fraction_digits frac)) ltac:(lia) ltac:(lia))
    as [X1 X2].
  subst o. unfold parse_double. rewrite Hscan.
  rewrite (resume_ends st _ rest a F0 D E). cbn [continue_at].
  rewrite <- Hm in X1, X2 |- *.
  destruct (end_of_number_accuracy st
              {| ptr := p + len (mantissa_bytes sg ds frac);
                 window := rest |} a (- len (fraction_digits frac)) D S
              ltac:(lia)) as (R1 & R2 & R3 & R4 & R5);
    [ |exact X1|exact X2|].
  - rewrite Hf, He. destruct frac as [fs|]; cbn [fraction_digits] in *.
    + destruct (Z.eq_dec (len fs) 0) as [Z0|NZ].
      * right. lia.
      * left. lia.
    + right. change (len []) with 0. lia.
  - cbv zeta in R1, R2, R3, R4, R5.
    split; [exact R1|]. split; [exact R2|].
    unfold exact_value. rewrite <- Hn.
    apply close_of_within; [exact R3|exact R4| |exact R5].
    eapply Qlt_le_trans; [|exact X1]. apply Qpower_0_lt. reflexivity.
Qed.

Lemma len_literal_bytes sg ds frac mark esg xs :
  len (literal_bytes sg ds frac mark esg xs)
  = len (mantissa_bytes sg ds frac) + 1 + len (sign_bytes esg) + len xs.
Proof.
  unfold literal_bytes. rewrite len_app, len_cons, len_app. lia.
Qed.

(** X23.  A literal [sign] digits [. digits] (e|E) [sign] digits whose
    mantissa digits denote a nonzero number below [2^64] and whose exact
    value lies between [10^-307] and [10^307] is converted with a
    relative error of at most [2^-53 + 2^-59]: the status is kept, the
    cursor is left after the literal, and the finite double returned
    differs from the exact value by at most that fraction of it. *)
Theorem exponent_literal_accuracy st p sg ds frac mark esg xs rest :
  failed st = false ->
  Forall is_digit ds -> Forall is_digit (fraction_digits frac) ->
  Forall is_digit xs -> xs <> [] ->
  mark = chr "e" \/ mark = chr "E" ->
  0 < decimal_value 0 (ds ++ fraction_digits frac) < 2 ^ 64 ->
  len (fraction_digits frac) < 2 ^ 63 ->
  ends_exponent rest ->
  (10 ^ (-307)
   <= inject_Z (decimal_value 0 (ds ++ fraction_digits frac))
      * 10 ^ net_decimal_exponent frac esg xs)%Q ->
  (inject_Z (decimal_value 0 (ds ++ fraction_digits frac))
   * 10 ^ net_decimal_exponent frac esg xs <= 10 ^ 307)%Q ->
  let o :=
    parse_double st
      {| ptr := p;
         window := literal_bytes sg ds frac mark esg xs ++ rest |} in
  status o = st
  /\ stream o = {| ptr := p + len (literal_bytes sg ds frac mark esg xs);
                   window := rest |}
  /\ close_to
       (exact_value sg (decimal_value 0 (ds ++ fraction_digits frac))
          (net_decimal_exponent frac esg xs))
       (value o).
Proof.
  intros F0 Fd Ff Fx Xne M V LF E X1 X2 o.
  pose proof (net_exponent_bounds _ _ V X1 X2) as NB.
  destruct V as [V0 V1].
  destruct (mantissa_bytes_nonempty sg ds frac V0) as [Hne Hlen].
  destruct (scan_mantissa st p sg ds frac
              (mark :: sign_bytes esg ++ xs ++ rest) Fd Ff V1 Hne)
    as (a & Hscan & Hm & Hc & Hd & Hf & He & Hn).
  assert (D : digits a <> 0) by lia.
  assert (S : significant_digits a <> 0).
  { destruct Hc as [[_ C]|[C _]]; lia. }
  assert (Hf' : -1 <= fractional_digits a < 2 ^ 63
                /\ Z.max (fractional_digits a) 0 = len (fraction_digits frac)).
  { rewrite Hf. destruct frac as [fs|]; cbn [fraction_digits] in *.
    - pose proof (len_nonneg fs). lia.
    - change (len []) with 0. lia. }
  destruct Hf' as [Hf1 Hf2].
  pose proof (decimal_value_bounds xs 0 Fx ltac:(lia)) as Bx.
  pose proof (len_nonneg (fraction_digits frac)) as LF0.
  assert (X : 0 <= decimal_value 0 xs < 2 ^ 64).
  { unfold net_decimal_exponent in NB.
    assert (0 <= 10 ^ len xs) by (apply Z.pow_nonneg; lia).
    destruct (sign_negative esg); lia. }
  assert (HScan :
    scan st {| ptr := p;
               window := literal_bytes sg ds frac mark esg xs ++ rest |}
    = exponent_digits st
        (p + len (mantissa_bytes sg ds frac) + 1 + len (sign_bytes esg))
        (xs ++ rest) a (sign_negative esg) 0).
  { unfold literal_bytes.
    rewrite <- app_assoc. cbn [app]. rewrite <- app_assoc.
    rewrite Hscan.
    rewrite resume_exponent_mark by assumption.
    now apply parse_exponent_signed. }
  subst o. unfold parse_double. rewrite HScan.
  rewrite exponent_digits_run by (assumption || lia).
  rewrite exponent_digits_ends by assumption.
  destruct (end_of_exponent_folds st
              {| ptr := p + len (mantissa_bytes sg ds frac) + 1
                        + len (sign_bytes esg) + len xs;
                 window := rest |}
              a (sign_negative esg) (decimal_value 0 xs)
              (fractional_digits a) He eq_refl Hf1 X)
    as (fd & de & Hj & Cases).
  { rewrite Hf2. unfold net_decimal_exponent in NB. lia. }
  rewrite Hj. cbn [continue_at].
  rewrite Hf2 in Cases.
  fold (net_decimal_exponent frac esg xs) in Cases.
  set (a' := set_decimal_exponent (set_fractional_digits a fd) de) in *.
  assert (A' : mantissa a' = mantissa a /\ digits a' = digits a
               /\ significant_digits a' = significant_digits a
               /\ negative a' = negative a
               /\ fractional_digits a' = fd /\ decimal_exponent a' = de).
  { subst a'. simpl_scan. repeat split. }
  destruct A' as (A1 & A2 & A3 & A4 & A5 & A6).
  rewrite <- Hm, <- A1 in X1, X2 |- *.
  destruct (end_of_number_accuracy st
              {| ptr := p + len (mantissa_bytes sg ds frac) + 1
                        + len (sign_bytes esg) + len xs;
                 window := rest |} a'
              (net_decimal_exponent frac esg xs))
    as (R1 & R2 & R3 & R4 & R5);
    [lia|lia|lia| |exact X1|exact X2|].
  - rewrite A5, A6. exact Cases.
  - cbv zeta in R1, R2, R3, R4, R5.
    split; [exact R1|]. split.
    { rewrite R2, len_literal_bytes. f_equal. lia. }
    unfold exact_value. rewrite <- Hn, <- A4.
    apply close_of_within; [exact R3|exact R4| |exact R5].
    eapply Qlt_le_trans; [|exact X1]. apply Qpower_0_lt. reflexivity.
Qed.

(** X20.  Every entry of the two tables of powers of ten is a normalized
    64-bit mantissa with the power [10^bit] (first table) or [10^-bit]
    (second table) rounded to nearest: it differs from the exact power by
    at most half a unit of the last place of the mantissa.  The powers
    up to [10^16] are held exactly. *)
Theorem power_tables_are_correctly_rounded :
  Forall (row_rounded ten_to) pow10_table
  /\ Forall (row_rounded ten_to_minus) pow10n_table
  /\ Forall row_exact (skipn 4 pow10_table).
Proof.
  destruct tables_rounded as [T1 T2].
  split; [exact T1|]. split; [exact T2|].
  repeat constructor; vm_compute; reflexivity.
Qed.

(** ** [xorshift64] *)

Lemma lxor_range a b n :
  0 <= n -> 0 <= a < 2 ^ n -> 0 <= b < 2 ^ n -> 0 <= Z.lxor a b < 2 ^ n.
Proof.
  intros Hn Ha Hb.
  assert (N : 0 <= Z.lxor a b) by (apply Z.lxor_nonneg; lia).
  split; [exact N|].
  destruct (Z.eq_dec (Z.lxor a b) 0) as [E|E].
  - rewrite E. apply Z.pow_pos_nonneg; lia.
  - assert (P : 0 < n).
    { destruct (Z.eq_dec n 0) as [->|]; [|lia].
      change (2 ^ 0) with 1 in *.
      assert (a = 0) by lia. assert (b = 0) by lia. subst.
      contradiction E. reflexivity. }
    apply Z.log2_lt_pow2; [lia|].
    pose proof (Z.log2_lxor a b ltac:(lia) ltac:(lia)) as L.
    assert (Z.log2 a < n).
    { destruct (Z.eq_dec a 0) as [->|]; [cbn; lia|].
      apply Z.log2_lt_pow2; lia. }
    assert (Z.log2 b < n).
    { destruct (Z.eq_dec b 0) as [->|]; [cbn; lia|].
      apply Z.log2_lt_pow2; lia. }
    lia.
Qed.

Lemma testbit_high x i : 0 <= x < 2 ^ 64 -> 64 <= i -> Z.testbit x i = false.
Proof. intros Hx Hi. apply (testbit_small x 64 i); assumption. Qed.

Lemma xorb_cancel a b c : xorb a c = xorb b c -> a = b.
Proof. destruct a, b, c; cbn; congruence. Qed.

(** [x ^= x << k] is one-to-one on 64-bit words. *)
Lemma xor_shiftl_injective k x y :
  0 < k -> 0 <= x < 2 ^ 64 -> 0 <= y < 2 ^ 64 ->
  Z.lxor x (u64 (Z.shiftl x k)) = Z.lxor y (u64 (Z.shiftl y k)) -> x = y.
Proof.
  intros Hk Hx Hy E. apply Z.bits_inj'. intros i Hi.
  revert i Hi. apply (Z_lt_induction (fun i => Z.testbit x i = Z.testbit y i)).
  intros i IH.
  destruct (Z.lt_ge_cases i 0) as [Neg|Hi0].
  { now rewrite !Z.testbit_neg_r by lia. }
  destruct (Z.le_gt_cases 64 i) as [High|Low].
  { now rewrite !testbit_high by assumption. }
  assert (B : forall z, Z.testbit (Z.lxor z (u64 (Z.shiftl z k))) i
                        = xorb (Z.testbit z i) (Z.testbit z (i - k))).
  { intros z. rewrite Z.lxor_spec. f_equal. unfold u64.
    rewrite Z.mod_pow2_bits_low by lia. apply Z.shiftl_spec. lia. }
  pose proof (f_equal (fun z => Z.testbit z i) E) as Ei. cbv beta in Ei.
  rewrite !B in Ei.
  assert (P : Z.testbit x (i - k) = Z.testbit y (i - k)).
  { destruct (Z.lt_ge_cases (i - k) 0) as [N|N].
    - now rewrite !Z.testbit_neg_r by lia.
    - apply IH. lia. }
  rewrite P in Ei. now apply xorb_cancel in Ei.
Qed.

(** [x ^= x >> k] is one-to-one on 64-bit words. *)
Lemma xor_shiftr_injective k x y :
  0 < k -> 0 <= x < 2 ^ 64 -> 0 <= y < 2 ^ 64 ->
  Z.lxor x (Z.shiftr x k) = Z.lxor y (Z.shiftr y k) -> x = y.
Proof.
  intros Hk Hx Hy E. apply Z.bits_inj'. intros i Hi.
  assert (G : forall n, 0 <= n ->
    forall j, 0 <= j -> 64 - n <= j -> Z.testbit x j = Z.testbit y j).
  { apply (natlike_ind (fun n => forall j, 0 <= j -> 64 - n <= j ->
                           Z.testbit x j = Z.testbit y j)).
    - intros j Hj0 Hj. now rewrite !testbit_high by lia.
    - intros n Hn IH j Hj0 Hj.
      pose proof (f_equal (fun z => Z.testbit z j) E) as Ej. cbv beta in Ej.
      rewrite !Z.lxor_spec, !Z.shiftr_spec in Ej by lia.
      rewrite (IH (j + k)) in Ej by lia.
      now apply xorb_cancel in Ej. }
  apply (G (Z.max 0 (64 - i))); lia.
Qed.

Lemma xor_shiftl_range k x :
  0 <= x < 2 ^ 64 -> 0 <= Z.lxor x (u64 (Z.shiftl x k)) < 2 ^ 64.
Proof. intros Hx. apply lxor_range; [lia|exact Hx|apply u64_range]. Qed.

Lemma xor_shiftr_range k x :
  0 <= k -> 0 <= x < 2 ^ 64 -> 0 <= Z.lxor x (Z.shiftr x k) < 2 ^ 64.
Proof.
  intros Hk Hx. apply lxor_range; [lia|exact Hx|].
  apply shiftr_range; assumption.
Qed.

Lemma xorshift64_facts x y :
  0 <= x < 2 ^ 64 -> 0 <= y < 2 ^ 64 ->
  0 <= xorshift64 x < 2 ^ 64
  /\ (xorshift64 x = xorshift64 y -> x = y).
Proof.
  intros Hx Hy. unfold xorshift64.
  pose proof (xor_shiftl_range 13 x Hx) as X1.
  pose proof (xor_shiftl_range 13 y Hy) as Y1.
  set (x1 := Z.lxor x (u64 (Z.shiftl x 13))) in *.
  set (y1 := Z.lxor y (u64 (Z.shiftl y 13))) in *.
  pose proof (xor_shiftr_range 7 x1 ltac:(lia) X1) as X2.
  pose proof (xor_shiftr_range 7 y1 ltac:(lia) Y1) as Y2.
  set (x2 := Z.lxor x1 (Z.shiftr x1 7)) in *.
  set (y2 := Z.lxor y1 (Z.shiftr y1 7)) in *.
  split; [apply xor_shiftl_range; exact X2|].
  intros E.
  apply (xor_shiftl_injective 17) in E; [|lia|exact X2|exact Y2].
  apply (xor_shiftr_injective 7) in E; [|lia|exact X1|exact Y1].
  apply (xor_shiftl_injective 13) in E; [exact E|lia|exact Hx|exact Hy].
Qed.

(** X18.  [xorshift64] maps 64-bit words to 64-bit words one-to-one, so it
    permutes them, and [0] is its fixed point: a state that is not zero
    never becomes zero, which is why the test starts it at [1]. *)
Theorem xorshift64_permutes_the_words x y :
  0 <= x < 2 ^ 64 -> 0 <= y < 2 ^ 64 ->
  0 <= xorshift64 x < 2 ^ 64
  /\ (xorshift64 x = xorshift64 y -> x = y)
  /\ (xorshift64 x = 0 <-> x = 0).
Proof.
  intros Hx Hy. destruct (xorshift64_facts x y Hx Hy) as [R I].
  split; [exact R|]. split; [exact I|]. split.
  - intros E. destruct (xorshift64_facts x 0 Hx ltac:(lia)) as [_ I0].
    apply I0. rewrite E. reflexivity.
  - intros ->. reflexivity.
Qed.

(** * Properties of the histograms *)

(** ** Bins *)

Lemma u32_small z : 0 <= z < 2 ^ 32 -> u32 z = z.
Proof. intros H. unfold u32. now apply Z.mod_small. Qed.

(** The difference of two [int64_t], taken modulo 2^64, is the exact
    difference when it is not negative. *)
Lemma delta_exact x l :
  is_int64 x -> is_int64 l -> l <= x -> u64 (u64 x - u64 l) = x - l.
Proof.
  unfold is_int64, INT64_MIN, INT64_MAX, u64. intros Hx Hl H.
  rewrite <- Zminus_mod. apply Z.mod_small. lia.
Qed.

Lemma bin_index_formula h x :
  bins_ready h -> is_int64 x ->
  histogram_bin_index h x
  = if x <? low h then 0
    else Z.min (nbins h - 1) (1 + (x - low h) / binwidth h).
Proof.
  intros (Hl & Hw & Hn & _) Hx. unfold histogram_bin_index.
  destruct (Z.ltb_spec x (low h)) as [L|L]; [reflexivity|].
  rewrite delta_exact by assumption.
  rewrite (u32_small (nbins h - 1)) by lia.
  assert (0 <= (x - low h) / binwidth h) by (apply Z.div_pos; lia).
  destruct (Z.leb_spec (nbins h - 1) ((x - low h) / binwidth h)) as [B|B].
  - lia.
  - rewrite (u32_small ((x - low h) / binwidth h)) by lia.
    rewrite u32_small by lia. lia.
Qed.

Lemma bin_index_range h x :
  bins_ready h -> is_int64 x -> 0 <= histogram_bin_index h x < nbins h.
Proof.
  intros R Hx. rewrite (bin_index_formula h x R Hx).
  destruct R as (Hl & Hw & Hn & _).
  destruct (Z.ltb_spec x (low h)) as [L|L]; [lia|].
  assert (0 <= (x - low h) / binwidth h) by (apply Z.div_pos; lia). lia.
Qed.

(** X10.  [histogram_bin_index] is [0] below [low], and from [low] on it
    is [min (nbins - 1, 1 + floor ((x - low) / binwidth))], computed
    without overflow for every pair of [int64_t]: the index is always
    inside the array, bin [0] takes what is below [low], the last bin what
    is beyond the regular bins, and the regular bin [i] exactly the
    samples of [low + (i - 1) * binwidth <= x < low + i * binwidth]. *)
Theorem bin_index_in_range_and_exact h x :
  bins_ready h -> is_int64 x ->
  let i := histogram_bin_index h x in
  0 <= i < nbins h
  /\ (i = 0 <-> x < low h)
  /\ (low h <= x -> i = Z.min (nbins h - 1) (1 + (x - low h) / binwidth h))
  /\ (forall k, 1 <= k < nbins h - 1 ->
        (i = k <-> low h + (k - 1) * binwidth h <= x
                   < low h + k * binwidth h))
  /\ (i = nbins h - 1 <-> low h + (nbins h - 2) * binwidth h <= x).
Proof.
  intros R Hx. cbv zeta. rewrite (bin_index_formula h x R Hx).
  destruct R as (Hl & Hw & Hn & _).
  destruct (Z.ltb_spec x (low h)) as [L|L].
  - split; [lia|]. split; [tauto|]. split; [lia|]. split.
    + intros k Hk. split; [lia|]. nia.
    + split; [lia|]. nia.
  - assert (Q0 : 0 <= (x - low h) / binwidth h) by (apply Z.div_pos; lia).
    pose proof (Z.div_mod (x - low h) (binwidth h) ltac:(lia)) as DM.
    pose proof (Z.mod_pos_bound (x - low h) (binwidth h) ltac:(lia)) as MB.
    set (q := (x - low h) / binwidth h) in *.
    set (r := (x - low h) mod binwidth h) in *.
    split; [lia|]. split; [lia|]. split; [reflexivity|]. split.
    + intros k Hk. split.
      * intros E. assert (q = k - 1) by lia. subst q. nia.
      * intros [A B]. assert (q = k - 1) by nia. lia.
    + split.
      * intros E. assert (nbins h - 2 <= q) by lia. nia.
      * intros A. assert (nbins h - 2 <= q) by nia. lia.
Qed.

Lemma store_length {A} (l : list A) : forall i v,
  List.length (store l i v) = List.length l.
Proof.
  induction l as [|x l IH]; intros [|i] v; cbn; try reflexivity.
  now rewrite IH.
Qed.

Lemma store_nth_same {A} (l : list A) : forall i v d,
  (i < List.length l)%nat -> nth i (store l i v) d = v.
Proof.
  induction l as [|x l IH]; intros [|i] v d H; cbn in *; try lia.
  - reflexivity.
  - apply IH. lia.
Qed.

Lemma store_nth_other {A} (l : list A) : forall i j v d,
  i <> j -> nth j (store l i v) d = nth j l d.
Proof.
  induction l as [|x l IH]; intros [|i] [|j] v d H; cbn; try reflexivity.
  - contradiction.
  - apply IH. congruence.
Qed.

Lemma store_total (l : list Z) : forall i v,
  (i < List.length l)%nat ->
  total (store l i v) = total l - nth i l 0 + v.
Proof.
  unfold total.
  induction l as [|x l IH]; intros [|i] v H; cbn in *; try lia.
  rewrite IH by lia. lia.
Qed.

Lemma store_Forall {A} (P : A -> Prop) (l : list A) : forall i v,
  Forall P l -> P v -> Forall P (store l i v).
Proof.
  induction l as [|x l IH]; intros [|i] v H Hv; cbn; try constructor;
    inversion H; subst; auto.
Qed.

Lemma add_to_bin_facts h x n :
  bins_ready h -> is_int64 x -> is_uint64 n ->
  let i := Z.to_nat (histogram_bin_index h x) in
  let h' := histogram_add_to_bin h x n in
  bins_ready h'
  /\ nth i (bins h') 0 = Z.min (nth i (bins h) 0 + n) UINT64_MAX
  /\ (forall j, j <> i -> nth j (bins h') 0 = nth j (bins h) 0)
  /\ count_overflowed h'
     = (count_overflowed h || (UINT64_MAX <? nth i (bins h) 0 + n))
  /\ ((UINT64_MAX <? nth i (bins h) 0 + n) = false ->
      total (bins h') = total (bins h) + n)
  /\ h' = set_bins h (bins h') (count_overflowed h').
Proof.
  intros R Hx Hn. cbv zeta.
  destruct (bin_index_range h x R Hx) as [I0 I1].
  set (i := Z.to_nat (histogram_bin_index h x)).
  assert (BR : forall v ovf, is_uint64 v ->
    bins_ready (set_bins h (store (bins h) i v) ovf)).
  { intros v ovf Hv. destruct R as (Hl & Hw & Hb & Hlen & Hall).
    unfold bins_ready. cbn [low binwidth nbins bins set_bins].
    rewrite store_length.
    split; [exact Hl|]. split; [exact Hw|]. split; [exact Hb|].
    split; [exact Hlen|]. now apply store_Forall. }
  destruct R as (Hl & Hw & Hb & Hlen & Hall).
  assert (Hi : (i < List.length (bins h))%nat) by (subst i; lia).
  assert (Old : is_uint64 (nth i (bins h) 0)).
  { rewrite Forall_forall in Hall. apply Hall. now apply nth_In. }
  unfold histogram_add_to_bin. fold i.
  unfold is_uint64, UINT64_MAX in Old, Hn.
  destruct (Z.lt_ge_cases (nth i (bins h) 0 + n) (2 ^ 64)) as [Fit|Over].
  - rewrite u64_small by lia.
    destruct (Z.ltb_spec (nth i (bins h) 0 + n) n) as [|_]; [lia|].
    cbn [bins count_overflowed set_bins].
    unfold UINT64_MAX.
    destruct (Z.ltb_spec (2 ^ 64 - 1) (nth i (bins h) 0 + n)) as [|_]; [lia|].
    rewrite orb_false_r.
    split; [apply BR; unfold is_uint64, UINT64_MAX; lia|].
    split; [rewrite store_nth_same by exact Hi; unfold UINT64_MAX; lia|].
    split; [intros j Hj; now apply store_nth_other|].
    split; [reflexivity|].
    split; [intros _; rewrite store_total by exact Hi; lia|reflexivity].
  - rewrite u64_wrap1 by lia.
    destruct (Z.ltb_spec (nth i (bins h) 0 + n - 2 ^ 64) n) as [_|]; [|lia].
    cbn [bins count_overflowed set_bins].
    unfold UINT64_MAX.
    destruct (Z.ltb_spec (2 ^ 64 - 1) (nth i (bins h) 0 + n)) as [_|]; [|lia].
    rewrite orb_true_r.
    split; [apply (BR (2 ^ 64 - 1)); unfold is_uint64, UINT64_MAX; lia|].
    split; [rewrite store_nth_same by exact Hi; lia|].
    split; [intros j Hj; now apply store_nth_other|].
    split; [reflexivity|].
    split; [discriminate|reflexivity].
Qed.

(** X11.  [histogram_add_to_bin] adds [n] to the one bin
    [histogram_bin_index] names, saturating at [UINT64_MAX] instead of
    wrapping, and raises [count_overflowed] exactly when it saturates; no
    other bin and no other field changes, so the sum of all bins grows by
    exactly [n] whenever the flag stays down. *)
Theorem add_to_bin_saturates h x n :
  bins_ready h -> is_int64 x -> is_uint64 n ->
  let i := Z.to_nat (histogram_bin_index h x) in
  let h' := histogram_add_to_bin h x n in
  bins_ready h'
  /\ nth i (bins h') 0 = Z.min (nth i (bins h) 0 + n) UINT64_MAX
  /\ (forall j, j <> i -> nth j (bins h') 0 = nth j (bins h) 0)
  /\ count_overflowed h'
     = (count_overflowed h || (UINT64_MAX <? nth i (bins h) 0 + n))
  /\ ((UINT64_MAX <? nth i (bins h) 0 + n) = false ->
      total (bins h') = total (bins h) + n)
  /\ h' = set_bins h (bins h') (count_overflowed h').
Proof. exact (add_to_bin_facts h x n). Qed.

(** ** Rounding the bin width *)

Lemma round_to_multiple_of_formula factor x :
  0 < factor <= UINT64_MAX -> is_uint64 x ->
  round_to_multiple_of factor x
  = Z.min (factor * ((x + factor / 2) / factor))
          (factor * (UINT64_MAX / factor))
  /\ factor * (UINT64_MAX / factor) <= UINT64_MAX.
Proof.
  unfold round_to_multiple_of, is_uint64, UINT64_MAX. intros Hf Hx.
  assert (H2 : 0 <= factor / 2 <= factor).
  { split; [apply Z.div_pos; lia|]. apply Z.div_le_upper_bound; lia. }
  pose proof (Z.mul_div_le (2 ^ 64 - 1) factor ltac:(lia)) as Top.
  assert (Q : 0 <= (2 ^ 64 - 1) / factor) by (apply Z.div_pos; lia).
  assert (Top0 : 0 <= factor * ((2 ^ 64 - 1) / factor))
    by (apply Z.mul_nonneg_nonneg; lia).
  split; [|exact Top].
  rewrite Z.gtb_ltb.
  destruct (Z.ltb_spec (2 ^ 64 - 1 - factor / 2) x) as [Big|Small].
  - rewrite u64_small by lia.
    assert ((2 ^ 64 - 1) / factor <= (x + factor / 2) / factor)
      by (apply Z.div_le_mono; lia).
    assert (factor * ((2 ^ 64 - 1) / factor)
            <= factor * ((x + factor / 2) / factor))
      by (apply Z.mul_le_mono_nonneg_l; lia).
    lia.
  - rewrite (u64_small (x + factor / 2)) by lia.
    pose proof (Z.mul_div_le (x + factor / 2) factor ltac:(lia)).
    assert (0 <= (x + factor / 2) / factor) by (apply Z.div_pos; lia).
    assert (0 <= factor * ((x + factor / 2) / factor))
      by (apply Z.mul_nonneg_nonneg; lia).
    rewrite u64_small by lia.
    assert ((x + factor / 2) / factor <= (2 ^ 64 - 1) / factor)
      by (apply Z.div_le_mono; lia).
    assert (factor * ((x + factor / 2) / factor)
            <= factor * ((2 ^ 64 - 1) / factor))
      by (apply Z.mul_le_mono_nonneg_l; lia).
    lia.
Qed.

Lemma round_to_multiple_of_facts factor x :
  0 < factor <= UINT64_MAX -> is_uint64 x ->
  let r := round_to_multiple_of factor x in
  r = Z.min (factor * ((x + factor / 2) / factor))
            (factor * (UINT64_MAX / factor))
  /\ is_uint64 r /\ r mod factor = 0
  /\ r <= x + factor / 2
  /\ (x + factor / 2 <= UINT64_MAX -> x - (factor - 1) / 2 <= r)
  /\ (x mod factor = 0 -> r = x).
Proof.
  intros Hf Hx. cbv zeta.
  destruct (round_to_multiple_of_formula factor x Hf Hx) as [E Top].
  rewrite E. unfold is_uint64, UINT64_MAX in *.
  assert (H2 : 0 <= factor / 2) by (apply Z.div_pos; lia).
  pose proof (Z.div_mod (x + factor / 2) factor ltac:(lia)) as DM.
  pose proof (Z.mod_pos_bound (x + factor / 2) factor ltac:(lia)) as MB.
  pose proof (Z.div_mod factor 2 ltac:(lia)) as D2.
  pose proof (Z.mod_pos_bound factor 2 ltac:(lia)) as M2.
  pose proof (Z.div_mod (factor - 1) 2 ltac:(lia)) as D3.
  pose proof (Z.mod_pos_bound (factor - 1) 2 ltac:(lia)) as M3.
  assert (Q : 0 <= (x + factor / 2) / factor) by (apply Z.div_pos; lia).
  assert (Q' : 0 <= (2 ^ 64 - 1) / factor) by (apply Z.div_pos; lia).
  assert (P1 : 0 <= factor * ((x + factor / 2) / factor))
    by (apply Z.mul_nonneg_nonneg; lia).
  assert (P2 : 0 <= factor * ((2 ^ 64 - 1) / factor))
    by (apply Z.mul_nonneg_nonneg; lia).
  split; [reflexivity|]. split; [lia|]. split; [|split; [lia|split]].
  - destruct (Z.min_spec (factor * ((x + factor / 2) / factor))
                (factor * ((2 ^ 64 - 1) / factor))) as [[_ ->]|[_ ->]];
      rewrite Z.mul_comm; apply Z.mod_mul; lia.
  - intros Fit.
    assert ((x + factor / 2) / factor <= (2 ^ 64 - 1) / factor)
      by (apply Z.div_le_mono; lia).
    assert (factor * ((x + factor / 2) / factor)
            <= factor * ((2 ^ 64 - 1) / factor))
      by (apply Z.mul_le_mono_nonneg_l; lia).
    lia.
  - intros M.
    pose proof (Z.div_mod x factor ltac:(lia)) as Dx. rewrite M in Dx.
    assert (Ex : (x + factor / 2) / factor = x / factor).
    { symmetry. apply Z.div_unique with (r := factor / 2); lia. }
    rewrite Ex.
    assert (x / factor <= (2 ^ 64 - 1) / factor)
      by (apply Z.div_le_mono; lia).
    assert (factor * (x / factor) <= factor * ((2 ^ 64 - 1) / factor))
      by (apply Z.mul_le_mono_nonneg_l; lia).
    lia.
Qed.

Lemma round_binwidth_loop_spec bw : forall fuel k,
  0 <= bw -> 0 <= k < Z.of_nat fuel -> k <= 19 ->
  (k < 19 -> bw < 10 ^ (k + 1)) ->
  (bw < 10 /\ round_binwidth_loop fuel (10 ^ k) bw = Some bw)
  \/ exists j, 1 <= j <= k /\ 10 ^ j <= bw
       /\ (j < 19 -> bw < 10 ^ (j + 1))
       /\ round_binwidth_loop fuel (10 ^ k) bw
          = Some (round_to_multiple_of (10 ^ (j - 1)) bw).
Proof.
  induction fuel as [|fuel IH]; intros k H0 Hk K19 Hb; [lia|].
  cbn [round_binwidth_loop].
  destruct (Z.eq_dec k 0) as [->|Nk].
  - change (10 <=? 10 ^ 0) with false. cbv iota.
    left. split; [|reflexivity]. apply Hb. lia.
  - assert (P : 10 ^ k = 10 * 10 ^ (k - 1)).
    { rewrite <- Z.pow_succ_r by lia. f_equal. lia. }
    assert (P0 : 0 < 10 ^ (k - 1)) by (apply Z.pow_pos_nonneg; lia).
    destruct (Z.leb_spec 10 (10 ^ k)) as [_|]; [|lia].
    assert (D : 10 ^ k / 10 = 10 ^ (k - 1)).
    { rewrite P. rewrite Z.mul_comm. apply Z.div_mul. lia. }
    rewrite D.
    destruct (Z.leb_spec (10 ^ k) bw) as [Ge|Lt].
    + right. exists k. split; [lia|]. split; [exact Ge|].
      split; [exact Hb|reflexivity].
    + destruct (IH (k - 1) H0 ltac:(lia) ltac:(lia)) as [L|(j & J1 & J2 & J3 & J4)].
      * intros _. replace (k - 1 + 1) with k by lia. exact Lt.
      * left. exact L.
      * right. exists j. split; [lia|]. split; [exact J2|].
        split; [exact J3|exact J4].
Qed.

Lemma round_binwidth_cases bw :
  0 <= bw ->
  (bw < 10 /\ histogram_round_binwidth bw = Some bw)
  \/ exists k, 1 <= k <= 19 /\ 10 ^ k <= bw
       /\ (k < 19 -> bw < 10 ^ (k + 1))
       /\ histogram_round_binwidth bw
          = Some (round_to_multiple_of (10 ^ (k - 1)) bw).
Proof.
  intros H0. unfold histogram_round_binwidth.
  change 10000000000000000000 with (10 ^ 19).
  apply round_binwidth_loop_spec; [exact H0|cbn; lia|lia|lia].
Qed.

(** X12.  [round_to_multiple_of] returns the multiple of [factor] nearest
    to [x], a tie going up, unless that multiple is beyond [UINT64_MAX]:
    then it returns the largest multiple that is not.  Nothing wraps: the
    result is a multiple of [factor] within [uint64_t], at most half a
    [factor] above [x], not more than half a [factor] below it when
    [x + factor / 2] fits 64 bits, and [x] itself when [x] is a
    multiple. *)
Theorem round_to_multiple_of_is_nearest factor x :
  0 < factor <= UINT64_MAX -> is_uint64 x ->
  let r := round_to_multiple_of factor x in
  r = Z.min (factor * ((x + factor / 2) / factor))
            (factor * (UINT64_MAX / factor))
  /\ is_uint64 r /\ r mod factor = 0
  /\ r <= x + factor / 2
  /\ (x + factor / 2 <= UINT64_MAX -> x - (factor - 1) / 2 <= r)
  /\ (x mod factor = 0 -> r = x).
Proof. exact (round_to_multiple_of_facts factor x). Qed.

Lemma pow10_pos k : 0 <= k -> 0 < 10 ^ k.
Proof. intros. apply Z.pow_pos_nonneg; lia. Qed.

Lemma pow10_succ k : 0 <= k -> 10 ^ (k + 1) = 10 * 10 ^ k.
Proof. intros. rewrite <- Z.pow_succ_r by lia. reflexivity. Qed.

(** What one pass of [histogram_round_binwidth] gives for a width of
    [k + 1] digits. *)
Lemma round_binwidth_digits bw k :
  is_uint64 bw -> 1 <= k <= 19 -> 10 ^ k <= bw ->
  (k < 19 -> bw < 10 ^ (k + 1)) ->
  let f := 10 ^ (k - 1) in
  let r := round_to_multiple_of f bw in
  is_uint64 r /\ r mod f = 0 /\ 10 ^ k <= r
  /\ r <= bw + f / 2
  /\ (k < 19 -> bw - (f - 1) / 2 <= r /\ r <= 10 ^ (k + 1)).
Proof.
  intros Hbw Hk Ge Lt f r.
  assert (F0 : 0 < f) by (apply pow10_pos; lia).
  assert (Pk : 10 ^ k = 10 * f).
  { subst f. replace k with (k - 1 + 1) at 1 by lia. apply pow10_succ. lia. }
  assert (Pk1 : 10 ^ (k + 1) = 100 * f).
  { rewrite pow10_succ by lia. lia. }
  assert (Ff : f <= UINT64_MAX).
  { unfold is_uint64 in Hbw. lia. }
  destruct (round_to_multiple_of_facts f bw ltac:(lia) Hbw)
    as (E & R & M & Up & Down & _).
  fold r in E, R, M, Up, Down.
  unfold is_uint64, UINT64_MAX in *.
  assert (H2 : 0 <= f / 2) by (apply Z.div_pos; lia).
  pose proof (Z.div_mod f 2 ltac:(lia)) as D2.
  pose proof (Z.mod_pos_bound f 2 ltac:(lia)) as M2.
  assert (A : 10 <= (bw + f / 2) / f).
  { apply Z.div_le_lower_bound; lia. }
  assert (B : 10 <= (2 ^ 64 - 1) / f).
  { apply Z.div_le_lower_bound; lia. }
  assert (A' : 10 * f <= f * ((bw + f / 2) / f)) by nia.
  assert (B' : 10 * f <= f * ((2 ^ 64 - 1) / f)) by nia.
  split; [exact R|]. split; [exact M|]. split; [lia|]. split; [exact Up|].
  intros K. specialize (Lt K).
  assert (Fit : bw + f / 2 <= 2 ^ 64 - 1).
  { assert (10 ^ (k + 1) <= 10 ^ 19) by (apply Z.pow_le_mono_r; lia).
    change (10 ^ 19) with 10000000000000000000 in *. lia. }
  split; [apply Down; exact Fit|].
  assert (C : (bw + f / 2) / f <= 100).
  { apply Z.lt_succ_r. apply Z.div_lt_upper_bound; lia. }
  nia.
Qed.

(** X13.  [histogram_round_binwidth] ends for every width, leaves a width
    below 10 as it is, and rounds a longer one to its two leading decimal
    digits: the result is a multiple of the power of ten two digits below
    the leading one, never below the width's own power of ten (so never
    zero), at most half that unit away, and rounding it again changes
    nothing. *)
Theorem round_binwidth_keeps_two_digits bw :
  is_uint64 bw ->
  exists r,
    histogram_round_binwidth bw = Some r /\ is_uint64 r
    /\ (bw < 10 -> r = bw)
    /\ (10 <= bw ->
        exists k, 1 <= k <= 19 /\ 10 ^ k <= bw
          /\ (k < 19 -> bw < 10 ^ (k + 1))
          /\ r mod 10 ^ (k - 1) = 0 /\ 10 ^ k <= r
          /\ r <= bw + 10 ^ (k - 1) / 2
          /\ (k < 19 ->
              bw - (10 ^ (k - 1) - 1) / 2 <= r /\ r <= 10 ^ (k + 1)))
    /\ histogram_round_binwidth r = Some r.
Proof.
  intros Hbw.
  assert (H0 : 0 <= bw) by (unfold is_uint64 in Hbw; lia).
  destruct (round_binwidth_cases bw H0) as [[Small E]|(k & Hk & Ge & Lt & E)].
  - exists bw. rewrite E. split; [reflexivity|]. split; [exact Hbw|].
    split; [reflexivity|]. split; [lia|reflexivity].
  - destruct (round_binwidth_digits bw k Hbw Hk Ge Lt)
      as (R & M & Lo & Up & Mid). cbv zeta in *.
    set (f := 10 ^ (k - 1)) in *.
    set (r := round_to_multiple_of f bw) in *.
    assert (F0 : 0 < f) by (apply pow10_pos; lia).
    assert (Pk : 10 ^ k = 10 * f).
    { subst f. replace k with (k - 1 + 1) at 1 by lia. apply pow10_succ. lia. }
    assert (T : 10 <= 10 ^ k).
    { change 10 with (10 ^ 1) at 1. apply Z.pow_le_mono_r; lia. }
    exists r. rewrite E. split; [reflexivity|]. split; [exact R|].
    split; [lia|]. split.
    + intros _. exists k. split; [exact Hk|]. split; [exact Ge|].
      split; [exact Lt|]. split; [exact M|]. split; [exact Lo|].
      split; [exact Up|exact Mid].
    + assert (R0 : 0 <= r) by (unfold is_uint64 in R; lia).
      destruct (round_binwidth_cases r R0)
        as [[Small' E']|(k' & Hk' & Ge' & Lt' & E')]; [lia|].
      rewrite E'. f_equal.
      assert (Mk : forall a b, 0 <= a -> 0 <= b -> 10 ^ a < 10 ^ b -> a < b).
      { intros a b Ha Hbb L. apply (Z.pow_lt_mono_r_iff 10); lia. }
      assert (K1 : k <= k').
      { destruct (Z.lt_ge_cases k' 19) as [L|L]; [|lia].
        specialize (Lt' L).
        assert (k < k' + 1) by (apply Mk; lia). lia. }
      assert (K2 : k' <= k + 1).
      { destruct (Z.lt_ge_cases k 19) as [L|L]; [|lia].
        destruct (Mid L) as [_ Top].
        destruct (Z.le_gt_cases k' (k + 1)) as [|G]; [assumption|].
        assert (10 ^ (k + 2) <= 10 ^ k') by (apply Z.pow_le_mono_r; lia).
        assert (10 ^ (k + 2) = 10 * 10 ^ (k + 1)).
        { replace (k + 2) with (k + 1 + 1) by lia. apply pow10_succ. lia. }
        assert (0 < 10 ^ (k + 1)) by (apply pow10_pos; lia). lia. }
      assert (M' : r mod 10 ^ (k' - 1) = 0).
      { destruct (Z.eq_dec k' k) as [->|Nk]; [exact M|].
        assert (k' = k + 1) by lia. subst k'.
        replace (k + 1 - 1) with k by lia.
        destruct (Mid ltac:(lia)) as [_ Top].
        rewrite pow10_succ in * by lia.
        assert (r = 10 * 10 ^ k) by lia.
        replace r with (10 * 10 ^ k) by lia. apply Z.mod_mul.
        assert (0 < 10 ^ k) by (apply pow10_pos; lia). lia. }
      assert (F' : 0 < 10 ^ (k' - 1)) by (apply pow10_pos; lia).
      assert (Fle : 10 ^ (k' - 1) <= UINT64_MAX).
      { assert (10 ^ (k' - 1) <= 10 ^ 18) by (apply Z.pow_le_mono_r; lia).
        change (10 ^ 18) with 1000000000000000000 in *.
        unfold UINT64_MAX. lia. }
      destruct (round_to_multiple_of_facts (10 ^ (k' - 1)) r
                  ltac:(lia) R) as (_ & _ & _ & _ & _ & Fix).
      now apply Fix.
Qed.

(** ** The width of a printed integer *)

Lemma group_range_pow g : 1 <= g <= 19 -> group_range g = 10 ^ g.
Proof.
  intros Hg. unfold group_range.
  assert (G : forall k : nat, (k <= 18)%nat ->
    Nat.iter k (fun r => u64 (r * 10)) 10 = 10 ^ (Z.of_nat k + 1)).
  { induction k as [|k IH]; intros Hk; [reflexivity|].
    rewrite Nat.iter_succ, IH by lia.
    assert (10 ^ (Z.of_nat k + 1) <= 10 ^ 18)
      by (apply Z.pow_le_mono_r; lia).
    assert (0 < 10 ^ (Z.of_nat k + 1)) by (apply pow10_pos; lia).
    change (10 ^ 18) with 1000000000000000000 in *.
    rewrite u64_small by lia.
    replace (Z.of_nat (S k) + 1) with (Z.of_nat k + 1 + 1) by lia.
    rewrite (pow10_succ (Z.of_nat k + 1)) by lia. lia. }
  rewrite G by lia. f_equal. lia.
Qed.

Lemma has_digits_div m d g :
  1 <= g -> 0 <= m -> has_digits m d -> 10 ^ g <= m ->
  g < d /\ has_digits (m / 10 ^ g) (d - g).
Proof.
  intros Hg Hm (D1 & Up & Lo) Ge.
  assert (G : g < d).
  { apply (Z.pow_lt_mono_r_iff 10); lia. }
  split; [exact G|].
  assert (P : 10 ^ d = 10 ^ g * 10 ^ (d - g)).
  { rewrite <- Z.pow_add_r by lia. f_equal. lia. }
  assert (Pg : 0 < 10 ^ g) by (apply pow10_pos; lia).
  split; [lia|]. split.
  - apply Z.div_lt_upper_bound; lia.
  - intros L.
    assert (P' : 10 ^ (d - 1) = 10 ^ g * 10 ^ (d - g - 1)).
    { rewrite <- Z.pow_add_r by lia. f_equal. lia. }
    apply Z.div_le_lower_bound; [lia|]. specialize (Lo ltac:(lia)). lia.
Qed.

Lemma width_loop_spec g step : forall fuel m d w,
  1 <= g -> 0 <= m -> has_digits m d -> d <= Z.of_nat fuel ->
  0 <= step -> 0 <= w -> w + (d - 1) / g * step < 2 ^ 32 ->
  exists m',
    width_loop fuel (10 ^ g) step w m = Some (w + (d - 1) / g * step, m')
    /\ 0 <= m' /\ has_digits m' (d - g * ((d - 1) / g)).
Proof.
  induction fuel as [|fuel IH]; intros m d w Hg Hm Hd Hf Hs Hw Hfit.
  - destruct Hd as (D1 & _). lia.
  - cbn [width_loop].
    destruct (Z.leb_spec (10 ^ g) m) as [Ge|Lt].
    + destruct (has_digits_div m d g Hg Hm Hd Ge) as [G Hd'].
      assert (Q : (d - 1) / g = 1 + (d - g - 1) / g).
      { replace (d - 1) with (1 * g + (d - g - 1)) by lia.
        rewrite Z.div_add_l by lia. reflexivity. }
      assert (Q0 : 0 <= (d - g - 1) / g) by (apply Z.div_pos; lia).
      rewrite Q in Hfit.
      assert (S0 : 0 <= (d - g - 1) / g * step)
        by (apply Z.mul_nonneg_nonneg; lia).
      rewrite u32_small by lia.
      assert (Pg : 0 < 10 ^ g) by (apply pow10_pos; lia).
      assert (M1 : 0 <= m / 10 ^ g) by (apply Z.div_pos; lia).
      assert (Fit' : w + step + (d - g - 1) / g * step < 2 ^ 32) by lia.
      destruct (IH (m / 10 ^ g) (d - g) (w + step) Hg M1 Hd' ltac:(lia) Hs
                  ltac:(lia) Fit') as (m' & E & M0 & Hm').
      exists m'. rewrite E. split; [|split; [exact M0|]].
      * rewrite Q. do 2 f_equal. lia.
      * rewrite Q.
        replace (d - g * (1 + (d - g - 1) / g))
          with (d - g - g * ((d - g - 1) / g)) by lia.
        exact Hm'.
    + assert (D : d <= g).
      { destruct Hd as (D1 & Up & Lo).
        destruct (Z.le_gt_cases d 1) as [|L]; [lia|].
        specialize (Lo L).
        assert (d - 1 < g) by (apply (Z.pow_lt_mono_r_iff 10); lia). lia. }
      assert (Q : (d - 1) / g = 0).
      { destruct Hd as (D1 & _). apply Z.div_small. lia. }
      exists m. rewrite Q. split; [do 2 f_equal; lia|].
      split; [exact Hm|]. replace (d - g * 0) with d by lia. exact Hd.
Qed.

Lemma integer_display_width_formula num g d :
  is_int64 num -> 0 <= g <= 19 -> has_digits (Z.abs num) d ->
  integer_display_width num g
  = Some ((if num <? 0 then 1 else 0) + d
          + (if g =? 0 then 0 else (d - 1) / g)).
Proof.
  unfold is_int64, INT64_MIN, INT64_MAX. intros Hn Hg Hd.
  assert (D20 : d <= 20).
  { destruct Hd as (D1 & Up & Lo).
    destruct (Z.le_gt_cases d 20) as [|L]; [assumption|].
    specialize (Lo ltac:(lia)).
    assert (10 ^ 20 <= 10 ^ (d - 1)) by (apply Z.pow_le_mono_r; lia).
    change (10 ^ 20) with 100000000000000000000 in *. lia. }
  assert (D1 : 1 <= d) by (destruct Hd; lia).
  unfold integer_display_width.
  set (sg := if num <? 0 then 1 else 0).
  assert (Start :
    (if num <? 0 then (u32 (1 + 1), u64 (- u64 num)) else (1, u64 num))
    = (1 + sg, Z.abs num)).
  { subst sg. destruct (Z.ltb_spec num 0) as [L|L].
    - assert (U : u64 num = num + 2 ^ 64).
      { unfold u64. symmetry. apply Z.mod_unique with (q := -1); lia. }
      assert (V : u64 (- (num + 2 ^ 64)) = - num).
      { unfold u64. symmetry. apply Z.mod_unique with (q := -1); lia. }
      rewrite U, V. rewrite Z.abs_neq by lia. reflexivity.
    - rewrite u64_small by lia. rewrite Z.abs_eq by lia. reflexivity. }
  rewrite Start.
  assert (Sg : 0 <= sg <= 1) by (subst sg; destruct (num <? 0); lia).
  assert (Last : forall w m d', 0 <= m -> has_digits m d' -> d' <= 20 ->
    0 <= w -> w + d' < 2 ^ 31 ->
    match width_loop 64 10 1 w m with
    | None => None
    | Some (width, _) => Some width
    end = Some (w + d' - 1)).
  { intros w m d' Hm Hd' D' Hw Hfit.
    destruct (width_loop_spec 1 1 64 m d' w) as (m' & E & _);
      try assumption; try lia.
    - rewrite Z.div_1_r. lia.
    - change (10 ^ 1) with 10 in E. rewrite E. f_equal.
      rewrite Z.div_1_r. lia. }
  destruct (Z.eqb_spec g 0) as [G0|G0].
  - rewrite (Last (1 + sg) (Z.abs num) d) by (try assumption; lia).
    f_equal. lia.
  - assert (Q0 : 0 <= (d - 1) / g) by (apply Z.div_pos; lia).
    assert (Q1 : (d - 1) / g <= 19).
    { apply Z.lt_succ_r. apply Z.div_lt_upper_bound; lia. }
    assert (Q2 : g * ((d - 1) / g) <= d - 1)
      by (apply Z.mul_div_le; lia).
    rewrite group_range_pow by lia.
    rewrite (u32_small (g + 1)) by lia.
    destruct (width_loop_spec g (g + 1) 64 (Z.abs num) d (1 + sg))
      as (m' & E & M0 & Hm'); try assumption; try lia.
    rewrite E.
    rewrite (Last _ m' (d - g * ((d - 1) / g))) by (try assumption; nia).
    f_equal. lia.
Qed.

(** X14.  [integer_display_width] ends for every [int64_t] and every
    group size up to the 19 it asserts, and returns the number of
    characters of the number printed with that grouping: one for a minus
    sign, the decimal digits of the magnitude, and one separator before
    each complete group of [n_digits_per_group] digits that is not the
    leading one ([INT64_MIN] included, whose magnitude the unsigned
    negation gets right). *)
Theorem integer_display_width_counts_characters num g d :
  is_int64 num -> 0 <= g <= 19 -> has_digits (Z.abs num) d ->
  integer_display_width num g
  = Some ((if num <? 0 then 1 else 0) + d
          + (if g =? 0 then 0 else (d - 1) / g)).
Proof. exact (integer_display_width_formula num g d). Qed.

(** ** Comparators *)

Lemma sample_eta (a : HistogramSampleN) :
  a = {| sn_sample := sn_sample a; sn_n := sn_n a;
         sn_sequence_index := sn_sequence_index a |}.
Proof. destruct a. reflexivity. Qed.

Ltac compare_cases :=
  repeat match goal with
         | |- context [?x <? ?y] => destruct (Z.ltb_spec x y)
         | |- context [?x >? ?y] => rewrite (Z.gtb_ltb x y)
         | |- context [?x =? ?y] => destruct (Z.eqb_spec x y)
         | H : context [?x <? ?y] |- _ => destruct (Z.ltb_spec x y)
         | H : context [?x >? ?y] |- _ => rewrite (Z.gtb_ltb x y) in H
         | H : context [?x =? ?y] |- _ => destruct (Z.eqb_spec x y)
         end.

(** X15.  The three comparators are consistent orders, as [qsort] needs:
    swapping the arguments negates the result, and [<= 0] is transitive.
    [compare_sample_and_n_and_index] orders by sample upwards, then by
    [n] downwards, then by [sequence_index] upwards, and is [0] only on
    equal entries; [compare_index] is [0] exactly on equal
    [sequence_index], [compare_category_count] (counts downwards) exactly
    on equal counts. *)
Theorem comparators_are_consistent_orders :
  (forall a b, compare_sample_and_n_and_index b a
               = - compare_sample_and_n_and_index a b)
  /\ (forall a b, compare_sample_and_n_and_index a b = 0 <-> a = b)
  /\ (forall a b c,
        compare_sample_and_n_and_index a b <= 0 ->
        compare_sample_and_n_and_index b c <= 0 ->
        compare_sample_and_n_and_index a c <= 0)
  /\ (forall a b,
        compare_sample_and_n_and_index a b = -1
        <-> sn_sample a < sn_sample b
            \/ (sn_sample a = sn_sample b
                /\ (sn_n b < sn_n a
                    \/ (sn_n a = sn_n b
                        /\ sn_sequence_index a < sn_sequence_index b))))
  /\ (forall a b, compare_index b a = - compare_index a b)
  /\ (forall a b, compare_index a b = 0
                  <-> sn_sequence_index a = sn_sequence_index b)
  /\ (forall a b c, compare_index a b <= 0 -> compare_index b c <= 0 ->
                    compare_index a c <= 0)
  /\ (forall a b, compare_category_count b a = - compare_category_count a b)
  /\ (forall a b, compare_category_count a b = 0 <-> count a = count b)
  /\ (forall a b c,
        compare_category_count a b <= 0 -> compare_category_count b c <= 0 ->
        compare_category_count a c <= 0).
Proof.
  repeat split; intros; unfold compare_sample_and_n_and_index, compare_index,
    compare_category_count in *; compare_cases; try lia;
    try (rewrite (sample_eta a), (sample_eta b); congruence);
    try (subst; lia);
    try match goal with
        | H : ?a = ?b |- _ => (subst a || subst b); lia
        end.
Qed.

(** ** The next most frequent bin *)

Lemma bin_range h k :
  Forall is_uint64 (bins h) -> is_uint64 (bin_count h k).
Proof.
  intros H. unfold bin_count.
  destruct (Nat.lt_ge_cases (Z.to_nat k) (List.length (bins h))) as [L|L].
  - rewrite Forall_forall in H. apply H. now apply nth_In.
  - rewrite nth_overflow by exact L. unfold is_uint64, UINT64_MAX. lia.
Qed.

Lemma same_count_loop_spec h n : forall count i,
  0 <= i -> i + Z.of_nat count = nbins h -> nbins h < 2 ^ 32 ->
  match same_count_loop count h i n with
  | Some j =>
      i <= j < nbins h /\ bin_count h j = n
      /\ forall k, i <= k < j -> bin_count h k <> n
  | None => forall k, i <= k < nbins h -> bin_count h k <> n
  end.
Proof.
  intros count. induction count as [|count IH]; intros i Hi Hc Hn; cbn [same_count_loop].
  - intros k Hk. lia.
  - fold (bin_count h i). destruct (Z.eqb_spec (bin_count h i) n) as [E|E].
    + split; [lia|]. split; [exact E|]. intros k Hk. lia.
    + rewrite u32_small by lia.
      specialize (IH (i + 1) ltac:(lia) ltac:(lia) Hn).
      destruct (same_count_loop count h (i + 1) n) as [j|].
      * destruct IH as (J & B & F). split; [lia|]. split; [exact B|].
        intros k Hk. destruct (Z.eq_dec k i) as [->|]; [exact E|].
        apply F. lia.
      * intros k Hk. destruct (Z.eq_dec k i) as [->|]; [exact E|].
        apply IH. lia.
Qed.

Lemma next_count_loop_spec h limit index0 : forall count i index n,
  0 <= i -> i + Z.of_nat count = nbins h -> nbins h < 2 ^ 32 ->
  Forall is_uint64 (bins h) ->
  best_below h limit i index0 index n ->
  best_below h limit (nbins h) index0
    (fst (next_count_loop count h i limit index n))
    (snd (next_count_loop count h i limit index n)).
Proof.
  intros count. induction count as [|count IH]; intros i index n Hi Hc Hn Hall Inv;
    cbn [next_count_loop].
  - cbn [fst snd]. replace (nbins h) with i by lia. exact Inv.
  - fold (bin_count h i). rewrite u32_small by lia.
    destruct Inv as (N0 & I0 & I1 & I2).
    pose proof (bin_range h i Hall) as Bi. unfold is_uint64 in Bi.
    rewrite Z.gtb_ltb.
    destruct (Z.ltb_spec n (bin_count h i)) as [Gt|Le];
      [destruct (Z.leb_spec (bin_count h i) limit) as [Ok|Over]|]; cbn [andb].
    + apply IH; try assumption; try lia.
      split; [lia|]. split; [lia|]. split; [intros _; lia|].
      intros k Hk Hl. destruct (Z.eq_dec k i) as [->|Nk]; [lia|].
      destruct (I2 k ltac:(lia) Hl) as [A B]. lia.
    + apply IH; try assumption; try lia.
      split; [exact N0|]. split; [exact I0|].
      split; [intros P; specialize (I1 P); lia|].
      intros k Hk Hl. destruct (Z.eq_dec k i) as [->|Nk]; [lia|].
      apply I2; [lia|exact Hl].
    + apply IH; try assumption; try lia.
      split; [exact N0|]. split; [exact I0|].
      split; [intros P; specialize (I1 P); lia|].
      intros k Hk Hl. destruct (Z.eq_dec k i) as [->|Nk].
      * split; [lia|]. intros E P. specialize (I1 P). lia.
      * apply I2; [lia|exact Hl].
Qed.

Lemma next_frequent_spec h index n :
  Z.of_nat (List.length (bins h)) = nbins h -> nbins h < 2 ^ 32 ->
  Forall is_uint64 (bins h) -> is_uint64 n -> 0 <= index < 2 ^ 32 - 1 ->
  let '(found, j, c) := histogram_next_frequent h index n in
  (found = true ->
   0 <= j < nbins h /\ c = bin_count h j /\ to_visit index n j c
   /\ forall k, 0 <= k < nbins h -> to_visit index n k (bin_count h k) ->
        ~ visited_before k (bin_count h k) j c)
  /\ (found = false ->
      c = 0 /\ j = index
      /\ forall k, 0 <= k < nbins h -> ~ to_visit index n k (bin_count h k)).
Proof.
  intros Hlen Hn' Hall Hc Hi.
  assert (Hn : 0 <= nbins h < 2 ^ 32) by lia.
  unfold histogram_next_frequent.
  assert (Search : forall limit,
    0 <= limit <= UINT64_MAX ->
    (forall k, 0 <= k < nbins h ->
       (to_visit index n k (bin_count h k) <-> 0 < bin_count h k <= limit)) ->
    (n = 0 \/ limit < n) ->
    let '(found, j, c) :=
      (let '(index', n') :=
         next_count_loop (Z.to_nat (nbins h)) h 0 limit index 0 in
       (n' >? 0, index', n')) in
    (found = true ->
     0 <= j < nbins h /\ c = bin_count h j /\ to_visit index n j c
     /\ forall k, 0 <= k < nbins h -> to_visit index n k (bin_count h k) ->
          ~ visited_before k (bin_count h k) j c)
    /\ (found = false ->
        c = 0 /\ j = index
        /\ forall k, 0 <= k < nbins h -> ~ to_visit index n k (bin_count h k))).
  { intros limit Hl Cand Lim.
    pose proof (next_count_loop_spec h limit index (Z.to_nat (nbins h)) 0
                  index 0 ltac:(lia) ltac:(lia) ltac:(lia) Hall) as S.
    destruct (next_count_loop (Z.to_nat (nbins h)) h 0 limit index 0)
      as [j c]. cbn [fst snd] in S.
    destruct S as (C0 & S0 & S1 & S2).
    { split; [lia|]. split; [reflexivity|]. split; [lia|]. intros k Hk. lia. }
    rewrite Z.gtb_ltb. destruct (Z.ltb_spec 0 c) as [Pos|Zero].
    - split; [|discriminate]. intros _.
      destruct (S1 Pos) as (J & B & L).
      split; [exact J|]. split; [now symmetry|].
      split; [rewrite <- B; apply Cand; [exact J|lia]|].
      intros k Hk V. apply Cand in V; [|exact Hk].
      destruct (S2 k Hk ltac:(lia)) as [A F].
      unfold visited_before. intros [G|[E K]]; [lia|].
      specialize (F E Pos). lia.
    - split; [discriminate|]. intros _.
      assert (c = 0) by lia. subst c.
      split; [reflexivity|]. split; [now apply S0|].
      intros k Hk V. apply Cand in V; [|exact Hk].
      destruct (S2 k Hk ltac:(lia)) as [A _]. lia. }
  unfold is_uint64, UINT64_MAX in Hc.
  destruct (Z.eqb_spec n 0) as [N0|N0].
  - apply Search; [unfold UINT64_MAX; lia| |left; exact N0].
    intros k Hk. pose proof (bin_range h k Hall) as B.
    unfold is_uint64 in B. unfold to_visit. split; [lia|].
    intros [P _]. split; [exact P|left; exact N0].
  - rewrite (u32_small (index + 1)) by lia.
    destruct (Z.le_gt_cases (nbins h) (index + 1)) as [Out|In].
    + (* the first loop has no iteration *)
      replace (Z.to_nat (nbins h - (index + 1))) with O by lia.
      cbn [same_count_loop]. rewrite u64_small by lia.
      apply Search; [unfold UINT64_MAX; lia| |right; lia].
      intros k Hk. unfold to_visit, visited_before. lia.
    + pose proof (same_count_loop_spec h n
                    (Z.to_nat (nbins h - (index + 1))) (index + 1)
                    ltac:(lia) ltac:(lia) ltac:(lia)) as S.
      destruct (same_count_loop _ h (index + 1) n) as [i|].
      * destruct S as (I & B & F).
        split; [|discriminate]. intros _.
        split; [lia|]. split; [now symmetry|].
        split; [unfold to_visit, visited_before; lia|].
        intros k Hk [P [V|V]]; [contradiction|].
        unfold visited_before in *. intros [G|[E K]]; [lia|].
        apply (F k); lia.
      * rewrite u64_small by lia.
        apply Search; [unfold UINT64_MAX; lia| |right; lia].
        intros k Hk. unfold to_visit, visited_before. split.
        -- intros [P [V|[V|[V W]]]]; try lia.
           exfalso. apply (S k); [lia|]. now symmetry.
        -- intros [P L]. split; [exact P|right; left; lia].
Qed.

(** X16.  [histogram_next_frequent] steps through the non-empty bins by
    decreasing count, bins of equal count by increasing index: from the
    bin [index] of count [n] the previous call returned (or from the
    start, when [n] is 0) it returns the first bin in that order among
    those not visited yet, with its count; and it returns [false], with
    [*n] zero and [*index] as it was, exactly when no such bin is left. *)
Theorem next_frequent_is_next_in_order h index n :
  Z.of_nat (List.length (bins h)) = nbins h -> nbins h < 2 ^ 32 ->
  Forall is_uint64 (bins h) -> is_uint64 n -> 0 <= index < 2 ^ 32 - 1 ->
  let '(found, j, c) := histogram_next_frequent h index n in
  (found = true ->
   0 <= j < nbins h /\ c = bin_count h j /\ to_visit index n j c
   /\ forall k, 0 <= k < nbins h -> to_visit index n k (bin_count h k) ->
        ~ visited_before k (bin_count h k) j c)
  /\ (found = false ->
      c = 0 /\ j = index
      /\ forall k, 0 <= k < nbins h -> ~ to_visit index n k (bin_count h k)).
Proof. exact (next_frequent_spec h index n). Qed.

(** ** The largest samples *)

Lemma removelast_length {A} (l : list A) :
  l <> [] -> S (List.length (removelast l)) = List.length l.
Proof.
  intros N. destruct (exists_last N) as (l' & a & ->).
  rewrite removelast_last, length_app. cbn. lia.
Qed.

Lemma In_removelast {A} (l : list A) y : In y (removelast l) -> In y l.
Proof.
  induction l as [|a l IH]; [contradiction|].
  cbn [removelast]. destruct l as [|b l]; [contradiction|].
  intros [->|H]; [now left|]. right. now apply IH.
Qed.

Lemma descending_removelast l : descending l -> descending (removelast l).
Proof.
  induction l as [|a l IH]; [trivial|].
  intros [H1 H2]. cbn [removelast]. destruct l as [|b l]; [exact I|].
  split; [|now apply IH].
  intros y Hy. apply H1. now apply In_removelast.
Qed.


Lemma add_to_largest_loop_spec x n : forall buf,
  match add_to_largest_loop buf x n with
  | Some (Inserted buf') =>
      exists pre e rest,
        buf = pre ++ e :: rest
        /\ (forall y, In y (samples pre) -> x < y) /\ sn_sample e < x
        /\ buf' = pre ++ {| sn_sample := x; sn_n := to_n_bits n;
                            sn_sequence_index := sn_sequence_index e |}
                         :: removelast (e :: rest)
  | Some (Counted buf' o) =>
      exists pre e rest,
        buf = pre ++ e :: rest
        /\ (forall y, In y (samples pre) -> x < y) /\ sn_sample e = x
        /\ o = (to_n_bits (u64 (sn_n e + n)) <? n)
        /\ buf' = pre ++ {| sn_sample := x;
                            sn_n := if o then to_n_bits UINT64_MAX
                                    else to_n_bits (u64 (sn_n e + n));
                            sn_sequence_index := sn_sequence_index e |}
                         :: rest
  | None => forall y, In y (samples buf) -> x < y
  end.
Proof.
  induction buf as [|entry rest IH]; cbn [add_to_largest_loop].
  - intros y [].
  - rewrite Z.gtb_ltb.
    destruct (Z.ltb_spec (sn_sample entry) x) as [Gt|Le].
    + exists [], entry, rest. cbn [app samples map].
      repeat split; try reflexivity; try assumption; intros y [].
    + destruct (Z.eqb_spec x (sn_sample entry)) as [E|E].
      * destruct (to_n_bits (u64 (sn_n entry + n)) <? n) eqn:O;
          exists [], entry, rest; cbn [app samples map];
          rewrite ?O; subst x;
          repeat split; try reflexivity; try assumption; intros y [].
      * destruct (add_to_largest_loop rest x n) as [[buf'|buf' o]|].
        -- destruct IH as (pre & e & rest' & B & P & Q & R).
           exists (entry :: pre), e, rest'. subst rest buf'.
           cbn [app samples map]. repeat split; try assumption.
           intros y [<-|Hy]; [lia|now apply P].
        -- destruct IH as (pre & e & rest' & B & P & Q & O & R).
           exists (entry :: pre), e, rest'. subst rest buf'.
           cbn [app samples map]. repeat split; try assumption.
           intros y [<-|Hy]; [lia|now apply P].
        -- intros y [<-|Hy]; [lia|now apply IH].
Qed.

Lemma descending_app l1 l2 :
  descending (l1 ++ l2)
  <-> descending l1 /\ descending l2
      /\ forall a b, In a l1 -> In b l2 -> b <= a.
Proof.
  induction l1 as [|x l1 IH]; cbn [app descending].
  - split; [intros H; repeat split; [exact H|intros a b []]|tauto].
  - rewrite IH. split.
    + intros [H1 (H2 & H3 & H4)]. split; [split; [|exact H2]|split].
      * intros y Hy. apply H1. apply in_or_app. now left.
      * exact H3.
      * intros a b [<-|Ha] Hb.
        -- apply H1. apply in_or_app. now right.
        -- now apply H4.
    + intros [[H1 H2] (H3 & H4)]. split.
      * intros y Hy. apply in_app_or in Hy. destruct Hy as [Hy|Hy].
        -- now apply H1.
        -- apply H4; [now left|exact Hy].
      * split; [exact H2|]. split; [exact H3|].
        intros a b Ha Hb. apply H4; [now right|exact Hb].
Qed.

Lemma samples_app l1 l2 : samples (l1 ++ l2) = samples l1 ++ samples l2.
Proof. apply map_app. Qed.

Lemma samples_removelast l : samples (removelast l) = removelast (samples l).
Proof.
  induction l as [|a l IH]; [reflexivity|].
  cbn [removelast samples map]. destruct l as [|b l]; [reflexivity|].
  cbn [map]. f_equal. exact IH.
Qed.

Lemma last_sample buf :
  buf <> [] ->
  sn_sample (last buf cleared_entry) = last (samples buf) INT64_MIN.
Proof.
  induction buf as [|a l IH]; [contradiction|]. intros _.
  destruct l as [|b l]; [reflexivity|].
  change (sn_sample (last (b :: l) cleared_entry)
          = last (samples (b :: l)) INT64_MIN).
  apply IH. discriminate.
Qed.

Lemma In_last_or_removelast (l : list Z) y d :
  In y l -> y = last l d \/ In y (removelast l).
Proof.
  induction l as [|a l IH]; [contradiction|].
  intros [<-|H].
  - destruct l as [|b l]; [now left|]. right. now left.
  - destruct l as [|b l]; [contradiction|].
    destruct (IH H) as [E|E]; [left; exact E|right; now right].
Qed.

Lemma descending_last (l : list Z) d y :
  descending l -> In y l -> last l d <= y.
Proof.
  induction l as [|a l IH]; [contradiction|].
  intros [H1 H2] [<-|Hy].
  - destruct l as [|b l]; [cbn; lia|].
    apply H1. change (In (last (b :: l) d) (b :: l)).
    clear. revert b. induction l as [|c l IH]; intros b; [now left|].
    right. apply IH.
  - destruct l as [|b l]; [contradiction|]. now apply IH.
Qed.

Lemma nth_last {A} (l : list A) d :
  nth (List.length l - 1) l d = last l d.
Proof.
  induction l as [|a l IH]; [reflexivity|].
  destruct l as [|b l]; [reflexivity|].
  cbn [List.length] in *. replace (S (S (List.length l)) - 1)%nat
    with (S (S (List.length l) - 1)) by lia.
  exact IH.
Qed.

Lemma count_of_app pre e rest x :
  (forall y, In y (samples pre) -> x < y) -> sn_sample e = x ->
  count_of (pre ++ e :: rest) x = sn_n e.
Proof.
  intros P E. unfold count_of.
  induction pre as [|a pre IH]; cbn [app find].
  - rewrite E, Z.eqb_refl. reflexivity.
  - assert (x < sn_sample a) by (apply P; now left).
    destruct (Z.eqb_spec (sn_sample a) x); [lia|].
    apply IH. intros y Hy. apply P. now right.
Qed.

Lemma count_of_absent buf x : ~ In x (samples buf) -> count_of buf x = 0.
Proof.
  unfold count_of. induction buf as [|a l IH]; [reflexivity|].
  intros N. cbn [find].
  destruct (Z.eqb_spec (sn_sample a) x) as [E|E].
  - exfalso. apply N. left. exact E.
  - apply IH. intros H. apply N. now right.
Qed.

Lemma last_of_app {A} (l1 l2 : list A) d :
  l2 <> [] -> last (l1 ++ l2) d = last l2 d.
Proof.
  intros N. induction l1 as [|a l1 IH]; [reflexivity|].
  cbn [app]. destruct (l1 ++ l2) eqn:E.
  - apply app_eq_nil in E. destruct E as [_ E]. contradiction.
  - exact IH.
Qed.

Lemma In_last (l : list Z) d : l <> [] -> In (last l d) l.
Proof.
  induction l as [|a l IH]; [contradiction|]. intros _.
  destruct l as [|b l]; [now left|]. right. apply IH. discriminate.
Qed.

(** The 48-bit count after [entry->n += n] with its overflow test: the
    sum, saturated. *)
Lemma counted_saturates old n :
  0 <= old < 2 ^ n_bits_n -> is_uint64 n ->
  let sum := to_n_bits (u64 (old + n)) in
  (sum <? n) = (2 ^ n_bits_n <=? old + n)
  /\ (if sum <? n then to_n_bits UINT64_MAX else sum)
     = Z.min (old + n) (2 ^ n_bits_n - 1).
Proof.
  unfold is_uint64, UINT64_MAX, to_n_bits, n_bits_n. intros Ho Hn. cbv zeta.
  change ((2 ^ 64 - 1) mod 2 ^ 48) with (2 ^ 48 - 1).
  assert (S : to_n_bits (u64 (old + n)) = (old + n) mod 2 ^ 48).
  { unfold to_n_bits, n_bits_n, u64.
    destruct (Z.lt_ge_cases (old + n) (2 ^ 64)) as [L|L].
    - rewrite (Z.mod_small (old + n) (2 ^ 64)) by lia. reflexivity.
    - replace ((old + n) mod 2 ^ 64) with (old + n - 2 ^ 64)
        by (apply Z.mod_unique with (q := 1); lia).
      replace (old + n - 2 ^ 64) with (old + n + (- 2 ^ 16) * 2 ^ 48) by lia.
      apply Z.mod_add. lia. }
  unfold to_n_bits, n_bits_n in S. rewrite S.
  pose proof (Z.mod_pos_bound (old + n) (2 ^ 48) ltac:(lia)) as MB.
  destruct (Z.leb_spec (2 ^ 48) (old + n)) as [Over|Fit].
  - assert (L : (old + n) mod 2 ^ 48 < n).
    { destruct (Z.lt_ge_cases n (2 ^ 48)) as [Sm|Bg]; [|lia].
      replace ((old + n) mod 2 ^ 48) with (old + n - 2 ^ 48)
        by (apply Z.mod_unique with (q := 1); lia).
      lia. }
    apply Z.ltb_lt in L. rewrite L. split; [reflexivity|lia].
  - rewrite Z.mod_small by lia.
    destruct (Z.ltb_spec (old + n) n) as [|_]; [lia|].
    split; [reflexivity|lia].
Qed.

Lemma largest_ready_after_record h k :
  0 <= k -> largest_ready (histogram_record_largest_samples h k).
Proof.
  intros Hk. unfold largest_ready, histogram_record_largest_samples.
  cbn [largest_samples_buf n_largest_samples_buf_allocated
       threshold_for_largest set_largest].
  rewrite repeat_length. split; [lia|]. split; [|split].
  - unfold samples. rewrite map_repeat.
    induction (Z.to_nat k) as [|m IH]; [exact I|].
    cbn [repeat descending]. split; [|exact IH].
    intros y Hy. apply repeat_spec in Hy. subst y. lia.
  - apply Forall_forall. intros e He. apply repeat_spec in He. subst e.
    cbn. lia.
  - induction (Z.to_nat k) as [|m IH]; [reflexivity|].
    cbn [repeat]. destruct m; [reflexivity|exact IH].
Qed.

Lemma largest_ready_after_add h x n :
  is_uint64 n -> largest_ready h ->
  let buf := largest_samples_buf h in
  let h' := histogram_add_to_largest h x n in
  let buf' := largest_samples_buf h' in
  largest_ready h'
  /\ threshold_for_largest h <= threshold_for_largest h'
  /\ (forall y, In y (samples buf') -> y = x \/ In y (samples buf))
  /\ (forall y, In y (samples buf) -> threshold_for_largest h < y ->
        In y (samples buf'))
  /\ (threshold_for_largest h <= x -> buf <> [] ->
      In x (samples buf')
      /\ (In x (samples buf) ->
          count_of buf' x = Z.min (count_of buf x + n) (2 ^ n_bits_n - 1)
          /\ count_overflowed h'
             = (count_overflowed h
                || (2 ^ n_bits_n <=? count_of buf x + n)))
      /\ (~ In x (samples buf) ->
          count_of buf' x = to_n_bits n
          /\ count_overflowed h' = count_overflowed h)).
Proof.
  intros Hn (Len & Desc & Cnt & Thr). cbv zeta.
  pose proof (add_to_largest_loop_spec x n (largest_samples_buf h)) as S.
  unfold histogram_add_to_largest.
  destruct (add_to_largest_loop (largest_samples_buf h) x n)
    as [[buf'|buf' o]|].
  - (* a new entry *)
    destruct S as (pre & e & rest & B & P & Q & R).
    cbn [largest_samples_buf n_largest_samples_buf_allocated
         threshold_for_largest count_overflowed set_largest].
    set (e' := {| sn_sample := x; sn_n := to_n_bits n;
                  sn_sequence_index := sn_sequence_index e |}) in *.
    rewrite B in *. clear B.
    rewrite samples_app in Desc. cbn [samples map] in Desc.
    fold (samples rest) in Desc. fold (samples pre) in Desc.
    apply descending_app in Desc. destruct Desc as (D1 & [D2 D3] & D4).
    assert (LenEq : List.length buf' = List.length (pre ++ e :: rest)).
    { subst buf'. rewrite !length_app.
      pose proof (removelast_length (e :: rest) ltac:(discriminate)) as RL.
      cbn [List.length] in *. lia. }
    assert (Sm : samples buf'
                 = samples pre ++ x :: removelast (sn_sample e :: samples rest)).
    { subst buf'. rewrite samples_app. cbn [samples map].
      fold (samples (removelast (e :: rest))). rewrite samples_removelast.
      reflexivity. }
    assert (Old : forall y, In y (sn_sample e :: samples rest) -> y < x).
    { intros y [<-|Hy]; [exact Q|]. specialize (D2 y Hy). lia. }
    assert (NotIn : ~ In x (samples (pre ++ e :: rest))).
    { rewrite samples_app. intros H. apply in_app_or in H.
      destruct H as [H|H]; [specialize (P x H); lia|].
      specialize (Old x H). lia. }
    assert (Thr' :
      sn_sample (nth (Z.to_nat (n_largest_samples_buf_allocated h - 1)) buf'
                   cleared_entry)
      = last (samples buf') INT64_MIN).
    { replace (Z.to_nat (n_largest_samples_buf_allocated h - 1))
        with (List.length buf' - 1)%nat by lia.
      rewrite nth_last. apply last_sample. subst buf'.
      destruct pre; discriminate. }
    rewrite Thr'.
    assert (Desc' : descending (samples buf')).
    { rewrite Sm. apply descending_app. split; [exact D1|]. split.
      - split.
        + intros y Hy. apply In_removelast in Hy. specialize (Old y Hy). lia.
        + apply (descending_removelast (sn_sample e :: samples rest)).
          split; assumption.
      - intros a b Ha [<-|Hb]; [specialize (P a Ha); lia|].
        apply In_removelast in Hb. specialize (Old b Hb).
        specialize (P a Ha). lia. }
    assert (Sub : forall y, In y (samples buf') ->
                  y = x \/ In y (samples (pre ++ e :: rest))).
    { intros y Hy. rewrite Sm in Hy. rewrite samples_app.
      apply in_app_or in Hy. destruct Hy as [Hy|[<-|Hy]].
      - right. apply in_or_app. now left.
      - now left.
      - right. apply in_or_app. right. now apply In_removelast in Hy. }
    assert (NE : samples (pre ++ e :: rest) <> []).
    { rewrite samples_app. destruct (samples pre); discriminate. }
    assert (ThrOld : threshold_for_largest h
                     = last (samples (pre ++ e :: rest)) INT64_MIN).
    { rewrite Thr. apply last_sample. destruct pre; discriminate. }
    assert (Least : forall y, In y (samples buf') ->
                    threshold_for_largest h <= y).
    { intros y Hy. rewrite ThrOld. destruct (Sub y Hy) as [->|H].
      - assert (last (samples (pre ++ e :: rest)) INT64_MIN < x); [|lia].
        pose proof (In_last (samples (pre ++ e :: rest)) INT64_MIN NE) as IL.
        rewrite samples_app in IL at 2. apply in_app_or in IL.
        destruct IL as [IL|IL].
        + (* the last sample cannot be in [pre]: [e] comes after it *)
          rewrite samples_app in *. cbn [samples map] in *.
          fold (samples rest) in *. fold (samples pre) in *.
          rewrite last_of_app in * by discriminate.
          apply Old. apply In_last. discriminate.
        + now apply Old.
      - apply descending_last; [|exact H].
        rewrite samples_app. apply descending_app.
        split; [exact D1|]. split; [split; assumption|exact D4]. }
    split; [|split; [|split; [exact Sub|split]]].
    + unfold largest_ready.
      cbn [largest_samples_buf n_largest_samples_buf_allocated
           threshold_for_largest set_largest].
      split; [lia|]. split; [exact Desc'|]. split.
      * subst buf'. apply Forall_app in Cnt. destruct Cnt as [C1 C2].
        apply Forall_app. split; [exact C1|]. constructor.
        -- cbn [sn_n e']. unfold to_n_bits, n_bits_n.
           apply Z.mod_pos_bound. lia.
        -- apply Forall_forall. intros a Ha.
           rewrite Forall_forall in C2. apply C2.
           now apply In_removelast.
      * symmetry. apply last_sample. subst buf'. destruct pre; discriminate.
    + apply Least. apply In_last. rewrite Sm.
      destruct (samples pre); discriminate.
    + intros y Hy Gt. rewrite Sm. rewrite samples_app in Hy.
      apply in_app_or in Hy. apply in_or_app.
      destruct Hy as [Hy|Hy]; [now left|]. right. right.
      cbn [samples map] in Hy. fold (samples rest) in Hy.
      destruct (In_last_or_removelast _ y INT64_MIN Hy) as [E|E];
        [|exact E].
      exfalso. rewrite ThrOld in Gt.
      rewrite samples_app in Gt. cbn [samples map] in Gt.
      fold (samples rest) in Gt. rewrite last_of_app in Gt by discriminate.
      lia.
    + intros _ _. split; [|split].
      * rewrite Sm. apply in_or_app. right. now left.
      * intros H. contradiction.
      * intros _. split; [|reflexivity]. subst buf'.
        apply (count_of_app pre e'); [exact P|reflexivity].
  - (* an entry counted up *)
    destruct S as (pre & e & rest & B & P & Q & O & R).
    cbn [largest_samples_buf n_largest_samples_buf_allocated
         threshold_for_largest count_overflowed set_largest].
    rewrite B in *. clear B.
    apply Forall_app in Cnt. destruct Cnt as [C1 C2].
    inversion C2 as [|? ? Ce C3]; subst.
    destruct (counted_saturates (sn_n e) n Ce Hn) as [Ov Sat].
    cbv zeta in Ov, Sat.
    set (e' := {| sn_sample := sn_sample e;
                  sn_n := if to_n_bits (u64 (sn_n e + n)) <? n
                          then to_n_bits UINT64_MAX
                          else to_n_bits (u64 (sn_n e + n));
                  sn_sequence_index := sn_sequence_index e |}).
    assert (Sm : samples (pre ++ e' :: rest) = samples (pre ++ e :: rest)).
    { rewrite !samples_app. reflexivity. }
    assert (InX : In (sn_sample e) (samples (pre ++ e :: rest))).
    { rewrite samples_app. apply in_or_app. right. now left. }
    split; [|split; [lia|split; [|split]]].
    + unfold largest_ready.
      cbn [largest_samples_buf n_largest_samples_buf_allocated
           threshold_for_largest set_largest].
      split; [rewrite <- Len, !length_app; reflexivity|].
      split; [rewrite Sm; exact Desc|]. split.
      * apply Forall_app. split; [exact C1|]. constructor; [|exact C3].
        cbn [sn_n e']. rewrite Sat.
        unfold n_bits_n, is_uint64, UINT64_MAX in *. lia.
      * rewrite Thr.
        rewrite !last_sample by (destruct pre; discriminate).
        now rewrite Sm.
    + intros y Hy. right. now rewrite <- Sm.
    + intros y Hy _. now rewrite Sm.
    + intros _ _. split; [rewrite Sm; exact InX|]. split.
      * intros _.
        rewrite (count_of_app pre e' rest) by (trivial || reflexivity).
        rewrite (count_of_app pre e rest) by (trivial || reflexivity).
        cbn [sn_n e']. rewrite Sat, Ov. split; reflexivity.
      * intros N. contradiction.
  - (* every sample kept is larger *)
    split; [repeat split; assumption|]. split; [lia|].
    split; [intros y Hy; now right|]. split; [intros y Hy _; exact Hy|].
    intros Ge NE. exfalso.
    assert (NE' : samples (largest_samples_buf h) <> []).
    { destruct (largest_samples_buf h); [contradiction|discriminate]. }
    pose proof (In_last _ INT64_MIN NE') as IL.
    rewrite <- last_sample, <- Thr in IL by exact NE.
    specialize (S _ IL). lia.
Qed.

(** X17.  The buffer of the largest samples: after
    [histogram_record_largest_samples] and after every
    [histogram_add_to_largest] it has the length allocated, its samples
    are in descending order and [threshold_for_largest] is the least of
    them, so the threshold never falls.  A call with a sample at or above
    the threshold leaves that sample in the buffer: already there, its
    48-bit count is added to and saturates, raising [count_overflowed];
    new, it is inserted with its count cut to 48 bits and the least
    sample falls out.  No other sample appears, and every sample above the
    old threshold stays. *)
Theorem largest_samples_stay_sorted h k x n :
  0 <= k -> is_uint64 n ->
  largest_ready (histogram_record_largest_samples h k)
  /\ (largest_ready h ->
      let buf := largest_samples_buf h in
      let h' := histogram_add_to_largest h x n in
      let buf' := largest_samples_buf h' in
      largest_ready h'
      /\ threshold_for_largest h <= threshold_for_largest h'
      /\ (forall y, In y (samples buf') -> y = x \/ In y (samples buf))
      /\ (forall y, In y (samples buf) -> threshold_for_largest h < y ->
            In y (samples buf'))
      /\ (threshold_for_largest h <= x -> buf <> [] ->
          In x (samples buf')
          /\ (In x (samples buf) ->
              count_of buf' x
              = Z.min (count_of buf x + n) (2 ^ n_bits_n - 1)
              /\ count_overflowed h'
                 = (count_overflowed h
                    || (2 ^ n_bits_n <=? count_of buf x + n)))
          /\ (~ In x (samples buf) ->
              count_of buf' x = to_n_bits n
              /\ count_overflowed h' = count_overflowed h))).
Proof.
  intros Hk Hn. split; [now apply largest_ready_after_record|].
  intros R. now apply largest_ready_after_add.
Qed.

(** ** From [histogram_init] on *)

Lemma total_repeat_zero k : total (repeat 0 k) = 0.
Proof. induction k as [|k IH]; cbn; [reflexivity|exact IH]. Qed.

Lemma init_ready nb lo bw buf nbuf :
  3 <= nb < 2 ^ 32 -> is_int64 lo -> 0 < bw <= UINT64_MAX ->
  bins_ready (histogram_init nb lo bw buf nbuf).
Proof.
  intros Hb Hl Hw. unfold bins_ready, histogram_init.
  cbn [low binwidth nbins bins].
  split; [exact Hl|]. split; [exact Hw|]. split; [exact Hb|]. split.
  - rewrite repeat_length. lia.
  - apply Forall_forall. intros y Hy. apply repeat_spec in Hy. subst y.
    unfold is_uint64, UINT64_MAX. lia.
Qed.

Lemma nth_le_total l : forall i,
  Forall is_uint64 l -> 0 <= nth i l 0 <= total l.
Proof.
  induction l as [|y l IH]; intros i F.
  - destruct i; cbn; lia.
  - inversion F as [|? ? Hy F']; subst.
    assert (T : 0 <= total l).
    { specialize (IH 0%nat F'). lia. }
    unfold is_uint64 in Hy. destruct i as [|i]; cbn [nth total fold_right].
    + fold (total l). lia.
    + fold (total l). specialize (IH i F'). lia.
Qed.

Lemma add_to_bins_total l : forall h,
  Forall (fun xn => is_int64 (fst xn) /\ is_uint64 (snd xn)) l ->
  bins_ready h -> count_overflowed h = false ->
  total (bins h) + count_sum l <= UINT64_MAX ->
  let h' := add_to_bins h l in
  bins_ready h' /\ count_overflowed h' = false
  /\ total (bins h') = total (bins h) + count_sum l.
Proof.
  induction l as [|[x n] l IH]; intros h F R O S; cbv zeta.
  - cbn. split; [exact R|]. split; [exact O|]. lia.
  - inversion F as [|? ? [Hx Hn] F']; subst. cbn [fst snd] in Hx, Hn.
    cbn [count_sum fold_right snd] in S |- *. fold (count_sum l) in S |- *.
    assert (C0 : 0 <= count_sum l).
    { clear - F'. induction l as [|[y m] l IH]; cbn; [lia|].
      inversion F' as [|? ? [_ Hm] F'']; subst. cbn [snd] in Hm.
      unfold is_uint64 in Hm. specialize (IH F''). unfold count_sum in IH.
      lia. }
    destruct (add_to_bin_facts h x n R Hx Hn)
      as (R' & _ & _ & O' & T' & _).
    cbv zeta in R', O', T'.
    pose proof (nth_le_total (bins h)
                  (Z.to_nat (histogram_bin_index h x))
                  ltac:(destruct R as (_ & _ & _ & _ & A); exact A)) as B.
    assert (NoOv : (UINT64_MAX <? nth (Z.to_nat (histogram_bin_index h x))
                                    (bins h) 0 + n) = false).
    { apply Z.ltb_ge. unfold is_uint64 in Hn. lia. }
    rewrite NoOv, O in O'. cbn [orb] in O'.
    specialize (T' NoOv).
    unfold add_to_bins. cbn [fold_left fst snd].
    fold (add_to_bins (histogram_add_to_bin h x n) l).
    destruct (IH (histogram_add_to_bin h x n) F' R' O' ltac:(lia))
      as (R2 & O2 & T2).
    cbv zeta in R2, O2, T2.
    split; [exact R2|]. split; [exact O2|]. lia.
Qed.

(** X24.  [histogram_init] leaves a histogram ready for
    [histogram_add_to_bin], with every bin at zero; and as long as the
    counts added fit in 64 bits together, the bins sum to the number of
    samples added and [count_overflowed] stays down. *)
Theorem bins_count_every_sample nb lo bw buf nbuf l :
  3 <= nb < 2 ^ 32 -> is_int64 lo -> 0 < bw <= UINT64_MAX ->
  Forall (fun xn => is_int64 (fst xn) /\ is_uint64 (snd xn)) l ->
  count_sum l <= UINT64_MAX ->
  let h := histogram_init nb lo bw buf nbuf in
  let h' := add_to_bins h l in
  bins_ready h /\ total (bins h) = 0
  /\ bins_ready h' /\ count_overflowed h' = false
  /\ total (bins h') = count_sum l.
Proof.
  intros Hb Hl Hw F S h h'.
  pose proof (init_ready nb lo bw buf nbuf Hb Hl Hw) as R.
  assert (T : total (bins h) = 0) by apply total_repeat_zero.
  destruct (add_to_bins_total l h F R eq_refl ltac:(lia))
    as (R' & O' & T').
  cbv zeta in R', O', T'.
  split; [exact R|]. split; [exact T|]. split; [exact R'|].
  split; [exact O'|]. subst h'. rewrite T'. lia.
Qed.

(** ** Instances of the further properties *)

Lemma consume_word_matches_exactly_witness :
  ascii_word (bytes "inf")
  /\ snd (datastream_consume_word status0 (stream_of "info") (bytes "inf"))
     = {| ptr := 3; window := bytes "o" |}
  /\ fst (datastream_consume_word status0 (stream_of "info") (bytes "inf"))
     = status0.
Proof.
  assert (A : ascii_word (bytes "inf")).
  { unfold ascii_word. change (bytes "inf") with [105; 110; 102].
    repeat constructor; lia. }
  split; [exact A|].
  pose proof (consume_word_matches_exactly status0 (stream_of "info")
                (bytes "inf") A) as H.
  cbv zeta in H. destruct H as (S & _ & K).
  split; [exact S|]. apply K. reflexivity.
Defined.

Lemma leading_plus_is_ignored_witness :
  starts_unsigned (bytes "1.5")
  /\ parse_double status0 {| ptr := 0; window := chr "+" :: bytes "1.5" |}
     = parse_double status0 {| ptr := 1; window := bytes "1.5" |}.
Proof.
  assert (S : starts_unsigned (bytes "1.5")).
  { vm_compute. left. split; discriminate. }
  split; [exact S|].
  exact (leading_plus_is_ignored status0 0 (bytes "1.5") S).
Defined.

Lemma inf_and_nan_words_witness :
  failed status0 = false
  /\ value (parse "-.nan") = nan_bits true
  /\ stream (parse "-.nan") = {| ptr := 5; window := [] |}.
Proof.
  assert (F : failed status0 = false) by reflexivity.
  split; [exact F|].
  pose proof (inf_and_nan_words status0 0 Minus true [] F) as H.
  cbv zeta in H. destruct H as [_ H].
  split; [exact (f_equal value H)|exact (f_equal stream H)].
Defined.

Lemma zero_literal_gives_signed_zero_witness :
  all_zero (bytes "0" ++ fraction_digits (Some (bytes "00")))
  /\ value (parse "-0.00") = zero_bits true.
Proof.
  assert (A : all_zero (bytes "0" ++ fraction_digits (Some (bytes "00"))))
    by (repeat constructor).
  split; [exact A|].
  assert (N : bytes "0" ++ fraction_digits (Some (bytes "00")) <> [])
    by (vm_compute; discriminate).
  destruct (zero_literal_gives_signed_zero status0 0 Minus (bytes "0")
              (Some (bytes "00")) [] eq_refl A N) as [H _].
  exact (f_equal value (H I)).
Defined.

Lemma normalize_is_exact_witness :
  0 < 10 < 2 ^ 64
  /\ snd (normalize 10) = Z.log2 10
  /\ (ext_value (fst (normalize 10)) (snd (normalize 10))
      == inject_Z 10)%Q.
Proof.
  assert (R : 0 < 10 < 2 ^ 64) by lia.
  split; [exact R|].
  pose proof (normalize_is_exact 10 R) as H. cbv zeta in H.
  destruct H as (A & _ & _ & B). split; [exact A|exact B].
Defined.

Lemma bin_index_in_range_and_exact_witness :
  let h := histogram_init 4 0 10 [] 0 in
  bins_ready h /\ is_int64 25
  /\ histogram_bin_index h 25 = Z.min (4 - 1) (1 + (25 - 0) / 10).
Proof.
  intros h.
  assert (R : bins_ready h).
  { unfold bins_ready, is_int64, is_uint64, INT64_MIN, INT64_MAX,
      UINT64_MAX. cbn. repeat split; try lia.
    repeat constructor; lia. }
  assert (X : is_int64 25)
    by (unfold is_int64, INT64_MIN, INT64_MAX; lia).
  split; [exact R|]. split; [exact X|].
  destruct (bin_index_in_range_and_exact h 25 R X) as (_ & _ & F & _).
  apply F. cbn. lia.
Defined.

Lemma add_to_bin_saturates_witness :
  let h := histogram_init 4 0 10 [] 0 in
  bins_ready h /\ is_int64 25 /\ is_uint64 7
  /\ nth 3 (bins (histogram_add_to_bin h 25 7)) 0
     = Z.min (0 + 7) UINT64_MAX.
Proof.
  intros h.
  assert (R : bins_ready h).
  { unfold bins_ready, is_int64, is_uint64, INT64_MIN, INT64_MAX,
      UINT64_MAX. cbn. repeat split; try lia.
    repeat constructor; lia. }
  assert (X : is_int64 25)
    by (unfold is_int64, INT64_MIN, INT64_MAX; lia).
  assert (N : is_uint64 7) by (unfold is_uint64, UINT64_MAX; lia).
  split; [exact R|]. split; [exact X|]. split; [exact N|].
  destruct (add_to_bin_saturates h 25 7 R X N) as (_ & A & _).
  exact A.
Defined.

Lemma round_to_multiple_of_is_nearest_witness :
  0 < 10 <= UINT64_MAX /\ is_uint64 25
  /\ round_to_multiple_of 10 25 mod 10 = 0
  /\ round_to_multiple_of 10 25 <= 25 + 10 / 2.
Proof.
  assert (F : 0 < 10 <= UINT64_MAX) by (unfold UINT64_MAX; lia).
  assert (X : is_uint64 25) by (unfold is_uint64, UINT64_MAX; lia).
  split; [exact F|]. split; [exact X|].
  destruct (round_to_multiple_of_is_nearest 10 25 F X)
    as (_ & _ & A & B & _).
  split; [exact A|exact B].
Defined.

Lemma round_binwidth_keeps_two_digits_witness :
  is_uint64 1234
  /\ exists r, histogram_round_binwidth 1234 = Some r
               /\ histogram_round_binwidth r = Some r.
Proof.
  assert (X : is_uint64 1234) by (unfold is_uint64, UINT64_MAX; lia).
  split; [exact X|].
  destruct (round_binwidth_keeps_two_digits 1234 X)
    as (r & A & _ & _ & _ & B).
  exists r. split; [exact A|exact B].
Defined.

Lemma integer_display_width_counts_characters_witness :
  is_int64 (-1234567) /\ 0 <= 3 <= 19
  /\ has_digits (Z.abs (-1234567)) 7
  /\ integer_display_width (-1234567) 3 = Some 10.
Proof.
  assert (X : is_int64 (-1234567))
    by (unfold is_int64, INT64_MIN, INT64_MAX; lia).
  assert (G : 0 <= 3 <= 19) by lia.
  assert (D : has_digits (Z.abs (-1234567)) 7)
    by (vm_compute; repeat split; try discriminate; intros _; discriminate).
  split; [exact X|]. split; [exact G|]. split; [exact D|].
  exact (integer_display_width_counts_characters (-1234567) 3 7 X G D).
Defined.

Lemma next_frequent_is_next_in_order_witness :
  let h := add_to_bins (histogram_init 4 0 10 [] 0)
             [(5, 5); (15, 3); (100, 5)] in
  Z.of_nat (List.length (bins h)) = nbins h /\ nbins h < 2 ^ 32
  /\ Forall is_uint64 (bins h) /\ is_uint64 5 /\ 0 <= 1 < 2 ^ 32 - 1
  /\ histogram_next_frequent h 1 5 = (true, 3, 5)
  /\ to_visit 1 5 3 5.
Proof.
  intros h.
  assert (L : Z.of_nat (List.length (bins h)) = nbins h) by reflexivity.
  assert (B : nbins h < 2 ^ 32) by (vm_compute; reflexivity).
  assert (F : Forall is_uint64 (bins h)).
  { change (bins h) with [0; 5; 3; 5].
    repeat constructor; unfold UINT64_MAX; lia. }
  assert (N : is_uint64 5) by (unfold is_uint64, UINT64_MAX; lia).
  assert (I : 0 <= 1 < 2 ^ 32 - 1) by lia.
  split; [exact L|]. split; [exact B|]. split; [exact F|].
  split; [exact N|]. split; [exact I|]. split; [reflexivity|].
  pose proof (next_frequent_is_next_in_order h 1 5 L B F N I) as H.
  change (histogram_next_frequent h 1 5) with (true, 3, 5) in H.
  cbv beta iota in H. destruct H as [H _].
  destruct (H eq_refl) as (_ & _ & T & _). exact T.
Defined.

Lemma largest_samples_stay_sorted_witness :
  0 <= 3 /\ is_uint64 1
  /\ largest_ready
       (histogram_record_largest_samples (histogram_init 4 0 10 [] 0) 3).
Proof.
  assert (K : 0 <= 3) by lia.
  assert (N : is_uint64 1) by (unfold is_uint64, UINT64_MAX; lia).
  split; [exact K|]. split; [exact N|].
  destruct (largest_samples_stay_sorted (histogram_init 4 0 10 [] 0) 3 0 1
              K N) as [R _].
  exact R.
Defined.

Lemma xorshift64_permutes_the_words_witness :
  0 <= 1 < 2 ^ 64 /\ 0 <= 2 < 2 ^ 64
  /\ (xorshift64 1 = xorshift64 2 -> 1 = 2)
  /\ 0 <= xorshift64 1 < 2 ^ 64.
Proof.
  assert (X : 0 <= 1 < 2 ^ 64) by lia.
  assert (Y : 0 <= 2 < 2 ^ 64) by lia.
  split; [exact X|]. split; [exact Y|].
  destruct (xorshift64_permutes_the_words 1 2 X Y) as (R & J & _).
  split; [exact J|exact R].
Defined.

Lemma exponent_marker_without_digits_witness :
  failed status0 = false /\ Forall is_digit (bytes "1")
  /\ ends_exponent (bytes "x")
  /\ parse "1e+x"
     = {| status := status0;
          stream := {| ptr := 3; window := bytes "x" |};
          value := value (parse "1") |}.
Proof.
  assert (F : failed status0 = false) by reflexivity.
  assert (D : Forall is_digit (bytes "1")) by digits_ok.
  assert (E : ends_exponent (bytes "x")).
  { change (bytes "x") with [120]. unfold ends_exponent, is_digit.
    change (chr "0") with 48. change (chr "9") with 57. lia. }
  split; [exact F|]. split; [exact D|]. split; [exact E|].
  assert (N : bytes "1" ++ fraction_digits None <> [])
    by (vm_compute; discriminate).
  pose proof (exponent_marker_without_digits status0 0 NoSign (bytes "1")
                None (chr "e") Plus (bytes "x") F D (Forall_nil _) N
                (or_introl eq_refl) E
                (fun K : Plus = NoSign =>
                   ltac:(discriminate K))) as H.
  cbv zeta in H. destruct H as [H _]. exact H.
Defined.

Lemma power_cascade_scales_by_ten_to_n_witness :
  0 <= 3 < 512 /\ 0 <= 0 < 2 ^ 64
  /\ (ext_value (fst (apply_powers 3 pow10_table (0, 0)%Z))
        (snd (apply_powers 3 pow10_table (0, 0)%Z))
      <= (1 + 1 / 2 ^ 60) * (ext_value 0 0 * 10 ^ 3))%Q.
Proof.
  assert (N : 0 <= 3 < 512) by lia.
  assert (M : 0 <= 0 < 2 ^ 64) by lia.
  split; [exact N|]. split; [exact M|].
  pose proof (power_cascade_scales_by_ten_to_n 3 0 0 N M) as H.
  cbv zeta in H. destruct H as [(_ & _ & U) _]. exact U.
Defined.

Lemma fraction_literal_accuracy_witness :
  Forall is_digit (bytes "0")
  /\ Forall is_digit (fraction_digits (Some (bytes "1")))
  /\ 0 < decimal_value 0 (bytes "0" ++ fraction_digits (Some (bytes "1")))
     < 2 ^ 64
  /\ len (fraction_digits (Some (bytes "1"))) <= 307
  /\ close_to (exact_value NoSign 1 (-1)) (value (parse "0.1")).
Proof.
  assert (D : Forall is_digit (bytes "0")) by digits_ok.
  assert (F : Forall is_digit (fraction_digits (Some (bytes "1"))))
    by digits_ok.
  assert (V : 0 < decimal_value 0
                    (bytes "0" ++ fraction_digits (Some (bytes "1")))
              < 2 ^ 64) by (vm_compute; split; reflexivity).
  assert (K : len (fraction_digits (Some (bytes "1"))) <= 307)
    by (vm_compute; discriminate).
  split; [exact D|]. split; [exact F|]. split; [exact V|].
  split; [exact K|].
  pose proof (fraction_literal_accuracy status0 0 NoSign (bytes "0")
                (Some (bytes "1")) [] eq_refl D F V K I) as H.
  cbv zeta in H. destruct H as (_ & _ & C). exact C.
Defined.

Lemma exponent_literal_accuracy_witness :
  Forall is_digit (bytes "6") /\ Forall is_digit (bytes "02")
  /\ Forall is_digit (bytes "23")
  /\ (10 ^ (-307) <= inject_Z 602 * 10 ^ 21)%Q
  /\ (inject_Z 602 * 10 ^ 21 <= 10 ^ 307)%Q
  /\ close_to (exact_value NoSign 602 21) (value (parse "6.02e23")).
Proof.
  assert (D : Forall is_digit (bytes "6")) by digits_ok.
  assert (F : Forall is_digit (fraction_digits (Some (bytes "02"))))
    by digits_ok.
  assert (X : Forall is_digit (bytes "23")) by digits_ok.
  assert (X1 : (10 ^ (-307) <= inject_Z 602 * 10 ^ 21)%Q)
    by (vm_compute; discriminate).
  assert (X2 : (inject_Z 602 * 10 ^ 21 <= 10 ^ 307)%Q)
    by (vm_compute; discriminate).
  split; [exact D|]. split; [exact F|]. split; [exact X|].
  split; [exact X1|]. split; [exact X2|].
  pose proof (exponent_literal_accuracy status0 0 NoSign (bytes "6")
                (Some (bytes "02")) (chr "e") NoSign (bytes "23") []
                eq_refl D F X ltac:(discriminate) (or_introl eq_refl)
                ltac:(vm_compute; split; reflexivity)
                ltac:(vm_compute; reflexivity) I X1 X2) as H.
  cbv zeta in H. destruct H as (_ & _ & C). exact C.
Defined.

Lemma bins_count_every_sample_witness :
  let l := [(5, 5); (15, 3); (100, 5)] in
  Forall (fun xn => is_int64 (fst xn) /\ is_uint64 (snd xn)) l
  /\ count_sum l <= UINT64_MAX
  /\ total (bins (add_to_bins (histogram_init 4 0 10 [] 0) l)) = 13.
Proof.
  intros l.
  assert (F : Forall (fun xn => is_int64 (fst xn) /\ is_uint64 (snd xn)) l).
  { repeat constructor;
      unfold is_int64, is_uint64, INT64_MIN, INT64_MAX, UINT64_MAX;
      cbn [fst snd]; lia. }
  assert (S : count_sum l <= UINT64_MAX)
    by (vm_compute; discriminate).
  split; [exact F|]. split; [exact S|].
  assert (B : 3 <= 4 < 2 ^ 32) by lia.
  assert (L : is_int64 0) by (unfold is_int64, INT64_MIN, INT64_MAX; lia).
  assert (W : 0 < 10 <= UINT64_MAX) by (unfold UINT64_MAX; lia).
  destruct (bins_count_every_sample 4 0 10 [] 0 l B L W F S)
    as (_ & _ & _ & _ & T).
  exact T.
Defined.
